(** * Wave Function Collapse plug-in for Excalibur: a shallow embedding

    The development follows [exWFC.ts] (classes [WFC] and [Random]); the older
    [ExcaliburWFCPlugin.ts] carries the same algorithm line for line.

    Conventions of the embedding.
    - A JavaScript [number] that the algorithm manipulates is an integer-valued
      IEEE-754 double; it is a [Z], and every arithmetic result is passed
      through [fl], the rounding to 53 significant bits.
    - [undefined] is [None].
    - An object reference to a tile is the position of the tile in
      [this.tiles]: every position holds an object of its own.
    - A method is a function of the receiver's state that returns the state
      after the call together with either a value or the thrown error. *)

From Stdlib Require Import ZArith String Ascii List Bool Lia QArith Qround.
From stdpp Require Import base option list strings.

Local Open Scope string_scope.
Local Open Scope list_scope.
Local Open Scope nat_scope.

(** ** IEEE-754 doubles restricted to integers *)

Module Double.

(** Nearest multiple of [2^e] to [x >= 0], ties to the even quotient. *)
Definition round_half_even (x e : Z) : Z :=
  let q := (x / 2 ^ e)%Z in
  let r := (x mod 2 ^ e)%Z in
  let half := (2 ^ (e - 1))%Z in
  let q' := if (r <? half)%Z then q
            else if (half <? r)%Z then (q + 1)%Z
            else if Z.even q then q else (q + 1)%Z in
  (q' * 2 ^ e)%Z.

(** The double nearest to the integer [x]: integers below [2^53] in
    magnitude are exact, larger ones keep 53 significant bits. *)
Definition fl (x : Z) : Z :=
  let n := Z.abs x in
  if (n <? 2 ^ 53)%Z then x
  else (Z.sgn x * round_half_even n (Z.log2 n - 52))%Z.

(** [Math.floor(rnd * n)] where the double [rnd] is [r / 2^32]: scaling by a
    power of two commutes with rounding. *)
Definition floor_mul (r : Z) (n : nat) : Z :=
  (fl (r * Z.of_nat n) / 2 ^ 32)%Z.

End Double.

(** ** JavaScript arrays and objects *)

(** [a[i]] for a possibly negative or out-of-range index. *)
Definition js_get {A} (a : list A) (i : Z) : option A :=
  if (i <? 0)%Z then None else a !! Z.to_nat i.

(** [a[i] = x] on an array that may have holes ([None]): an index past the
    end extends the array and leaves holes in between. *)
Definition js_set {A} (i : nat) (x : A) (a : list (option A)) : list (option A) :=
  if i <? length a then <[i := Some x]> a
  else a ++ replicate (i - length a) None ++ [Some x].

(** A plain object used as a record keyed by strings: the association list
    of its own properties in [Object.keys] order (array-index keys in
    ascending order first, then the other keys in creation order). *)
Definition Obj (V : Type) : Type := list (string * V).

(** The properties that every plain object inherits from
    [Object.prototype]. For these names [o[k]] is not [undefined] when [o]
    has no property [k] of its own: it is a function, or, for "__proto__",
    the prototype object. *)
Definition Object_prototype : list string :=
  ["constructor"; "hasOwnProperty"; "isPrototypeOf"; "propertyIsEnumerable";
   "toLocaleString"; "toString"; "valueOf"; "__proto__";
   "__defineGetter__"; "__defineSetter__"; "__lookupGetter__"; "__lookupSetter__"].

Definition inherited (k : string) : bool := existsb (String.eqb k) Object_prototype.

Definition is_digit (c : ascii) : bool :=
  let n := nat_of_ascii c in (48 <=? n) && (n <=? 57).

Fixpoint digits_value (s : string) (acc : N) : option N :=
  match s with
  | EmptyString => Some acc
  | String c s' =>
      if is_digit c
      then digits_value s' (10 * acc + N.of_nat (nat_of_ascii c - 48))%N
      else None
  end.

(** The canonical numeric strings below [2^32 - 1]. *)
Definition array_index (k : string) : option N :=
  match k with
  | EmptyString => None
  | String c rest =>
      if Ascii.eqb c "0"%char
      then (if String.eqb rest "" then Some 0%N else None)
      else match digits_value k 0 with
           | Some n => if (n <? 2 ^ 32 - 1)%N then Some n else None
           | None => None
           end
  end.

(** The own property [k] of [o]. *)
Fixpoint obj_get {V} (o : Obj V) (k : string) : option V :=
  match o with
  | [] => None
  | (k', v) :: o' => if String.eqb k' k then Some v else obj_get o' k
  end.

Definition obj_keys {V} (o : Obj V) : list string := map fst o.

Fixpoint obj_replace {V} (k : string) (v : V) (o : Obj V) : Obj V :=
  match o with
  | [] => []
  | (k', v') :: o' =>
      if String.eqb k' k then (k', v) :: o' else (k', v') :: obj_replace k v o'
  end.

(** Position of a new array-index key [n]: before the first key that is not
    an array index or is a larger one. *)
Fixpoint obj_insert_index {V} (n : N) (k : string) (v : V) (o : Obj V) : Obj V :=
  match o with
  | [] => [(k, v)]
  | (k', v') :: o' =>
      match array_index k' with
      | Some n' => if (n' <? n)%N then (k', v') :: obj_insert_index n k v o'
                   else (k, v) :: o
      | None => (k, v) :: o
      end
  end.

(** [o[k] = v]: the own property is replaced or created. The name
    "__proto__" is the exception: unless [o] has such a property of its
    own, the assignment goes to the accessor that every object inherits
    and creates no property (it replaces the prototype of [o] when [v] is
    an object and does nothing otherwise; the model does not look through
    a replaced prototype). *)
Definition obj_set {V} (k : string) (v : V) (o : Obj V) : Obj V :=
  match obj_get o k with
  | Some _ => obj_replace k v o
  | None =>
      if String.eqb k "__proto__" then o
      else
        match array_index k with
        | Some n => obj_insert_index n k v o
        | None => o ++ [(k, v)]
        end
  end.

(** ** Types of the plug-in *)

Inductive Entropy : Type :=
| Fin (n : nat)
| Infinity.

Record TileData : Type := mkTile {
  index : nat;
  type : option string;
  entropy : Entropy;
  availableTiles : list string
}.

Record Rule : Type := mkRule {
  up : list string;
  down : list string;
  left : list string;
  right : list string
}.

Definition WeightData : Type := Z.

Inductive BufferState : Type :=
| collapsed
| ready
| collapsing
| unknown
| defaults.

(** ** class Random *)

Record Random : Type := mkRandom { seed : Z }.

(** Linear congruential generator. The returned double [this.seed / m] is
    represented by its numerator [this.seed] over [m = 2^32]; [%] is the
    remainder that takes the sign of the dividend. *)
Definition getRandom (r : Random) : Z * Random :=
  let a := 1664525%Z in
  let c := 1013904223%Z in
  let m := (2 ^ 32)%Z in
  let seed' := Z.rem (Double.fl (Double.fl (a * seed r) + c)) m in
  (seed', {| seed := seed' |}).

Definition pickOne {A} (set : list A) (r : Random) : option A * Random :=
  let '(rnd, r') := getRandom r in
  let choice := Double.floor_mul rnd (length set) in
  (js_get set choice, r').

(** The expansion loop of [pickOneWeighted]: [wieghting.length] is the
    property named "length" of the weight record. For an item without a
    weight of its own that is named like an inherited property,
    [wieghting[item]] is a function or an object: it is not [undefined],
    and [i < wieghting[item]] compares with [NaN], so nothing is pushed. *)
Definition weighted_items (wieghting : Obj WeightData) (item : string) : list string :=
  match obj_get wieghting "length", obj_get wieghting item with
  | Some 0%Z, _ => [item]
  | _, None => if inherited item then [] else [item]
  | _, Some w => replicate (Z.to_nat w) item
  end.

Definition pickOneWeighted (set : list string) (wieghting : Obj WeightData)
    (r : Random) : option string * Random :=
  let newSet := flat_map (weighted_items wieghting) set in
  let '(rnd, r') := getRandom r in
  let choice := Double.floor_mul rnd (length newSet) in
  (js_get newSet choice, r').

(** [getRandomFloat(min, max)] on integer-valued arguments. The double
    [rnd * max + min] is represented, like [rnd] itself, by its numerator
    over [2^32]; the product and the sum are rounded one after the other. *)
Definition getRandomFloat (min max : Z) (r : Random) : Z * Random :=
  let '(rnd, r') := getRandom r in
  (Double.fl (Double.fl (rnd * max) + min * 2 ^ 32), r').

(** [getRandomInteger(min, max)] on integer-valued arguments: the floor of
    the same double. *)
Definition getRandomInteger (min max : Z) (r : Random) : Z * Random :=
  let '(rnd, r') := getRandom r in
  ((Double.fl (Double.fl (rnd * max) + min * 2 ^ 32) / 2 ^ 32)%Z, r').

(** ** class WFC: state *)

Record WFC : Type := mkWFC {
  width : nat;
  rnd : Random;
  height : nat;
  tiles : list (option TileData);
  rules : Obj Rule;
  numTiles : nat;
  bufferstate : BufferState;
  weighting : Obj WeightData;
  startWithRandom : bool
}.

Definition set_rnd (r : Random) (st : WFC) : WFC :=
  mkWFC (width st) r (height st) (tiles st) (rules st) (numTiles st)
        (bufferstate st) (weighting st) (startWithRandom st).

Definition set_tiles (ts : list (option TileData)) (st : WFC) : WFC :=
  mkWFC (width st) (rnd st) (height st) ts (rules st) (numTiles st)
        (bufferstate st) (weighting st) (startWithRandom st).

Definition set_rules (rs : Obj Rule) (st : WFC) : WFC :=
  mkWFC (width st) (rnd st) (height st) (tiles st) rs (numTiles st)
        (bufferstate st) (weighting st) (startWithRandom st).

Definition set_bufferstate (b : BufferState) (st : WFC) : WFC :=
  mkWFC (width st) (rnd st) (height st) (tiles st) (rules st) (numTiles st)
        b (weighting st) (startWithRandom st).

Definition set_weighting (ws : Obj WeightData) (st : WFC) : WFC :=
  mkWFC (width st) (rnd st) (height st) (tiles st) (rules st) (numTiles st)
        (bufferstate st) ws (startWithRandom st).

Definition set_startWithRandom (b : bool) (st : WFC) : WFC :=
  mkWFC (width st) (rnd st) (height st) (tiles st) (rules st) (numTiles st)
        (bufferstate st) (weighting st) b.

(** ** Errors and the method monad *)

Inductive Direction : Type := Up | Down | Left | Right.

(** One constructor per [throw] of the class, named after its message;
    [TypeError] is the engine's error on reading a property of [undefined]. *)
Inductive Error : Type :=
| TypeError
| InvalidState (s : BufferState)   (* tile data is invalid currently in this state *)
| ErrorChoosingInitialTile         (* Error choosing initial starting tile *)
| ErrorChoosingTile                (* Error choosing tile *)
| NoValidTilesRemaining            (* no valid tiles remaining *)
| UnableToSelectNextTile           (* unable to select next tile *)
| ThereAreNoValidTiles             (* there are no valid tiles remaining; payload: this *)
| FailedToCollapseTile             (* failed to collapse tile *)
| CorruptTileData                  (* corrupt tile data, invalid undefined type found *)
| BrokenLevel (d : Direction)      (* broken level, can't get entropy of <d> tile *)
| InvalidTileTypeFound             (* invalid tile type found *)
| BrokenPlot                       (* Broken Plot, no availble neighbor tiles *)
| Rethrown (e : Error).            (* new Error(error) *)

Inductive Result (A : Type) : Type :=
| Ok (a : A)
| Throw (e : Error).
Arguments Ok {A} a.
Arguments Throw {A} e.

(** A method body: the state it leaves is kept also when it throws. *)
Definition M (A : Type) : Type := WFC -> Result A * WFC.

Definition ret {A} (a : A) : M A := fun st => (Ok a, st).
Definition throw {A} (e : Error) : M A := fun st => (Throw e, st).
Definition bind {A B} (m : M A) (k : A -> M B) : M B :=
  fun st => match m st with
            | (Ok a, st') => k a st'
            | (Throw e, st') => (Throw e, st')
            end.
Definition try_catch {A} (m : M A) (handler : Error -> M A) : M A :=
  fun st => match m st with
            | (Ok a, st') => (Ok a, st')
            | (Throw e, st') => handler e st'
            end.
Definition gets {A} (f : WFC -> A) : M A := fun st => (Ok (f st), st).
Definition modify (f : WFC -> WFC) : M unit := fun st => (Ok tt, f st).

Notation "'let*' x ':=' m 'in' k" := (bind m (fun x => k))
  (at level 10, x name, m at level 100, k at level 200).
Notation "m ';;' k" := (bind m (fun _ => k))
  (at level 100, k at level 200, right associativity).

(** [this.tiles[i]] followed by a property access. *)
Definition tile_at (i : nat) : M TileData :=
  fun st => match tiles st !! i with
            | Some (Some t) => (Ok t, st)
            | _ => (Throw TypeError, st)
            end.

(** Assignment to a property of the tile object at position [i]. *)
Definition update_tile (i : nat) (f : TileData -> TileData) : M unit :=
  let* _ := tile_at i in
  modify (fun st => set_tiles (alter (fmap f) i (tiles st)) st).

(** A call on [this.rnd]. *)
Definition with_rnd {A} (f : Random -> A * Random) : M A :=
  fun st => let '(a, r') := f (rnd st) in (Ok a, set_rnd r' st).

Definition with_type (ty : option string) (t : TileData) : TileData :=
  mkTile (index t) ty (entropy t) (availableTiles t).
Definition with_entropy (e : Entropy) (t : TileData) : TileData :=
  mkTile (index t) (type t) e (availableTiles t).
Definition with_availableTiles (l : list string) (t : TileData) : TileData :=
  mkTile (index t) (type t) (entropy t) l.

Definition is_zero (e : Entropy) : bool :=
  match e with Fin 0 => true | _ => false end.

(** Truthiness of an entropy value: [0] is falsy, [Infinity] is not. *)
Definition truthy (e : Entropy) : bool := negb (is_zero e).

Definition Entropy_eqb (a b : Entropy) : bool :=
  match a, b with
  | Fin n, Fin m => n =? m
  | Infinity, Infinity => true
  | _, _ => false
  end.

Definition Entropy_min (a b : Entropy) : Entropy :=
  match a, b with
  | Fin n, Fin m => Fin (Nat.min n m)
  | Fin n, Infinity => Fin n
  | Infinity, b => b
  end.

(** [Math.min(...l)]: [Infinity] on the empty list. *)
Definition Math_min (l : list Entropy) : Entropy := fold_right Entropy_min Infinity l.

(** The tiles of the array, every one with the reference to it; holes are
    skipped as [filter], [forEach], [reduce] and [some] skip them. *)
Definition entries (ts : list (option TileData)) : list (nat * TileData) :=
  omap (fun '(i, o) => pair i <$> o) (imap pair ts).

(** ** class WFC: construction and configuration *)

Record WFCoptions : Type := mkOptions {
  levelsize_width : nat;
  levelsize_height : nat;
  options_seed : option Z
}.

Definition blank_tile (i : nat) : option TileData :=
  Some (mkTile i (Some "") Infinity []).

(** The loop that fills [this.tiles] with [numTiles] blank entries. *)
Definition blank_tiles (n : nat) : list (option TileData) := map blank_tile (seq 0 n).

(** [new WFC(options)]; [now] is the value of [Date.now()]. A seed that is
    absent or [0] is falsy and gives way to the clock. *)
Definition new_WFC (options : WFCoptions) (now : Z) : WFC :=
  let w := levelsize_width options in
  let h := levelsize_height options in
  let r := match options_seed options with
           | Some s => if (s =? 0)%Z then mkRandom now else mkRandom s
           | None => mkRandom now
           end in
  mkWFC w r h (blank_tiles (w * h)) [] (w * h) unknown [] true.

Definition resetLevel (st : WFC) : WFC :=
  mkWFC (width st) (rnd st) (height st) (blank_tiles (numTiles st)) []
        (numTiles st) unknown [] (startWithRandom st).

Definition setTileData (tile : TileData) (i : nat) (setRandomStart : bool) (st : WFC) : WFC :=
  set_startWithRandom setRandomStart
    (set_tiles (js_set i (mkTile i (type tile) Infinity []) (tiles st)) st).

(** An element of the collection handed to [setTiles]. Its declared shape
    is [{ index, tile }]; the callback reads it as a [TileData], so what
    counts is the element's own [index] and [type] properties. *)
Record TileInput : Type := mkInput {
  input_index : nat;
  input_type : option string;
  input_tile : TileData
}.

Definition setTiles_callback (ts : list (option TileData)) (inputTileData : TileInput)
    : list (option TileData) :=
  if input_index inputTileData =? 0 then ts
  else js_set (input_index inputTileData)
              (mkTile (input_index inputTileData) (input_type inputTileData) Infinity [])
              ts.

Definition setTiles (inputs : list TileInput) (setRandomStart : bool) (st : WFC) : WFC :=
  set_startWithRandom setRandomStart
    (set_tiles (fold_left setTiles_callback inputs (tiles st)) st).

Definition resetTileData (st : WFC) : WFC :=
  set_startWithRandom true (set_tiles (blank_tiles (numTiles st)) st).

Definition setRule (ty : string) (rule : Rule) (st : WFC) : WFC :=
  set_rules (obj_set ty rule (rules st)) st.

(** [setRules] with an array of [{ type, rule }] ... *)
Definition setRules_array (rs : list (string * Rule)) (st : WFC) : WFC :=
  fold_left (fun s r => setRule (fst r) (snd r) s) rs st.

(** ... and with a record, copied through JSON. *)
Definition setRules_record (rs : Obj Rule) (st : WFC) : WFC := set_rules rs st.

Definition resetRules (st : WFC) : WFC := set_rules [] st.

Definition setWeight (ty : string) (weight : WeightData) (st : WFC) : WFC :=
  set_weighting (obj_set ty weight (weighting st)) st.

Definition setWeights (weights : list (string * WeightData)) (st : WFC) : WFC :=
  fold_left (fun s w => setWeight (fst w) (snd w) s) weights st.

Definition resetWeights (st : WFC) : WFC := set_weighting [] st.

(** ** class WFC: the entropy of a cell *)

(** The four neighbour indices, [None] for the source's [-1]. When [width]
    is [0] the remainder is [NaN] and both column tests are false. *)
Definition upTileIndex (w i : nat) : option nat :=
  if i <? w then None else Some (i - w).
Definition downTileIndex (w len i : nat) : option nat :=
  if len <=? i + w then None else Some (i + w).
Definition rightTileIndex (w i : nat) : option nat :=
  if w =? 0 then Some (i + 1)
  else if i mod w =? w - 1 then None else Some (i + 1).
Definition leftTileIndex (w i : nat) : option nat :=
  if w =? 0 then (if i =? 0 then None else Some (i - 1))
  else if i mod w =? 0 then None else Some (i - 1).

(** One of the four blocks "grab neighbor tiles allowed": the list stays
    empty unless the neighbour exists and is resolved. For a type that the
    rules do not declare, [this.rules[type]] is [undefined] or an inherited
    property without such a list: reading the list and spreading it throws
    a TypeError either way. *)
Definition neighborAvailableTiles (n : option nat) (side : Rule -> list string)
    : M (list string) :=
  match n with
  | None => ret []
  | Some j =>
      let* t := tile_at j in
      if is_zero (entropy t) then
        match type t with
        | None => throw InvalidTileTypeFound
        | Some ty =>
            let* rs := gets rules in
            match obj_get rs ty with
            | None => throw TypeError
            | Some rule => ret (side rule)
            end
        end
      else ret []
  end.

Definition includes (arr : list string) (x : string) : bool :=
  existsb (String.eqb x) arr.

Definition nonempty {A} (l : list A) : bool := negb (length l =? 0).

Definition _getEntropy (i : nat) : M Entropy :=
  let* t := tile_at i in
  if is_zero (entropy t) then ret (Fin 0)
  else
    let* w := gets width in
    let* len := gets (fun st => length (tiles st)) in
    let* upTileAvailableTiles := neighborAvailableTiles (upTileIndex w i) down in
    let* downTileAvailableTiles := neighborAvailableTiles (downTileIndex w len i) up in
    let* leftTileAvailableTiles := neighborAvailableTiles (leftTileIndex w i) right in
    let* rightTileAvailableTiles := neighborAvailableTiles (rightTileIndex w i) left in
    let testArray :=
      List.filter nonempty
        [upTileAvailableTiles; downTileAvailableTiles;
         leftTileAvailableTiles; rightTileAvailableTiles] in
    match testArray with
    | [] => ret Infinity
    | first :: _ =>
        let consolodatedArray :=
          fold_left (fun sum arr => List.filter (includes arr) sum) testArray first in
        if length consolodatedArray =? 0 then throw BrokenPlot
        else
          update_tile i (with_availableTiles consolodatedArray) ;;
          ret (Fin (length consolodatedArray))
    end.

(** ** class WFC: propagation *)

(** "get the entropies of the neighbors": [None] stands for [undefined]. *)
Definition neighborEntropy (n : option nat) (d : Direction) : M (option Entropy) :=
  match n with
  | None => ret None
  | Some j =>
      try_catch (let* e := _getEntropy j in ret (Some e))
                (fun _ => throw (BrokenLevel d))
  end.

(** "update the entropies": the statement for the left neighbour, which
    tests the stored entropy as well ... *)
Definition set_left_entropy (n : option nat) (e : option Entropy) : M unit :=
  match n, e with
  | Some j, Some e =>
      if truthy e then
        let* t := tile_at j in
        if is_zero (entropy t) then ret tt else update_tile j (with_entropy e)
      else ret tt
  | _, _ => ret tt
  end.

(** ... and the statement for the other three. *)
Definition set_entropy (n : option nat) (e : option Entropy) : M unit :=
  match n, e with
  | Some j, Some e => if truthy e then update_tile j (with_entropy e) else ret tt
  | _, _ => ret tt
  end.

Definition _setEntropyOfSurroundingTiles (i : nat) : M unit :=
  let* w := gets width in
  let* len := gets (fun st => length (tiles st)) in
  let upTileIndex := upTileIndex w i in
  let downTileIndex := downTileIndex w len i in
  let rightTileIndex := rightTileIndex w i in
  let leftTileIndex := leftTileIndex w i in
  let* upTileEntropy := neighborEntropy upTileIndex Up in
  let* downTileEntropy := neighborEntropy downTileIndex Down in
  let* leftTileEntropy := neighborEntropy leftTileIndex Left in
  let* rightTileEntropy := neighborEntropy rightTileIndex Right in
  set_left_entropy leftTileIndex leftTileEntropy ;;
  set_entropy rightTileIndex rightTileEntropy ;;
  set_entropy upTileIndex upTileEntropy ;;
  set_entropy downTileIndex downTileEntropy.

(** ** class WFC: the collapse loop *)

Definition unresolved (e : nat * TileData) : bool := negb (is_zero (entropy (snd e))).

Definition _getNumberOfRemainingTilesToCollapse (st : WFC) : nat :=
  length (List.filter unresolved (entries (tiles st))).

(** The body of the [forEach] callback over the positions still to visit. *)
Fixpoint prepare_loop (positions : list nat) : M unit :=
  match positions with
  | [] => ret tt
  | i :: rest =>
      let* ts := gets tiles in
      match ts !! i with
      | Some (Some tile) =>
          if is_zero (entropy tile) then prepare_loop rest
          else
            let* e := try_catch (_getEntropy i) (fun error => throw (Rethrown error)) in
            update_tile i (with_entropy e) ;;
            prepare_loop rest
      | _ => prepare_loop rest
      end
  end.

Definition _prepareTileDataForCollapsing : M unit :=
  let* len := gets (fun st => length (tiles st)) in
  prepare_loop (seq 0 len).

Definition _isDataReady (st : WFC) : BufferState :=
  if length (tiles st) =? 0 then unknown
  else if length (obj_keys (rules st)) =? 0 then unknown
  else ready.

(** References to the tiles of minimal non-zero entropy. *)
Definition _getListofTilesWithLowestEntropy (st : WFC) : list nat :=
  let filteredArrayNoZeroes := List.filter unresolved (entries (tiles st)) in
  let minEntropy := Math_min (map (fun e => entropy (snd e)) filteredArrayNoZeroes) in
  let lowestEntropyObjects :=
    List.filter (fun e => Entropy_eqb (entropy (snd e)) minEntropy) (entries (tiles st)) in
  map fst lowestEntropyObjects.

Inductive TryEnd : Type := Broke | Passed | Caught.

(** The [try] block of the attempt loop on the tile referred to by [cur]. *)
Definition attempt_try (cur retries : nat) (choices : list string) : M TryEnd :=
  if retries <=? 0 then ret Broke
  else
    let* currentTileObject := tile_at cur in
    let availableChoices :=
      List.filter
        (fun item => match find (fun chc => String.eqb chc item) choices with
                     | Some rslt => String.eqb rslt ""
                     | None => true
                     end)
        (availableTiles currentTileObject) in
    let* weights := gets weighting in
    let* ty := with_rnd (pickOneWeighted availableChoices weights) in
    update_tile cur (with_type ty) ;;
    update_tile cur (with_entropy (Fin 0)) ;;
    _setEntropyOfSurroundingTiles (index currentTileObject) ;;
    ret Passed.

Inductive Flow : Type := LoopBreak | Yield | Return.

Definition some_undefined_type (st : WFC) : bool :=
  existsb (fun e => match type (snd e) with None => true | Some _ => false end)
          (entries (tiles st)).

(** One pass through the body of [while (!passedEntropyTest)]. Every pass
    leaves the loop: by [break], by a [throw], by [return], or at [yield]
    with [passedEntropyTest] set, which ends the loop on resumption. The
    [catch] clause decrements [retries] and leaves [passedEntropyTest]
    false, so the statement after it throws. (What the clause writes to
    the console is not modelled.) *)
Definition attempt_pass (cur retries : nat) (choices : list string) : M Flow :=
  let* r := try_catch
              (let* e := attempt_try cur retries choices in ret (e, retries))
              (fun error => ret (Caught, retries - 1)) in
  match fst r with
  | Broke => ret LoopBreak
  | Caught => throw FailedToCollapseTile
  | Passed =>
      let* remaining := gets _getNumberOfRemainingTilesToCollapse in
      if remaining =? 0 then ret Return
      else
        let* corrupt := gets some_undefined_type in
        if corrupt then throw CorruptTileData else ret Yield
  end.

Inductive Step : Type := Yielded | Returned.

(** [wfcGenerator.next()]: the generator body from the top of
    [while (true)] to the next [yield], [return] or [throw]. [fuel] bounds
    the passes that end in [break]; [None] when it runs out. *)
Fixpoint _collapseNext (fuel : nat) : M (option Step) :=
  match fuel with
  | 0 => ret None
  | S fuel' =>
      let* nextGroupOfTiles := gets _getListofTilesWithLowestEntropy in
      if length nextGroupOfTiles =? 0 then throw NoValidTilesRemaining
      else
        let* picked := with_rnd (pickOne nextGroupOfTiles) in
        match picked with
        | None => throw UnableToSelectNextTile
        | Some cur =>
            let* currentTileObject := tile_at cur in
            if length (availableTiles currentTileObject) =? 0
            then throw ThereAreNoValidTiles
            else
              let retries := length (availableTiles currentTileObject) in
              let* flow := attempt_pass cur retries [] in
              match flow with
              | LoopBreak => _collapseNext fuel'
              | Yield => ret (Some Yielded)
              | Return => ret (Some Returned)
              end
        end
  end.

(** The [while (!done)] loop of [generateLevel]: the errors written to the
    console and the final state, [None] when [fuel] runs out. *)
Fixpoint step_loop (fuel : nat) (st : WFC) : option (list Error * WFC) :=
  match fuel with
  | 0 => None
  | S fuel' =>
      match _collapseNext (S fuel') st with
      | (Ok (Some Yielded), st') => step_loop fuel' st'
      | (Ok (Some Returned), st') => Some ([], st')
      | (Ok None, _) => None
      | (Throw error, st') => Some ([error], st')
      end
  end.

(** The references held by [this.tiles], [None] at a hole. *)
Definition tile_refs (ts : list (option TileData)) : list (option nat) :=
  imap (fun i o => (fun _ => i) <$> o) ts.

(** "if randomStartFlag, choose and collaps one random tile" *)
Definition random_start : M unit :=
  let* start := gets startWithRandom in
  if start then
    let* ts := gets tiles in
    let* firstTile := with_rnd (pickOne (tile_refs ts)) in
    match mjoin firstTile with
    | None => throw ErrorChoosingInitialTile
    | Some first =>
        let* keys := gets (fun st => obj_keys (rules st)) in
        let* ty := with_rnd (pickOne keys) in
        update_tile first (with_type ty) ;;
        update_tile first (with_entropy (Fin 0))
    end
  else ret tt.

(** [generateLevel]: [Throw] is a rejected promise, [Ok console] a
    fulfilled one together with what [console.error] received. *)
Definition generateLevel_fuel (fuel : nat) (st : WFC)
    : option (Result (list Error) * WFC) :=
  let st0 := set_bufferstate (_isDataReady st) st in
  match bufferstate st0 with
  | ready =>
      match (random_start ;; _prepareTileDataForCollapsing) st0 with
      | (Throw e, st1) => Some (Throw e, st1)
      | (Ok _, st1) =>
          match step_loop fuel (set_bufferstate collapsing st1) with
          | None => None
          | Some (console, st2) => Some (Ok console, set_bufferstate collapsed st2)
          end
      end
  | s => Some (Throw (InvalidState s), st0)
  end.

Definition generateLevel (st : WFC) : option (Result (list Error) * WFC) :=
  generateLevel_fuel (S (length (tiles st))) st.

Fixpoint find_index (i : nat) (ts : list (option TileData)) : M TileData :=
  match ts with
  | [] => throw ErrorChoosingTile
  | None :: _ => throw TypeError
  | Some tile :: rest => if index tile =? i then ret tile else find_index i rest
  end.

Definition getTileData (i : nat) : M TileData :=
  let* s := gets bufferstate in
  match s with
  | collapsed => let* ts := gets tiles in find_index i ts
  | _ => throw (InvalidState s)
  end.

(** ** class ExcaliburWfcPlugin *)

Record Dims : Type := mkDims { dims_width : nat; dims_height : nat }.

(** A value of [tileCoords]: the cell of a tile type in the sprite sheet. *)
Record Coords : Type := mkCoords { coords_x : Z; coords_y : Z }.

(** What a method of the plug-in throws: its own guard, the engine's error
    on reading a property of [undefined], or the rejection of the level's
    [generateLevel]. *)
Inductive PluginError : Type :=
| InvalidLevelIndex                (* invalid level index *)
| PluginTypeError
| LevelError (e : Error).

Inductive PluginResult (A : Type) : Type :=
| Done (a : A)
| Failed (e : PluginError).
Arguments Done {A} a.
Arguments Failed {A} e.

Section Plugin.

(** Excalibur's [SpriteSheet] is opaque to the plug-in. *)
Variable SpriteSheet : Type.

Record WFCPluginOptions : Type := mkPluginOptions {
  spritesheet : SpriteSheet;
  tiledims : Dims;
  leveldims : Dims;
  plugin_seed : option Z
}.

Record levelData : Type := mkLevel {
  level_WFC : WFC;
  image : SpriteSheet;
  levelDims : Dims;
  tileDims : Dims;
  tileCoords : Obj Coords
}.

Record ExcaliburWfcPlugin : Type := mkPlugin { levels : list levelData }.

Definition set_WFC (w : WFC) (l : levelData) : levelData :=
  mkLevel w (image l) (levelDims l) (tileDims l) (tileCoords l).

Definition set_tileCoords (c : Obj Coords) (l : levelData) : levelData :=
  mkLevel (level_WFC l) (image l) (levelDims l) (tileDims l) c.

(** The level object at [levelIndex] after a method has changed it. *)
Definition set_level (levelIndex : Z) (l : levelData) (p : ExcaliburWfcPlugin)
    : ExcaliburWfcPlugin :=
  mkPlugin (<[Z.to_nat levelIndex := l]> (levels p)).

(** The guard [this.levels[levelIndex] == undefined] followed by a method
    that changes the level found. *)
Definition on_level (levelIndex : Z) (f : levelData -> levelData)
    (p : ExcaliburWfcPlugin) : PluginResult unit * ExcaliburWfcPlugin :=
  match js_get (levels p) levelIndex with
  | None => (Failed InvalidLevelIndex, p)
  | Some l => (Done tt, set_level levelIndex (f l) p)
  end.

Definition loadRules (levelIndex : Z) (rules : Obj Rule) :=
  on_level levelIndex (fun l => set_WFC (setRules_record rules (level_WFC l)) l).

Definition loadWeights (levelIndex : Z) (weights : list (string * WeightData)) :=
  on_level levelIndex (fun l => set_WFC (setWeights weights (level_WFC l)) l).

(** [setTiles] is called without its second argument, which is [true] by
    default. *)
Definition loadDefaults (levelIndex : Z) (defaults : list TileInput) :=
  on_level levelIndex (fun l => set_WFC (setTiles defaults true (level_WFC l)) l).

(** [generatelevel(levelIndex, seed)]; the fulfilled promise carries what
    the level wrote to the console. *)
Definition generatelevel (levelIndex : Z) (seed : option Z) (p : ExcaliburWfcPlugin)
    : option (PluginResult (list Error) * ExcaliburWfcPlugin) :=
  match js_get (levels p) levelIndex with
  | None => Some (Failed InvalidLevelIndex, p)
  | Some l =>
      match generateLevel (level_WFC l) with
      | None => None
      | Some (Ok console, w) => Some (Done console, set_level levelIndex (set_WFC w l) p)
      | Some (Throw e, w) => Some (Failed (LevelError e), set_level levelIndex (set_WFC w l) p)
      end
  end.

(** [createNewLevel(options)]; [now] is the value of [Date.now()]. *)
Definition createNewLevel (options : WFCPluginOptions) (now : Z) (p : ExcaliburWfcPlugin)
    : ExcaliburWfcPlugin :=
  let lvlOptions :=
    match plugin_seed options with
    | Some s =>
        if (s =? 0)%Z
        then mkOptions (dims_width (leveldims options)) (dims_height (leveldims options)) None
        else mkOptions (dims_width (leveldims options)) (dims_height (leveldims options))
                       (Some s)
    | None => mkOptions (dims_width (leveldims options)) (dims_height (leveldims options)) None
    end in
  mkPlugin (levels p ++ [mkLevel (new_WFC lvlOptions now) (spritesheet options)
                                 (leveldims options) (tiledims options) []]).

Definition loadTileCoords (levelIndex : Z) (coords : Obj Coords) :=
  on_level levelIndex (set_tileCoords coords).

(** [getTile(levelIndex, index)] up to its last call: the result is the
    sheet and the arguments that [image.getSprite(x, y)] is called with,
    [None] for [undefined]. A tile type that is [undefined] is looked up as
    the key "undefined". For a type without an entry, [tileCoords[type]] is
    [undefined] and the destructuring throws, unless the type is named like
    an inherited property: then it is a function or an object, which has
    neither [x] nor [y]. *)
Definition getTile (levelIndex index : Z) (p : ExcaliburWfcPlugin)
    : PluginResult (SpriteSheet * option Z * option Z) :=
  match js_get (levels p) levelIndex with
  | None => Failed InvalidLevelIndex
  | Some l =>
      match mjoin (js_get (tiles (level_WFC l)) index) with
      | None => Failed PluginTypeError
      | Some tile =>
          let tileType := default "undefined" (type tile) in
          match obj_get (tileCoords l) tileType with
          | None =>
              if inherited tileType then Done (image l, None, None)
              else Failed PluginTypeError
          | Some c => Done (image l, Some (coords_x c), Some (coords_y c))
          end
      end
  end.

End Plugin.

Arguments mkPluginOptions {SpriteSheet}.
Arguments spritesheet {SpriteSheet}.
Arguments tiledims {SpriteSheet}.
Arguments leveldims {SpriteSheet}.
Arguments plugin_seed {SpriteSheet}.
Arguments mkLevel {SpriteSheet}.
Arguments level_WFC {SpriteSheet}.
Arguments image {SpriteSheet}.
Arguments levelDims {SpriteSheet}.
Arguments tileDims {SpriteSheet}.
Arguments tileCoords {SpriteSheet}.
Arguments mkPlugin {SpriteSheet}.
Arguments levels {SpriteSheet}.
Arguments set_WFC {SpriteSheet}.
Arguments set_tileCoords {SpriteSheet}.
Arguments set_level {SpriteSheet}.
Arguments on_level {SpriteSheet}.
Arguments loadRules {SpriteSheet}.
Arguments loadWeights {SpriteSheet}.
Arguments loadDefaults {SpriteSheet}.
Arguments generatelevel {SpriteSheet}.
Arguments createNewLevel {SpriteSheet}.
Arguments loadTileCoords {SpriteSheet}.
Arguments getTile {SpriteSheet}.

(** What a method called with a level index may change: nothing but the
    level object at that index, and of that object neither the sprite sheet
    nor the dimensions. *)
Definition only_level {SpriteSheet : Type} (k : nat)
    (p p' : ExcaliburWfcPlugin SpriteSheet) : Prop :=
  length (levels p') = length (levels p)
  /\ (forall k', k' <> k -> levels p' !! k' = levels p !! k')
  /\ (forall l, levels p !! k = Some l ->
       exists l', levels p' !! k = Some l'
                  /\ image l' = image l /\ levelDims l' = levelDims l
                  /\ tileDims l' = tileDims l).

(** ** Reading of the model in the terms of the specification *)

(** The value in [0, 1) that [getRandom] returns, as a rational. *)
Definition next_value (r : Random) : Q := Qmake (fst (getRandom r)) (2 ^ 32)%positive.

(** The types stored in the grid when the promise of a run settles. *)
Definition resolved_grid (r : option (Result (list Error) * WFC))
    : option (list (option string)) :=
  match r with
  | Some (_, st) => Some (map (fun o => o ≫= type) (tiles st))
  | None => None
  end.

(** A call of the configuration interface, made between construction and
    [generateLevel]. *)
Inductive ConfigCall : Type :=
| CallSetRule (ty : string) (rule : Rule)
| CallSetRulesArray (rs : list (string * Rule))
| CallSetRulesRecord (rs : Obj Rule)
| CallResetRules
| CallSetWeight (ty : string) (weight : WeightData)
| CallSetWeights (ws : list (string * WeightData))
| CallResetWeights
| CallSetTileData (tile : TileData) (i : nat) (setRandomStart : bool)
| CallSetTiles (inputs : list TileInput) (setRandomStart : bool)
| CallResetTileData
| CallResetLevel.

Definition call (c : ConfigCall) (st : WFC) : WFC :=
  match c with
  | CallSetRule ty rule => setRule ty rule st
  | CallSetRulesArray rs => setRules_array rs st
  | CallSetRulesRecord rs => setRules_record rs st
  | CallResetRules => resetRules st
  | CallSetWeight ty weight => setWeight ty weight st
  | CallSetWeights ws => setWeights ws st
  | CallResetWeights => resetWeights st
  | CallSetTileData tile i b => setTileData tile i b st
  | CallSetTiles inputs b => setTiles inputs b st
  | CallResetTileData => resetTileData st
  | CallResetLevel => resetLevel st
  end.

Definition configure (cs : list ConfigCall) (st : WFC) : WFC :=
  fold_left (fun s c => call c s) cs st.

(** ** The entropy engine in the words of the specification *)

Definition opposite (d : Direction) : Direction :=
  match d with Up => Down | Down => Up | Left => Right | Right => Left end.

Definition side (d : Direction) (r : Rule) : list string :=
  match d with Up => up r | Down => down r | Left => left r | Right => right r end.

Definition directions : list Direction := [Up; Down; Left; Right].

(** The neighbour of cell [i] in direction [d], if the grid has one. *)
Definition neighbor (st : WFC) (i : nat) (d : Direction) : option nat :=
  match d with
  | Up => upTileIndex (width st) i
  | Down => downTileIndex (width st) (length (tiles st)) i
  | Left => leftTileIndex (width st) i
  | Right => rightTileIndex (width st) i
  end.

(** What the neighbour in direction [d] contributes: when it is in bounds
    and resolved, its allowed-type list in the opposite direction. *)
Definition contribution (st : WFC) (i : nat) (d : Direction) : option (list string) :=
  j ← neighbor st i d;
  t ← mjoin (tiles st !! j);
  if is_zero (entropy t)
  then ty ← type t; rule ← obj_get (rules st) ty; Some (side (opposite d) rule)
  else None.

Definition contributed (st : WFC) (i : nat) : list (list string) :=
  omap (contribution st i) directions.

(** The elements of the first list that occur in every list, in the order
    of the first list. *)
Definition intersection (ls : list (list string)) : list string :=
  match ls with
  | [] => []
  | first :: _ => List.filter (fun x => forallb (fun l => includes l x) ls) first
  end.

Inductive Computed : Type :=
| Unconstrained
| Candidates (n : nat) (candidates : list string)
| Contradiction.

(** Steps 3 and 4 of the entropy computation on the contributed lists. *)
Definition computeEntropy (ls : list (list string)) : Computed :=
  match ls with
  | [] => Unconstrained
  | _ => match intersection ls with
         | [] => Contradiction
         | c => Candidates (length c) c
         end
  end.

Definition with_candidates (i : nat) (c : list string) (st : WFC) : WFC :=
  set_tiles (alter (fmap (with_availableTiles c)) i (tiles st)) st.

(** The result and the effect on cell [i] that a [Computed] stands for:
    the candidate set is stored in the cell, an unconstrained cell and a
    contradiction leave the state as it is. *)
Definition outcome (i : nat) (st : WFC) (c : Computed) : Result Entropy * WFC :=
  match c with
  | Unconstrained => (Ok Infinity, st)
  | Candidates n candidates => (Ok (Fin n), with_candidates i candidates st)
  | Contradiction => (Throw BrokenPlot, st)
  end.

(** Every resolved neighbour of [i] is a tile with a declared type. *)
Definition neighbours_declared (st : WFC) (i : nat) : Prop :=
  forall d j, neighbor st i d = Some j ->
    exists t, mjoin (tiles st !! j) = Some t
      /\ (is_zero (entropy t) = true ->
          exists ty rule, type t = Some ty /\ obj_get (rules st) ty = Some rule).

(** ** Pure readings of the entropy computation *)

(** The value of one "grab" block; it reads the state and leaves it. *)
Definition neighbor_list (st : WFC) (n : option nat) (sd : Rule -> list string)
    : Result (list string) :=
  match n with
  | None => Ok []
  | Some j =>
      match tiles st !! j with
      | Some (Some t) =>
          if is_zero (entropy t) then
            match type t with
            | None => Throw InvalidTileTypeFound
            | Some ty =>
                match obj_get (rules st) ty with
                | None => Throw TypeError
                | Some rule => Ok (sd rule)
                end
            end
          else Ok []
      | _ => Throw TypeError
      end
  end.

Definition rbind {A B} (r : Result A) (k : A -> Result B) : Result B :=
  match r with Ok a => k a | Throw e => Throw e end.

Definition dir_list (st : WFC) (i : nat) (d : Direction) : Result (list string) :=
  neighbor_list st (neighbor st i d) (side (opposite d)).

(** The four lists in the order up, down, left, right, or the first error. *)
Definition gather (st : WFC) (i : nat) : Result (list (list string)) :=
  rbind (dir_list st i Up) (fun u =>
  rbind (dir_list st i Down) (fun d =>
  rbind (dir_list st i Left) (fun l =>
  rbind (dir_list st i Right) (fun r => Ok [u; d; l; r])))).

(** From "consolodate into one array" to the end of [_getEntropy]. *)
Definition consolidate (i : nat) (lists : list (list string)) (st : WFC)
    : Result Entropy * WFC :=
  match List.filter nonempty lists with
  | [] => (Ok Infinity, st)
  | first :: rest =>
      let c := fold_left (fun sum arr => List.filter (includes arr) sum)
                         (first :: rest) first in
      if length c =? 0 then (Throw BrokenPlot, st)
      else (Ok (Fin (length c)), with_candidates i c st)
  end.

(** ** What a step may change *)

(** A tile keeps its index, its type and whether it is resolved; a resolved
    tile is kept as it is. *)
Definition tile_skel (t t' : TileData) : Prop :=
  index t' = index t
  /\ type t' = type t
  /\ is_zero (entropy t') = is_zero (entropy t)
  /\ (is_zero (entropy t) = true -> t' = t).

Definition cell_skel (o o' : option (option TileData)) : Prop :=
  match o, o' with
  | Some (Some t), Some (Some t') => tile_skel t t'
  | _, _ => o = o'
  end.

Record skel (st st' : WFC) : Prop := mk_skel {
  skel_width : width st' = width st;
  skel_rules : rules st' = rules st;
  skel_weighting : weighting st' = weighting st;
  skel_length : length (tiles st') = length (tiles st);
  skel_cells : forall k, cell_skel (tiles st !! k) (tiles st' !! k)
}.

(** The candidate set of cell [k] is the one its resolved neighbours imply. *)
Definition avail_ok (st : WFC) (k : nat) : Prop :=
  exists t lists,
    tiles st !! k = Some (Some t)
    /\ gather st k = Ok lists
    /\ availableTiles t = intersection (List.filter nonempty lists).

(** From [st] to [st'] the skeleton is kept, and a candidate set is either
    kept or brought up to date. *)
Definition evolves (st st' : WFC) : Prop :=
  skel st st'
  /\ forall k t t',
       tiles st !! k = Some (Some t) -> tiles st' !! k = Some (Some t') ->
       availableTiles t' = availableTiles t \/ avail_ok st' k.

Definition unresolved_at (st : WFC) (j : nat) : Prop :=
  exists t, tiles st !! j = Some (Some t) /\ is_zero (entropy t) = false.

(** A computed entropy that is about to be written belongs to an
    unresolved tile. *)
Definition write_ready (st : WFC) (n : option nat) (oe : option Entropy) : Prop :=
  forall j e, n = Some j -> oe = Some e -> truthy e = true -> unresolved_at st j.

(** The ways [_getEntropy i] ends, with the state it leaves. *)
Inductive GetEntropy (i : nat) (st : WFC) : Result Entropy -> WFC -> Prop :=
| GE_missing :
    mjoin (tiles st !! i) = None ->
    GetEntropy i st (Throw TypeError) st
| GE_resolved t :
    tiles st !! i = Some (Some t) -> is_zero (entropy t) = true ->
    GetEntropy i st (Ok (Fin 0)) st
| GE_error t e :
    tiles st !! i = Some (Some t) -> is_zero (entropy t) = false ->
    gather st i = Throw e ->
    GetEntropy i st (Throw e) st
| GE_unconstrained t lists :
    tiles st !! i = Some (Some t) -> is_zero (entropy t) = false ->
    gather st i = Ok lists -> List.filter nonempty lists = [] ->
    GetEntropy i st (Ok Infinity) st
| GE_contradiction t lists :
    tiles st !! i = Some (Some t) -> is_zero (entropy t) = false ->
    gather st i = Ok lists -> List.filter nonempty lists <> [] ->
    intersection (List.filter nonempty lists) = [] ->
    GetEntropy i st (Throw BrokenPlot) st
| GE_candidates t lists :
    tiles st !! i = Some (Some t) -> is_zero (entropy t) = false ->
    gather st i = Ok lists -> List.filter nonempty lists <> [] ->
    intersection (List.filter nonempty lists) <> [] ->
    GetEntropy i st
      (Ok (Fin (length (intersection (List.filter nonempty lists)))))
      (with_candidates i (intersection (List.filter nonempty lists)) st).

(** ** Local consistency *)

(** The grid as construction, the resets and the pre-seeding calls leave
    it: every tile carries its own position, entropy [Infinity] and no
    candidates. *)
Definition fresh (st : WFC) : Prop :=
  forall i t, tiles st !! i = Some (Some t) ->
    index t = i /\ entropy t = Infinity /\ availableTiles t = [].

(** If [a] allows [b] in direction [d], then [b] is declared and allows
    [a] in the opposite direction. *)
Definition symmetric_rules (rs : Obj Rule) : Prop :=
  forall a ra d b, obj_get rs a = Some ra -> b ∈ side d ra ->
    exists rb, obj_get rs b = Some rb /\ a ∈ side (opposite d) rb.

Definition lists_nonempty (rs : Obj Rule) : Prop :=
  forall a ra d, obj_get rs a = Some ra -> side d ra <> [].

(** Every adjacent pair of cells with assigned types obeys the rule of the
    first cell in the direction of the second. *)
Definition locally_consistent (st : WFC) : Prop :=
  forall i d j ti tj a b,
    neighbor st i d = Some j ->
    tiles st !! i = Some (Some ti) -> tiles st !! j = Some (Some tj) ->
    type ti = Some a -> type tj = Some b ->
    exists rule, obj_get (rules st) a = Some rule /\ b ∈ side d rule.

Definition all_resolved (st : WFC) : Prop :=
  forall i t, tiles st !! i = Some (Some t) -> entropy t = Fin 0.

(** The invariant of the step loop. *)
Definition indexed (st : WFC) : Prop :=
  forall i t, tiles st !! i = Some (Some t) -> index t = i.

Definition consistent (st : WFC) : Prop :=
  forall i d j ti tj a b,
    neighbor st i d = Some j ->
    tiles st !! i = Some (Some ti) -> tiles st !! j = Some (Some tj) ->
    is_zero (entropy ti) = true -> is_zero (entropy tj) = true ->
    type ti = Some a -> type tj = Some b ->
    exists rule, obj_get (rules st) a = Some rule /\ b ∈ side d rule.

Definition candidates_ok (st : WFC) : Prop :=
  forall k, unresolved_at st k -> avail_ok st k.

Record Inv (st : WFC) : Prop := mk_Inv {
  inv_indexed : indexed st;
  inv_consistent : consistent st;
  inv_candidates : candidates_ok st
}.

(** The grid between the random start and the preparation: at most one
    tile is resolved, and no unresolved tile has candidates yet. *)
Definition one_resolved (st : WFC) : Prop :=
  forall i j ti tj,
    tiles st !! i = Some (Some ti) -> tiles st !! j = Some (Some tj) ->
    is_zero (entropy ti) = true -> is_zero (entropy tj) = true -> i = j.

Definition unresolved_blank (st : WFC) : Prop :=
  forall k t, tiles st !! k = Some (Some t) -> is_zero (entropy t) = false ->
    availableTiles t = [].

(** The tile [cur] resolved to [ty], after the two draws of a step. *)
Definition resolve (cur : nat) (ty : option string) (st : WFC) : WFC :=
  set_tiles (alter (fmap (with_entropy (Fin 0))) cur
               (alter (fmap (with_type ty)) cur (tiles st))) st.

(** ** The measure of the step loop *)

(** Whether a position holds an unresolved tile. *)
Definition status (o : option (option TileData)) : bool :=
  match o with
  | Some (Some t) => negb (is_zero (entropy t))
  | _ => false
  end.

Definition count_unresolved (ts : list (option TileData)) : nat :=
  length (List.filter (fun o => status (Some o)) ts).

(** ** What a run leaves alone *)

(** [fresh] as a property of the array. *)
Definition fresh_tiles (ts : list (option TileData)) : Prop :=
  forall i t, ts !! i = Some (Some t) ->
    index t = i /\ entropy t = Infinity /\ availableTiles t = [].

(** Every position of the array holds a tile. *)
Definition hole_free (ts : list (option TileData)) : Prop :=
  forall i, i < length ts -> exists t, ts !! i = Some (Some t).

(** The array has one entry per cell of the [width] x [height] grid. *)
Definition rectangular (st : WFC) : Prop :=
  length (tiles st) = width st * height st.

(** For every position, the index of the tile it holds. *)
Definition indices (ts : list (option TileData)) : list (option nat) :=
  map (fun o : option TileData => index <$> o) ts.

(** The part of the state that no method called by [generateLevel] writes:
    the dimensions, the rule and weight tables, the random-start flag, and
    for every position whether it holds a tile and which index that tile
    carries. *)
Definition same_frame (st st' : WFC) : Prop :=
  width st' = width st /\ height st' = height st /\ numTiles st' = numTiles st
  /\ rules st' = rules st /\ weighting st' = weighting st
  /\ startWithRandom st' = startWithRandom st
  /\ indices (tiles st') = indices (tiles st).

(** A method body that keeps the frame, however it ends. *)
Definition keeps {A} (m : M A) : Prop := forall st, same_frame st (snd (m st)).

(** The array with every candidate list erased. *)
Definition erase_candidates (ts : list (option TileData)) : list (option TileData) :=
  map (fun o : option TileData => with_availableTiles [] <$> o) ts.

(** The order of [Math.min] on entropies. *)
Definition Entropy_leb (a b : Entropy) : bool :=
  match a, b with
  | Fin n, Fin m => n <=? m
  | _, Infinity => true
  | Infinity, Fin _ => false
  end.

(** ** Levels whose tiles all get a type *)

(** Every resolved tile has a declared type. *)
Definition typed (st : WFC) : Prop :=
  forall i t, tiles st !! i = Some (Some t) -> is_zero (entropy t) = true ->
    exists ty rule, type t = Some ty /\ obj_get (rules st) ty = Some rule.

Definition positive_weights (w : Obj WeightData) : Prop :=
  forall ty n, obj_get w ty = Some n -> (0 < n)%Z.

(** No list of a rule, expanded by the weights as [pickOneWeighted] does,
    reaches [2^21] entries. *)
Definition short_lists (rs : Obj Rule) (w : Obj WeightData) : Prop :=
  forall a ra d, obj_get rs a = Some ra ->
    (Z.of_nat (length (flat_map (weighted_items w) (side d ra))) < 2 ^ 21)%Z.

(** ** Rules that cannot lead into a contradiction *)

(** Whatever resolved neighbours a cell has, the lists that they allow
    towards it have a type in common. *)
Definition compatible (rs : Obj Rule) : Prop :=
  forall ls, ls <> [] ->
    Forall (fun l => exists a ra d, obj_get rs a = Some ra /\ l = side d ra) ls ->
    intersection ls <> [].

(** An unresolved tile has a finite entropy exactly when one of its
    neighbours is resolved. *)
Definition has_resolved_neighbour (st : WFC) (k : nat) : Prop :=
  exists d n tn, neighbor st k d = Some n /\ tiles st !! n = Some (Some tn)
                 /\ is_zero (entropy tn) = true.

Definition finite_at (st : WFC) (k : nat) : Prop :=
  exists t, tiles st !! k = Some (Some t) /\ entropy t <> Infinity.

Definition entropies_current (st : WFC) : Prop :=
  forall k t, tiles st !! k = Some (Some t) -> is_zero (entropy t) = false ->
    (entropy t <> Infinity <-> has_resolved_neighbour st k).

(** A method body that leaves the generator as it is, however it ends. *)
Definition keeps_rnd {A} (m : M A) : Prop := forall st, rnd (snd (m st)) = rnd st.

(** What every step of the loop finds and leaves on a grid without holes:
    the grid is full, [Inv] holds, the resolved tiles have declared types,
    the entropies are current, the generator is in its range, no type is
    [undefined], and a tile is resolved. *)
Record Live (st : WFC) : Prop := mk_Live {
  live_rectangular : rectangular st;
  live_hole_free : hole_free (tiles st);
  live_Inv : Inv st;
  live_typed : typed st;
  live_current : entropies_current st;
  live_seed : (0 <= seed (rnd st))%Z;
  live_types : some_undefined_type st = false;
  live_started : exists i t, tiles st !! i = Some (Some t) /\ is_zero (entropy t) = true
}.

(** ** What a run depends on *)

(** The fields of the instance that [generateLevel] and the methods it
    calls read: not [height], [numTiles] or the buffer state. *)
Definition run_inputs (st : WFC)
    : nat * Random * list (option TileData) * Obj Rule * Obj WeightData * bool :=
  (width st, rnd st, tiles st, rules st, weighting st, startWithRandom st).



(** The state after [n] calls of [wfcGenerator.next()] that all end at
    [yield]; [None] when one of them ends otherwise. *)
Fixpoint yielded (fuel n : nat) (st : WFC) : option WFC :=
  match n with
  | 0 => Some st
  | S n' =>
      match _collapseNext fuel st with
      | (Ok (Some Yielded), st') => yielded fuel n' st'
      | _ => None
      end
  end.

(** ** The limits of the engine *)

(** [Math.min(...array)] passes one argument per unresolved tile, and an
    engine throws a RangeError when a call has more arguments than it
    supports; the limit depends on the engine and on the stack it has.
    [Math_min] is total, so what the model says about the steps of a run
    is said for grids of fewer than [2^16] tiles, which are within the
    limit of the engines in use. *)
Definition within_argument_limit (st : WFC) : Prop :=
  (Z.of_nat (length (tiles st)) < 2 ^ 16)%Z.

(** No rule list names an inherited property. *)
Definition plain_lists (rs : Obj Rule) : Prop :=
  forall a ra d x, obj_get rs a = Some ra -> In x (side d ra) -> inherited x = false.

(** ** The errors of a run *)

(** The errors of the entropy computation. *)
Definition entropy_error (e : Error) : Prop :=
  e = TypeError \/ e = InvalidTileTypeFound \/ e = BrokenPlot.

(** The errors of a step of the generator. *)
Definition step_error (e : Error) : Prop :=
  In e [NoValidTilesRemaining; UnableToSelectNextTile; ThereAreNoValidTiles;
        FailedToCollapseTile; CorruptTileData].

(** ** Sample configurations *)

Module Sample.

(** Two types that alternate: the checkerboard of the specification. *)
Definition checker_rules : list ConfigCall :=
  [CallSetRule "A" (mkRule ["B"] ["B"] ["B"] ["B"]);
   CallSetRule "B" (mkRule ["A"] ["A"] ["A"] ["A"])].

Definition checker (s : Z) : WFC :=
  configure checker_rules (new_WFC (mkOptions 2 2 (Some s)) 0).

(** Four declared types on a 2 x 2 grid. Below an "A" only "B" or "C" may
    stand; a "B" in the lower left corner contradicts a "B" in the upper
    right one, a "C" there does not. *)
Definition all : list string := ["A"; "B"; "C"; "D"].

Definition corner_rules : list ConfigCall :=
  [CallSetRule "A" (mkRule all ["B"; "C"] all ["B"]);
   CallSetRule "B" (mkRule all ["A"; "C"; "D"] all ["B"]);
   CallSetRule "C" (mkRule all all all ["A"]);
   CallSetRule "D" (mkRule all all all all)].

Definition corner : WFC :=
  configure corner_rules (new_WFC (mkOptions 2 2 (Some 9%Z)) 0).

(** The state a run leaves behind, the input itself if the run has none. *)
Definition after_run (st : WFC) : WFC :=
  match generateLevel st with
  | Some (_, st') => st'
  | None => st
  end.

(** [corner] after the guard, the random start and the preparation, and
    after one step of the generator: the state in which the second step
    starts. *)
Definition corner_second_step : WFC :=
  let prepared :=
    snd ((random_start ;; _prepareTileDataForCollapsing) (set_bufferstate ready corner)) in
  snd (_collapseNext 1 (set_bufferstate collapsing prepared)).

(** The checkerboard with cell 0 pre-seeded as "B". *)
Definition anchored (setRandomStart : bool) : WFC :=
  setTileData (mkTile 0 (Some "B") Infinity []) 0 setRandomStart (checker 1).

(** A 2 x 1 grid with the single type "A", to the right of which nothing
    may stand, after the random start. *)
Definition dead_end (s : Z) : WFC :=
  snd (random_start
         (set_bufferstate ready
            (configure [CallSetRule "A" (mkRule ["A"] ["A"] ["A"] [])]
                       (new_WFC (mkOptions 2 1 (Some s)) 0)))).

(** The checkerboard of seed 1 after the random start: cell 0 is "A". *)
Definition checker_started : WFC :=
  snd (random_start (set_bufferstate ready (checker 1))).

(** A 2 x 1 grid whose rules are not symmetric: "A" allows "B" to its
    right, but "B" allows only "B" to its left. *)
Definition one_way : WFC :=
  configure [CallSetRule "A" (mkRule ["A"] ["A"] ["A"] ["B"]);
             CallSetRule "B" (mkRule ["B"] ["B"] ["B"] ["A"])]
            (new_WFC (mkOptions 2 1 (Some 1%Z)) 0).

(** A 2 x 2 grid with symmetric rules, one list of which is empty:
    nothing may stand to the right of an "A". *)
Definition walled : WFC :=
  configure [CallSetRule "A" (mkRule ["A"; "B"] ["A"; "B"] ["B"] []);
             CallSetRule "B" (mkRule ["A"; "B"] ["A"; "B"] ["B"] ["A"; "B"])]
            (new_WFC (mkOptions 2 2 (Some 1%Z)) 0).

Definition wrapped_inputs : list TileInput :=
  [mkInput 0 (Some "A") (mkTile 0 (Some "A") Infinity []);
   mkInput 2 None (mkTile 2 (Some "A") Infinity [])].

End Sample.

(** Further configurations. *)
Module Cases.

(** [Sample.corner] in the second step, after cell 2 has been given the
    type "B" and before the propagation to its neighbours. *)
Definition corner_attempt : WFC := resolve 2 (Some "B") Sample.corner_second_step.


(** The checkerboard with a fifth tile, set past the end of the 2 x 2 grid. *)
Definition ragged : WFC :=
  setTileData (mkTile 0 (Some "A") Infinity []) 4 true (Sample.checker 1).

(** Grass, water and sand: sand may stand next to everything. *)
Definition meadow_rules : list ConfigCall :=
  [CallSetRule "G" (mkRule ["G"; "S"] ["G"; "S"] ["G"; "S"] ["G"; "S"]);
   CallSetRule "W" (mkRule ["W"; "S"] ["W"; "S"] ["W"; "S"] ["W"; "S"]);
   CallSetRule "S" (mkRule ["G"; "W"; "S"] ["G"; "W"; "S"] ["G"; "W"; "S"] ["G"; "W"; "S"])].

Definition meadow : WFC := configure meadow_rules (new_WFC (mkOptions 3 2 (Some 4%Z)) 0).

(** A plug-in with one level: 2 x 2 cells, seed 1, the checkerboard rules
    and a cell of the sprite sheet for each of the two types. *)
Definition board_options : WFCPluginOptions unit :=
  mkPluginOptions tt (mkDims 16 16) (mkDims 2 2) (Some 1%Z).

Definition board_coords : Obj Coords := [("A", mkCoords 0 0); ("B", mkCoords 1 0)].

Definition board_level : levelData unit :=
  mkLevel (Sample.checker 1) tt (mkDims 2 2) (mkDims 16 16) board_coords.

Definition board : ExcaliburWfcPlugin unit :=
  snd (loadTileCoords 0 board_coords
         (snd (loadRules 0 (rules (Sample.checker 1))
                 (createNewLevel board_options 0 (mkPlugin []))))).

(** [board] after [generatelevel(0)]. *)
Definition board_generated : ExcaliburWfcPlugin unit :=
  match generatelevel 0 None board with
  | Some (_, p) => p
  | None => board
  end.

End Cases.

(** * Properties *)

(** Closed facts about sample runs are settled by evaluation. *)
Ltac by_evaluation :=
  repeat match goal with |- _ /\ _ => split end; vm_compute; reflexivity.

(** ** The random source *)

Lemma fl_exact (x : Z) : (Z.abs x < 2 ^ 53)%Z -> Double.fl x = x.
Proof.
  intros H. unfold Double.fl. cbv zeta.
  destruct (Z.ltb_spec (Z.abs x) (2 ^ 53)%Z) as [_ | Hge]; [reflexivity | lia].
Qed.

Lemma round_half_even_nonneg (x e : Z) : (0 <= x)%Z -> (0 <= Double.round_half_even x e)%Z.
Proof.
  intros Hx. unfold Double.round_half_even. cbv zeta.
  assert (Hp : (0 <= 2 ^ e)%Z) by apply Z.pow_nonneg, Z.lt_le_incl, Z.lt_0_2.
  assert (Hq : (0 <= x / 2 ^ e)%Z).
  { destruct (Z.eq_dec (2 ^ e)%Z 0%Z) as [E | E].
    - rewrite E, Z.div_0_r. lia.
    - apply Z.div_pos; lia. }
  repeat case_match; nia.
Qed.

Lemma fl_nonneg (x : Z) : (0 <= x)%Z -> (0 <= Double.fl x)%Z.
Proof.
  intros Hx. unfold Double.fl. cbv zeta. case_match; [assumption |].
  pose proof (round_half_even_nonneg (Z.abs x) (Z.log2 (Z.abs x) - 52)) as Hr.
  destruct (Z.sgn_spec x) as [[? ->] | [[? ->] | [? ->]]]; lia.
Qed.

(** From a non-negative seed the generator stays in [0, 2^32). *)
Lemma getRandom_range (r : Random) :
  (0 <= seed r)%Z -> (0 <= fst (getRandom r) < 2 ^ 32)%Z.
Proof.
  intros Hs. unfold getRandom. cbn [fst].
  apply Z.rem_bound_pos; [| reflexivity].
  apply fl_nonneg.
  assert (0 <= Double.fl (1664525 * seed r))%Z by (apply fl_nonneg; lia). lia.
Qed.

Lemma getRandom_seed (r : Random) : seed (snd (getRandom r)) = fst (getRandom r).
Proof. reflexivity. Qed.

(** Below [2^21] elements the product [rnd * length] is exact, and
    [floor_mul] is the floor of the rational product. *)
Lemma floor_mul_exact (r : Random) (n : nat) :
  (0 <= seed r)%Z -> (Z.of_nat n < 2 ^ 21)%Z ->
  Double.floor_mul (fst (getRandom r)) n
  = Qfloor (next_value r * inject_Z (Z.of_nat n)).
Proof.
  intros Hs Hn. pose proof (getRandom_range r Hs) as Hr.
  unfold Double.floor_mul, next_value. rewrite fl_exact by nia.
  unfold Qfloor, Qmult, inject_Z. cbn [Qnum Qden].
  rewrite Pos.mul_1_r. reflexivity.
Qed.

Lemma floor_mul_in_range (r : Random) (n : nat) :
  (0 <= seed r)%Z -> (Z.of_nat n < 2 ^ 21)%Z -> 0 < n ->
  (0 <= Double.floor_mul (fst (getRandom r)) n < Z.of_nat n)%Z.
Proof.
  intros Hs Hn Hpos. pose proof (getRandom_range r Hs) as Hr.
  unfold Double.floor_mul. rewrite fl_exact by nia. split.
  - apply Z.div_pos; [nia | reflexivity].
  - apply Z.div_lt_upper_bound; [reflexivity | nia].
Qed.

Lemma pickOne_unfold {A} (set : list A) (r : Random) :
  pickOne set r
  = (js_get set (Double.floor_mul (fst (getRandom r)) (length set)), snd (getRandom r)).
Proof. reflexivity. Qed.

(** C7, as the specification states it, fails on the empty sequence:
    [pickOne] raises nothing there, it returns [undefined] and has drawn
    from the generator. *)
Lemma pickOne_empty_returns_undefined :
  pickOne (@nil string) (mkRandom 1) = (None, mkRandom 1015568748).
Proof. reflexivity. Qed.

(** C7 (amended): on a sequence of fewer than [2^21] elements, from a
    non-negative seed, [pickOne] returns the element at index
    [floor (next() * length)]; that is an element of the sequence when the
    sequence is not empty, and [undefined], with no error, when it is
    empty. *)
Theorem pickOne_uniform {A} (set : list A) (r : Random) :
  (0 <= seed r)%Z -> (Z.of_nat (length set) < 2 ^ 21)%Z ->
  fst (pickOne set r)
    = set !! Z.to_nat (Qfloor (next_value r * inject_Z (Z.of_nat (length set))))
  /\ snd (pickOne set r) = snd (getRandom r)
  /\ (0 < length set -> exists x, fst (pickOne set r) = Some x /\ x ∈ set)
  /\ (set = [] -> fst (pickOne set r) = None).
Proof.
  intros Hs Hn. rewrite pickOne_unfold. cbn [fst snd].
  rewrite <- (floor_mul_exact r (length set) Hs Hn).
  assert (Hnn : (0 <= Double.floor_mul (fst (getRandom r)) (length set))%Z).
  { destruct (length set) as [| n] eqn:E.
    - unfold Double.floor_mul. rewrite Z.mul_0_r. reflexivity.
    - apply floor_mul_in_range; [assumption | lia | lia]. }
  assert (Hget : js_get set (Double.floor_mul (fst (getRandom r)) (length set))
                 = set !! Z.to_nat (Double.floor_mul (fst (getRandom r)) (length set))).
  { unfold js_get. destruct (Z.ltb_spec (Double.floor_mul (fst (getRandom r)) (length set)) 0%Z);
      [lia | reflexivity]. }
  rewrite Hget. repeat split.
  - intros Hpos.
    pose proof (floor_mul_in_range r (length set) Hs Hn Hpos) as Hin.
    destruct (lookup_lt_is_Some_2 set
                (Z.to_nat (Double.floor_mul (fst (getRandom r)) (length set)))) as [x Hx];
      [lia |].
    exists x. split; [assumption |]. eapply list_elem_of_lookup_2, Hx.
  - intros ->. reflexivity.
Qed.

Lemma pickOne_uniform_witness :
  fst (pickOne ["A"; "B"; "C"] (mkRandom 1)) = Some "A"
  /\ exists x, fst (pickOne ["A"; "B"; "C"] (mkRandom 1)) = Some x /\ x ∈ ["A"; "B"; "C"].
Proof.
  pose proof (pickOne_uniform ["A"; "B"; "C"] (mkRandom 1)) as H.
  destruct H as (H1 & _ & H3 & _); [cbn; lia | cbn; lia |].
  split; [reflexivity |]. apply H3. cbn. lia.
Defined.

(** ** Arrays with holes *)

Lemma js_set_lookup_eq {A} (i : nat) (x : A) (a : list (option A)) :
  js_set i x a !! i = Some (Some x).
Proof.
  unfold js_set. destruct (Nat.ltb_spec i (length a)) as [Hlt | Hge].
  - apply list_lookup_insert_eq; assumption.
  - rewrite lookup_app_r by assumption.
    rewrite lookup_app_r by (rewrite length_replicate; lia).
    rewrite length_replicate, Nat.sub_diag. reflexivity.
Qed.

Lemma js_set_lookup_ne {A} (i j : nat) (x : A) (a : list (option A)) :
  i <> j -> j < length a -> js_set i x a !! j = a !! j.
Proof.
  intros Hne Hj. unfold js_set. destruct (Nat.ltb_spec i (length a)) as [Hlt | Hge].
  - apply list_lookup_insert_ne; assumption.
  - apply lookup_app_l; assumption.
Qed.

Lemma js_set_length {A} (i : nat) (x : A) (a : list (option A)) :
  length a <= length (js_set i x a).
Proof.
  unfold js_set. destruct (Nat.ltb_spec i (length a)) as [Hlt | Hge].
  - rewrite length_insert. lia.
  - rewrite length_app. lia.
Qed.

(** Reading [a[j]]: a hole and an index past the end both read [undefined]. *)
Lemma js_set_read_ne {A} (i j : nat) (x : A) (a : list (option A)) :
  i <> j -> mjoin (js_set i x a !! j) = mjoin (a !! j).
Proof.
  intros Hne. destruct (Nat.lt_ge_cases j (length a)) as [Hj | Hj].
  - rewrite js_set_lookup_ne by assumption. reflexivity.
  - rewrite (lookup_ge_None_2 a j Hj). unfold js_set.
    destruct (Nat.ltb_spec i (length a)) as [Hlt | Hge].
    + rewrite lookup_ge_None_2 by (rewrite length_insert; assumption). reflexivity.
    + rewrite lookup_app_r by assumption.
      destruct (Nat.lt_ge_cases (j - length a) (i - length a)) as [Hin | Hout].
      * rewrite lookup_app_l by (rewrite length_replicate; assumption).
        rewrite lookup_replicate_2 by assumption. reflexivity.
      * rewrite lookup_app_r by (rewrite length_replicate; assumption).
        rewrite length_replicate.
        destruct (j - length a - (i - length a)) as [| k] eqn:E; [lia | reflexivity].
Qed.

(** ** Pre-seeding with [setTiles] *)

Lemma setTiles_tiles (inputs : list TileInput) (b : bool) (st : WFC) :
  tiles (setTiles inputs b st) = fold_left setTiles_callback inputs (tiles st).
Proof. reflexivity. Qed.

Lemma setTiles_callback_read_0 (ts : list (option TileData)) (e : TileInput) :
  mjoin (setTiles_callback ts e !! 0) = mjoin (ts !! 0).
Proof.
  unfold setTiles_callback. destruct (Nat.eqb_spec (input_index e) 0) as [E | E].
  - reflexivity.
  - apply js_set_read_ne. assumption.
Qed.

Lemma setTiles_fold_read_0 (inputs : list TileInput) (ts : list (option TileData)) :
  mjoin (fold_left setTiles_callback inputs ts !! 0) = mjoin (ts !! 0).
Proof.
  revert ts. induction inputs as [| e inputs IH]; intros ts; [reflexivity |].
  cbn [fold_left]. rewrite IH. apply setTiles_callback_read_0.
Qed.

Lemma setTiles_fold_length (inputs : list TileInput) (ts : list (option TileData)) :
  length ts <= length (fold_left setTiles_callback inputs ts).
Proof.
  revert ts. induction inputs as [| e inputs IH]; intros ts; [reflexivity |].
  cbn [fold_left]. etransitivity; [| apply IH].
  unfold setTiles_callback. case_match; [reflexivity | apply js_set_length].
Qed.

Lemma setTiles_fold_keep (inputs : list TileInput) (ts : list (option TileData)) (j : nat) :
  j < length ts ->
  Forall (fun e' => input_index e' <> j) inputs ->
  fold_left setTiles_callback inputs ts !! j = ts !! j.
Proof.
  revert ts. induction inputs as [| e inputs IH]; intros ts Hj Hall; [reflexivity |].
  apply Forall_cons in Hall as [He Hall]. cbn [fold_left].
  assert (Hstep : setTiles_callback ts e !! j = ts !! j).
  { unfold setTiles_callback. case_match; [reflexivity |].
    apply js_set_lookup_ne; assumption. }
  rewrite IH; [assumption | | assumption].
  unfold setTiles_callback. case_match; [assumption |].
  eapply Nat.lt_le_trans; [exact Hj | apply js_set_length].
Qed.

(** The nested [tile] of an element is never read. *)
Lemma setTiles_callback_ignores_tile (ts : list (option TileData)) (e : TileInput)
    (t' : TileData) :
  setTiles_callback ts (mkInput (input_index e) (input_type e) t') = setTiles_callback ts e.
Proof. reflexivity. Qed.

(** C10: an element of the collection whose [index] is [0] is skipped, so
    cell 0 reads after [setTiles] as it did before; an element with another
    index that is the last one for its cell leaves there a tile whose type
    is the element's own [type] property, whatever its nested [tile] holds,
    hence [undefined] when the element has no such property. *)
Theorem setTiles_reads_wrapper (pre post : list TileInput) (e : TileInput)
    (b : bool) (st : WFC) :
  mjoin (tiles (setTiles (pre ++ e :: post) b st) !! 0) = mjoin (tiles st !! 0)
  /\ (input_index e = 0 ->
      setTiles (pre ++ e :: post) b st = setTiles (pre ++ post) b st)
  /\ (input_index e <> 0 ->
      Forall (fun e' => input_index e' <> input_index e) post ->
      tiles (setTiles (pre ++ e :: post) b st) !! input_index e
      = Some (Some (mkTile (input_index e) (input_type e) Infinity []))
      /\ (input_type e = None ->
          type <$> mjoin (tiles (setTiles (pre ++ e :: post) b st) !! input_index e)
          = Some None))
  /\ (forall t' : TileData,
      setTiles (pre ++ mkInput (input_index e) (input_type e) t' :: post) b st
      = setTiles (pre ++ e :: post) b st).
Proof.
  repeat split.
  - rewrite setTiles_tiles. apply setTiles_fold_read_0.
  - intros E. unfold setTiles. rewrite !fold_left_app. cbn [fold_left].
    unfold setTiles_callback at 2. rewrite E. reflexivity.
  - rewrite setTiles_tiles, fold_left_app. cbn [fold_left].
    rewrite setTiles_fold_keep; [| | assumption].
    + unfold setTiles_callback. destruct (Nat.eqb_spec (input_index e) 0); [contradiction |].
      apply js_set_lookup_eq.
    + apply lookup_lt_is_Some. unfold setTiles_callback.
      destruct (Nat.eqb_spec (input_index e) 0); [contradiction |].
      rewrite js_set_lookup_eq. eexists; reflexivity.
  - intros Hnone. rewrite setTiles_tiles, fold_left_app. cbn [fold_left].
    rewrite setTiles_fold_keep; [| | assumption].
    + unfold setTiles_callback. destruct (Nat.eqb_spec (input_index e) 0); [contradiction |].
      rewrite js_set_lookup_eq. cbn. rewrite Hnone. reflexivity.
    + apply lookup_lt_is_Some. unfold setTiles_callback.
      destruct (Nat.eqb_spec (input_index e) 0); [contradiction |].
      rewrite js_set_lookup_eq. eexists; reflexivity.
  - intros t'. unfold setTiles. rewrite !fold_left_app. cbn [fold_left].
    rewrite setTiles_callback_ignores_tile. reflexivity.
Qed.

Lemma setTiles_reads_wrapper_witness :
  mjoin (tiles (setTiles Sample.wrapped_inputs true (Sample.checker 1)) !! 0)
  = Some (mkTile 0 (Some "") Infinity [])
  /\ tiles (setTiles Sample.wrapped_inputs true (Sample.checker 1)) !! 2
     = Some (Some (mkTile 2 None Infinity [])).
Proof.
  pose proof (setTiles_reads_wrapper
                [mkInput 0 (Some "A") (mkTile 0 (Some "A") Infinity [])]
                [] (mkInput 2 None (mkTile 2 (Some "A") Infinity []))
                true (Sample.checker 1)) as (H0 & _ & H2 & _).
  split.
  - exact H0.
  - apply H2; [discriminate | constructor].
Defined.

(** ** The guard of [generateLevel] *)

Lemma isDataReady_unknown (st : WFC) :
  tiles st = [] \/ rules st = [] -> _isDataReady st = unknown.
Proof.
  intros [E | E]; unfold _isDataReady; rewrite E; cbn.
  - reflexivity.
  - case_match; reflexivity.
Qed.

(** C6, as the specification states it, fails on the buffer state: a
    collapsed level whose rules were reset is not ready, and the refused
    call leaves it [unknown], not [collapsed]. *)
Lemma not_ready_overwrites_bufferstate :
  bufferstate (resetRules (Sample.after_run (Sample.checker 1))) = collapsed
  /\ exists st',
       generateLevel (resetRules (Sample.after_run (Sample.checker 1)))
       = Some (Throw (InvalidState unknown), st')
       /\ bufferstate st' = unknown.
Proof.
  split; [by_evaluation |].
  exists (set_bufferstate unknown (resetRules (Sample.after_run (Sample.checker 1)))).
  by_evaluation.
Qed.

(** C6 (amended): when the tile array is empty or no rule is registered,
    [generateLevel] fails with the not-ready error; tiles, rules, weights,
    generator and start flag are as before the call, and the buffer state
    is [unknown] afterwards, whatever it was. *)
Theorem generateLevel_not_ready (st : WFC) :
  tiles st = [] \/ rules st = [] ->
  generateLevel st = Some (Throw (InvalidState unknown), set_bufferstate unknown st).
Proof.
  intros H. unfold generateLevel, generateLevel_fuel. cbv zeta.
  rewrite (isDataReady_unknown st H). reflexivity.
Qed.

Lemma generateLevel_not_ready_witness :
  generateLevel (new_WFC (mkOptions 2 2 (Some 1%Z)) 0)
  = Some (Throw (InvalidState unknown),
          set_bufferstate unknown (new_WFC (mkOptions 2 2 (Some 1%Z)) 0)).
Proof. apply generateLevel_not_ready. right. reflexivity. Defined.

(** ** The outcome of a run *)

Lemma find_index_state (i : nat) (ts : list (option TileData)) (st : WFC) (s : BufferState) :
  snd (find_index i ts st) = st /\ fst (find_index i ts st) <> Throw (InvalidState s).
Proof.
  induction ts as [| [t |] ts IH]; cbn; try (split; [reflexivity | discriminate]).
  destruct (index t =? i); [split; [reflexivity | discriminate] | exact IH].
Qed.

Lemma getTileData_collapsed (i : nat) (st : WFC) :
  bufferstate st = collapsed -> getTileData i st = find_index i (tiles st) st.
Proof. intros H. unfold getTileData, bind, gets. rewrite H. reflexivity. Qed.

(** C2, as the specification states it, fails: the second step of this run
    raises an error, and the buffer ends [collapsed]; [getTileData] then
    hands out cell 3, which was never resolved. *)
Lemma step_error_ends_collapsed :
  exists st',
    generateLevel Sample.corner = Some (Ok [FailedToCollapseTile], st')
    /\ bufferstate st' = collapsed
    /\ getTileData 3 st' = (Ok (mkTile 3 (Some "") (Fin 3) ["A"; "C"; "D"]), st').
Proof. exists (Sample.after_run Sample.corner). by_evaluation. Qed.

(** ** The attempt loop *)

(** X2: whatever [retries] holds, a [try] block that throws ends the step
    with the fatal error: the loop body is not entered a second time. *)
Lemma caught_attempt_is_fatal (cur retries : nat) (choices : list string)
    (st st' : WFC) (e : Error) :
  attempt_try cur retries choices st = (Throw e, st') ->
  attempt_pass cur retries choices st = (Throw FailedToCollapseTile, st').
Proof.
  intros H. unfold attempt_pass, bind, try_catch. rewrite H. reflexivity.
Qed.

(** C5 at the failing input: cell 2 is the only cell of lowest entropy and
    has the two candidates "B" and "C", so [retries] starts at 2. The step
    draws twice from the generator (the cell, then the type "B"), the
    propagation to cell 3 finds a contradiction, and the step throws with
    "C" never tried. *)
Theorem failed_attempt_is_not_retried :
  tiles Sample.corner_second_step !! 2
    = Some (Some (mkTile 2 (Some "") (Fin 2) ["B"; "C"]))
  /\ _getListofTilesWithLowestEntropy Sample.corner_second_step = [2]
  /\ exists st',
       _collapseNext 1 Sample.corner_second_step = (Throw FailedToCollapseTile, st')
       /\ rnd st' = snd (getRandom (snd (getRandom (rnd Sample.corner_second_step))))
       /\ tiles st' !! 2 = Some (Some (mkTile 2 (Some "B") (Fin 0) ["B"; "C"])).
Proof.
  split; [by_evaluation |]. split; [by_evaluation |].
  exists (snd (_collapseNext 1 Sample.corner_second_step)). by_evaluation.
Qed.

(** ** Pre-seeding *)

(** X3: [setTileData] leaves at the index a tile with the given type,
    entropy [Infinity] and no candidates. *)
Lemma setTileData_lookup (tile : TileData) (i : nat) (b : bool) (st : WFC) :
  tiles (setTileData tile i b st) !! i = Some (Some (mkTile i (type tile) Infinity [])).
Proof. apply js_set_lookup_eq. Qed.

(** C9 at the failing input: [setTileData] and [setTiles] store the type
    with entropy [Infinity]; the run then treats the cell as unresolved and
    overwrites the "B" of cell 0 with "A", and without the random start no
    cell is resolved at all and the first step fails. *)
Theorem preseeded_tile_stays_unresolved :
  tiles (Sample.anchored true) !! 0
    = Some (Some (mkTile 0 (Some "B") Infinity []))
  /\ tiles (setTiles [mkInput 1 (Some "B") (mkTile 1 (Some "B") Infinity [])] true
                     (Sample.checker 1)) !! 1
     = Some (Some (mkTile 1 (Some "B") Infinity []))
  /\ resolved_grid (generateLevel (Sample.anchored true))
     = Some [Some "A"; Some "B"; Some "B"; Some "A"]
  /\ fst <$> generateLevel (Sample.anchored false) = Some (Ok [ThereAreNoValidTiles]).
Proof. by_evaluation. Qed.

(** ** Determinism *)

Lemma new_WFC_ignores_clock (s : Z) (w h : nat) (now1 now2 : Z) :
  s <> 0%Z ->
  new_WFC (mkOptions w h (Some s)) now1 = new_WFC (mkOptions w h (Some s)) now2.
Proof.
  intros Hs. unfold new_WFC. cbn [options_seed].
  destruct (Z.eqb_spec s 0); [contradiction | reflexivity].
Qed.


(** ** The entropy of a cell *)

Lemma tile_at_Some (i : nat) (t : TileData) (st : WFC) :
  tiles st !! i = Some (Some t) -> tile_at i st = (Ok t, st).
Proof. intros H. unfold tile_at. rewrite H. reflexivity. Qed.

Lemma tile_at_None (i : nat) (st : WFC) :
  mjoin (tiles st !! i) = None -> tile_at i st = (Throw TypeError, st).
Proof.
  intros H. unfold tile_at. destruct (tiles st !! i) as [[t |] |]; [discriminate | |]; reflexivity.
Qed.

Lemma update_tile_Some (i : nat) (f : TileData -> TileData) (t : TileData) (st : WFC) :
  tiles st !! i = Some (Some t) ->
  update_tile i f st = (Ok tt, set_tiles (alter (fmap f) i (tiles st)) st).
Proof. intros H. unfold update_tile, bind. rewrite (tile_at_Some i t st H). reflexivity. Qed.

Lemma neighborAvailableTiles_eq (n : option nat) (sd : Rule -> list string) (st : WFC) :
  neighborAvailableTiles n sd st = (neighbor_list st n sd, st).
Proof.
  unfold neighborAvailableTiles, neighbor_list. destruct n as [j |]; [| reflexivity].
  unfold bind, tile_at. destruct (tiles st !! j) as [[t |] |]; try reflexivity.
  destruct (is_zero (entropy t)); [| reflexivity].
  destruct (type t) as [ty |]; [| reflexivity].
  unfold gets. destruct (obj_get (rules st) ty); reflexivity.
Qed.

(** [_getEntropy] as a function of the state it starts in. *)
Lemma getEntropy_eq (i : nat) (st : WFC) :
  _getEntropy i st
  = match tiles st !! i with
    | Some (Some t) =>
        if is_zero (entropy t) then (Ok (Fin 0), st)
        else match gather st i with
             | Ok lists => consolidate i lists st
             | Throw e => (Throw e, st)
             end
    | _ => (Throw TypeError, st)
    end.
Proof.
  unfold _getEntropy. unfold bind at 1. unfold tile_at.
  destruct (tiles st !! i) as [[t |] |] eqn:Hi; try reflexivity.
  destruct (is_zero (entropy t)); [reflexivity |].
  unfold bind at 1. unfold gets at 1. unfold bind at 1. unfold gets at 1.
  unfold gather, dir_list, neighbor. cbn [opposite].
  change (side Down) with down. change (side Up) with up.
  change (side Right) with right. change (side Left) with left.
  unfold bind at 1. rewrite neighborAvailableTiles_eq.
  destruct (neighbor_list st (upTileIndex (width st) i) down) as [u | e]; [| reflexivity].
  unfold bind at 1. rewrite neighborAvailableTiles_eq.
  destruct (neighbor_list st (downTileIndex (width st) (length (tiles st)) i) up)
    as [d | e]; [| reflexivity].
  unfold bind at 1. rewrite neighborAvailableTiles_eq.
  destruct (neighbor_list st (leftTileIndex (width st) i) right) as [l | e]; [| reflexivity].
  unfold bind at 1. rewrite neighborAvailableTiles_eq.
  destruct (neighbor_list st (rightTileIndex (width st) i) left) as [r | e]; [| reflexivity].
  cbn [rbind]. unfold consolidate.
  destruct (List.filter nonempty [u; d; l; r]) as [| first rest]; [reflexivity |].
  cbv zeta.
  destruct (length (fold_left (fun sum arr => List.filter (includes arr) sum)
                              (first :: rest) first) =? 0); [reflexivity |].
  unfold bind. rewrite (update_tile_Some i _ t st Hi). reflexivity.
Qed.

Lemma filter_filter_andb {A} (p q : A -> bool) (l : list A) :
  List.filter p (List.filter q l) = List.filter (fun x => q x && p x) l.
Proof.
  induction l as [| a l IH]; [reflexivity |]. cbn.
  destruct (q a) eqn:Hq; cbn; [destruct (p a) |]; rewrite IH; reflexivity.
Qed.

(** The [reduce] of the source is the filter of the accumulator by
    membership in every list. *)
Lemma reduce_is_filter (ls : list (list string)) (acc : list string) :
  fold_left (fun sum arr => List.filter (includes arr) sum) ls acc
  = List.filter (fun x => forallb (fun l => includes l x) ls) acc.
Proof.
  revert acc. induction ls as [| a ls IH]; intros acc; cbn.
  - induction acc as [| x acc IHacc]; [reflexivity |]. cbn. f_equal. exact IHacc.
  - rewrite IH. apply filter_filter_andb.
Qed.

Lemma includes_elem_of (l : list string) (x : string) : includes l x = true <-> x ∈ l.
Proof.
  unfold includes. rewrite existsb_exists. split.
  - intros (y & Hy & E). apply String.eqb_eq in E. subst y. apply list_elem_of_In, Hy.
  - intros H. exists x. split; [apply list_elem_of_In, H | apply String.eqb_refl].
Qed.

(** The intersection keeps the order of the first list, and holds the
    elements common to all lists. *)
Lemma intersection_sublist (first : list string) (rest : list (list string)) :
  sublist (intersection (first :: rest)) first.
Proof.
  unfold intersection. generalize (fun x => forallb (fun l => includes l x) (first :: rest)).
  intros p. induction first as [| a l IH]; [constructor |]. cbn.
  destruct (p a); [apply sublist_skip | apply sublist_cons]; exact IH.
Qed.

Lemma intersection_elem_of (ls : list (list string)) (x : string) :
  x ∈ intersection ls <-> ls <> [] /\ Forall (fun l => x ∈ l) ls.
Proof.
  destruct ls as [| first rest]; cbn.
  - split; [intros H; inversion H | intros [H _]; contradiction].
  - rewrite list_elem_of_In, filter_In, <- list_elem_of_In, andb_true_iff, includes_elem_of.
    rewrite forallb_forall, Forall_cons, Forall_forall.
    setoid_rewrite includes_elem_of. setoid_rewrite list_elem_of_In.
    split; [intros (H1 & _ & H2) | intros (_ & H1 & H2)]; repeat split; auto; discriminate.
Qed.

Lemma consolidate_eq (i : nat) (lists : list (list string)) (st : WFC) :
  consolidate i lists st = outcome i st (computeEntropy (List.filter nonempty lists)).
Proof.
  unfold consolidate. destruct (List.filter nonempty lists) as [| first rest]; [reflexivity |].
  cbv zeta. rewrite reduce_is_filter. unfold computeEntropy.
  change (List.filter (fun x => forallb (fun l => includes l x) (first :: rest)) first)
    with (intersection (first :: rest)).
  destruct (intersection (first :: rest)); reflexivity.
Qed.

Lemma dir_list_declared (st : WFC) (i : nat) (d : Direction) :
  neighbours_declared st i ->
  dir_list st i d = Ok (default [] (contribution st i d)).
Proof.
  intros Hdecl. unfold dir_list, neighbor_list, contribution.
  destruct (neighbor st i d) as [j |] eqn:Hn; [| reflexivity]. cbn.
  destruct (Hdecl d j Hn) as (t & Ht & Hres).
  destruct (tiles st !! j) as [[t' |] |]; try discriminate. cbn in Ht. simplify_eq. cbn.
  destruct (is_zero (entropy t)); [| reflexivity].
  destruct (Hres eq_refl) as (ty & rule & Hty & Hrule). rewrite Hty. cbn.
  rewrite Hrule. reflexivity.
Qed.

Lemma filter_nonempty_omap {A} (f : A -> option (list string)) (l : list A) :
  List.filter nonempty (map (fun d => default [] (f d)) l)
  = List.filter nonempty (omap f l).
Proof.
  induction l as [| a l IH]; [reflexivity |]. cbn.
  destruct (f a) as [x |]; cbn; rewrite IH; reflexivity.
Qed.

Lemma gather_declared (st : WFC) (i : nat) :
  neighbours_declared st i ->
  gather st i = Ok (map (fun d => default [] (contribution st i d)) directions).
Proof.
  intros Hdecl. unfold gather. rewrite !dir_list_declared by assumption. reflexivity.
Qed.

Lemma computeEntropy_contradiction (ls : list (list string)) :
  computeEntropy ls = Contradiction <-> ls <> [] /\ intersection ls = [].
Proof.
  unfold computeEntropy. destruct ls as [| first rest].
  - split; [discriminate | intros [H _]; contradiction].
  - destruct (intersection (first :: rest)); split; try discriminate; auto.
    intros [_ H]. discriminate.
Qed.

(** C3, as the specification states it, fails on an empty rule list: the
    resolved left neighbour of cell 1 contributes the list of what may
    stand to its right, which is empty, so the intersection of the
    contributed lists is empty and the claim asks for a contradiction
    error; [_getEntropy] drops the empty list and returns [Infinity]. *)
Lemma empty_list_is_no_contradiction :
  tiles (Sample.dead_end 1)
    = [Some (mkTile 0 (Some "A") (Fin 0) []); Some (mkTile 1 (Some "") Infinity [])]
  /\ contributed (Sample.dead_end 1) 1 = [[]]
  /\ computeEntropy (contributed (Sample.dead_end 1) 1) = Contradiction
  /\ _getEntropy 1 (Sample.dead_end 1) = (Ok Infinity, Sample.dead_end 1).
Proof. by_evaluation. Qed.

(** C3 (amended): on a resolved cell [_getEntropy] returns 0 and changes
    nothing. On an unresolved cell, when every neighbour position that the
    code computes holds a tile and every resolved one of these neighbours
    has a declared type, the contributed lists that count are the
    non-empty ones: with none of them the result is [Infinity]; otherwise
    the intersection, in the order of the first such list, becomes the
    cell's candidate set and its size is returned, and the contradiction
    error is raised exactly when that intersection is empty. *)
Theorem getEntropy_spec (i : nat) (st : WFC) (t : TileData) :
  mjoin (tiles st !! i) = Some t ->
  (is_zero (entropy t) = true -> _getEntropy i st = (Ok (Fin 0), st))
  /\ (is_zero (entropy t) = false -> neighbours_declared st i ->
      let ls := List.filter nonempty (contributed st i) in
      _getEntropy i st = outcome i st (computeEntropy ls)
      /\ (ls = [] -> _getEntropy i st = (Ok Infinity, st))
      /\ (ls <> [] -> intersection ls <> [] ->
          _getEntropy i st
          = (Ok (Fin (length (intersection ls))), with_candidates i (intersection ls) st))
      /\ (fst (_getEntropy i st) = Throw BrokenPlot <-> ls <> [] /\ intersection ls = [])
      /\ sublist (intersection ls) (hd [] ls)
      /\ (forall x, x ∈ intersection ls <-> ls <> [] /\ Forall (fun l => x ∈ l) ls)).
Proof.
  intros Ht. rewrite getEntropy_eq.
  destruct (tiles st !! i) as [[t' |] |]; try discriminate. cbn in Ht. simplify_eq.
  split.
  - intros ->. reflexivity.
  - intros Hz Hdecl. cbv zeta. rewrite Hz, (gather_declared st i Hdecl), consolidate_eq.
    rewrite (filter_nonempty_omap (contribution st i) directions).
    change (omap (contribution st i) directions) with (contributed st i).
    set (ls := List.filter nonempty (contributed st i)).
    split; [reflexivity |]. split; [intros ->; reflexivity |].
    split; [| split; [| split]].
    + intros Hne Hi. unfold computeEntropy.
      destruct ls as [| first rest]; [contradiction |].
      destruct (intersection (first :: rest)); [contradiction | reflexivity].
    + rewrite <- computeEntropy_contradiction.
      destruct (computeEntropy ls); cbn; split; congruence.
    + destruct ls as [| first rest]; [constructor | apply intersection_sublist].
    + apply intersection_elem_of.
Qed.

Lemma getEntropy_spec_witness :
  _getEntropy 0 Sample.checker_started = (Ok (Fin 0), Sample.checker_started)
  /\ _getEntropy 1 Sample.checker_started
     = (Ok (Fin 1), with_candidates 1 ["B"] Sample.checker_started).
Proof.
  split.
  - destruct (getEntropy_spec 0 Sample.checker_started (mkTile 0 (Some "A") (Fin 0) []))
      as [H _]; [reflexivity |].
    apply H. reflexivity.
  - destruct (getEntropy_spec 1 Sample.checker_started (mkTile 1 (Some "") Infinity []))
      as [_ H]; [reflexivity |].
    destruct H as (_ & _ & H & _); [reflexivity | |].
    + intros d j Hn. destruct d; vm_compute in Hn; simplify_eq.
      * eexists. split; [reflexivity |]. intros E. discriminate E.
      * eexists. split; [reflexivity |]. intros _. do 2 eexists. split; reflexivity.
    + apply H; vm_compute; discriminate.
Defined.

(** The hypothesis on the neighbour positions cannot be dropped: with a
    fifth tile on the 2 x 2 grid, the right neighbour of cell 4 is
    position 5, past the end of the array, and reading its entropy
    throws. No neighbour of cell 4 is resolved. *)
Lemma missing_neighbour_throws :
  length (tiles Cases.ragged) = 5
  /\ neighbor Cases.ragged 4 Right = Some 5
  /\ contributed Cases.ragged 4 = []
  /\ _getEntropy 4 Cases.ragged = (Throw TypeError, Cases.ragged).
Proof. by_evaluation. Qed.

(** ** The skeleton of the grid *)

Lemma tile_skel_refl (t : TileData) : tile_skel t t.
Proof. repeat split. Qed.

Lemma cell_skel_refl (o : option (option TileData)) : cell_skel o o.
Proof. destruct o as [[t |] |]; cbn; [apply tile_skel_refl | |]; reflexivity. Qed.

Lemma tile_skel_trans (t1 t2 t3 : TileData) :
  tile_skel t1 t2 -> tile_skel t2 t3 -> tile_skel t1 t3.
Proof.
  intros (A1 & A2 & A3 & A4) (B1 & B2 & B3 & B4). repeat split; try congruence.
  intros Hz. rewrite B4, A4; [reflexivity | assumption |].
  rewrite A4 by assumption. assumption.
Qed.

Lemma cell_skel_trans (o1 o2 o3 : option (option TileData)) :
  cell_skel o1 o2 -> cell_skel o2 o3 -> cell_skel o1 o3.
Proof.
  destruct o1 as [[t1 |] |], o2 as [[t2 |] |], o3 as [[t3 |] |]; cbn;
    try congruence; try discriminate.
  apply tile_skel_trans.
Qed.

Lemma skel_refl (st : WFC) : skel st st.
Proof. constructor; try reflexivity. intros k. apply cell_skel_refl. Qed.

Lemma skel_trans (s1 s2 s3 : WFC) : skel s1 s2 -> skel s2 s3 -> skel s1 s3.
Proof.
  intros [A1 A2 A3 A4 A5] [B1 B2 B3 B4 B5]. constructor; try congruence.
  intros k. eapply cell_skel_trans; [apply A5 | apply B5].
Qed.

Lemma skel_lookup (st st' : WFC) (k : nat) (t : TileData) :
  skel st st' -> tiles st !! k = Some (Some t) ->
  exists t', tiles st' !! k = Some (Some t') /\ tile_skel t t'.
Proof.
  intros Hs Hk. pose proof (skel_cells _ _ Hs k) as Hc. rewrite Hk in Hc.
  destruct (tiles st' !! k) as [[t' |] |]; cbn in Hc; try discriminate.
  exists t'. split; [reflexivity | assumption].
Qed.

Lemma skel_lookup_inv (st st' : WFC) (k : nat) (t' : TileData) :
  skel st st' -> tiles st' !! k = Some (Some t') ->
  exists t, tiles st !! k = Some (Some t) /\ tile_skel t t'.
Proof.
  intros Hs Hk. pose proof (skel_cells _ _ Hs k) as Hc. rewrite Hk in Hc.
  destruct (tiles st !! k) as [[t |] |]; cbn in Hc; try discriminate.
  exists t. split; [reflexivity | assumption].
Qed.

(** A resolved tile is the same tile in every later state. *)
Lemma skel_resolved (st st' : WFC) (k : nat) (t : TileData) :
  skel st st' -> tiles st !! k = Some (Some t) -> is_zero (entropy t) = true ->
  tiles st' !! k = Some (Some t).
Proof.
  intros Hs Hk Hz. destruct (skel_lookup st st' k t Hs Hk) as (t' & Hk' & _ & _ & _ & E).
  rewrite Hk', (E Hz). reflexivity.
Qed.

Lemma skel_alter (st : WFC) (k : nat) (f : TileData -> TileData) :
  (forall t, tiles st !! k = Some (Some t) -> tile_skel t (f t)) ->
  skel st (set_tiles (alter (fmap f) k (tiles st)) st).
Proof.
  intros Hf. constructor; try reflexivity.
  - cbn. apply length_alter.
  - intros j. cbn. destruct (decide (j = k)) as [-> | Hne].
    + rewrite list_lookup_alter_eq.
      destruct (tiles st !! k) as [[t |] |] eqn:Hk; cbn; [apply Hf | |]; reflexivity.
    + rewrite list_lookup_alter_ne by congruence. apply cell_skel_refl.
Qed.

Lemma skel_unresolved (st st' : WFC) (j : nat) :
  skel st st' -> unresolved_at st j -> unresolved_at st' j.
Proof.
  intros Hs (t & Hj & Hz). destruct (skel_lookup st st' j t Hs Hj) as (t' & Hj' & _ & _ & E & _).
  exists t'. split; [assumption | congruence].
Qed.

Lemma neighbor_skel (st st' : WFC) (i : nat) (d : Direction) :
  skel st st' -> neighbor st' i d = neighbor st i d.
Proof.
  intros Hs. unfold neighbor. rewrite (skel_width _ _ Hs), (skel_length _ _ Hs). reflexivity.
Qed.

Lemma neighbor_list_skel (st st' : WFC) (n : option nat) (sd : Rule -> list string) :
  skel st st' -> neighbor_list st' n sd = neighbor_list st n sd.
Proof.
  intros Hs. unfold neighbor_list. destruct n as [j |]; [| reflexivity].
  pose proof (skel_cells _ _ Hs j) as Hc. rewrite (skel_rules _ _ Hs).
  destruct (tiles st !! j) as [[t |] |], (tiles st' !! j) as [[t' |] |];
    cbn in Hc; try discriminate; try reflexivity.
  destruct Hc as (_ & Hty & Hz & _). rewrite Hty, Hz. reflexivity.
Qed.

(** What a cell gathers from its neighbours depends on the skeleton only. *)
Lemma gather_skel (st st' : WFC) (k : nat) : skel st st' -> gather st' k = gather st k.
Proof.
  intros Hs. unfold gather, dir_list.
  rewrite !(neighbor_skel st st') by assumption.
  rewrite !(neighbor_list_skel st st') by assumption. reflexivity.
Qed.

Lemma avail_ok_skel (st st' : WFC) (k : nat) (t t' : TileData) :
  skel st st' -> avail_ok st k ->
  tiles st !! k = Some (Some t) -> tiles st' !! k = Some (Some t') ->
  availableTiles t' = availableTiles t -> avail_ok st' k.
Proof.
  intros Hs (t0 & lists & Hk & Hg & Ha) Ht Ht' E. simplify_eq.
  exists t', lists. repeat split; [assumption | | congruence].
  rewrite (gather_skel st st' k Hs). assumption.
Qed.

Lemma evolves_refl (st : WFC) : evolves st st.
Proof. split; [apply skel_refl |]. intros k t t' H H'. left. congruence. Qed.

Lemma evolves_trans (s1 s2 s3 : WFC) : evolves s1 s2 -> evolves s2 s3 -> evolves s1 s3.
Proof.
  intros [S12 A12] [S23 A23]. split; [eapply skel_trans; eassumption |].
  intros k t1 t3 H1 H3.
  destruct (skel_lookup s1 s2 k t1 S12 H1) as (t2 & H2 & _).
  destruct (A23 k t2 t3 H2 H3) as [E23 | Hok]; [| right; assumption].
  destruct (A12 k t1 t2 H1 H2) as [E12 | Hok]; [left; congruence |].
  right. eapply avail_ok_skel; eassumption.
Qed.

Lemma evolves_skel (st st' : WFC) : evolves st st' -> skel st st'.
Proof. intros [H _]. exact H. Qed.

(** A candidate set that is up to date stays so. *)
Lemma evolves_avail_ok (st st' : WFC) (k : nat) :
  evolves st st' -> avail_ok st k -> avail_ok st' k.
Proof.
  intros [Hs Ha] Hok. pose proof Hok as (t & lists & Hk & _).
  destruct (skel_lookup st st' k t Hs Hk) as (t' & Hk' & _).
  destruct (Ha k t t' Hk Hk') as [E | H]; [| assumption].
  eapply avail_ok_skel; eassumption.
Qed.

(** ** The outcomes of [_getEntropy] *)

Lemma getEntropy_outcome (i : nat) (st : WFC) :
  GetEntropy i st (fst (_getEntropy i st)) (snd (_getEntropy i st)).
Proof.
  rewrite getEntropy_eq. destruct (tiles st !! i) as [[t |] |] eqn:Hi;
    try (cbn [fst snd]; apply GE_missing; rewrite Hi; reflexivity).
  destruct (is_zero (entropy t)) eqn:Hz; [eapply GE_resolved; eassumption |].
  destruct (gather st i) as [lists | e] eqn:Hg; [| eapply GE_error; eassumption].
  rewrite consolidate_eq. unfold computeEntropy.
  destruct (List.filter nonempty lists) as [| first rest] eqn:Hf.
  - eapply GE_unconstrained; eassumption.
  - destruct (intersection (first :: rest)) as [| x c] eqn:Hc; cbn [outcome fst snd].
    + eapply GE_contradiction; try eassumption; rewrite Hf; [discriminate | assumption].
    + rewrite <- Hc, <- Hf.
      eapply GE_candidates; try eassumption; rewrite Hf; [discriminate |].
      rewrite Hc. discriminate.
Qed.

Lemma getEntropy_cases (i : nat) (st st' : WFC) (r : Result Entropy) :
  _getEntropy i st = (r, st') -> GetEntropy i st r st'.
Proof. intros H. pose proof (getEntropy_outcome i st) as G. rewrite H in G. exact G. Qed.

Lemma with_candidates_evolves (i : nat) (st : WFC) (t : TileData) (lists : list (list string)) :
  tiles st !! i = Some (Some t) -> is_zero (entropy t) = false ->
  gather st i = Ok lists ->
  evolves st (with_candidates i (intersection (List.filter nonempty lists)) st).
Proof.
  intros Hi Hz Hg.
  assert (Hs : skel st (with_candidates i (intersection (List.filter nonempty lists)) st)).
  { apply skel_alter. intros t0 H0. simplify_eq. repeat split. cbn. congruence. }
  split; [exact Hs |]. intros k t0 t' H0 H'.
  destruct (decide (k = i)) as [-> | Hne].
  - right. simplify_eq. exists t', lists. repeat split; [assumption | |].
    + rewrite (gather_skel _ _ i Hs). assumption.
    + cbn in H'. rewrite list_lookup_alter_eq, Hi in H'. cbn in H'. simplify_eq. reflexivity.
  - left. cbn in H'. rewrite list_lookup_alter_ne in H' by congruence. congruence.
Qed.

Lemma getEntropy_evolves (i : nat) (st st' : WFC) (r : Result Entropy) :
  _getEntropy i st = (r, st') -> evolves st st'.
Proof.
  intros H. apply getEntropy_cases in H. destruct H; try apply evolves_refl.
  eapply with_candidates_evolves; eassumption.
Qed.

(** A non-zero result is the result on an unresolved cell. *)
Lemma getEntropy_truthy (i : nat) (st st' : WFC) (e : Entropy) :
  _getEntropy i st = (Ok e, st') -> truthy e = true -> unresolved_at st i.
Proof.
  intros H Ht. apply getEntropy_cases in H. inversion H; subst; try discriminate;
    eexists; split; eassumption.
Qed.

(** ** Propagation *)

Lemma bind_eq {A B} (m : M A) (k : A -> M B) (st : WFC) :
  bind m k st = match m st with
                | (Ok a, st') => k a st'
                | (Throw e, st') => (Throw e, st')
                end.
Proof. reflexivity. Qed.

Lemma neighborEntropy_spec (n : option nat) (d : Direction) (st st' : WFC)
    (r : Result (option Entropy)) :
  neighborEntropy n d st = (r, st') ->
  evolves st st'
  /\ (forall oe, r = Ok oe ->
      match n, oe with
      | Some j, Some e => _getEntropy j st = (Ok e, st')
      | None, None => True
      | _, _ => False
      end).
Proof.
  unfold neighborEntropy. destruct n as [j |].
  - unfold try_catch, bind, ret, throw.
    destruct (_getEntropy j st) as [[e | e] s] eqn:E; intros H; simplify_eq;
      (split; [eapply getEntropy_evolves; eassumption |]); intros oe Hoe; simplify_eq.
    reflexivity.
  - unfold ret. intros H. simplify_eq. split; [apply evolves_refl |].
    intros oe Hoe. simplify_eq. exact I.
Qed.

Lemma with_entropy_evolves (j : nat) (e : Entropy) (st : WFC) :
  unresolved_at st j -> truthy e = true ->
  exists st', update_tile j (with_entropy e) st = (Ok tt, st') /\ evolves st st'.
Proof.
  intros (t & Hj & Hz) He. eexists. split; [eapply update_tile_Some; eassumption |].
  split.
  - apply skel_alter. intros t0 H0. simplify_eq. repeat split; cbn.
    + unfold truthy in He. apply negb_true_iff in He. congruence.
    + congruence.
  - intros k t0 t' H0 H'. left. cbn in H'. destruct (decide (k = j)) as [-> | Hne].
    + rewrite list_lookup_alter_eq, Hj in H'. cbn in H'. simplify_eq. reflexivity.
    + rewrite list_lookup_alter_ne in H' by congruence. congruence.
Qed.

Lemma write_ready_skel (st st' : WFC) (n : option nat) (oe : option Entropy) :
  skel st st' -> write_ready st n oe -> write_ready st' n oe.
Proof. intros Hs H j e Hn Hoe He. eapply skel_unresolved; [eassumption | eauto]. Qed.

Lemma set_entropy_spec (n : option nat) (oe : option Entropy) (st : WFC) :
  write_ready st n oe ->
  exists st', set_entropy n oe st = (Ok tt, st') /\ evolves st st'.
Proof.
  intros Hw. unfold set_entropy. destruct n as [j |], oe as [e |];
    try (exists st; split; [reflexivity | apply evolves_refl]).
  destruct (truthy e) eqn:He; [| exists st; split; [reflexivity | apply evolves_refl]].
  apply with_entropy_evolves; [eapply Hw; eauto | assumption].
Qed.

Lemma set_left_entropy_spec (n : option nat) (oe : option Entropy) (st : WFC) :
  write_ready st n oe ->
  exists st', set_left_entropy n oe st = (Ok tt, st') /\ evolves st st'.
Proof.
  intros Hw. unfold set_left_entropy. destruct n as [j |], oe as [e |];
    try (exists st; split; [reflexivity | apply evolves_refl]).
  destruct (truthy e) eqn:He; [| exists st; split; [reflexivity | apply evolves_refl]].
  destruct (Hw j e eq_refl eq_refl He) as (t & Hj & Hz).
  rewrite bind_eq, (tile_at_Some j t st Hj), Hz.
  apply with_entropy_evolves; [exists t; split; assumption | assumption].
Qed.

Lemma neighborEntropy_write_ready (n : option nat) (d : Direction) (st st' : WFC)
    (oe : option Entropy) :
  neighborEntropy n d st = (Ok oe, st') -> write_ready st n oe.
Proof.
  intros H j e -> -> He. apply neighborEntropy_spec in H as [_ H].
  specialize (H (Some e) eq_refl). cbn in H. eapply getEntropy_truthy; eassumption.
Qed.

(** The effect of [_setEntropyOfSurroundingTiles]: the skeleton is kept
    whether it throws or not; when it does not throw, the entropy of every
    neighbour has been computed in a state between the first and the last. *)
Lemma propagate_spec (i : nat) (st st' : WFC) (r : Result unit) :
  _setEntropyOfSurroundingTiles i st = (r, st') ->
  evolves st st'
  /\ (r = Ok tt ->
      forall d j, neighbor st i d = Some j ->
        exists s s' e,
          evolves st s /\ _getEntropy j s = (Ok e, s') /\ evolves s' st').
Proof.
  unfold _setEntropyOfSurroundingTiles.
  rewrite bind_eq; cbn [gets]. rewrite bind_eq; cbn [gets]. rewrite bind_eq.
  destruct (neighborEntropy (upTileIndex (width st) i) Up st) as [[ue | e] s1] eqn:E1;
    [| intros H; simplify_eq; apply neighborEntropy_spec in E1 as [E1 _];
       split; [assumption | discriminate]].
  rewrite bind_eq.
  destruct (neighborEntropy (downTileIndex (width st) (length (tiles st)) i) Down s1)
    as [[de | e] s2] eqn:E2;
    [| intros H; simplify_eq; apply neighborEntropy_spec in E1 as [E1 _];
       apply neighborEntropy_spec in E2 as [E2 _];
       split; [eapply evolves_trans; eassumption | discriminate]].
  rewrite bind_eq.
  destruct (neighborEntropy (leftTileIndex (width st) i) Left s2) as [[le | e] s3] eqn:E3;
    [| intros H; simplify_eq; apply neighborEntropy_spec in E1 as [E1 _];
       apply neighborEntropy_spec in E2 as [E2 _];
       apply neighborEntropy_spec in E3 as [E3 _];
       split; [eauto using evolves_trans | discriminate]].
  rewrite bind_eq.
  destruct (neighborEntropy (rightTileIndex (width st) i) Right s3) as [[re | e] s4] eqn:E4;
    [| intros H; simplify_eq; apply neighborEntropy_spec in E1 as [E1 _];
       apply neighborEntropy_spec in E2 as [E2 _];
       apply neighborEntropy_spec in E3 as [E3 _];
       apply neighborEntropy_spec in E4 as [E4 _];
       split; [eauto using evolves_trans | discriminate]].
  pose proof (neighborEntropy_write_ready _ _ _ _ _ E1) as W1.
  pose proof (neighborEntropy_write_ready _ _ _ _ _ E2) as W2.
  pose proof (neighborEntropy_write_ready _ _ _ _ _ E3) as W3.
  pose proof (neighborEntropy_write_ready _ _ _ _ _ E4) as W4.
  apply neighborEntropy_spec in E1 as [V1 G1].
  apply neighborEntropy_spec in E2 as [V2 G2].
  apply neighborEntropy_spec in E3 as [V3 G3].
  apply neighborEntropy_spec in E4 as [V4 G4].
  pose proof (evolves_skel _ _ V1) as K1. pose proof (evolves_skel _ _ V2) as K2.
  pose proof (evolves_skel _ _ V3) as K3. pose proof (evolves_skel _ _ V4) as K4.
  destruct (set_left_entropy_spec (leftTileIndex (width st) i) le s4) as (s5 & U5 & V5);
    [eapply write_ready_skel; [| exact W3]; eauto 10 using skel_trans |].
  pose proof (evolves_skel _ _ V5) as K5.
  destruct (set_entropy_spec (rightTileIndex (width st) i) re s5) as (s6 & U6 & V6);
    [eapply write_ready_skel; [| exact W4]; eauto 10 using skel_trans |].
  pose proof (evolves_skel _ _ V6) as K6.
  destruct (set_entropy_spec (upTileIndex (width st) i) ue s6) as (s7 & U7 & V7).
  { eapply write_ready_skel; [| exact W1].
    eauto 10 using skel_trans. }
  pose proof (evolves_skel _ _ V7) as K7.
  destruct (set_entropy_spec (downTileIndex (width st) (length (tiles st)) i) de s7)
    as (s8 & U8 & V8).
  { eapply write_ready_skel; [| exact W2].
    eauto 10 using skel_trans. }
  rewrite bind_eq, U5, bind_eq, U6, bind_eq, U7, U8. intros H. simplify_eq.
  assert (V48 : evolves s4 st') by eauto 10 using evolves_trans.
  split; [eauto 10 using evolves_trans |].
  intros _ d j Hn. destruct d; cbn in Hn.
  - rewrite Hn in G1. specialize (G1 ue eq_refl). destruct ue as [e |]; [| contradiction].
    exists st, s1, e. split; [apply evolves_refl |]. split; [assumption |].
    eauto 10 using evolves_trans.
  - rewrite Hn in G2. specialize (G2 de eq_refl). destruct de as [e |]; [| contradiction].
    exists s1, s2, e. split; [assumption |]. split; [assumption |].
    eauto 10 using evolves_trans.
  - rewrite Hn in G3. specialize (G3 le eq_refl). destruct le as [e |]; [| contradiction].
    exists s2, s3, e. split; [eauto using evolves_trans |]. split; [assumption |].
    eauto 10 using evolves_trans.
  - rewrite Hn in G4. specialize (G4 re eq_refl). destruct re as [e |]; [| contradiction].
    exists s3, s4, e. split; [eauto using evolves_trans |]. split; assumption.
Qed.

(** Whatever cell the propagation starts from and however it ends, a
    resolved tile anywhere in the grid is left as it is. *)
Lemma propagation_frame (i j : nat) (st : WFC) (t : TileData) :
  tiles st !! j = Some (Some t) -> is_zero (entropy t) = true ->
  tiles (snd (_setEntropyOfSurroundingTiles i st)) !! j = Some (Some t).
Proof.
  intros Hj Hz. destruct (_setEntropyOfSurroundingTiles i st) as [r st'] eqn:E.
  apply propagate_spec in E as [[Hs _] _]. cbn [snd].
  eapply skel_resolved; eassumption.
Qed.

(** C8: a neighbour, in any of the four directions, whose entropy is 0
    before [_setEntropyOfSurroundingTiles] runs is the same tile afterwards,
    with its entropy and its type, whether the propagation succeeds or
    throws. *)
Theorem propagation_keeps_resolved (i : nat) (st : WFC) (d : Direction) (j : nat)
    (t : TileData) :
  neighbor st i d = Some j ->
  tiles st !! j = Some (Some t) ->
  entropy t = Fin 0 ->
  tiles (snd (_setEntropyOfSurroundingTiles i st)) !! j = Some (Some t)
  /\ (forall t', tiles (snd (_setEntropyOfSurroundingTiles i st)) !! j = Some (Some t') ->
      entropy t' = Fin 0 /\ type t' = type t).
Proof.
  intros _ Hj He.
  assert (H : tiles (snd (_setEntropyOfSurroundingTiles i st)) !! j = Some (Some t)).
  { apply propagation_frame; [assumption |]. rewrite He. reflexivity. }
  split; [exact H |]. intros t' H'. rewrite H in H'. simplify_eq. split; [assumption | reflexivity].
Qed.

Lemma propagation_keeps_resolved_witness :
  tiles (snd (_setEntropyOfSurroundingTiles 1 Sample.checker_started)) !! 0
  = Some (Some (mkTile 0 (Some "A") (Fin 0) [])).
Proof.
  apply (propagation_keeps_resolved 1 Sample.checker_started Left 0
           (mkTile 0 (Some "A") (Fin 0) [])); reflexivity.
Defined.

(** ** The grid *)

Lemma mod_succ (w i : nat) : 0 < w -> i mod w <> w - 1 -> (i + 1) mod w = i mod w + 1.
Proof.
  intros Hw Hne. pose proof (Nat.mod_upper_bound i w ltac:(lia)) as Hlt.
  symmetry. apply (Nat.mod_unique (i + 1) w (i / w)); [lia |].
  pose proof (Nat.div_mod_eq i w). lia.
Qed.

Lemma mod_pred (w i : nat) : 0 < w -> i mod w <> 0 -> (i - 1) mod w = i mod w - 1.
Proof.
  intros Hw Hne. pose proof (Nat.mod_upper_bound i w ltac:(lia)) as Hlt.
  symmetry. apply (Nat.mod_unique (i - 1) w (i / w)); [lia |].
  pose proof (Nat.div_mod_eq i w). lia.
Qed.

(** On a grid of positive width, the neighbour relation is symmetric ... *)
Lemma neighbor_sym (st : WFC) (i j : nat) (d : Direction) :
  0 < width st -> i < length (tiles st) ->
  neighbor st i d = Some j -> neighbor st j (opposite d) = Some i.
Proof.
  intros Hw Hi. destruct d; cbn;
    unfold upTileIndex, downTileIndex, leftTileIndex, rightTileIndex;
    repeat match goal with
           | |- context [?a <? ?b] => destruct (Nat.ltb_spec a b)
           | |- context [?a <=? ?b] => destruct (Nat.leb_spec a b)
           | |- context [?a =? ?b] => destruct (Nat.eqb_spec a b)
           end; intros Hn; simplify_eq; try lia; try (f_equal; lia);
    pose proof (Nat.mod_upper_bound i (width st) ltac:(lia)) as Hb.
  - exfalso. rewrite mod_pred in * by lia. lia.
  - assert (i <> 0) by (intros ->; rewrite Nat.Div0.mod_0_l in *; lia).
    f_equal. lia.
  - exfalso. rewrite mod_succ in * by lia. lia.
Qed.

(** ... and no cell is its own neighbour. *)
Lemma neighbor_irrefl (st : WFC) (i : nat) (d : Direction) :
  0 < width st -> neighbor st i d <> Some i.
Proof.
  intros Hw. destruct d; cbn;
    unfold upTileIndex, downTileIndex, leftTileIndex, rightTileIndex;
    repeat match goal with
           | |- context [?a <? ?b] => destruct (Nat.ltb_spec a b)
           | |- context [?a <=? ?b] => destruct (Nat.leb_spec a b)
           | |- context [?a =? ?b] => destruct (Nat.eqb_spec a b)
           end; intros Hn; simplify_eq; try lia.
  assert (i <> 0) by (intros ->; rewrite Nat.Div0.mod_0_l in *; lia). lia.
Qed.

Lemma opposite_involutive (d : Direction) : opposite (opposite d) = d.
Proof. destruct d; reflexivity. Qed.

(** ** What the gathered lists hold *)

Lemma nonempty_true {A} (l : list A) : nonempty l = true <-> l <> [].
Proof. destruct l; cbn; split; congruence. Qed.

Lemma gather_Ok_dir (st : WFC) (k : nat) (lists : list (list string)) (d : Direction) :
  gather st k = Ok lists -> exists l, dir_list st k d = Ok l /\ l ∈ lists.
Proof.
  unfold gather.
  destruct (dir_list st k Up) as [u |] eqn:Eu; [| discriminate].
  destruct (dir_list st k Down) as [dn |] eqn:Ed; [| discriminate].
  destruct (dir_list st k Left) as [l |] eqn:El; [| discriminate].
  destruct (dir_list st k Right) as [r |] eqn:Er; [| discriminate].
  cbn. intros H. simplify_eq.
  destruct d; eexists; (split; [eassumption |]); apply list_elem_of_In; cbn; tauto.
Qed.

Lemma dir_list_resolved (st : WFC) (k n : nat) (d : Direction) (tn : TileData)
    (l : list string) :
  neighbor st k d = Some n -> tiles st !! n = Some (Some tn) ->
  is_zero (entropy tn) = true -> dir_list st k d = Ok l ->
  exists a ra, type tn = Some a /\ obj_get (rules st) a = Some ra
               /\ l = side (opposite d) ra.
Proof.
  intros Hn Ht Hz. unfold dir_list, neighbor_list. rewrite Hn, Ht, Hz.
  destruct (type tn) as [a |]; [| discriminate].
  destruct (obj_get (rules st) a) as [ra |] eqn:Hra; [| discriminate].
  intros H. simplify_eq. exists a, ra. split; [reflexivity |]. split; [assumption | reflexivity].
Qed.

(** With no empty rule list, a resolved neighbour's list is among those
    that count. *)
Lemma resolved_neighbour_counts (st : WFC) (k n : nat) (d : Direction) (tn : TileData)
    (lists : list (list string)) :
  lists_nonempty (rules st) -> gather st k = Ok lists ->
  neighbor st k d = Some n -> tiles st !! n = Some (Some tn) ->
  is_zero (entropy tn) = true ->
  exists a ra, type tn = Some a /\ obj_get (rules st) a = Some ra
               /\ In (side (opposite d) ra) (List.filter nonempty lists).
Proof.
  intros Hne Hg Hn Ht Hz. destruct (gather_Ok_dir st k lists d Hg) as (l & Hl & Hin).
  destruct (dir_list_resolved st k n d tn l Hn Ht Hz Hl) as (a & ra & Hty & Hra & ->).
  exists a, ra. repeat split; try assumption.
  apply filter_In. split; [apply list_elem_of_In, Hin |].
  apply nonempty_true. eapply Hne; eassumption.
Qed.

(** A candidate of a cell is allowed by every resolved neighbour. *)
Lemma candidate_respects (st : WFC) (k n : nat) (d : Direction) (t tn : TileData)
    (ty a : string) :
  lists_nonempty (rules st) -> avail_ok st k ->
  tiles st !! k = Some (Some t) -> ty ∈ availableTiles t ->
  neighbor st k d = Some n -> tiles st !! n = Some (Some tn) ->
  is_zero (entropy tn) = true -> type tn = Some a ->
  exists ra, obj_get (rules st) a = Some ra /\ ty ∈ side (opposite d) ra.
Proof.
  intros Hne (t0 & lists & Hk0 & Hg & Ha) Hk Hty Hn Htn Hz Ha'. simplify_eq.
  destruct (resolved_neighbour_counts st k n d tn lists Hne Hg Hn Htn Hz)
    as (a0 & ra & Hty0 & Hra & Hin).
  assert (a0 = a) by congruence. subst a0. exists ra. split; [assumption |].
  rewrite Ha in Hty. apply intersection_elem_of in Hty as [_ Hall].
  rewrite Forall_forall in Hall. apply Hall, list_elem_of_In, Hin.
Qed.

Lemma gather_frame (st s1 : WFC) (k : nat) :
  width s1 = width st -> length (tiles s1) = length (tiles st) -> rules s1 = rules st ->
  (forall d n, neighbor st k d = Some n -> tiles s1 !! n = tiles st !! n) ->
  gather s1 k = gather st k.
Proof.
  intros Hw Hl Hr Hf.
  assert (Hd : forall d, dir_list s1 k d = dir_list st k d).
  { intros d. unfold dir_list.
    assert (Hn : neighbor s1 k d = neighbor st k d)
      by (unfold neighbor; rewrite Hw, Hl; reflexivity).
    rewrite Hn. unfold neighbor_list. destruct (neighbor st k d) as [n |] eqn:E; [| reflexivity].
    rewrite (Hf d n E), Hr. reflexivity. }
  unfold gather. rewrite !Hd. reflexivity.
Qed.

Lemma with_candidates_avail_ok (i : nat) (st : WFC) (t : TileData) (lists : list (list string)) :
  tiles st !! i = Some (Some t) -> is_zero (entropy t) = false ->
  gather st i = Ok lists ->
  avail_ok (with_candidates i (intersection (List.filter nonempty lists)) st) i.
Proof.
  intros Hi Hz Hg.
  pose proof (with_candidates_evolves i st t lists Hi Hz Hg) as [Hs _].
  eexists _, lists. repeat split.
  - cbn. rewrite list_lookup_alter_eq, Hi. reflexivity.
  - rewrite (gather_skel _ _ i Hs). assumption.
  - reflexivity.
Qed.

(** On an unresolved tile a result of [_getEntropy] is never 0, and with
    a non-empty list among the gathered ones the candidate set is brought
    up to date. *)
Lemma getEntropy_unresolved (i : nat) (st st' : WFC) (e : Entropy) :
  unresolved_at st i -> _getEntropy i st = (Ok e, st') ->
  truthy e = true
  /\ exists lists, gather st i = Ok lists
       /\ (List.filter nonempty lists = [] /\ st' = st
           \/ List.filter nonempty lists <> [] /\ avail_ok st' i).
Proof.
  intros (t & Hi & Hz) H. apply getEntropy_cases in H.
  inversion H; subst; simplify_eq; try congruence.
  - split; [reflexivity |]. eexists. split; [eassumption |]. left. split; [assumption | reflexivity].
  - split.
    + unfold truthy. cbn.
      destruct (intersection (List.filter nonempty lists)); [contradiction | reflexivity].
    + eexists. split; [eassumption |]. right. split; [assumption |].
      eapply with_candidates_avail_ok; eassumption.
Qed.

(** ** Picking *)

Lemma elem_of_entries (ts : list (option TileData)) (k : nat) (t : TileData) :
  (k, t) ∈ entries ts <-> ts !! k = Some (Some t).
Proof.
  unfold entries. rewrite list_elem_of_omap. split.
  - intros ([i o] & Hin & Heq). apply elem_of_lookup_imap in Hin as (i' & o' & E & Hl).
    simplify_eq. destruct o' as [t' |]; cbn in Heq; simplify_eq. assumption.
  - intros H. exists (k, Some t). split; [| reflexivity].
    apply elem_of_lookup_imap. exists k, (Some t). split; [reflexivity | assumption].
Qed.

Lemma Math_min_nonzero (l : list Entropy) :
  Forall (fun e => is_zero e = false) l -> is_zero (Math_min l) = false.
Proof.
  induction 1 as [| e l He _ IH]; [reflexivity |].
  change (Math_min (e :: l)) with (Entropy_min e (Math_min l)).
  destruct e as [[| n] |]; cbn in He; try discriminate;
    destruct (Math_min l) as [[| m] |]; cbn in *; try discriminate; reflexivity.
Qed.

Lemma Entropy_eqb_eq (a b : Entropy) : Entropy_eqb a b = true -> a = b.
Proof.
  destruct a as [n |], b as [m |]; cbn; try discriminate; [| reflexivity].
  intros H. apply Nat.eqb_eq in H. congruence.
Qed.

(** The tiles of lowest entropy are unresolved tiles of the grid. *)
Lemma lowest_unresolved (st : WFC) (cur : nat) :
  In cur (_getListofTilesWithLowestEntropy st) -> unresolved_at st cur.
Proof.
  unfold _getListofTilesWithLowestEntropy. cbv zeta. intros H.
  apply in_map_iff in H as ([k t] & E & Hin). cbn in E. subst k.
  apply filter_In in Hin as [Hin Heq]. cbn in Heq.
  exists t. split; [apply elem_of_entries, list_elem_of_In, Hin |].
  apply Entropy_eqb_eq in Heq. rewrite Heq. apply Math_min_nonzero.
  apply Forall_forall. intros e He. apply list_elem_of_In, in_map_iff in He as (x & <- & Hx).
  apply filter_In in Hx as [_ Hx]. unfold unresolved in Hx.
  apply negb_true_iff in Hx. exact Hx.
Qed.

Lemma js_get_In {A} (l : list A) (z : Z) (x : A) : js_get l z = Some x -> In x l.
Proof.
  unfold js_get. destruct (z <? 0)%Z; [discriminate |]. intros H.
  apply list_elem_of_In. eapply list_elem_of_lookup_2, H.
Qed.

Lemma pickOne_In {A} (set : list A) (r r' : Random) (x : A) :
  pickOne set r = (Some x, r') -> In x set.
Proof. rewrite pickOne_unfold. intros H. simplify_eq. eapply js_get_In; eassumption. Qed.

Lemma weighted_items_In (w : Obj WeightData) (item x : string) :
  In x (weighted_items w item) -> x = item.
Proof.
  unfold weighted_items. intros H.
  assert (Hrep : forall n, In x (replicate n item) -> x = item).
  { intros n Hn. apply list_elem_of_In, elem_of_replicate in Hn as [-> _]. reflexivity. }
  repeat case_match; cbn in H; try (destruct H as [<- | []]; reflexivity);
    try contradiction; eauto.
Qed.

(** A weighted pick that returns a type returns one of the candidates. *)
Lemma pickOneWeighted_In (set : list string) (w : Obj WeightData) (r r' : Random)
    (x : string) :
  pickOneWeighted set w r = (Some x, r') -> In x set.
Proof.
  unfold pickOneWeighted. cbv zeta. destruct (getRandom r) as [rnd r0]. intros H.
  injection H as Hget _. apply js_get_In, in_flat_map in Hget as (item & Hitem & Hx).
  apply weighted_items_In in Hx. subst. assumption.
Qed.

Lemma with_rnd_eq {A} (f : Random -> A * Random) (st : WFC) :
  with_rnd f st = (Ok (fst (f (rnd st))), set_rnd (snd (f (rnd st))) st).
Proof. unfold with_rnd. destruct (f (rnd st)). reflexivity. Qed.

(** ** One step of the generator *)

(** A pass of the attempt loop that does not throw has resolved the tile
    to a candidate (or to [undefined]) and propagated without error. *)
Lemma attempt_pass_Ok (cur retries : nat) (st st' : WFC) (flow : Flow) (t : TileData) :
  tiles st !! cur = Some (Some t) -> retries <> 0 ->
  attempt_pass cur retries [] st = (Ok flow, st') ->
  exists ty r,
    (forall x, ty = Some x -> In x (availableTiles t))
    /\ _setEntropyOfSurroundingTiles (index t) (resolve cur ty (set_rnd r st)) = (Ok tt, st')
    /\ (flow = Return /\ _getNumberOfRemainingTilesToCollapse st' = 0
        \/ flow = Yield /\ _getNumberOfRemainingTilesToCollapse st' <> 0
           /\ some_undefined_type st' = false).
Proof.
  intros Ht Hr. unfold attempt_pass. rewrite bind_eq. unfold try_catch. rewrite bind_eq.
  unfold attempt_try. destruct (Nat.leb_spec retries 0) as [Hle | _]; [lia |].
  rewrite bind_eq, (tile_at_Some cur t st Ht). rewrite bind_eq. cbn [gets].
  rewrite bind_eq, with_rnd_eq.
  destruct (pickOneWeighted
              (List.filter
                 (fun item => match find (fun chc => String.eqb chc item) [] with
                              | Some rslt => String.eqb rslt ""
                              | None => true
                              end) (availableTiles t))
              (weighting st) (rnd st)) as [ty r2] eqn:Ew.
  cbn [fst snd].
  rewrite bind_eq, (update_tile_Some cur _ t (set_rnd r2 st) Ht).
  rewrite bind_eq.
  erewrite (update_tile_Some cur _ (with_type ty t));
    [| cbn; rewrite list_lookup_alter_eq, Ht; reflexivity].
  rewrite bind_eq.
  change (set_tiles _ (set_tiles _ (set_rnd r2 st))) with (resolve cur ty (set_rnd r2 st)).
  destruct (_setEntropyOfSurroundingTiles (index t) (resolve cur ty (set_rnd r2 st)))
    as [[[] | e] s2] eqn:Ep; cbn [ret fst]; [| unfold throw; discriminate].
  rewrite bind_eq. cbn [gets].
  intros H.
  assert (Hin : forall x, ty = Some x -> In x (availableTiles t)).
  { intros x ->. apply pickOneWeighted_In in Ew. apply filter_In in Ew as [Ew _]. exact Ew. }
  exists ty, r2. split; [exact Hin |].
  destruct (Nat.eqb_spec (_getNumberOfRemainingTilesToCollapse s2) 0) as [E0 | E0].
  - unfold ret in H. simplify_eq. split; [exact Ep |]. left. split; [reflexivity | assumption].
  - rewrite bind_eq in H. cbn [gets] in H.
    destruct (some_undefined_type s2) eqn:Eu; [discriminate |].
    unfold ret in H. simplify_eq. split; [exact Ep |]. right. repeat split; assumption.
Qed.

(** A call of [next()] that does not throw has resolved one unresolved
    tile; the pass that ends in [break] is never taken. *)
Lemma collapseNext_Ok (fuel : nat) (st st' : WFC) (o : option Step) :
  _collapseNext fuel st = (Ok o, st') ->
  (fuel = 0 /\ o = None /\ st' = st)
  \/ exists cur t ty r,
       tiles st !! cur = Some (Some t) /\ is_zero (entropy t) = false
       /\ (forall x, ty = Some x -> In x (availableTiles t))
       /\ _setEntropyOfSurroundingTiles (index t) (resolve cur ty (set_rnd r st))
          = (Ok tt, st')
       /\ (o = Some Returned /\ _getNumberOfRemainingTilesToCollapse st' = 0
           \/ o = Some Yielded /\ _getNumberOfRemainingTilesToCollapse st' <> 0
              /\ some_undefined_type st' = false).
Proof.
  destruct fuel as [| fuel]; cbn [_collapseNext].
  { unfold ret. intros H. simplify_eq. left. repeat split. }
  rewrite bind_eq. cbn [gets].
  destruct (length (_getListofTilesWithLowestEntropy st) =? 0); [discriminate |].
  rewrite bind_eq, with_rnd_eq.
  destruct (pickOne (_getListofTilesWithLowestEntropy st) (rnd st)) as [picked r1] eqn:Ep.
  cbn [fst snd]. destruct picked as [cur |]; [| discriminate].
  destruct (lowest_unresolved st cur (pickOne_In _ _ _ _ Ep)) as (t & Ht & Hz).
  rewrite bind_eq, (tile_at_Some cur t (set_rnd r1 st) Ht).
  destruct (Nat.eqb_spec (length (availableTiles t)) 0) as [El | El]; [discriminate |].
  rewrite bind_eq.
  destruct (attempt_pass cur (length (availableTiles t)) [] (set_rnd r1 st))
    as [[flow | e] s] eqn:Ea; [| discriminate].
  apply (attempt_pass_Ok cur _ (set_rnd r1 st) _ _ t Ht El) in Ea
    as (ty & r & Hin & Hp & Hflow).
  intros H. right. exists cur, t, ty, r.
  destruct Hflow as [[-> Hrem] | [-> Hrem]]; unfold ret in H; simplify_eq;
    (split; [assumption |]); (split; [assumption |]); (split; [assumption |]);
    (split; [exact Hp |]).
  - left. split; [reflexivity | assumption].
  - right. split; [reflexivity | assumption].
Qed.

(** ** The resolved tile *)

Lemma resolve_lookup_eq (cur : nat) (ty : option string) (st : WFC) (t : TileData) :
  tiles st !! cur = Some (Some t) ->
  tiles (resolve cur ty st) !! cur
  = Some (Some (mkTile (index t) ty (Fin 0) (availableTiles t))).
Proof.
  intros H. cbn. rewrite !list_lookup_alter_eq, H. reflexivity.
Qed.

Lemma resolve_lookup_ne (cur k : nat) (ty : option string) (st : WFC) :
  k <> cur -> tiles (resolve cur ty st) !! k = tiles st !! k.
Proof.
  intros H. cbn. rewrite !list_lookup_alter_ne by congruence. reflexivity.
Qed.

Lemma resolve_length (cur : nat) (ty : option string) (st : WFC) :
  length (tiles (resolve cur ty st)) = length (tiles st).
Proof. cbn. rewrite !length_alter. reflexivity. Qed.

Lemma resolve_neighbor (cur : nat) (ty : option string) (st : WFC) (i : nat) (d : Direction) :
  neighbor (resolve cur ty st) i d = neighbor st i d.
Proof. unfold neighbor. rewrite resolve_length. reflexivity. Qed.

Lemma skel_unresolved_inv (st st' : WFC) (j : nat) :
  skel st st' -> unresolved_at st' j -> unresolved_at st j.
Proof.
  intros Hs (t' & Hj & Hz).
  destruct (skel_lookup_inv st st' j t' Hs Hj) as (t & Hj0 & _ & _ & E & _).
  exists t. split; [assumption | congruence].
Qed.

(** ** The invariant of the step loop *)

Section Step.

Variable st : WFC.
Hypothesis width_pos : 0 < width st.
Hypothesis rules_symmetric : symmetric_rules (rules st).
Hypothesis rules_nonempty : lists_nonempty (rules st).
Hypothesis inv : Inv st.

Variables (cur : nat) (t : TileData) (ty : option string).
Hypothesis cur_tile : tiles st !! cur = Some (Some t).
Hypothesis cur_unresolved : is_zero (entropy t) = false.
Hypothesis ty_candidate : forall x, ty = Some x -> In x (availableTiles t).

Variable st' : WFC.
Hypothesis propagated :
  _setEntropyOfSurroundingTiles (index t) (resolve cur ty st) = (Ok tt, st').

Lemma step_index : index t = cur.
Proof. apply (inv_indexed st inv). exact cur_tile. Qed.

Lemma step_evolves : evolves (resolve cur ty st) st'.
Proof. apply (propagate_spec _ _ _ _ propagated). Qed.

Lemma step_skel : skel (resolve cur ty st) st'.
Proof. apply evolves_skel, step_evolves. Qed.

Lemma step_width : width st' = width st.
Proof. rewrite (skel_width _ _ step_skel). reflexivity. Qed.

Lemma step_rules : rules st' = rules st.
Proof. rewrite (skel_rules _ _ step_skel). reflexivity. Qed.

Lemma step_neighbor (i : nat) (d : Direction) : neighbor st' i d = neighbor st i d.
Proof. rewrite (neighbor_skel _ _ i d step_skel). apply resolve_neighbor. Qed.

(** A tile of the new state, traced back to the old one. *)
Lemma step_lookup (i : nat) (t' : TileData) :
  tiles st' !! i = Some (Some t') ->
  (i = cur /\ type t' = ty /\ is_zero (entropy t') = true /\ index t' = cur)
  \/ (i <> cur /\ exists t0, tiles st !! i = Some (Some t0) /\ tile_skel t0 t').
Proof.
  intros H. destruct (skel_lookup_inv _ _ i t' step_skel H) as (t1 & H1 & Hsk).
  destruct (decide (i = cur)) as [-> | Hne].
  - left. rewrite (resolve_lookup_eq cur ty st t cur_tile) in H1.
    simplify_eq. destruct Hsk as (Hi & Hty & Hz & _). cbn in *.
    rewrite step_index in Hi. auto.
  - right. split; [assumption |]. exists t1. split; [| assumption].
    rewrite resolve_lookup_ne in H1 by assumption. assumption.
Qed.

Lemma step_indexed : indexed st'.
Proof.
  intros i t' H. destruct (step_lookup i t' H) as [(-> & _ & _ & Hi) | (_ & t0 & H0 & Hi & _)].
  - assumption.
  - rewrite Hi. apply (inv_indexed st inv). assumption.
Qed.

Lemma cur_avail_ok : avail_ok st cur.
Proof. apply (inv_candidates st inv). exists t. split; assumption. Qed.

(** The type given to [cur] is allowed by a resolved neighbour, and allows
    it in return. *)
Lemma cur_respects (n : nat) (d : Direction) (tn : TileData) (a b : string) :
  ty = Some b -> neighbor st cur d = Some n -> tiles st !! n = Some (Some tn) ->
  is_zero (entropy tn) = true -> type tn = Some a ->
  (exists ra, obj_get (rules st) a = Some ra /\ b ∈ side (opposite d) ra)
  /\ (exists rb, obj_get (rules st) b = Some rb /\ a ∈ side d rb).
Proof.
  intros Hty Hn Htn Hz Ha.
  destruct (candidate_respects st cur n d t tn b a rules_nonempty cur_avail_ok cur_tile)
    as (ra & Hra & Hb); try assumption.
  { apply list_elem_of_In, ty_candidate, Hty. }
  split; [exists ra; split; assumption |].
  destruct (rules_symmetric a ra (opposite d) b Hra Hb) as (rb & Hrb & Hin).
  rewrite opposite_involutive in Hin. exists rb. split; assumption.
Qed.

Lemma step_consistent : consistent st'.
Proof.
  intros i d j ti tj a b Hn Hi Hj Hzi Hzj Hti Htj.
  rewrite step_neighbor in Hn. rewrite step_rules.
  destruct (step_lookup i ti Hi) as [(-> & Hty & _) | (Hine & ti0 & Hi0 & Hski)];
    destruct (step_lookup j tj Hj) as [(-> & Hty' & _) | (Hjne & tj0 & Hj0 & Hskj)].
  - exfalso. eapply neighbor_irrefl; eassumption.
  - destruct Hskj as (_ & Htyj & Hzj0 & _).
    refine (proj2 (cur_respects j d tj0 b a _ Hn Hj0 _ _)); congruence.
  - destruct Hski as (_ & Htyi & Hzi0 & _).
    assert (Hsym : neighbor st cur (opposite d) = Some i).
    { apply neighbor_sym; [assumption | | assumption].
      eapply lookup_lt_Some; eassumption. }
    rewrite <- (opposite_involutive d).
    refine (proj1 (cur_respects i (opposite d) ti0 a b _ Hsym Hi0 _ _)); congruence.
  - destruct Hski as (_ & Htyi & Hzi0 & _), Hskj as (_ & Htyj & Hzj0 & _).
    eapply (inv_consistent st inv i d j ti0 tj0); congruence.
Qed.

Lemma cur_resolved_in (s : WFC) :
  skel (resolve cur ty st) s ->
  tiles s !! cur = Some (Some (mkTile (index t) ty (Fin 0) (availableTiles t))).
Proof.
  intros Hs. eapply skel_resolved; [exact Hs | | reflexivity].
  apply resolve_lookup_eq, cur_tile.
Qed.

Lemma step_candidates : candidates_ok st'.
Proof.
  intros k Hk'. pose proof (skel_unresolved_inv _ _ k step_skel Hk') as Hk1.
  assert (Hne : k <> cur).
  { intros ->. destruct Hk1 as (t1 & H1 & Hz1).
    rewrite (resolve_lookup_eq cur ty st t cur_tile) in H1.
    simplify_eq; discriminate. }
  assert (Hk : unresolved_at st k).
  { destruct Hk1 as (t1 & H1 & Hz1). exists t1. split; [| assumption].
    rewrite resolve_lookup_ne in H1 by assumption. assumption. }
  destruct (decide (Exists (fun d => neighbor st cur d = Some k) directions)) as [Hex | Hnex].
  - apply Exists_exists in Hex as (d & _ & Hd).
    destruct (propagate_spec _ _ _ _ propagated) as [_ Hstage].
    destruct (Hstage eq_refl d k) as (s & s' & e & Hs1s & Hge & Hs'st').
    { rewrite resolve_neighbor, step_index. exact Hd. }
    pose proof (evolves_skel _ _ Hs1s) as Ks.
    destruct (getEntropy_unresolved k s s' e (skel_unresolved _ _ k Ks Hk1) Hge)
      as (_ & lists & Hg & [[Hnil _] | [_ Hok]]).
    + exfalso.
      destruct (resolved_neighbour_counts s k cur (opposite d)
                  (mkTile (index t) ty (Fin 0) (availableTiles t)) lists)
        as (a & ra & _ & _ & Hin); try reflexivity; try assumption.
      * rewrite (skel_rules _ _ Ks). exact rules_nonempty.
      * rewrite (neighbor_skel _ _ k (opposite d) Ks). rewrite resolve_neighbor. apply neighbor_sym; [assumption | | assumption].
        eapply lookup_lt_Some; eassumption.
      * apply cur_resolved_in, Ks.
      * rewrite Hnil in Hin. destruct Hin.
    + eapply evolves_avail_ok; eassumption.
  - apply (evolves_avail_ok (resolve cur ty st) st' k step_evolves).
    pose proof (inv_candidates st inv k Hk) as (tk & lists & Htk & Hg & Ha).
    exists tk, lists. split; [| split; [| assumption]].
    + rewrite resolve_lookup_ne by assumption. assumption.
    + rewrite <- Hg. apply gather_frame; try reflexivity; [apply resolve_length |].
      intros d n Hn. apply resolve_lookup_ne. intros ->.
      apply Hnex, Exists_exists. exists (opposite d). split.
      * destruct d; apply list_elem_of_In; cbn; tauto.
      * destruct Hk as (tk0 & Hk0 & _).
        apply neighbor_sym; [assumption | | assumption].
        eapply lookup_lt_Some; eassumption.
Qed.

End Step.

Lemma resolve_propagate_Inv (st st' : WFC) (cur : nat) (t : TileData) (ty : option string) :
  0 < width st -> symmetric_rules (rules st) -> lists_nonempty (rules st) -> Inv st ->
  tiles st !! cur = Some (Some t) -> is_zero (entropy t) = false ->
  (forall x, ty = Some x -> In x (availableTiles t)) ->
  _setEntropyOfSurroundingTiles (index t) (resolve cur ty st) = (Ok tt, st') ->
  Inv st' /\ width st' = width st /\ rules st' = rules st.
Proof.
  intros Hw Hsym Hne Hinv Ht Hz Hty Hp. split; [constructor |].
  - eapply step_indexed; eassumption.
  - eapply step_consistent; eassumption.
  - eapply step_candidates; eassumption.
  - split; [eapply step_width | eapply step_rules]; eassumption.
Qed.

(** The invariant does not look at the generator or the buffer state. *)
Lemma Inv_set_rnd (r : Random) (st : WFC) : Inv st -> Inv (set_rnd r st).
Proof. intros [H1 H2 H3]. constructor; [exact H1 | exact H2 | exact H3]. Qed.

Lemma Inv_set_bufferstate (b : BufferState) (st : WFC) :
  Inv st -> Inv (set_bufferstate b st).
Proof. intros [H1 H2 H3]. constructor; [exact H1 | exact H2 | exact H3]. Qed.

(** A call of [next()] that does not throw keeps the invariant. *)
Lemma collapseNext_Inv (fuel : nat) (st st' : WFC) (o : Step) :
  0 < width st -> symmetric_rules (rules st) -> lists_nonempty (rules st) -> Inv st ->
  _collapseNext fuel st = (Ok (Some o), st') ->
  Inv st' /\ width st' = width st /\ rules st' = rules st
  /\ (o = Returned -> _getNumberOfRemainingTilesToCollapse st' = 0).
Proof.
  intros Hw Hsym Hne Hinv H.
  apply collapseNext_Ok in H as [(_ & Hnone & _) | (cur & t & ty & r & Ht & Hz & Hty & Hp & Ho)];
    [discriminate |].
  destruct (resolve_propagate_Inv (set_rnd r st) st' cur t ty Hw Hsym Hne
              (Inv_set_rnd r st Hinv) Ht Hz Hty Hp) as (Hinv' & Hw' & Hr').
  split; [assumption |]. split; [assumption |]. split; [assumption |].
  intros ->. destruct Ho as [[_ H0] | [Hy _]]; [assumption | discriminate].
Qed.

Lemma step_loop_Inv (fuel : nat) (st st' : WFC) :
  0 < width st -> symmetric_rules (rules st) -> lists_nonempty (rules st) -> Inv st ->
  step_loop fuel st = Some ([], st') ->
  Inv st' /\ rules st' = rules st /\ _getNumberOfRemainingTilesToCollapse st' = 0.
Proof.
  revert st. induction fuel as [| fuel IH]; intros st Hw Hsym Hne Hinv; [discriminate |].
  cbn [step_loop].
  destruct (_collapseNext (S fuel) st) as [[[[] |] | e] s] eqn:E; try discriminate.
  - destruct (collapseNext_Inv _ _ _ _ Hw Hsym Hne Hinv E) as (Hinv' & Hw' & Hr' & _).
    intros H. destruct (IH s) as (Hi & Hr & H0);
      [rewrite Hw'; assumption | rewrite Hr'; assumption | rewrite Hr'; assumption
      | assumption | assumption |].
    split; [assumption |]. split; [congruence | assumption].
  - destruct (collapseNext_Inv _ _ _ _ Hw Hsym Hne Hinv E) as (Hinv' & Hw' & Hr' & H0).
    intros H. simplify_eq. split; [assumption |]. split; auto.
Qed.

Lemma remaining_zero (st : WFC) :
  _getNumberOfRemainingTilesToCollapse st = 0 -> all_resolved st.
Proof.
  unfold _getNumberOfRemainingTilesToCollapse. intros H i t Hi.
  apply length_zero_iff_nil in H.
  destruct (entropy t) as [[| n] |] eqn:E; [reflexivity | exfalso | exfalso];
    (assert (Hin : In (i, t) (List.filter unresolved (entries (tiles st))));
     [apply filter_In; split;
      [apply list_elem_of_In, elem_of_entries, Hi | unfold unresolved; cbn; rewrite E; reflexivity]
     | rewrite H in Hin; destruct Hin]).
Qed.

Lemma consistent_resolved (st : WFC) :
  consistent st -> all_resolved st -> locally_consistent st.
Proof.
  intros Hc Ha i d j ti tj a b Hn Hi Hj Hti Htj.
  eapply (Hc i d j ti tj); try eassumption.
  - rewrite (Ha i ti Hi). reflexivity.
  - rewrite (Ha j tj Hj). reflexivity.
Qed.

(** ** The start of a run *)

Lemma tile_refs_In (ts : list (option TileData)) (first : nat) :
  In (Some first) (tile_refs ts) -> exists t, ts !! first = Some (Some t).
Proof.
  intros H. apply list_elem_of_In, elem_of_lookup_imap in H as (i & o & E & Hl).
  destruct o as [t |]; cbn in E; simplify_eq. exists t. assumption.
Qed.

(** The random start either does nothing or resolves one tile of the grid. *)
Lemma random_start_Ok (st st' : WFC) :
  random_start st = (Ok tt, st') ->
  (startWithRandom st = false /\ st' = st)
  \/ exists first t ty r,
       tiles st !! first = Some (Some t) /\ st' = resolve first ty (set_rnd r st).
Proof.
  unfold random_start. rewrite bind_eq. cbn [gets].
  destruct (startWithRandom st); [| unfold ret; intros H; simplify_eq; left; split; reflexivity].
  rewrite bind_eq. cbn [gets]. rewrite bind_eq, with_rnd_eq.
  destruct (pickOne (tile_refs (tiles st)) (rnd st)) as [firstTile r1] eqn:Ep. cbn [fst snd].
  destruct firstTile as [[first |] |]; cbn [mjoin option_join option_bind mbind];
    try (unfold throw; discriminate).
  destruct (tile_refs_In _ _ (pickOne_In _ _ _ _ Ep)) as (t & Ht).
  rewrite bind_eq. cbn [gets]. rewrite bind_eq, with_rnd_eq.
  destruct (pickOne (obj_keys (rules (set_rnd r1 st))) (rnd (set_rnd r1 st))) as [ty r2].
  cbn [fst snd].
  rewrite bind_eq, (update_tile_Some first _ t (set_rnd r2 (set_rnd r1 st)) Ht).
  erewrite (update_tile_Some first _ (with_type ty t));
    [| cbn; rewrite list_lookup_alter_eq, Ht; reflexivity].
  intros H. simplify_eq. right. exists first, t, ty, r2. split; [assumption | reflexivity].
Qed.

Lemma fresh_started (st st' : WFC) :
  fresh st -> random_start st = (Ok tt, st') ->
  indexed st' /\ one_resolved st' /\ unresolved_blank st'
  /\ width st' = width st /\ rules st' = rules st.
Proof.
  intros Hf H. apply random_start_Ok in H as [[_ ->] | (first & t & ty & r & Ht & ->)].
  - repeat split.
    + intros i t Hi. apply (Hf i t Hi).
    + intros i j ti tj Hi Hj Hzi _. destruct (Hf i ti Hi) as (_ & E & _).
      rewrite E in Hzi. discriminate.
    + intros k t Hk _. apply (Hf k t Hk).
  - assert (Hlook : forall i t', tiles (resolve first ty (set_rnd r st)) !! i = Some (Some t') ->
              (i = first /\ t' = mkTile (index t) ty (Fin 0) (availableTiles t))
              \/ (i <> first /\ tiles st !! i = Some (Some t'))).
    { intros i t' Hi. destruct (decide (i = first)) as [-> | Hne].
      - left. rewrite (resolve_lookup_eq first ty (set_rnd r st) t Ht) in Hi.
        simplify_eq. split; reflexivity.
      - right. rewrite resolve_lookup_ne in Hi by assumption. split; assumption. }
    repeat split.
    + intros i t' Hi. destruct (Hlook i t' Hi) as [[-> ->] | [_ Hi0]].
      * apply (Hf first t Ht).
      * apply (Hf i t' Hi0).
    + intros i j ti tj Hi Hj Hzi Hzj.
      destruct (Hlook i ti Hi) as [[-> _] | [_ Hi0]];
        destruct (Hlook j tj Hj) as [[-> _] | [_ Hj0]]; try reflexivity; exfalso.
      * destruct (Hf j tj Hj0) as (_ & E & _). rewrite E in Hzj. discriminate.
      * destruct (Hf i ti Hi0) as (_ & E & _). rewrite E in Hzi. discriminate.
      * destruct (Hf i ti Hi0) as (_ & E & _). rewrite E in Hzi. discriminate.
    + intros k t' Hk Hz. destruct (Hlook k t' Hk) as [[-> ->] | [_ Hk0]].
      * discriminate Hz.
      * apply (Hf k t' Hk0).
Qed.

Lemma nil_avail_ok (st : WFC) (k : nat) (t : TileData) (lists : list (list string)) :
  tiles st !! k = Some (Some t) -> gather st k = Ok lists ->
  List.filter nonempty lists = [] -> availableTiles t = [] -> avail_ok st k.
Proof.
  intros Hk Hg Hnil Ha. exists t, lists. repeat split; try assumption.
  rewrite Hnil, Ha. reflexivity.
Qed.

(** The preparation keeps the skeleton and brings the candidate set of
    every visited unresolved tile up to date. *)
Lemma prepare_loop_spec (positions : list nat) (s s' : WFC) :
  prepare_loop positions s = (Ok tt, s') ->
  evolves s s'
  /\ forall k, In k positions -> unresolved_at s k ->
       (forall t, tiles s !! k = Some (Some t) -> availableTiles t = [] \/ avail_ok s k) ->
       avail_ok s' k.
Proof.
  revert s. induction positions as [| i rest IH]; intros s; cbn [prepare_loop].
  { unfold ret. intros H. simplify_eq. split; [apply evolves_refl |]. intros k []. }
  rewrite bind_eq. cbn [gets].
  assert (Hskip : prepare_loop rest s = (Ok tt, s') -> ~ unresolved_at s i ->
            evolves s s'
            /\ forall k, In k (i :: rest) -> unresolved_at s k ->
                 (forall t, tiles s !! k = Some (Some t) ->
                            availableTiles t = [] \/ avail_ok s k) ->
                 avail_ok s' k).
  { intros H Hi. destruct (IH s H) as [He Hk]. split; [assumption |].
    intros k [-> | Hin] Hu Hpre; [contradiction | auto]. }
  destruct (tiles s !! i) as [[tile |] |] eqn:Hi.
  2,3: intros H; apply Hskip; [assumption | intros (t & Ht & _); congruence].
  destruct (is_zero (entropy tile)) eqn:Hz.
  { intros H; apply Hskip; [assumption | intros (t & Ht & Hz'); congruence]. }
  clear Hskip. rewrite bind_eq. unfold try_catch.
  destruct (_getEntropy i s) as [[e | err] sa] eqn:Ege; [| unfold throw; discriminate].
  assert (Hu : unresolved_at s i) by (exists tile; split; assumption).
  destruct (getEntropy_unresolved i s sa e Hu Ege) as (Htruthy & lists & Hg & Hcase).
  pose proof (getEntropy_evolves i s sa _ Ege) as Esa.
  destruct (with_entropy_evolves i e sa (skel_unresolved _ _ i (evolves_skel _ _ Esa) Hu) Htruthy)
    as (sb & Eup & Esb).
  rewrite bind_eq, Eup. intros H. destruct (IH sb H) as [Erest Hrest].
  assert (Essb : evolves s sb) by (eapply evolves_trans; eassumption).
  split; [eapply evolves_trans; eassumption |].
  intros k Hin Huk Hpre. destruct (decide (k = i)) as [-> | Hne].
  - apply (evolves_avail_ok sa s' i); [eapply evolves_trans; eassumption |].
    destruct Hcase as [[Hnil ->] | [_ Hok]]; [| assumption].
    destruct (Hpre tile Hi) as [Ha | Hok]; [| assumption].
    eapply nil_avail_ok; eassumption.
  - destruct Hin as [-> | Hin]; [contradiction |].
    apply Hrest; [assumption | eapply skel_unresolved; [apply evolves_skel|]; eassumption |].
    intros tb Htb. destruct Huk as (t0 & Ht0 & _).
    destruct Essb as [Ks Ha]. destruct (Ha k t0 tb Ht0 Htb) as [E | Hok]; [| right; assumption].
    destruct (Hpre t0 Ht0) as [Hnil | Hok].
    + left. congruence.
    + right. eapply evolves_avail_ok; [split; eassumption | assumption].
Qed.

Lemma prepare_Inv (s s' : WFC) :
  0 < width s -> indexed s -> one_resolved s -> unresolved_blank s ->
  _prepareTileDataForCollapsing s = (Ok tt, s') ->
  Inv s' /\ width s' = width s /\ rules s' = rules s.
Proof.
  intros Hw Hidx Hone Hblank. unfold _prepareTileDataForCollapsing.
  rewrite bind_eq. cbn [gets]. intros H.
  apply prepare_loop_spec in H as [Hev Hcand]. pose proof (evolves_skel _ _ Hev) as Hs.
  split; [constructor | split; [apply (skel_width _ _ Hs) | apply (skel_rules _ _ Hs)]].
  - intros i t' Hi. destruct (skel_lookup_inv _ _ i t' Hs Hi) as (t & Hi0 & E & _).
    rewrite E. apply (Hidx i t Hi0).
  - intros i d j ti tj a b Hn Hi Hj Hzi Hzj _ _. exfalso.
    destruct (skel_lookup_inv _ _ i ti Hs Hi) as (ti0 & Hi0 & _ & _ & Ei & _).
    destruct (skel_lookup_inv _ _ j tj Hs Hj) as (tj0 & Hj0 & _ & _ & Ej & _).
    assert (i = j) by (eapply (Hone i j ti0 tj0); congruence). subst j.
    rewrite (neighbor_skel _ _ i d Hs) in Hn. eapply neighbor_irrefl; eassumption.
  - intros k Hk. pose proof (skel_unresolved_inv _ _ k Hs Hk) as Hk0.
    apply Hcand; [| assumption |].
    + destruct Hk0 as (t & Ht & _). apply in_seq. split; [lia |].
      cbn. eapply lookup_lt_Some; eassumption.
    + intros t Ht. left. destruct Hk0 as (t0 & Ht0 & Hz). simplify_eq.
      apply (Hblank k t0 Ht0 Hz).
Qed.

(** ** Local consistency of a clean run *)

(** C1, as the specification states it, fails when the rules are not
    symmetric: this run ends without an error in state [collapsed] with
    "A" in cell 0 and "B" in cell 1; cell 0 is the left neighbour of
    cell 1, and "A" is not among the types "B" allows to its left. *)
Lemma one_way_rules_break_consistency :
  generateLevel Sample.one_way = Some (Ok [], Sample.after_run Sample.one_way)
  /\ bufferstate (Sample.after_run Sample.one_way) = collapsed
  /\ tiles (Sample.after_run Sample.one_way)
     = [Some (mkTile 0 (Some "A") (Fin 0) []); Some (mkTile 1 (Some "B") (Fin 0) ["B"])]
  /\ neighbor (Sample.after_run Sample.one_way) 1 Left = Some 0
  /\ obj_get (rules (Sample.after_run Sample.one_way)) "B"
     = Some (mkRule ["B"] ["B"] ["B"] ["A"])
  /\ ~ locally_consistent (Sample.after_run Sample.one_way).
Proof.
  split; [by_evaluation |]. split; [by_evaluation |]. split; [by_evaluation |].
  split; [by_evaluation |]. split; [by_evaluation |].
  intros H.
  destruct (H 1 Left 0 (mkTile 1 (Some "B") (Fin 0) ["B"]) (mkTile 0 (Some "A") (Fin 0) [])
              "B" "A") as (rule & Hrule & Hin); try (vm_compute; reflexivity).
  vm_compute in Hrule. simplify_eq. cbn in Hin.
  apply list_elem_of_In in Hin. destruct Hin as [E | []]. discriminate E.
Qed.

(** C1 (amended): take a grid as construction, a reset or pre-seeding
    leaves it, of positive width, and a rule set that is symmetric (what a
    type allows in a direction is declared and allows it in the opposite
    direction) and has no empty list. If [generateLevel] ends with no
    error reported, the buffer is [collapsed], every cell is resolved,
    and for every cell [c] and every in-bounds neighbour [n] of [c] in a
    direction [d], both with an assigned type, the type of [n] is a member
    of [rules[c.type][d]]. *)
Theorem clean_run_locally_consistent (st st' : WFC) :
  fresh st -> 0 < width st ->
  symmetric_rules (rules st) -> lists_nonempty (rules st) ->
  generateLevel st = Some (Ok [], st') ->
  bufferstate st' = collapsed /\ all_resolved st' /\ locally_consistent st'.
Proof.
  intros Hf Hw Hsym Hne. unfold generateLevel, generateLevel_fuel. cbv zeta.
  destruct (bufferstate (set_bufferstate (_isDataReady st) st)) eqn:Hb; try discriminate.
  rewrite bind_eq.
  destruct (random_start (set_bufferstate (_isDataReady st) st)) as [[[] | e] s0] eqn:Es;
    [| discriminate].
  destruct (_prepareTileDataForCollapsing s0) as [[[] | e] s1] eqn:Ep; [| discriminate].
  destruct (step_loop (S (length (tiles st))) (set_bufferstate collapsing s1))
    as [[console s2] |] eqn:El; [| discriminate].
  intros H. simplify_eq.
  destruct (fresh_started (set_bufferstate (_isDataReady st) st) s0 Hf Es)
    as (Hidx & Hone & Hblank & Hw0 & Hr0).
  destruct (prepare_Inv s0 s1) as (Hinv & Hw1 & Hr1); try assumption.
  { rewrite Hw0. exact Hw. }
  cbn in Hw0, Hr0.
  destruct (step_loop_Inv (S (length (tiles st))) (set_bufferstate collapsing s1) s2)
    as (Hinv2 & _ & H0);
    [change (0 < width s1); lia
    | change (symmetric_rules (rules s1)); rewrite Hr1, Hr0; exact Hsym
    | change (lists_nonempty (rules s1)); rewrite Hr1, Hr0; exact Hne
    | apply Inv_set_bufferstate, Hinv | exact El |].
  split; [reflexivity |].
  pose proof (remaining_zero s2 H0) as Hall.
  split; [exact Hall |].
  exact (consistent_resolved s2 (inv_consistent s2 Hinv2) Hall).
Qed.

Lemma checker_fresh : fresh (Sample.checker 1).
Proof.
  intros i t H. change (tiles (Sample.checker 1)) with (blank_tiles 4) in H.
  destruct i as [| [| [| [| i]]]]; cbn in H; unfold blank_tile in H; simplify_eq;
    repeat split.
Qed.

Lemma checker_symmetric : symmetric_rules (rules (Sample.checker 1)).
Proof.
  intros a ra d b Ha Hb.
  change (rules (Sample.checker 1))
    with [("A", mkRule ["B"] ["B"] ["B"] ["B"]); ("B", mkRule ["A"] ["A"] ["A"] ["A"])] in *.
  cbn [obj_get] in Ha.
  destruct (String.eqb_spec "A" a) as [<- | _];
    [| destruct (String.eqb_spec "B" a) as [<- | _]; [| discriminate]];
    simplify_eq; destruct d; cbn in Hb; apply list_elem_of_In in Hb;
    destruct Hb as [<- | []]; eexists; (split; [reflexivity |]);
    apply list_elem_of_In; cbn; auto.
Qed.

Lemma checker_nonempty : lists_nonempty (rules (Sample.checker 1)).
Proof.
  intros a ra d Ha.
  change (rules (Sample.checker 1))
    with [("A", mkRule ["B"] ["B"] ["B"] ["B"]); ("B", mkRule ["A"] ["A"] ["A"] ["A"])] in *.
  cbn [obj_get] in Ha.
  destruct (String.eqb_spec "A" a) as [<- | _];
    [| destruct (String.eqb_spec "B" a) as [<- | _]; [| discriminate]];
    simplify_eq; destruct d; discriminate.
Qed.

Lemma clean_run_locally_consistent_witness :
  tiles (Sample.after_run (Sample.checker 1))
  = [Some (mkTile 0 (Some "A") (Fin 0) []); Some (mkTile 1 (Some "B") (Fin 0) ["B"]);
     Some (mkTile 2 (Some "B") (Fin 0) ["B"]); Some (mkTile 3 (Some "A") (Fin 0) ["A"])]
  /\ bufferstate (Sample.after_run (Sample.checker 1)) = collapsed
  /\ all_resolved (Sample.after_run (Sample.checker 1))
  /\ locally_consistent (Sample.after_run (Sample.checker 1)).
Proof.
  split; [vm_compute; reflexivity |].
  apply (clean_run_locally_consistent (Sample.checker 1)).
  - exact checker_fresh.
  - vm_compute. lia.
  - exact checker_symmetric.
  - exact checker_nonempty.
  - vm_compute. reflexivity.
Defined.

(** ** Termination of the step loop *)

Lemma entries_count (g : nat -> nat) (ts : list (option TileData)) :
  length (List.filter unresolved
            (omap (fun '(i, o) => pair i <$> o) (imap (fun i o => (g i, o)) ts)))
  = count_unresolved ts.
Proof.
  revert g. induction ts as [| o ts IH]; intros g; [reflexivity |].
  specialize (IH (fun i => g (S i))). unfold count_unresolved, unresolved in *.
  destruct o as [t |]; cbn in *.
  - destruct (is_zero (entropy t)); cbn in *; [exact IH | f_equal; exact IH].
  - exact IH.
Qed.

Lemma remaining_count (st : WFC) :
  _getNumberOfRemainingTilesToCollapse st = count_unresolved (tiles st).
Proof. apply (entries_count (fun i => i)). Qed.

Lemma count_le_length (ts : list (option TileData)) : count_unresolved ts <= length ts.
Proof. apply List.filter_length_le. Qed.

Lemma count_same (ts ts' : list (option TileData)) :
  length ts = length ts' ->
  (forall k, status (ts !! k) = status (ts' !! k)) ->
  count_unresolved ts = count_unresolved ts'.
Proof.
  revert ts'. induction ts as [| a ts IH]; intros [| a' ts'] Hl Hk;
    try discriminate; [reflexivity |].
  injection Hl as Hl. specialize (IH ts' Hl (fun k => Hk (S k))).
  unfold count_unresolved in *. cbn [List.filter].
  pose proof (Hk 0) as H0. change (status (Some a) = status (Some a')) in H0.
  rewrite H0. destruct (status (Some a')); cbn [length]; rewrite IH; reflexivity.
Qed.

(** Two grids that differ in status at [cur] only. *)
Lemma count_flip (ts ts' : list (option TileData)) (cur : nat) :
  length ts = length ts' ->
  status (ts !! cur) = true -> status (ts' !! cur) = false ->
  (forall k, k <> cur -> status (ts !! k) = status (ts' !! k)) ->
  count_unresolved ts = S (count_unresolved ts').
Proof.
  revert ts' cur. induction ts as [| o ts IH]; intros [| o' ts'] cur Hl Hc Hc' Hk;
    try discriminate.
  injection Hl as Hl. destruct cur as [| cur].
  - change (status (Some o) = true) in Hc. change (status (Some o') = false) in Hc'.
    assert (E : count_unresolved ts = count_unresolved ts').
    { apply count_same; [assumption |]. intros k. apply (Hk (S k)). discriminate. }
    unfold count_unresolved in *. cbn [List.filter]. rewrite Hc, Hc'. cbn [length].
    rewrite E. reflexivity.
  - pose proof (Hk 0 ltac:(discriminate)) as H0.
    change (status (Some o) = status (Some o')) in H0.
    assert (E : count_unresolved ts = S (count_unresolved ts')).
    { apply (IH ts' cur Hl Hc Hc'). intros k Hne. apply (Hk (S k)). congruence. }
    unfold count_unresolved in *. cbn [List.filter]. rewrite H0.
    destruct (status (Some o')); cbn [length]; rewrite E; reflexivity.
Qed.

Lemma cell_skel_status (o o' : option (option TileData)) :
  cell_skel o o' -> status o = status o'.
Proof.
  destruct o as [[t |] |], o' as [[t' |] |]; cbn; try congruence; try discriminate.
  intros (_ & _ & E & _). rewrite E. reflexivity.
Qed.

Lemma skel_count (st st' : WFC) :
  skel st st' -> count_unresolved (tiles st') = count_unresolved (tiles st).
Proof.
  intros Hs. apply count_same; [apply (skel_length _ _ Hs) |].
  intros k. symmetry. apply cell_skel_status, (skel_cells _ _ Hs).
Qed.

Lemma resolve_count (cur : nat) (ty : option string) (st : WFC) (t : TileData) :
  tiles st !! cur = Some (Some t) -> is_zero (entropy t) = false ->
  count_unresolved (tiles st) = S (count_unresolved (tiles (resolve cur ty st))).
Proof.
  intros Ht Hz. apply (count_flip _ _ cur).
  - symmetry. apply resolve_length.
  - rewrite Ht. cbn. rewrite Hz. reflexivity.
  - rewrite (resolve_lookup_eq cur ty st t Ht). reflexivity.
  - intros k Hne. rewrite resolve_lookup_ne by assumption. reflexivity.
Qed.

(** A step that yields has one unresolved tile fewer to deal with. *)
Lemma collapseNext_progress (fuel : nat) (st st' : WFC) (o : option Step) :
  _collapseNext (S fuel) st = (Ok o, st') ->
  o <> None
  /\ S (_getNumberOfRemainingTilesToCollapse st') = _getNumberOfRemainingTilesToCollapse st
  /\ length (tiles st') = length (tiles st).
Proof.
  intros H.
  apply collapseNext_Ok in H as [(Hf & _) | (cur & t & ty & r & Ht & Hz & _ & Hp & Ho)];
    [discriminate |].
  split; [destruct Ho as [[-> _] | [-> _]]; discriminate |].
  apply propagate_spec in Hp as [[Hs _] _].
  rewrite !remaining_count, (skel_count _ _ Hs), (skel_length _ _ Hs), resolve_length.
  split; [| reflexivity]. symmetry. apply (resolve_count cur ty (set_rnd r st) t Ht Hz).
Qed.

Lemma step_loop_total (fuel : nat) (st : WFC) :
  _getNumberOfRemainingTilesToCollapse st < fuel ->
  exists console st', step_loop fuel st = Some (console, st').
Proof.
  revert st. induction fuel as [| fuel IH]; intros st Hlt; [lia |].
  cbn [step_loop].
  destruct (_collapseNext (S fuel) st) as [[o | e] s] eqn:E; [| eauto].
  destruct (collapseNext_progress fuel st s o E) as (Ho & Hrem & _).
  destruct o as [[] |]; [| eauto | contradiction].
  apply IH. lia.
Qed.

Lemma random_start_length (st st' : WFC) :
  random_start st = (Ok tt, st') -> length (tiles st') = length (tiles st).
Proof.
  intros H. apply random_start_Ok in H as [[_ ->] | (first & t & ty & r & _ & ->)];
    [reflexivity | exact (resolve_length first ty (set_rnd r st))].
Qed.

Lemma prepare_length (st st' : WFC) :
  _prepareTileDataForCollapsing st = (Ok tt, st') -> length (tiles st') = length (tiles st).
Proof.
  unfold _prepareTileDataForCollapsing. rewrite bind_eq. cbn [gets]. intros H.
  apply prepare_loop_spec in H as [[Hs _] _]. apply (skel_length _ _ Hs).
Qed.

(** X1: the fuel given to [generateLevel] is enough, every call settles:
    a step that yields leaves one unresolved tile fewer, and the [break]
    of the attempt loop is never taken. *)
Theorem generateLevel_total (st : WFC) :
  exists r st', generateLevel st = Some (r, st').
Proof.
  unfold generateLevel, generateLevel_fuel. cbv zeta.
  destruct (bufferstate (set_bufferstate (_isDataReady st) st)); eauto.
  rewrite bind_eq.
  destruct (random_start (set_bufferstate (_isDataReady st) st)) as [[[] | e] s0] eqn:Es;
    [| eauto].
  destruct (_prepareTileDataForCollapsing s0) as [[[] | e] s1] eqn:Ep; [| eauto].
  destruct (step_loop_total (S (length (tiles st))) (set_bufferstate collapsing s1))
    as (console & s2 & El).
  - rewrite remaining_count. cbn [tiles set_bufferstate].
    pose proof (count_le_length (tiles s1)) as Hle.
    rewrite (prepare_length s0 s1 Ep), (random_start_length _ _ Es) in Hle.
    cbn in Hle. lia.
  - rewrite El. eauto.
Qed.

(** ** Why the rule lists must not be empty *)

Lemma walled_symmetric : symmetric_rules (rules Sample.walled).
Proof.
  intros a ra d b Ha Hb.
  change (rules Sample.walled)
    with [("A", mkRule ["A"; "B"] ["A"; "B"] ["B"] []);
          ("B", mkRule ["A"; "B"] ["A"; "B"] ["B"] ["A"; "B"])] in *.
  cbn [obj_get] in Ha.
  destruct (String.eqb_spec "A" a) as [<- | _];
    [| destruct (String.eqb_spec "B" a) as [<- | _]; [| discriminate]];
    simplify_eq; destruct d; cbn in Hb; apply list_elem_of_In in Hb; cbn in Hb;
    repeat (destruct Hb as [<- | Hb]); try destruct Hb;
    eexists; (split; [reflexivity |]); apply list_elem_of_In; cbn; auto.
Qed.

(** With symmetric rules and an empty list the clean run of a fresh grid
    can still break a rule: the list is dropped when the candidates of
    cell 1 are computed, and a "B" ends up to the right of the "A" of
    cell 0. *)
Lemma empty_list_breaks_consistency :
  generateLevel Sample.walled = Some (Ok [], Sample.after_run Sample.walled)
  /\ resolved_grid (generateLevel Sample.walled)
     = Some [Some "A"; Some "B"; Some "B"; Some "A"]
  /\ neighbor (Sample.after_run Sample.walled) 0 Right = Some 1
  /\ ~ locally_consistent (Sample.after_run Sample.walled).
Proof.
  split; [by_evaluation |]. split; [by_evaluation |]. split; [by_evaluation |].
  intros H.
  destruct (H 0 Right 1 (mkTile 0 (Some "A") (Fin 0) []) (mkTile 1 (Some "B") (Fin 0) ["A"; "B"])
              "A" "B") as (rule & Hrule & Hin); try (vm_compute; reflexivity).
  vm_compute in Hrule. simplify_eq. cbn in Hin.
  apply list_elem_of_In in Hin. destruct Hin.
Qed.

(** ** A thrown attempt, at the sample *)

Lemma caught_attempt_is_fatal_witness :
  attempt_pass 2 2 []
    (set_rnd (snd (getRandom (rnd Sample.corner_second_step))) Sample.corner_second_step)
  = (Throw FailedToCollapseTile,
     snd (attempt_try 2 2 []
            (set_rnd (snd (getRandom (rnd Sample.corner_second_step)))
                     Sample.corner_second_step))).
Proof.
  apply (caught_attempt_is_fatal 2 2 [] _ _ (BrokenLevel Right)).
  vm_compute. reflexivity.
Defined.

(** * Further properties of the code *)

(** ** class Random: the generator *)

(** X4: from a non-negative seed, [getRandom] stores an integer of
    [0, 2^32) as the new seed and returns it divided by [2^32], a value of
    [0, 1); from a seed that is itself below [2^32] (as every seed after the
    first draw) no product is rounded, and the draw is the step
    [(1664525 * seed + 1013904223) mod 2^32] of the generator. *)
Theorem getRandom_lcg (r : Random) :
  (0 <= seed r)%Z ->
  (0 <= fst (getRandom r) < 2 ^ 32)%Z
  /\ seed (snd (getRandom r)) = fst (getRandom r)
  /\ (0 <= next_value r)%Q /\ (next_value r < 1)%Q
  /\ ((seed r < 2 ^ 32)%Z ->
      fst (getRandom r) = ((1664525 * seed r + 1013904223) mod 2 ^ 32)%Z).
Proof.
  intros Hs. pose proof (getRandom_range r Hs) as Hr.
  split; [exact Hr |]. split; [reflexivity |].
  split; [| split].
  - unfold next_value, Qle. cbn [Qnum Qden]. lia.
  - unfold next_value, Qlt. cbn [Qnum Qden].
    change (Z.pos (2 ^ 32)) with (2 ^ 32)%Z. lia.
  - intros Hlt. unfold getRandom. cbn [fst].
    rewrite (fl_exact (1664525 * seed r)) by lia.
    rewrite fl_exact by lia.
    apply Z.rem_mod_nonneg; lia.
Qed.

Lemma getRandom_lcg_witness :
  (0 <= fst (getRandom (mkRandom 1)) < 2 ^ 32)%Z
  /\ seed (snd (getRandom (mkRandom 1))) = fst (getRandom (mkRandom 1))
  /\ (0 <= next_value (mkRandom 1))%Q /\ (next_value (mkRandom 1) < 1)%Q
  /\ ((seed (mkRandom 1) < 2 ^ 32)%Z ->
      fst (getRandom (mkRandom 1))
      = ((1664525 * seed (mkRandom 1) + 1013904223) mod 2 ^ 32)%Z).
Proof. apply (getRandom_lcg (mkRandom 1)). cbn. lia. Defined.

Lemma getRandomInteger_unfold (min max : Z) (r : Random) :
  getRandomInteger min max r
  = ((Double.fl (Double.fl (fst (getRandom r) * max) + min * 2 ^ 32) / 2 ^ 32)%Z,
     snd (getRandom r)).
Proof. unfold getRandomInteger. destruct (getRandom r). reflexivity. Qed.

Lemma getRandomFloat_unfold (min max : Z) (r : Random) :
  getRandomFloat min max r
  = (Double.fl (Double.fl (fst (getRandom r) * max) + min * 2 ^ 32), snd (getRandom r)).
Proof. unfold getRandomFloat. destruct (getRandom r). reflexivity. Qed.

(** With [max + |min|] up to [2^21], neither the product nor the sum is
    rounded. *)
Lemma scaled_sum_exact (s min max : Z) :
  (0 <= s < 2 ^ 32)%Z -> (0 < max)%Z -> (max + Z.abs min <= 2 ^ 21)%Z ->
  Double.fl (Double.fl (s * max) + min * 2 ^ 32) = (s * max + min * 2 ^ 32)%Z.
Proof.
  intros Hs Hmax Hb.
  rewrite (fl_exact (s * max)) by nia.
  apply fl_exact. nia.
Qed.

Lemma getRandomInteger_exact (min max : Z) (r : Random) :
  (0 <= seed r)%Z -> (0 < max)%Z -> (max + Z.abs min <= 2 ^ 21)%Z ->
  fst (getRandomInteger min max r) = (min + fst (getRandom r) * max / 2 ^ 32)%Z
  /\ (min <= fst (getRandomInteger min max r) < min + max)%Z
  /\ snd (getRandomInteger min max r) = snd (getRandom r).
Proof.
  intros Hs Hmax Hb. pose proof (getRandom_range r Hs) as Hr.
  rewrite getRandomInteger_unfold. cbn [fst snd].
  rewrite scaled_sum_exact by assumption.
  rewrite Z.div_add by lia.
  assert (0 <= fst (getRandom r) * max / 2 ^ 32 < max)%Z.
  { split.
    - apply Z.div_pos; nia.
    - apply Z.div_lt_upper_bound; nia. }
  split; [lia |]. split; [lia | reflexivity].
Qed.

Lemma getRandomFloat_exact (min max : Z) (r : Random) :
  (0 <= seed r)%Z -> (0 < max)%Z -> (max + Z.abs min <= 2 ^ 21)%Z ->
  (Qmake (fst (getRandomFloat min max r)) (2 ^ 32)
   == next_value r * inject_Z max + inject_Z min)%Q
  /\ (inject_Z min <= Qmake (fst (getRandomFloat min max r)) (2 ^ 32))%Q
  /\ (Qmake (fst (getRandomFloat min max r)) (2 ^ 32) < inject_Z (min + max))%Q
  /\ snd (getRandomFloat min max r) = snd (getRandom r).
Proof.
  intros Hs Hmax Hb. pose proof (getRandom_range r Hs) as Hr.
  rewrite getRandomFloat_unfold. cbn [fst snd].
  rewrite scaled_sum_exact by assumption.
  unfold next_value, Qeq, Qle, Qlt, Qmult, Qplus, inject_Z. cbn [Qnum Qden].
  change (Z.pos (2 ^ 32)) with (2 ^ 32)%Z.
  repeat split; try nia.
Qed.

(** X5: for integers [min] and [max > 0] (with [max + |min|] up to [2^21],
    where no operation rounds) [getRandomInteger(min, max)] returns
    [min + floor(rnd * max)], an integer of [min, min + max), and
    [getRandomFloat(min, max)] returns [rnd * max + min], a value of
    [min, min + max): [max] is the width of the range, not its upper bound.
    Each draws once from the generator. *)
Theorem random_ranges (min max : Z) (r : Random) :
  (0 <= seed r)%Z -> (0 < max)%Z -> (max + Z.abs min <= 2 ^ 21)%Z ->
  (fst (getRandomInteger min max r) = (min + fst (getRandom r) * max / 2 ^ 32)%Z
   /\ (min <= fst (getRandomInteger min max r) < min + max)%Z
   /\ snd (getRandomInteger min max r) = snd (getRandom r))
  /\ ((Qmake (fst (getRandomFloat min max r)) (2 ^ 32)
       == next_value r * inject_Z max + inject_Z min)%Q
      /\ (inject_Z min <= Qmake (fst (getRandomFloat min max r)) (2 ^ 32))%Q
      /\ (Qmake (fst (getRandomFloat min max r)) (2 ^ 32) < inject_Z (min + max))%Q
      /\ snd (getRandomFloat min max r) = snd (getRandom r)).
Proof.
  intros Hs Hmax Hb.
  split; [apply getRandomInteger_exact | apply getRandomFloat_exact]; assumption.
Qed.

Lemma random_ranges_witness :
  (fst (getRandomInteger 5 10 (mkRandom 7))
   = (5 + fst (getRandom (mkRandom 7)) * 10 / 2 ^ 32)%Z
   /\ (5 <= fst (getRandomInteger 5 10 (mkRandom 7)) < 5 + 10)%Z
   /\ snd (getRandomInteger 5 10 (mkRandom 7)) = snd (getRandom (mkRandom 7)))
  /\ ((Qmake (fst (getRandomFloat 5 10 (mkRandom 7))) (2 ^ 32)
       == next_value (mkRandom 7) * inject_Z 10 + inject_Z 5)%Q
      /\ (inject_Z 5 <= Qmake (fst (getRandomFloat 5 10 (mkRandom 7))) (2 ^ 32))%Q
      /\ (Qmake (fst (getRandomFloat 5 10 (mkRandom 7))) (2 ^ 32) < inject_Z (5 + 10))%Q
      /\ snd (getRandomFloat 5 10 (mkRandom 7)) = snd (getRandom (mkRandom 7))).
Proof. apply (random_ranges 5 10 (mkRandom 7)); cbn; lia. Defined.

(** ** class Random: the weighted pick *)

Lemma weighted_items_cases (w : Obj WeightData) (item : string) :
  (obj_get w "length" = Some 0%Z \/ obj_get w item = None /\ inherited item = false)
  /\ weighted_items w item = [item]
  \/ (obj_get w "length" <> Some 0%Z /\ obj_get w item = None /\ inherited item = true
      /\ weighted_items w item = [])
  \/ exists n, obj_get w "length" <> Some 0%Z /\ obj_get w item = Some n
               /\ weighted_items w item = replicate (Z.to_nat n) item.
Proof.
  unfold weighted_items.
  destruct (obj_get w "length") as [[| p | p] |] eqn:El;
    destruct (obj_get w item) as [n |] eqn:Ei;
    destruct (inherited item) eqn:Eh;
    try (left; split; [tauto | reflexivity]);
    try (right; left; repeat split; congruence);
    right; right; exists n; repeat split; congruence.
Qed.

(** X6: a type that [pickOneWeighted] returns is one of the candidates, and
    its weight is absent or positive: a weight of zero or below takes the
    type out of the draw (unless the record has a property "length" equal
    to [0], which switches all weights off). *)
Theorem pickOneWeighted_positive_weight (set : list string) (w : Obj WeightData)
    (r r' : Random) (x : string) :
  pickOneWeighted set w r = (Some x, r') ->
  In x set
  /\ (obj_get w "length" = Some 0%Z \/ obj_get w x = None
      \/ exists n, obj_get w x = Some n /\ (0 < n)%Z).
Proof.
  intros H. unfold pickOneWeighted in H. destruct (getRandom r) as [rnd r0].
  injection H as Hget _. apply js_get_In, in_flat_map in Hget.
  destruct Hget as [item [Hitem Hx]].
  destruct (weighted_items_cases w item) as [[Hc E] | [(_ & _ & _ & E) | [n [Hl [Hn E]]]]];
    rewrite E in Hx.
  - destruct Hx as [-> | []]. split; [exact Hitem | tauto].
  - destruct Hx.
  - apply list_elem_of_In, elem_of_replicate in Hx. destruct Hx as [-> Hz].
    split; [exact Hitem |]. right. right. exists n. split; [exact Hn | lia].
Qed.

Lemma pickOneWeighted_positive_weight_witness :
  In "B" ["A"; "B"]
  /\ (obj_get [("A", 0%Z); ("B", 2%Z)] "length" = Some 0%Z
      \/ obj_get [("A", 0%Z); ("B", 2%Z)] "B" = None
      \/ exists n, obj_get [("A", 0%Z); ("B", 2%Z)] "B" = Some n /\ (0 < n)%Z).
Proof.
  apply (pickOneWeighted_positive_weight ["A"; "B"] [("A", 0%Z); ("B", 2%Z)]
           (mkRandom 1) (snd (getRandom (mkRandom 1)))).
  vm_compute. reflexivity.
Defined.

Lemma flat_map_singletons {A} (f : A -> list A) (l : list A) :
  (forall x, In x l -> f x = [x]) -> flat_map f l = l.
Proof.
  induction l as [| a l IH]; intros H; [reflexivity |].
  cbn [flat_map]. rewrite (H a) by (left; reflexivity).
  cbn [app]. f_equal. apply IH. intros x Hx. apply H. right. exact Hx.
Qed.

(** X7: when the weight record has a property "length" equal to [0], or
    no candidate has a weight or is named like an inherited property,
    [pickOneWeighted] is [pickOne]. *)
Theorem pickOneWeighted_unweighted (set : list string) (w : Obj WeightData) (r : Random) :
  obj_get w "length" = Some 0%Z
  \/ (forall x, In x set -> obj_get w x = None /\ inherited x = false) ->
  pickOneWeighted set w r = pickOne set r.
Proof.
  intros H. unfold pickOneWeighted, pickOne.
  rewrite flat_map_singletons; [reflexivity |].
  intros x Hx. unfold weighted_items. destruct H as [-> | H]; [reflexivity |].
  destruct (H x Hx) as [-> ->]. repeat case_match; reflexivity.
Qed.

Lemma pickOneWeighted_unweighted_witness :
  pickOneWeighted ["A"; "B"] [("C", 5%Z)] (mkRandom 1) = pickOne ["A"; "B"] (mkRandom 1).
Proof.
  apply (pickOneWeighted_unweighted ["A"; "B"] [("C", 5%Z)] (mkRandom 1)).
  right. intros x [<- | [<- | []]]; split; reflexivity.
Defined.

(** X8: in the list that [pickOneWeighted] draws from, a type with weight
    [n] stands [n] times for each of its occurrences among the candidates,
    a type without weight once, and not at all when it is named like an
    inherited property. *)
Theorem weighted_expansion_count (set : list string) (w : Obj WeightData) (x : string) :
  obj_get w "length" <> Some 0%Z ->
  count_occ string_dec (flat_map (weighted_items w) set) x
  = count_occ string_dec set x
    * match obj_get w x with
      | Some n => Z.to_nat n
      | None => if inherited x then 0 else 1
      end.
Proof.
  intros Hl. induction set as [| a l IH]; [reflexivity |].
  cbn [flat_map]. rewrite count_occ_app, IH. cbn [count_occ].
  assert (Hin : forall y, In y (weighted_items w a) -> y = a).
  { intros y Hy. exact (weighted_items_In w a y Hy). }
  destruct (string_dec a x) as [-> | Hne].
  - assert (E : count_occ string_dec (weighted_items w x) x
                = match obj_get w x with
                  | Some n => Z.to_nat n
                  | None => if inherited x then 0 else 1
                  end).
    { destruct (weighted_items_cases w x)
        as [[[Hc | [Hc Hi]] E] | [(_ & Hc & Hi & E) | [n [_ [Hn E]]]]]; rewrite E.
      - contradiction.
      - rewrite Hc, Hi. cbn. destruct (string_dec x x); congruence.
      - rewrite Hc, Hi. reflexivity.
      - rewrite Hn. clear. induction (Z.to_nat n) as [| k IHk]; [reflexivity |].
        cbn. destruct (string_dec x x); [f_equal; exact IHk | congruence]. }
    rewrite E. lia.
  - rewrite (proj1 (count_occ_not_In string_dec _ x)); [lia |].
    intros Hx. apply Hin in Hx. congruence.
Qed.

Lemma weighted_expansion_count_witness :
  count_occ string_dec (flat_map (weighted_items [("A", 3%Z)]) ["A"; "B"; "A"]) "A"
  = count_occ string_dec ["A"; "B"; "A"] "A"
    * match obj_get [("A", 3%Z)] "A" with
      | Some n => Z.to_nat n
      | None => if inherited "A" then 0 else 1
      end.
Proof.
  apply (weighted_expansion_count ["A"; "B"; "A"] [("A", 3%Z)] "A").
  cbn. discriminate.
Defined.

(** ** Records keyed by strings *)

Section ObjLaws.
Context {V : Type}.
Implicit Types (o : Obj V) (k : string) (v : V).

Lemma obj_get_app o1 o2 k :
  obj_get (o1 ++ o2) k = match obj_get o1 k with Some v => Some v | None => obj_get o2 k end.
Proof.
  induction o1 as [| [k' v'] o1 IH]; [reflexivity |].
  cbn. destruct (String.eqb k' k); [reflexivity | exact IH].
Qed.

Lemma obj_get_replace o k k' v :
  obj_get (obj_replace k v o) k'
  = if String.eqb k k'
    then match obj_get o k with Some _ => Some v | None => None end
    else obj_get o k'.
Proof.
  induction o as [| [k0 v0] o IH]; cbn.
  - destruct (String.eqb k k'); reflexivity.
  - destruct (String.eqb_spec k0 k) as [-> | Hne]; cbn.
    + destruct (String.eqb_spec k k'); reflexivity.
    + rewrite IH. destruct (String.eqb_spec k0 k') as [-> | Hne'];
        destruct (String.eqb_spec k k'); congruence.
Qed.

Lemma obj_get_insert_index n o k k' v :
  obj_get o k = None ->
  obj_get (obj_insert_index n k v o) k' = if String.eqb k k' then Some v else obj_get o k'.
Proof.
  induction o as [| [k0 v0] o IH]; intros Hk; cbn.
  - reflexivity.
  - cbn in Hk. destruct (String.eqb_spec k0 k) as [-> | Hne]; [discriminate |].
    destruct (array_index k0) as [n' |]; [destruct (n' <? n)%N |]; cbn; try reflexivity.
    rewrite (IH Hk).
    destruct (String.eqb_spec k0 k') as [-> | Hne'];
      destruct (String.eqb_spec k k'); congruence.
Qed.

Lemma obj_get_set o k k' v :
  k <> "__proto__" ->
  obj_get (obj_set k v o) k' = if String.eqb k k' then Some v else obj_get o k'.
Proof.
  intros Hk. unfold obj_set. destruct (obj_get o k) as [v0 |] eqn:E.
  - rewrite obj_get_replace, E. reflexivity.
  - destruct (String.eqb_spec k "__proto__") as [? | _]; [contradiction |].
    destruct (array_index k) as [n |].
    + apply obj_get_insert_index. exact E.
    + rewrite obj_get_app. cbn.
      destruct (String.eqb_spec k k') as [-> | Hne]; [rewrite E; reflexivity |].
      destruct (obj_get o k'); reflexivity.
Qed.

Lemma obj_keys_replace o k v : obj_keys (obj_replace k v o) = obj_keys o.
Proof.
  induction o as [| [k0 v0] o IH]; [reflexivity |].
  cbn. destruct (String.eqb k0 k); cbn; [reflexivity | f_equal; exact IH].
Qed.

Lemma obj_get_keys o k : obj_get o k = None <-> ~ In k (obj_keys o).
Proof.
  induction o as [| [k0 v0] o IH]; cbn; [tauto |].
  destruct (String.eqb_spec k0 k) as [-> | Hne]; [split; [discriminate | tauto] |].
  rewrite IH. tauto.
Qed.

Lemma obj_keys_insert_index n o k v :
  Permutation (obj_keys (obj_insert_index n k v o)) (k :: obj_keys o).
Proof.
  induction o as [| [k0 v0] o IH]; cbn; [reflexivity |].
  destruct (array_index k0) as [n' |]; [destruct (n' <? n)%N |]; cbn; try reflexivity.
  rewrite IH. apply perm_swap.
Qed.

Lemma obj_keys_set_NoDup o k v : NoDup (obj_keys o) -> NoDup (obj_keys (obj_set k v o)).
Proof.
  intros Hnd. unfold obj_set. destruct (obj_get o k) as [v0 |] eqn:E.
  - rewrite obj_keys_replace. exact Hnd.
  - destruct (String.eqb k "__proto__"); [exact Hnd |].
    apply obj_get_keys in E. destruct (array_index k) as [n |].
    + rewrite obj_keys_insert_index. constructor; [rewrite list_elem_of_In; exact E | exact Hnd].
    + unfold obj_keys. rewrite map_app. fold (obj_keys o). cbn.
      apply NoDup_app. split; [exact Hnd |]. split.
      * intros x Hx Hx'. apply list_elem_of_In in Hx. apply list_elem_of_In in Hx'.
        destruct Hx' as [<- | []]. contradiction.
      * apply NoDup_singleton.
Qed.

End ObjLaws.

(** ** class WFC: the rule and weight tables *)

(** X9: after [setRule(type, rule)], for a type other than "__proto__",
    the table holds [rule] for [type] and what it held before for every
    other type. *)
Theorem setRule_lookup (ty ty' : string) (rule : Rule) (st : WFC) :
  ty <> "__proto__" ->
  obj_get (rules (setRule ty rule st)) ty'
  = if String.eqb ty ty' then Some rule else obj_get (rules st) ty'.
Proof. intros Hty. apply obj_get_set. exact Hty. Qed.

Lemma setRule_lookup_witness :
  obj_get (rules (setRule "C" (mkRule ["A"] ["A"] ["B"] ["B"]) (Sample.checker 1))) "A"
  = if String.eqb "C" "A" then Some (mkRule ["A"] ["A"] ["B"] ["B"])
    else obj_get (rules (Sample.checker 1)) "A".
Proof.
  apply (setRule_lookup "C" "A" (mkRule ["A"] ["A"] ["B"] ["B"]) (Sample.checker 1)).
  discriminate.
Defined.

Lemma setRules_array_rules (rs : list (string * Rule)) (st : WFC) :
  rules (setRules_array rs st) = fold_left (fun o r => obj_set (fst r) (snd r) o) rs (rules st).
Proof.
  revert st. induction rs as [| r rs IH]; intros st; [reflexivity |].
  cbn [setRules_array fold_left]. fold (setRules_array rs (setRule (fst r) (snd r) st)).
  rewrite IH. reflexivity.
Qed.

Lemma fold_obj_set_get {V} (l : list (string * V)) (o : Obj V) (k : string) :
  Forall (fun e => fst e <> "__proto__") l ->
  obj_get (fold_left (fun o r => obj_set (fst r) (snd r) o) l o) k
  = match obj_get (rev l) k with Some v => Some v | None => obj_get o k end.
Proof.
  revert o. induction l as [| [k0 v0] l IH]; intros o Hl; [reflexivity |].
  apply Forall_cons in Hl as [Hk0 Hl]. cbn [fst] in Hk0.
  cbn [fold_left rev fst snd]. rewrite (IH _ Hl), obj_get_app, (obj_get_set _ _ _ _ Hk0). cbn.
  destruct (obj_get (rev l) k); [reflexivity |].
  destruct (String.eqb k0 k); reflexivity.
Qed.

Lemma setWeights_weighting (ws : list (string * WeightData)) (st : WFC) :
  weighting (setWeights ws st)
  = fold_left (fun o r => obj_set (fst r) (snd r) o) ws (weighting st).
Proof.
  revert st. induction ws as [| r rs IH]; intros st; [reflexivity |].
  cbn [setWeights fold_left]. fold (setWeights rs (setWeight (fst r) (snd r) st)).
  rewrite IH. reflexivity.
Qed.

(** X10: [setRules] with an array and [setWeights], given arrays without
    an entry of type "__proto__", merge the array into the table: a type
    gets the rule (the weight) of its last entry in the array, a type
    without entry keeps what it had. *)
Theorem array_setters_merge (rs : list (string * Rule)) (ws : list (string * WeightData))
    (ty : string) (st : WFC) :
  Forall (fun e => fst e <> "__proto__") rs ->
  Forall (fun e => fst e <> "__proto__") ws ->
  obj_get (rules (setRules_array rs st)) ty
  = match obj_get (rev rs) ty with
    | Some rule => Some rule
    | None => obj_get (rules st) ty
    end
  /\ obj_get (weighting (setWeights ws st)) ty
     = match obj_get (rev ws) ty with
       | Some weight => Some weight
       | None => obj_get (weighting st) ty
       end.
Proof.
  intros Hrs Hws. split.
  - rewrite setRules_array_rules. apply fold_obj_set_get. exact Hrs.
  - rewrite setWeights_weighting. apply fold_obj_set_get. exact Hws.
Qed.

Lemma array_setters_merge_witness :
  obj_get (rules (setRules_array [("A", mkRule [] [] [] []); ("A", mkRule ["B"] [] [] [])]
                    (Sample.checker 1))) "A"
  = match obj_get (rev [("A", mkRule [] [] [] []); ("A", mkRule ["B"] [] [] [])]) "A" with
    | Some rule => Some rule
    | None => obj_get (rules (Sample.checker 1)) "A"
    end
  /\ obj_get (weighting (setWeights [("B", 2%Z)] (Sample.checker 1))) "A"
     = match obj_get (rev [("B", 2%Z)]) "A" with
       | Some weight => Some weight
       | None => obj_get (weighting (Sample.checker 1)) "A"
       end.
Proof.
  apply (array_setters_merge [("A", mkRule [] [] [] []); ("A", mkRule ["B"] [] [] [])]
           [("B", 2%Z)] "A" (Sample.checker 1)).
  - repeat constructor; discriminate.
  - repeat constructor; discriminate.
Defined.

(** X11: [setRule] never makes [Object.keys(rules)] hold a type twice;
    declaring a type again keeps the order of the keys, a new type that is
    neither an array index nor "__proto__" goes to the end, and the type
    "__proto__", unless it is a key already, adds no key. *)
Theorem setRule_keys (ty : string) (rule : Rule) (st : WFC) :
  (NoDup (obj_keys (rules st)) -> NoDup (obj_keys (rules (setRule ty rule st))))
  /\ (In ty (obj_keys (rules st)) ->
      obj_keys (rules (setRule ty rule st)) = obj_keys (rules st))
  /\ (~ In ty (obj_keys (rules st)) -> array_index ty = None -> ty <> "__proto__" ->
      obj_keys (rules (setRule ty rule st)) = obj_keys (rules st) ++ [ty])
  /\ (~ In "__proto__" (obj_keys (rules st)) ->
      obj_keys (rules (setRule "__proto__" rule st)) = obj_keys (rules st)).
Proof.
  split; [apply obj_keys_set_NoDup |]. unfold setRule, obj_set. cbn [rules set_rules].
  split; [| split].
  - intros Hin. destruct (obj_get (rules st) ty) eqn:E.
    + apply obj_keys_replace.
    + apply obj_get_keys in E. contradiction.
  - intros Hin Hidx Hty. apply obj_get_keys in Hin. rewrite Hin, Hidx.
    destruct (String.eqb_spec ty "__proto__") as [? | _]; [contradiction |].
    unfold obj_keys. rewrite map_app. reflexivity.
  - intros Hin. apply obj_get_keys in Hin. rewrite Hin. reflexivity.
Qed.

(** ** class WFC: configuration *)

Lemma blank_tiles_lookup (n i : nat) (t : TileData) :
  blank_tiles n !! i = Some (Some t) -> i < n /\ t = mkTile i (Some "") Infinity [].
Proof.
  unfold blank_tiles. rewrite list_lookup_fmap. intros H.
  destruct (seq 0 n !! i) as [k |] eqn:E; [| discriminate].
  apply lookup_seq in E as [-> Hlt]. cbn in H. unfold blank_tile in H.
  split; [exact Hlt | congruence].
Qed.

Lemma blank_tiles_length (n : nat) : length (blank_tiles n) = n.
Proof. unfold blank_tiles. rewrite length_map, length_seq. reflexivity. Qed.

Lemma fresh_blank (n : nat) : fresh_tiles (blank_tiles n).
Proof.
  intros i t H. apply blank_tiles_lookup in H as [_ ->]. repeat split.
Qed.

Lemma fresh_js_set (i : nat) (ty : option string) (ts : list (option TileData)) :
  fresh_tiles ts -> fresh_tiles (js_set i (mkTile i ty Infinity []) ts).
Proof.
  intros H j t Hj. destruct (Nat.eq_dec i j) as [<- | Hne].
  - rewrite js_set_lookup_eq in Hj. injection Hj as <-. repeat split.
  - apply (H j t). pose proof (js_set_read_ne i j (mkTile i ty Infinity []) ts Hne) as E.
    rewrite Hj in E. cbn in E. destruct (ts !! j) as [[t' |] |]; cbn in E; congruence.
Qed.

Lemma fresh_setTiles_fold (inputs : list TileInput) (ts : list (option TileData)) :
  fresh_tiles ts -> fresh_tiles (fold_left setTiles_callback inputs ts).
Proof.
  revert ts. induction inputs as [| e inputs IH]; intros ts H; [exact H |].
  cbn [fold_left]. apply IH. unfold setTiles_callback.
  destruct (input_index e =? 0); [exact H | apply fresh_js_set; exact H].
Qed.

Lemma call_fresh (c : ConfigCall) (st : WFC) : fresh st -> fresh (call c st).
Proof.
  intros H. destruct c; cbn [call]; try exact H.
  - unfold setRules_array. revert st H.
    induction rs as [| r rs IH]; intros st H; [exact H |].
    cbn [fold_left]. apply IH. exact H.
  - unfold setWeights. revert st H.
    induction ws as [| w ws IH]; intros st H; [exact H |].
    cbn [fold_left]. apply IH. exact H.
  - exact (fresh_js_set i (type tile) (tiles st) H).
  - exact (fresh_setTiles_fold inputs (tiles st) H).
  - exact (fresh_blank (numTiles st)).
  - exact (fresh_blank (numTiles st)).
Qed.

Lemma configure_snoc (cs : list ConfigCall) (c : ConfigCall) (st : WFC) :
  configure (cs ++ [c]) st = call c (configure cs st).
Proof. unfold configure. rewrite fold_left_app. reflexivity. Qed.

Lemma setRules_array_frame (rs : list (string * Rule)) (st : WFC) :
  setRules_array rs st = set_rules (rules (setRules_array rs st)) st.
Proof.
  revert st. induction rs as [| r rs IH]; intros st; [destruct st; reflexivity |].
  cbn [setRules_array fold_left]. fold (setRules_array rs (setRule (fst r) (snd r) st)).
  rewrite IH at 1. reflexivity.
Qed.

Lemma setWeights_frame (ws : list (string * WeightData)) (st : WFC) :
  setWeights ws st = set_weighting (weighting (setWeights ws st)) st.
Proof.
  revert st. induction ws as [| r rs IH]; intros st; [destruct st; reflexivity |].
  cbn [setWeights fold_left]. fold (setWeights rs (setWeight (fst r) (snd r) st)).
  rewrite IH at 1. reflexivity.
Qed.

Lemma call_frame (c : ConfigCall) (st : WFC) :
  rnd (call c st) = rnd st /\ width (call c st) = width st
  /\ height (call c st) = height st /\ numTiles (call c st) = numTiles st.
Proof.
  destruct c; cbn [call]; try (repeat split; reflexivity).
  - rewrite setRules_array_frame. repeat split; reflexivity.
  - rewrite setWeights_frame. repeat split; reflexivity.
Qed.

Lemma configure_frame_aux (cs : list ConfigCall) (st : WFC) :
  rnd (configure cs st) = rnd st /\ width (configure cs st) = width st
  /\ height (configure cs st) = height st /\ numTiles (configure cs st) = numTiles st.
Proof.
  induction cs as [| c cs IH] using rev_ind; [repeat split; reflexivity |].
  rewrite configure_snoc.
  destruct (call_frame c (configure cs st)) as (-> & -> & -> & ->). exact IH.
Qed.

(** X12: no sequence of configuration calls touches the generator or the
    dimensions of the level. *)
Theorem configure_frame (cs : list ConfigCall) (st : WFC) :
  rnd (configure cs st) = rnd st /\ width (configure cs st) = width st
  /\ height (configure cs st) = height st /\ numTiles (configure cs st) = numTiles st.
Proof. exact (configure_frame_aux cs st). Qed.

(** X13: whatever configuration calls follow the constructor, the grid is
    fresh: every tile carries the index of its position, entropy [Infinity]
    and no candidates. *)
Theorem configure_fresh (cs : list ConfigCall) (options : WFCoptions) (now : Z) :
  fresh (configure cs (new_WFC options now)).
Proof.
  induction cs as [| c cs IH] using rev_ind.
  - exact (fresh_blank _).
  - rewrite configure_snoc. apply call_fresh. exact IH.
Qed.

(** X14: [resetLevel] undoes every configuration call made since the
    constructor, except what the calls did to the random-start flag. *)
Theorem resetLevel_undoes_configuration (cs : list ConfigCall) (options : WFCoptions)
    (now : Z) :
  resetLevel (configure cs (new_WFC options now))
  = set_startWithRandom (startWithRandom (configure cs (new_WFC options now)))
                        (new_WFC options now).
Proof.
  destruct (configure_frame_aux cs (new_WFC options now)) as (Hr & Hw & Hh & Hn).
  unfold resetLevel. rewrite Hr, Hw, Hh, Hn. reflexivity.
Qed.

(** ** The frame of a run *)

Lemma same_frame_refl (st : WFC) : same_frame st st.
Proof. unfold same_frame. tauto. Qed.

Lemma same_frame_trans (s1 s2 s3 : WFC) :
  same_frame s1 s2 -> same_frame s2 s3 -> same_frame s1 s3.
Proof.
  unfold same_frame. intros (? & ? & ? & ? & ? & ? & ?) (? & ? & ? & ? & ? & ? & ?).
  repeat split; congruence.
Qed.

Lemma keeps_ret {A} (a : A) : keeps (ret a).
Proof. intros st. apply same_frame_refl. Qed.

Lemma keeps_throw {A} (e : Error) : keeps (throw (A := A) e).
Proof. intros st. apply same_frame_refl. Qed.

Lemma keeps_gets {A} (f : WFC -> A) : keeps (gets f).
Proof. intros st. apply same_frame_refl. Qed.

Lemma keeps_tile_at (i : nat) : keeps (tile_at i).
Proof. intros st. unfold tile_at. repeat case_match; apply same_frame_refl. Qed.

Lemma keeps_with_rnd {A} (f : Random -> A * Random) : keeps (with_rnd f).
Proof.
  intros st. unfold with_rnd. destruct (f (rnd st)) as [a r]. cbn.
  unfold same_frame. tauto.
Qed.

Lemma keeps_bind {A B} (m : M A) (k : A -> M B) :
  keeps m -> (forall a, keeps (k a)) -> keeps (bind m k).
Proof.
  intros Hm Hk st. unfold bind. specialize (Hm st).
  destruct (m st) as [[a | e] st1]; cbn [snd] in *; [| exact Hm].
  exact (same_frame_trans _ _ _ Hm (Hk a st1)).
Qed.

Lemma keeps_try_catch {A} (m : M A) (handler : Error -> M A) :
  keeps m -> (forall e, keeps (handler e)) -> keeps (try_catch m handler).
Proof.
  intros Hm Hh st. unfold try_catch. specialize (Hm st).
  destruct (m st) as [[a | e] st1]; cbn [snd] in *; [exact Hm |].
  exact (same_frame_trans _ _ _ Hm (Hh e st1)).
Qed.

Lemma indices_alter (f : TileData -> TileData) (i : nat) (ts : list (option TileData)) :
  (forall t, index (f t) = index t) -> indices (alter (fmap f) i ts) = indices ts.
Proof.
  intros Hf. unfold indices. apply list_eq. intros k.
  rewrite !list_lookup_fmap. destruct (Nat.eq_dec i k) as [<- | Hne].
  - rewrite list_lookup_alter_eq. destruct (ts !! i) as [[t |] |]; cbn; [| reflexivity ..].
    rewrite Hf. reflexivity.
  - rewrite list_lookup_alter_ne by assumption. reflexivity.
Qed.

Lemma keeps_update_tile (i : nat) (f : TileData -> TileData) :
  (forall t, index (f t) = index t) -> keeps (update_tile i f).
Proof.
  intros Hf. unfold update_tile. apply keeps_bind; [apply keeps_tile_at |].
  intros _ st. unfold modify. cbn [snd]. unfold same_frame. cbn.
  rewrite indices_alter by exact Hf. tauto.
Qed.

Ltac keeps_step :=
  lazymatch goal with
  | |- keeps (ret _) => apply keeps_ret
  | |- keeps (throw _) => apply keeps_throw
  | |- keeps (gets _) => apply keeps_gets
  | |- keeps (tile_at _) => apply keeps_tile_at
  | |- keeps (with_rnd _) => apply keeps_with_rnd
  | |- keeps (update_tile _ _) => apply keeps_update_tile; intros []; reflexivity
  | |- keeps (bind _ _) => apply keeps_bind; [| intros ?]
  | |- keeps (try_catch _ _) => apply keeps_try_catch; [| intros ?]
  | |- keeps (match ?x with _ => _ end) => destruct x
  | |- keeps (if ?b then _ else _) => destruct b
  | |- keeps (let _ := _ in _) => cbv zeta
  end.

Lemma keeps_neighborAvailableTiles (n : option nat) (sd : Rule -> list string) :
  keeps (neighborAvailableTiles n sd).
Proof. unfold neighborAvailableTiles. repeat keeps_step. Qed.

Lemma keeps_getEntropy (i : nat) : keeps (_getEntropy i).
Proof.
  unfold _getEntropy.
  repeat first [apply keeps_neighborAvailableTiles | keeps_step].
Qed.

Lemma keeps_neighborEntropy (n : option nat) (d : Direction) : keeps (neighborEntropy n d).
Proof. unfold neighborEntropy. repeat first [apply keeps_getEntropy | keeps_step]. Qed.

Lemma keeps_set_entropy (n : option nat) (e : option Entropy) : keeps (set_entropy n e).
Proof. unfold set_entropy. repeat keeps_step. Qed.

Lemma keeps_set_left_entropy (n : option nat) (e : option Entropy) :
  keeps (set_left_entropy n e).
Proof. unfold set_left_entropy. repeat keeps_step. Qed.

Lemma keeps_propagation (i : nat) : keeps (_setEntropyOfSurroundingTiles i).
Proof.
  unfold _setEntropyOfSurroundingTiles.
  repeat first [apply keeps_neighborEntropy | apply keeps_set_entropy
               | apply keeps_set_left_entropy | keeps_step].
Qed.

Lemma keeps_prepare_loop (positions : list nat) : keeps (prepare_loop positions).
Proof.
  induction positions as [| i rest IH]; cbn [prepare_loop].
  - apply keeps_ret.
  - repeat first [exact IH | apply keeps_getEntropy | keeps_step].
Qed.

Lemma keeps_prepare : keeps _prepareTileDataForCollapsing.
Proof. unfold _prepareTileDataForCollapsing. keeps_step; [keeps_step | apply keeps_prepare_loop]. Qed.

Lemma keeps_attempt_try (cur retries : nat) (choices : list string) :
  keeps (attempt_try cur retries choices).
Proof.
  unfold attempt_try. repeat first [apply keeps_propagation | keeps_step].
Qed.

Lemma keeps_attempt_pass (cur retries : nat) (choices : list string) :
  keeps (attempt_pass cur retries choices).
Proof.
  unfold attempt_pass. repeat first [apply keeps_attempt_try | keeps_step].
Qed.

Lemma keeps_collapseNext (fuel : nat) : keeps (_collapseNext fuel).
Proof.
  induction fuel as [| fuel IH]; cbn [_collapseNext].
  - apply keeps_ret.
  - repeat first [exact IH | apply keeps_attempt_pass | keeps_step].
Qed.

Lemma keeps_random_start : keeps random_start.
Proof. unfold random_start. repeat keeps_step. Qed.

Lemma same_frame_set_bufferstate (b : BufferState) (st : WFC) :
  same_frame st (set_bufferstate b st).
Proof. unfold same_frame. cbn. tauto. Qed.

Lemma step_loop_frame (fuel : nat) (st st' : WFC) (console : list Error) :
  step_loop fuel st = Some (console, st') -> same_frame st st'.
Proof.
  revert st. induction fuel as [| fuel IH]; intros st H; [discriminate |].
  cbn [step_loop] in H. pose proof (keeps_collapseNext (S fuel) st) as Hk.
  destruct (_collapseNext (S fuel) st) as [[[[|] |] | e] s1]; cbn [snd] in Hk.
  - exact (same_frame_trans _ _ _ Hk (IH _ H)).
  - congruence.
  - discriminate.
  - congruence.
Qed.

Lemma generateLevel_frame_aux (st st' : WFC) (r : Result (list Error)) :
  generateLevel st = Some (r, st') -> same_frame st st'.
Proof.
  unfold generateLevel, generateLevel_fuel. cbv zeta.
  pose proof (same_frame_set_bufferstate (_isDataReady st) st) as H0.
  change (bufferstate (set_bufferstate (_isDataReady st) st)) with (_isDataReady st).
  destruct (_isDataReady st) eqn:Er; try (intros H; injection H as <- <-; exact H0).
  assert (Hk : keeps (random_start;; _prepareTileDataForCollapsing)).
  { apply keeps_bind; [apply keeps_random_start | intros _; apply keeps_prepare]. }
  specialize (Hk (set_bufferstate ready st)).
  destruct ((random_start;; _prepareTileDataForCollapsing) (set_bufferstate ready st))
    as [[[] | e] s1]; cbn [snd] in Hk.
  - destruct (step_loop _ _) as [[console s2] |] eqn:El; [| discriminate].
    intros H. injection H as <- <-.
    apply step_loop_frame in El.
    eapply same_frame_trans; [exact H0 |].
    eapply same_frame_trans; [exact Hk |].
    eapply same_frame_trans; [apply same_frame_set_bufferstate |].
    eapply same_frame_trans; [exact El |].
    apply same_frame_set_bufferstate.
  - intros H. injection H as <- <-. exact (same_frame_trans _ _ _ H0 Hk).
Qed.

(** X15: a call of [generateLevel], however it ends, leaves the dimensions,
    the rules, the weights and the random-start flag as they were, and
    changes neither the length of the tile array, nor its holes, nor the
    index a tile carries. *)
Theorem generateLevel_frame (st st' : WFC) (r : Result (list Error)) :
  generateLevel st = Some (r, st') -> same_frame st st'.
Proof. apply generateLevel_frame_aux. Qed.

Lemma generateLevel_frame_witness :
  same_frame Sample.corner (Sample.after_run Sample.corner).
Proof.
  apply (generateLevel_frame Sample.corner (Sample.after_run Sample.corner)
           (Ok [FailedToCollapseTile])).
  vm_compute. reflexivity.
Defined.

(** ** Reading the grid after a run *)

Lemma indices_lookup (ts ts' : list (option TileData)) (i : nat) :
  indices ts' = indices ts ->
  (index <$> mjoin (ts' !! i)) = (index <$> mjoin (ts !! i))
  /\ length ts' = length ts.
Proof.
  intros H. split.
  - apply (f_equal (fun l => l !! i)) in H. unfold indices in H.
    rewrite !list_lookup_fmap in H.
    destruct (ts' !! i) as [[t' |] |], (ts !! i) as [[t |] |]; cbn in *; congruence.
  - apply (f_equal length) in H. unfold indices in H. rewrite !length_map in H. exact H.
Qed.

Lemma indices_hole_free (ts ts' : list (option TileData)) :
  indices ts' = indices ts -> hole_free ts -> hole_free ts'.
Proof.
  intros H Hf i Hi. pose proof (f_equal (fun l => l !! i) H) as E. unfold indices in E.
  rewrite !list_lookup_fmap in E.
  destruct (indices_lookup ts ts' i H) as [_ Hlen]. rewrite Hlen in Hi.
  destruct (Hf i Hi) as [t Ht]. rewrite Ht in E.
  destruct (ts' !! i) as [[t' |] |]; cbn in E; try discriminate. exists t'. reflexivity.
Qed.

Lemma same_frame_indexed (st st' : WFC) : same_frame st st' -> indexed st -> indexed st'.
Proof.
  intros (_ & _ & _ & _ & _ & _ & H) Hi i t' Ht'.
  destruct (indices_lookup _ _ i H) as [E _]. rewrite Ht' in E. cbn in E.
  destruct (tiles st !! i) as [[t |] |] eqn:Ht; cbn in E; try discriminate.
  injection E as ->. exact (Hi i t Ht).
Qed.

(** On an array without holes whose tiles carry their positions, shifted
    by [k], the search of [getTileData] ends at position [i - k]. *)
Lemma find_index_indexed (ts : list (option TileData)) (k i : nat) (st : WFC) :
  hole_free ts -> (forall p t, ts !! p = Some (Some t) -> index t = k + p) -> k <= i ->
  find_index i ts st
  = (match ts !! (i - k) with
     | Some (Some t) => Ok t
     | _ => Throw ErrorChoosingTile
     end, st).
Proof.
  revert k. induction ts as [| o ts IH]; intros k Hf Hi Hk; [reflexivity |].
  destruct (Hf 0) as [t Ht]; [cbn; lia |]. cbn in Ht. injection Ht as ->.
  cbn [find_index]. pose proof (Hi 0 t eq_refl) as E0. rewrite Nat.add_0_r in E0.
  rewrite E0. destruct (Nat.eqb_spec k i) as [-> | Hne].
  - rewrite Nat.sub_diag. reflexivity.
  - rewrite (IH (S k)).
    + replace (i - k) with (S (i - S k)) by lia. reflexivity.
    + intros p Hp. destruct (Hf (S p)) as [t' Ht']; [cbn; lia |]. exists t'. exact Ht'.
    + intros p t' Hp. rewrite (Hi (S p) t' Hp). lia.
    + lia.
Qed.

(** X16: after a run that fulfilled its promise, on a grid that had no hole
    and whose tiles carried their positions, [getTileData(i)] returns the
    tile at position [i] for every position of the grid, and throws 'Error
    choosing tile' for every other [i]; it leaves the state as it is. *)
Theorem getTileData_after_run (st st' : WFC) (console : list Error) (i : nat) :
  indexed st -> hole_free (tiles st) ->
  generateLevel st = Some (Ok console, st') ->
  (i < length (tiles st) ->
   exists t, getTileData i st' = (Ok t, st')
             /\ tiles st' !! i = Some (Some t) /\ index t = i)
  /\ (length (tiles st) <= i -> getTileData i st' = (Throw ErrorChoosingTile, st')).
Proof.
  intros Hi Hf H.
  assert (Hc : bufferstate st' = collapsed).
  { unfold generateLevel, generateLevel_fuel in H. cbv zeta in H.
    repeat case_match; simplify_eq; reflexivity. }
  pose proof (generateLevel_frame_aux _ _ _ H) as Hfr.
  pose proof (same_frame_indexed _ _ Hfr Hi) as Hi'.
  destruct Hfr as (_ & _ & _ & _ & _ & _ & Hidx).
  pose proof (indices_hole_free _ _ Hidx Hf) as Hf'.
  destruct (indices_lookup _ _ i Hidx) as [_ Hlen].
  rewrite (getTileData_collapsed i st' Hc).
  rewrite (find_index_indexed (tiles st') 0 i st' Hf') by (auto with arith).
  rewrite Nat.sub_0_r. split.
  - intros Hlt. destruct (Hf' i) as [t Ht]; [lia |]. rewrite Ht.
    exists t. repeat split. exact (Hi' i t Ht).
  - intros Hge. rewrite lookup_ge_None_2 by lia. reflexivity.
Qed.

Lemma getTileData_after_run_witness :
  (2 < length (tiles (Sample.checker 1)) ->
   exists t, getTileData 2 (Sample.after_run (Sample.checker 1))
             = (Ok t, Sample.after_run (Sample.checker 1))
             /\ tiles (Sample.after_run (Sample.checker 1)) !! 2 = Some (Some t)
             /\ index t = 2)
  /\ (length (tiles (Sample.checker 1)) <= 2 ->
      getTileData 2 (Sample.after_run (Sample.checker 1))
      = (Throw ErrorChoosingTile, Sample.after_run (Sample.checker 1))).
Proof.
  apply (getTileData_after_run (Sample.checker 1) (Sample.after_run (Sample.checker 1)) []).
  - exact (fun i t H => proj1 (checker_fresh i t H)).
  - intros i Hi. destruct i as [| [| [| [| i]]]]; cbn in Hi; try lia; eexists; reflexivity.
  - vm_compute. reflexivity.
Defined.

(** ** The errors of a run *)

Lemma neighbor_list_Throw (st : WFC) (n : option nat) (sd : Rule -> list string) (e : Error) :
  neighbor_list st n sd = Throw e -> entropy_error e.
Proof.
  unfold neighbor_list, entropy_error. intros H.
  repeat case_match; simplify_eq; tauto.
Qed.

Lemma gather_Throw (st : WFC) (i : nat) (e : Error) :
  gather st i = Throw e -> entropy_error e.
Proof.
  unfold gather, dir_list. intros H.
  destruct (neighbor_list st (neighbor st i Up) _) eqn:E1; cbn [rbind] in H;
    [| injection H as <-; exact (neighbor_list_Throw _ _ _ _ E1)].
  destruct (neighbor_list st (neighbor st i Down) _) eqn:E2; cbn [rbind] in H;
    [| injection H as <-; exact (neighbor_list_Throw _ _ _ _ E2)].
  destruct (neighbor_list st (neighbor st i Left) _) eqn:E3; cbn [rbind] in H;
    [| injection H as <-; exact (neighbor_list_Throw _ _ _ _ E3)].
  destruct (neighbor_list st (neighbor st i Right) _) eqn:E4; cbn [rbind] in H;
    [discriminate | injection H as <-; exact (neighbor_list_Throw _ _ _ _ E4)].
Qed.

Lemma getEntropy_Throw (i : nat) (st st' : WFC) (e : Error) :
  _getEntropy i st = (Throw e, st') -> entropy_error e /\ st' = st.
Proof.
  intros H. apply getEntropy_cases in H. unfold entropy_error.
  inversion H; subst; try (split; [tauto | reflexivity]).
  split; [eapply gather_Throw; eassumption | reflexivity].
Qed.

Lemma same_frame_tile (st st' : WFC) (i : nat) (t : TileData) :
  same_frame st st' -> tiles st !! i = Some (Some t) ->
  exists t', tiles st' !! i = Some (Some t').
Proof.
  intros (_ & _ & _ & _ & _ & _ & H) Ht.
  destruct (indices_lookup _ _ i H) as [E _]. rewrite Ht in E. cbn in E.
  destruct (tiles st' !! i) as [[t' |] |]; cbn in E; try discriminate. eauto.
Qed.

Lemma prepare_loop_Throw (positions : list nat) (st st' : WFC) (e : Error) :
  prepare_loop positions st = (Throw e, st') ->
  exists e0, e = Rethrown e0 /\ entropy_error e0.
Proof.
  revert st. induction positions as [| i rest IH]; intros st; cbn [prepare_loop].
  { unfold ret. discriminate. }
  rewrite bind_eq. cbn [gets].
  destruct (tiles st !! i) as [[tile |] |] eqn:Ht; try apply IH.
  destruct (is_zero (entropy tile)); [apply IH |].
  rewrite bind_eq. unfold try_catch.
  pose proof (keeps_getEntropy i st) as Hk.
  destruct (_getEntropy i st) as [[en | e0] s1] eqn:Eg; cbn [snd] in Hk.
  - destruct (same_frame_tile _ _ i tile Hk Ht) as [t1 Ht1].
    rewrite bind_eq, (update_tile_Some i _ t1 s1 Ht1). apply IH.
  - unfold throw. intros H. injection H as <- <-.
    exists e0. split; [reflexivity |]. exact (proj1 (getEntropy_Throw _ _ _ _ Eg)).
Qed.

Lemma random_start_Throw (st st' : WFC) (e : Error) :
  random_start st = (Throw e, st') -> e = ErrorChoosingInitialTile.
Proof.
  unfold random_start. rewrite bind_eq. cbn [gets].
  destruct (startWithRandom st); [| unfold ret; discriminate].
  rewrite bind_eq. cbn [gets]. rewrite bind_eq, with_rnd_eq.
  destruct (pickOne (tile_refs (tiles st)) (rnd st)) as [firstTile r1] eqn:Ep. cbn [fst snd].
  destruct firstTile as [[first |] |]; cbn [mjoin option_join option_bind mbind];
    try (unfold throw; intros H; injection H as <- _; reflexivity).
  destruct (tile_refs_In _ _ (pickOne_In _ _ _ _ Ep)) as (t & Ht).
  rewrite bind_eq. cbn [gets]. rewrite bind_eq, with_rnd_eq.
  destruct (pickOne (obj_keys (rules (set_rnd r1 st))) (rnd (set_rnd r1 st))) as [ty r2].
  cbn [fst snd].
  rewrite bind_eq, (update_tile_Some first _ t (set_rnd r2 (set_rnd r1 st)) Ht).
  erewrite (update_tile_Some first _ (with_type ty t));
    [| cbn; rewrite list_lookup_alter_eq, Ht; reflexivity].
  discriminate.
Qed.

Lemma attempt_pass_Throw (cur retries : nat) (choices : list string) (st st' : WFC)
    (e : Error) :
  attempt_pass cur retries choices st = (Throw e, st') ->
  e = FailedToCollapseTile \/ e = CorruptTileData.
Proof.
  unfold attempt_pass. rewrite bind_eq. unfold try_catch. rewrite bind_eq.
  destruct (attempt_try cur retries choices st) as [[[] | e0] s1]; cbn [ret fst];
    unfold throw, ret; try (intros H; simplify_eq; tauto).
  rewrite bind_eq. cbn [gets].
  destruct (_ =? 0); [discriminate |].
  rewrite bind_eq. cbn [gets]. destruct (some_undefined_type s1); intros H; simplify_eq.
  tauto.
Qed.

Lemma collapseNext_Throw (fuel : nat) (st st' : WFC) (e : Error) :
  _collapseNext fuel st = (Throw e, st') -> step_error e.
Proof.
  unfold step_error. revert st. induction fuel as [| fuel IH]; intros st; cbn [_collapseNext].
  { unfold ret. discriminate. }
  rewrite bind_eq. cbn [gets].
  destruct (length (_getListofTilesWithLowestEntropy st) =? 0);
    [unfold throw; intros H; simplify_eq; cbn; auto 10 |].
  rewrite bind_eq, with_rnd_eq.
  destruct (pickOne (_getListofTilesWithLowestEntropy st) (rnd st)) as [picked r1] eqn:Ep.
  cbn [fst snd]. destruct picked as [cur |];
    [| unfold throw; intros H; simplify_eq; cbn; auto 10].
  destruct (lowest_unresolved st cur (pickOne_In _ _ _ _ Ep)) as (t & Ht & Hz).
  rewrite bind_eq, (tile_at_Some cur t (set_rnd r1 st) Ht).
  destruct (length (availableTiles t) =? 0);
    [unfold throw; intros H; simplify_eq; cbn; auto 10 |].
  rewrite bind_eq.
  destruct (attempt_pass cur (length (availableTiles t)) [] (set_rnd r1 st))
    as [[[] | e0] s] eqn:Ea; unfold ret; try discriminate.
  - apply IH.
  - intros H. injection H as <- <-. apply attempt_pass_Throw in Ea. cbn. destruct Ea as [-> | ->]; auto 10.
Qed.

Lemma step_loop_console (fuel : nat) (st st' : WFC) (console : list Error) :
  step_loop fuel st = Some (console, st') ->
  console = [] \/ exists e, console = [e] /\ step_error e.
Proof.
  revert st. induction fuel as [| fuel IH]; intros st H; [discriminate |].
  cbn [step_loop] in H.
  destruct (_collapseNext (S fuel) st) as [[[[|] |] | e] s1] eqn:Ec.
  - exact (IH _ H).
  - injection H as <- <-. left. reflexivity.
  - discriminate.
  - injection H as <- <-. right. exists e. split; [reflexivity |].
    exact (collapseNext_Throw _ _ _ _ Ec).
Qed.

(** X17: on a grid within the argument limit of the engine, the promise of
    [generateLevel] is rejected only by the guard ('tile data is invalid',
    state [unknown]), by the random start ('Error choosing initial starting
    tile') or by the preparation, which rethrows an error of the entropy
    computation. Every error of the step loop goes to [console.error]
    instead: the promise is fulfilled, the state is [collapsed], and
    [console.error] has received nothing or exactly one of 'no valid tiles
    remaining', 'unable to select next tile', 'there are no valid tiles
    remaining', 'failed to collapse tile' and 'corrupt tile data'. (What
    the [catch] clause of the attempt loop passes to [console.log] before
    'failed to collapse tile' is thrown is not part of this list.) *)
Theorem generateLevel_errors (st st' : WFC) (r : Result (list Error)) :
  within_argument_limit st ->
  generateLevel st = Some (r, st') ->
  match r with
  | Throw e =>
      e = InvalidState unknown \/ e = ErrorChoosingInitialTile
      \/ exists e0, e = Rethrown e0 /\ entropy_error e0
  | Ok console =>
      bufferstate st' = collapsed
      /\ (console = [] \/ exists e, console = [e] /\ step_error e)
  end.
Proof.
  intros _. unfold generateLevel, generateLevel_fuel. cbv zeta.
  change (bufferstate (set_bufferstate (_isDataReady st) st)) with (_isDataReady st).
  assert (Hr : _isDataReady st = unknown \/ _isDataReady st = ready).
  { unfold _isDataReady. repeat case_match; tauto. }
  destruct Hr as [-> | ->]; [intros H; injection H as <- <-; tauto |].
  rewrite bind_eq.
  destruct (random_start (set_bufferstate ready st)) as [[[] | e] s0] eqn:Es.
  - destruct (_prepareTileDataForCollapsing s0) as [[[] | e] s1] eqn:Ep.
    + destruct (step_loop _ _) as [[console s2] |] eqn:El; [| discriminate].
      intros H. injection H as <- <-. split; [reflexivity |].
      exact (step_loop_console _ _ _ _ El).
    + intros H. injection H as <- <-. right. right.
      unfold _prepareTileDataForCollapsing in Ep. rewrite bind_eq in Ep. cbn [gets] in Ep.
      exact (prepare_loop_Throw _ _ _ _ Ep).
  - intros H. injection H as <- <-. right. left. exact (random_start_Throw _ _ _ Es).
Qed.

Lemma generateLevel_errors_witness :
  bufferstate (Sample.after_run Sample.corner) = collapsed
  /\ ([FailedToCollapseTile] = []
      \/ exists e, [FailedToCollapseTile] = [e] /\ step_error e).
Proof.
  apply (generateLevel_errors Sample.corner (Sample.after_run Sample.corner)
           (Ok [FailedToCollapseTile])).
  - vm_compute. reflexivity.
  - vm_compute. reflexivity.
Defined.

(** ** The tiles of lowest entropy *)

Lemma Entropy_leb_refl (a : Entropy) : Entropy_leb a a = true.
Proof. destruct a; cbn; [apply Nat.leb_refl | reflexivity]. Qed.

Lemma Entropy_leb_antisym (a b : Entropy) :
  Entropy_leb a b = true -> Entropy_leb b a = true -> a = b.
Proof.
  destruct a as [n |], b as [m |]; cbn; try discriminate; [| reflexivity].
  intros H1 H2. apply Nat.leb_le in H1. apply Nat.leb_le in H2. f_equal. lia.
Qed.

Lemma Entropy_eqb_refl (a : Entropy) : Entropy_eqb a a = true.
Proof. destruct a; cbn; [apply Nat.eqb_refl | reflexivity]. Qed.

Lemma Entropy_min_leb (a b : Entropy) :
  Entropy_leb (Entropy_min a b) a = true /\ Entropy_leb (Entropy_min a b) b = true.
Proof.
  destruct a as [n |], b as [m |]; cbn; rewrite ?Nat.leb_le; try (split; reflexivity);
    try (split; [lia | reflexivity]); try (split; [reflexivity | lia]); split; lia.
Qed.

Lemma Entropy_leb_trans (a b c : Entropy) :
  Entropy_leb a b = true -> Entropy_leb b c = true -> Entropy_leb a c = true.
Proof.
  destruct a, b, c; cbn; rewrite ?Nat.leb_le; try discriminate; try reflexivity; lia.
Qed.

Lemma Math_min_le (l : list Entropy) (e : Entropy) :
  In e l -> Entropy_leb (Math_min l) e = true.
Proof.
  induction l as [| a l IH]; [intros [] |].
  change (Math_min (a :: l)) with (Entropy_min a (Math_min l)).
  destruct (Entropy_min_leb a (Math_min l)) as [Ha Hl]. intros [<- | Hin]; [exact Ha |].
  exact (Entropy_leb_trans _ _ _ Hl (IH Hin)).
Qed.

Lemma Math_min_In (l : list Entropy) : l <> [] -> In (Math_min l) l.
Proof.
  induction l as [| a l IH]; [congruence |]. intros _.
  change (Math_min (a :: l)) with (Entropy_min a (Math_min l)).
  destruct l as [| b l'].
  - left. destruct a; reflexivity.
  - assert (Hin : In (Math_min (b :: l')) (b :: l')) by (apply IH; discriminate).
    destruct a as [n |], (Math_min (b :: l')) as [m |] eqn:E; cbn [Entropy_min].
    + destruct (Nat.min_spec n m) as [[_ ->] | [_ ->]]; [left; reflexivity | right; exact Hin].
    + left. reflexivity.
    + right. exact Hin.
    + right. exact Hin.
Qed.

Lemma lowest_spec (st : WFC) (cur : nat) :
  In cur (_getListofTilesWithLowestEntropy st)
  <-> exists t, tiles st !! cur = Some (Some t) /\ is_zero (entropy t) = false
        /\ forall k t', tiles st !! k = Some (Some t') -> is_zero (entropy t') = false ->
             Entropy_leb (entropy t) (entropy t') = true.
Proof.
  split.
  - intros H. destruct (lowest_unresolved st cur H) as (t & Ht & Hz).
    exists t. split; [exact Ht |]. split; [exact Hz |]. intros k t' Hk Hz'.
    unfold _getListofTilesWithLowestEntropy in H. cbv zeta in H.
    apply in_map_iff in H as ([k0 t0] & E & Hin). cbn in E. subst k0.
    apply filter_In in Hin as [Hin Heq]. cbn in Heq.
    apply list_elem_of_In, elem_of_entries in Hin. rewrite Ht in Hin. injection Hin as <-.
    apply Entropy_eqb_eq in Heq. rewrite Heq. apply Math_min_le.
    apply in_map_iff. exists (k, t'). split; [reflexivity |].
    apply filter_In. split; [apply list_elem_of_In, elem_of_entries, Hk |].
    unfold unresolved. cbn. rewrite Hz'. reflexivity.
  - intros (t & Ht & Hz & Hmin).
    unfold _getListofTilesWithLowestEntropy. cbv zeta.
    apply in_map_iff. exists (cur, t). split; [reflexivity |].
    apply filter_In. split; [apply list_elem_of_In, elem_of_entries, Ht |]. cbn [snd].
    set (l := map (fun e : nat * TileData => entropy (snd e))
                  (List.filter unresolved (entries (tiles st)))).
    assert (Hin : In (entropy t) l).
    { apply in_map_iff. exists (cur, t). split; [reflexivity |].
      apply filter_In. split; [apply list_elem_of_In, elem_of_entries, Ht |].
      unfold unresolved. cbn. rewrite Hz. reflexivity. }
    assert (Hne : l <> []) by (intros E; rewrite E in Hin; destruct Hin).
    pose proof (Math_min_In l Hne) as Hm.
    apply in_map_iff in Hm as ([k t'] & E & Hk). cbn [snd] in E.
    apply filter_In in Hk as [Hk Hu]. apply list_elem_of_In, elem_of_entries in Hk.
    unfold unresolved in Hu. cbn in Hu. apply negb_true_iff in Hu.
    rewrite (Entropy_leb_antisym (entropy t) (Math_min l)).
    + apply Entropy_eqb_refl.
    + rewrite <- E. exact (Hmin k t' Hk Hu).
    + exact (Math_min_le l _ Hin).
Qed.

Lemma all_resolved_remaining (st : WFC) :
  all_resolved st -> _getNumberOfRemainingTilesToCollapse st = 0.
Proof.
  intros H. unfold _getNumberOfRemainingTilesToCollapse.
  apply length_zero_iff_nil.
  destruct (List.filter unresolved (entries (tiles st))) as [| [k t] l] eqn:E; [reflexivity |].
  assert (Hin : In (k, t) (List.filter unresolved (entries (tiles st)))).
  { rewrite E. left. reflexivity. }
  apply filter_In in Hin as [Hin Hu]. apply list_elem_of_In, elem_of_entries in Hin.
  unfold unresolved in Hu. cbn in Hu. rewrite (H k t Hin) in Hu. discriminate.
Qed.

Lemma lowest_nil (st : WFC) :
  _getListofTilesWithLowestEntropy st = [] <-> _getNumberOfRemainingTilesToCollapse st = 0.
Proof.
  split.
  - intros E. apply all_resolved_remaining. intros i t Ht.
    destruct (is_zero (entropy t)) eqn:Hz.
    { destruct (entropy t) as [[| n] |]; cbn in Hz; congruence. }
    exfalso.
    set (l := map (fun e : nat * TileData => entropy (snd e))
                  (List.filter unresolved (entries (tiles st)))).
    assert (Hin : In (entropy t) l).
    { apply in_map_iff. exists (i, t). split; [reflexivity |].
      apply filter_In. split; [apply list_elem_of_In, elem_of_entries, Ht |].
      unfold unresolved. cbn. rewrite Hz. reflexivity. }
    assert (Hne : l <> []) by (intros E'; rewrite E' in Hin; destruct Hin).
    pose proof (Math_min_In l Hne) as Hm.
    apply in_map_iff in Hm as ([k t'] & E' & Hk). cbn [snd] in E'.
    apply filter_In in Hk as [Hk Hu]. apply list_elem_of_In, elem_of_entries in Hk.
    unfold unresolved in Hu. cbn in Hu. apply negb_true_iff in Hu.
    assert (Hc : In k (_getListofTilesWithLowestEntropy st)).
    { apply lowest_spec. exists t'. split; [exact Hk |]. split; [exact Hu |].
      intros k2 t2 Hk2 Hz2. rewrite E'. apply Math_min_le.
      apply in_map_iff. exists (k2, t2). split; [reflexivity |].
      apply filter_In. split; [apply list_elem_of_In, elem_of_entries, Hk2 |].
      unfold unresolved. cbn. rewrite Hz2. reflexivity. }
    rewrite E in Hc. destruct Hc.
  - intros H. apply remaining_zero in H.
    destruct (_getListofTilesWithLowestEntropy st) as [| cur l] eqn:E; [reflexivity |].
    destruct (lowest_unresolved st cur) as (t & Ht & Hz); [rewrite E; left; reflexivity |].
    rewrite (H cur t Ht) in Hz. discriminate.
Qed.

(** X18: [_getListofTilesWithLowestEntropy] returns exactly the unresolved
    tiles whose entropy no unresolved tile undercuts, and returns the empty
    list exactly when no tile is left to collapse. *)
Theorem lowest_entropy_spec (st : WFC) :
  (forall cur,
     In cur (_getListofTilesWithLowestEntropy st)
     <-> exists t, tiles st !! cur = Some (Some t) /\ is_zero (entropy t) = false
           /\ forall k t', tiles st !! k = Some (Some t') -> is_zero (entropy t') = false ->
                Entropy_leb (entropy t) (entropy t') = true)
  /\ (_getListofTilesWithLowestEntropy st = []
      <-> _getNumberOfRemainingTilesToCollapse st = 0).
Proof. split; [intros cur; apply lowest_spec | apply lowest_nil]. Qed.

(** ** Runs that cannot collapse anything *)

Lemma pickOne_Some {A} (set : list A) (r : Random) :
  (0 <= seed r)%Z -> (Z.of_nat (length set) < 2 ^ 21)%Z -> set <> [] ->
  exists x, pickOne set r = (Some x, snd (getRandom r)) /\ In x set.
Proof.
  intros Hs Hn Hne. rewrite pickOne_unfold.
  assert (Hpos : 0 < length set) by (destruct set; [congruence | cbn; lia]).
  pose proof (floor_mul_in_range r (length set) Hs Hn Hpos) as Hr.
  unfold js_get. destruct (Z.ltb_spec (Double.floor_mul (fst (getRandom r)) (length set)) 0);
    [lia |].
  destruct (lookup_lt_is_Some_2 set (Z.to_nat (Double.floor_mul (fst (getRandom r)) (length set))))
    as [x Hx]; [lia |].
  exists x. rewrite Hx. split; [reflexivity |].
  apply list_elem_of_In. eapply list_elem_of_lookup_2, Hx.
Qed.

Lemma omap_length_le {A B} (f : A -> option B) (l : list A) :
  length (omap f l) <= length l.
Proof.
  induction l as [| a l IH]; [reflexivity |].
  cbn. destruct (f a); cbn; lia.
Qed.

Lemma lowest_length (st : WFC) :
  length (_getListofTilesWithLowestEntropy st) <= length (tiles st).
Proof.
  unfold _getListofTilesWithLowestEntropy. cbv zeta. rewrite length_map.
  etransitivity; [apply List.filter_length_le |].
  unfold entries. etransitivity; [apply omap_length_le |]. rewrite length_imap. reflexivity.
Qed.

Lemma getRandom_seed_nonneg (r : Random) :
  (0 <= seed r)%Z -> (0 <= seed (snd (getRandom r)))%Z.
Proof. intros H. rewrite getRandom_seed. apply getRandom_range. exact H. Qed.

(** On a grid with a tile in every cell, the neighbours of a cell are cells. *)
Lemma neighbor_in_bounds (st : WFC) (i j : nat) (d : Direction) :
  rectangular st -> i < length (tiles st) -> neighbor st i d = Some j ->
  j < length (tiles st).
Proof.
  unfold rectangular. intros Hr Hi Hn.
  assert (Hw : 0 < width st) by (destruct (width st); [cbn in Hr; lia | lia]).
  destruct d; cbn [neighbor] in Hn.
  - unfold upTileIndex in Hn. destruct (i <? width st); simplify_eq. lia.
  - unfold downTileIndex in Hn.
    destruct (Nat.leb_spec (length (tiles st)) (i + width st)); simplify_eq. lia.
  - unfold leftTileIndex in Hn. destruct (width st =? 0); repeat case_match; simplify_eq; lia.
  - unfold rightTileIndex in Hn. destruct (Nat.eqb_spec (width st) 0) as [| _]; [lia |].
    destruct (Nat.eqb_spec (i mod width st) (width st - 1)) as [| Hc]; simplify_eq.
    pose proof (Nat.div_mod_eq i (width st)) as E.
    pose proof (Nat.mod_upper_bound i (width st) ltac:(lia)) as Hm.
    assert (i / width st < height st).
    { apply Nat.Div0.div_lt_upper_bound. lia. }
    nia.
Qed.

(** A cell none of whose neighbours is resolved gets no list. *)
Lemma gather_unresolved (st : WFC) (i : nat) :
  (forall d j, neighbor st i d = Some j -> unresolved_at st j) ->
  gather st i = Ok [[]; []; []; []].
Proof.
  intros H.
  assert (Hd : forall d, dir_list st i d = Ok []).
  { intros d. unfold dir_list, neighbor_list.
    destruct (neighbor st i d) as [j |] eqn:En; [| reflexivity].
    destruct (H d j En) as (t & -> & ->). reflexivity. }
  unfold gather. rewrite !Hd. reflexivity.
Qed.

Lemma getEntropy_unconstrained (st : WFC) (i : nat) (t : TileData) :
  tiles st !! i = Some (Some t) -> is_zero (entropy t) = false ->
  (forall d j, neighbor st i d = Some j -> unresolved_at st j) ->
  _getEntropy i st = (Ok Infinity, st).
Proof.
  intros Ht Hz Hn. rewrite getEntropy_eq, Ht, Hz, (gather_unresolved st i Hn). reflexivity.
Qed.

Lemma set_tiles_same (st : WFC) : set_tiles (tiles st) st = st.
Proof. destruct st. reflexivity. Qed.

Lemma alter_entropy_same (ts : list (option TileData)) (i : nat) (t : TileData) :
  ts !! i = Some (Some t) ->
  alter (fmap (with_entropy (entropy t))) i ts = ts.
Proof.
  intros Ht. apply list_eq. intros k. destruct (Nat.eq_dec i k) as [<- | Hne].
  - rewrite list_lookup_alter_eq, Ht. destruct t. reflexivity.
  - rewrite list_lookup_alter_ne by assumption. reflexivity.
Qed.

(** The preparation of a grid on which nothing is resolved writes the
    entropy [Infinity] that every tile already has. *)
Lemma prepare_loop_fresh (positions : list nat) (st : WFC) :
  fresh st -> hole_free (tiles st) -> rectangular st ->
  prepare_loop positions st = (Ok tt, st).
Proof.
  intros Hf Hh Hr. induction positions as [| i rest IH]; [reflexivity |].
  cbn [prepare_loop]. rewrite bind_eq. cbn [gets].
  destruct (tiles st !! i) as [[t |] |] eqn:Ht; try exact IH.
  destruct (Hf i t Ht) as (_ & He & _). rewrite He. cbn [is_zero].
  rewrite bind_eq. unfold try_catch.
  rewrite (getEntropy_unconstrained st i t Ht); [| rewrite He; reflexivity |].
  - rewrite bind_eq, (update_tile_Some i _ t st Ht). rewrite <- He.
    rewrite (alter_entropy_same _ _ _ Ht), set_tiles_same. exact IH.
  - intros d j Hn.
    assert (Hi : i < length (tiles st)) by (eapply lookup_lt_Some; eassumption).
    destruct (Hh j (neighbor_in_bounds st i j d Hr Hi Hn)) as [tj Htj].
    exists tj. split; [exact Htj |]. destruct (Hf j tj Htj) as (_ & -> & _). reflexivity.
Qed.

Lemma isDataReady_ready (st : WFC) :
  tiles st <> [] -> rules st <> [] -> _isDataReady st = ready.
Proof.
  intros Ht Hr. unfold _isDataReady, obj_keys.
  destruct (tiles st); [congruence |]. destruct (rules st); [congruence |]. reflexivity.
Qed.

(** X19: without the random start, a run on a freshly configured grid
    within the argument limit of the engine cannot begin: no tile is
    resolved, so the first step picks a tile without candidates and fails.
    The run draws once from the generator, passes 'there are no valid
    tiles remaining' to [console.error], changes no tile and ends in state
    [collapsed]. *)
Theorem run_without_start_fails (st : WFC) :
  startWithRandom st = false -> fresh st -> hole_free (tiles st) -> rectangular st ->
  tiles st <> [] -> rules st <> [] ->
  (0 <= seed (rnd st))%Z -> within_argument_limit st ->
  generateLevel st
  = Some (Ok [ThereAreNoValidTiles],
          set_bufferstate collapsed (set_rnd (snd (getRandom (rnd st))) st)).
Proof.
  intros Hs Hf Hh Hr Ht Hrules Hseed Hlen.
  unfold generateLevel, generateLevel_fuel. cbv zeta.
  change (bufferstate (set_bufferstate (_isDataReady st) st)) with (_isDataReady st).
  rewrite (isDataReady_ready st Ht Hrules).
  set (s0 := set_bufferstate ready st).
  assert (E0 : (random_start;; _prepareTileDataForCollapsing) s0 = (Ok tt, s0)).
  { rewrite bind_eq. unfold random_start. rewrite bind_eq. cbn [gets].
    change (startWithRandom s0) with (startWithRandom st). rewrite Hs. cbn [ret].
    unfold _prepareTileDataForCollapsing. rewrite bind_eq. cbn [gets].
    apply prepare_loop_fresh; assumption. }
  rewrite E0. set (s1 := set_bufferstate collapsing s0).
  assert (Hne : _getListofTilesWithLowestEntropy s1 <> []).
  { intros E. apply lowest_nil, remaining_zero in E.
    destruct (Hh 0) as [t0 Ht0]; [destruct (tiles st); [congruence | cbn; lia] |].
    pose proof (E 0 t0 Ht0) as E1. destruct (Hf 0 t0 Ht0) as (_ & E2 & _). congruence. }
  assert (Hlen1 : (Z.of_nat (length (_getListofTilesWithLowestEntropy s1)) < 2 ^ 21)%Z).
  { pose proof (lowest_length s1) as Hl. change (tiles s1) with (tiles st) in Hl.
    unfold within_argument_limit in Hlen. lia. }
  destruct (pickOne_Some (_getListofTilesWithLowestEntropy s1) (rnd st) Hseed Hlen1 Hne)
    as (cur & Ep & Hin).
  destruct (lowest_unresolved s1 cur Hin) as (t & Hcur & _).
  destruct (Hf cur t Hcur) as (_ & _ & Hav).
  assert (Ec : _collapseNext (S (length (tiles st))) s1
               = (Throw ThereAreNoValidTiles, set_rnd (snd (getRandom (rnd st))) s1)).
  { cbn [_collapseNext]. rewrite bind_eq. cbn [gets].
    destruct (Nat.eqb_spec (length (_getListofTilesWithLowestEntropy s1)) 0) as [E | _].
    { apply length_zero_iff_nil in E. contradiction. }
    rewrite bind_eq, with_rnd_eq. change (rnd s1) with (rnd st). rewrite Ep. cbn [fst snd].
    rewrite bind_eq, (tile_at_Some cur t (set_rnd (snd (getRandom (rnd st))) s1) Hcur).
    rewrite Hav. reflexivity. }
  cbn [step_loop]. rewrite Ec. reflexivity.
Qed.

Lemma run_without_start_fails_witness :
  generateLevel (Sample.anchored false)
  = Some (Ok [ThereAreNoValidTiles],
          set_bufferstate collapsed
            (set_rnd (snd (getRandom (rnd (Sample.anchored false)))) (Sample.anchored false))).
Proof.
  apply (run_without_start_fails (Sample.anchored false)).
  - reflexivity.
  - intros i t H. destruct i as [| [| [| [| i]]]]; cbn in H; unfold blank_tile in H;
      simplify_eq; repeat split.
  - intros i Hi. destruct i as [| [| [| [| i]]]]; cbn in Hi; try lia; eexists; reflexivity.
  - reflexivity.
  - vm_compute. discriminate.
  - vm_compute. discriminate.
  - vm_compute. discriminate.
  - vm_compute. reflexivity.
Defined.

Lemma prepare_loop_resolved (positions : list nat) (st : WFC) :
  all_resolved st -> prepare_loop positions st = (Ok tt, st).
Proof.
  intros H. induction positions as [| i rest IH]; [reflexivity |].
  cbn [prepare_loop]. rewrite bind_eq. cbn [gets].
  destruct (tiles st !! i) as [[t |] |] eqn:Ht; try exact IH.
  rewrite (H i t Ht). exact IH.
Qed.

Lemma tile_refs_hole_free (ts : list (option TileData)) (x : option nat) :
  hole_free ts -> In x (tile_refs ts) -> exists first, x = Some first /\ first < length ts.
Proof.
  intros Hh H. apply list_elem_of_In, elem_of_lookup_imap in H as (i & o & E & Hl).
  assert (Hi : i < length ts) by (eapply lookup_lt_Some; eassumption).
  destruct (Hh i Hi) as [t Ht]. rewrite Ht in Hl. injection Hl as <-.
  exists i. split; [exact E | exact Hi].
Qed.

(** The random start on a grid without holes resolves one tile to a
    declared type. *)
Lemma random_start_hole_free (st : WFC) :
  startWithRandom st = true -> hole_free (tiles st) -> tiles st <> [] -> rules st <> [] ->
  (0 <= seed (rnd st))%Z -> (Z.of_nat (length (tiles st)) < 2 ^ 21)%Z ->
  (Z.of_nat (length (obj_keys (rules st))) < 2 ^ 21)%Z ->
  exists first ty r,
    first < length (tiles st) /\ In ty (obj_keys (rules st))
    /\ random_start st = (Ok tt, resolve first (Some ty) (set_rnd r st)).
Proof.
  intros Hs Hh Ht Hrules Hseed Hlen Hkeys.
  assert (Hrefs : length (tile_refs (tiles st)) = length (tiles st)).
  { unfold tile_refs. apply length_imap. }
  destruct (pickOne_Some (tile_refs (tiles st)) (rnd st) Hseed) as (x & Ep & Hin).
  { rewrite Hrefs. exact Hlen. }
  { intros E. apply (f_equal length) in E. rewrite Hrefs in E.
    destruct (tiles st); [congruence | discriminate]. }
  destruct (tile_refs_hole_free _ _ Hh Hin) as (first & -> & Hfirst).
  destruct (Hh first Hfirst) as [t Hft].
  destruct (pickOne_Some (obj_keys (rules st)) (snd (getRandom (rnd st)))) as (ty & Et & Hty).
  { apply getRandom_seed_nonneg. exact Hseed. }
  { exact Hkeys. }
  { unfold obj_keys. destruct (rules st); [congruence | discriminate]. }
  exists first, ty, (snd (getRandom (snd (getRandom (rnd st))))).
  split; [exact Hfirst |]. split; [exact Hty |].
  unfold random_start. rewrite bind_eq. cbn [gets]. rewrite Hs.
  rewrite bind_eq. cbn [gets]. rewrite bind_eq, with_rnd_eq, Ep. cbn [fst snd].
  cbn [mjoin option_join option_bind mbind].
  rewrite bind_eq. cbn [gets]. rewrite bind_eq, with_rnd_eq.
  change (obj_keys (rules (set_rnd (snd (getRandom (rnd st))) st)))
    with (obj_keys (rules st)).
  change (rnd (set_rnd (snd (getRandom (rnd st))) st)) with (snd (getRandom (rnd st))).
  rewrite Et. cbn [fst snd].
  rewrite bind_eq, (update_tile_Some first _ t
                      (set_rnd (snd (getRandom (snd (getRandom (rnd st)))))
                               (set_rnd (snd (getRandom (rnd st))) st)) Hft).
  erewrite (update_tile_Some first _ (with_type (Some ty) t));
    [| cbn; rewrite list_lookup_alter_eq, Hft; reflexivity].
  reflexivity.
Qed.

(** When the random start leaves nothing unresolved, the preparation
    changes nothing and the first step finds no tile to collapse. *)
Lemma run_resolved_by_start (st : WFC) (first : nat) (ty : string) (r : Random) :
  tiles st <> [] -> rules st <> [] ->
  random_start (set_bufferstate ready st)
  = (Ok tt, resolve first (Some ty) (set_rnd r (set_bufferstate ready st))) ->
  all_resolved (resolve first (Some ty) (set_rnd r st)) ->
  generateLevel st
  = Some (Ok [NoValidTilesRemaining],
          set_bufferstate collapsed (resolve first (Some ty) (set_rnd r st))).
Proof.
  intros Ht Hrules Es Hall.
  unfold generateLevel, generateLevel_fuel. cbv zeta.
  change (bufferstate (set_bufferstate (_isDataReady st) st)) with (_isDataReady st).
  rewrite (isDataReady_ready st Ht Hrules).
  rewrite bind_eq, Es.
  unfold _prepareTileDataForCollapsing. rewrite bind_eq. cbn [gets].
  rewrite prepare_loop_resolved by exact Hall.
  set (s1 := set_bufferstate collapsing _).
  assert (E : _getListofTilesWithLowestEntropy s1 = []).
  { apply lowest_nil, all_resolved_remaining. exact Hall. }
  cbn [step_loop _collapseNext]. rewrite bind_eq. cbn [gets]. rewrite E. reflexivity.
Qed.

Lemma resolve_all_resolved (st : WFC) (first : nat) (ty : option string) :
  (forall j t, tiles st !! j = Some (Some t) -> j <> first -> entropy t = Fin 0) ->
  all_resolved (resolve first ty st).
Proof.
  intros H j t' Hj. unfold resolve in Hj. cbn [tiles set_tiles] in Hj.
  destruct (Nat.eq_dec first j) as [<- | Hne].
  - rewrite !list_lookup_alter_eq in Hj.
    destruct (tiles st !! first) as [[t |] |]; cbn in Hj; simplify_eq. reflexivity.
  - rewrite !list_lookup_alter_ne in Hj by assumption. apply (H j t' Hj). congruence.
Qed.

(** X20: [generateLevel] on a level that is already collapsed, called again
    without a reset, does not generate a new level: the random start gives
    one tile a new random declared type, every other tile stays as it is,
    and the first step writes 'no valid tiles remaining' to the console. *)
Theorem regenerate_without_reset (st : WFC) :
  startWithRandom st = true -> all_resolved st -> hole_free (tiles st) ->
  tiles st <> [] -> rules st <> [] ->
  (0 <= seed (rnd st))%Z -> (Z.of_nat (length (tiles st)) < 2 ^ 21)%Z ->
  (Z.of_nat (length (obj_keys (rules st))) < 2 ^ 21)%Z ->
  exists first ty r,
    first < length (tiles st) /\ In ty (obj_keys (rules st))
    /\ generateLevel st
       = Some (Ok [NoValidTilesRemaining],
               set_bufferstate collapsed (resolve first (Some ty) (set_rnd r st))).
Proof.
  intros Hs Hall Hh Ht Hrules Hseed Hlen Hkeys.
  destruct (random_start_hole_free (set_bufferstate ready st)) as (first & ty & r & H1 & H2 & H3);
    try assumption.
  exists first, ty, r. split; [exact H1 |]. split; [exact H2 |].
  apply run_resolved_by_start; try assumption.
  apply resolve_all_resolved. intros j t Hj _. exact (Hall j t Hj).
Qed.

Lemma regenerate_without_reset_witness :
  exists first ty r,
    first < length (tiles (Sample.after_run (Sample.checker 1)))
    /\ In ty (obj_keys (rules (Sample.after_run (Sample.checker 1))))
    /\ generateLevel (Sample.after_run (Sample.checker 1))
       = Some (Ok [NoValidTilesRemaining],
               set_bufferstate collapsed
                 (resolve first (Some ty) (set_rnd r (Sample.after_run (Sample.checker 1))))).
Proof.
  apply (regenerate_without_reset (Sample.after_run (Sample.checker 1))).
  - reflexivity.
  - intros i t H. destruct i as [| [| [| [| i]]]]; vm_compute in H; simplify_eq; reflexivity.
  - intros i Hi. destruct i as [| [| [| [| i]]]]; vm_compute in Hi; try lia;
      eexists; vm_compute; reflexivity.
  - vm_compute. discriminate.
  - vm_compute. discriminate.
  - vm_compute. discriminate.
  - vm_compute. reflexivity.
  - vm_compute. reflexivity.
Defined.



(** ** What a failure leaves behind *)

Lemma erase_candidates_alter (ts : list (option TileData)) (i : nat) (c : list string) :
  erase_candidates (alter (fmap (with_availableTiles c)) i ts) = erase_candidates ts.
Proof.
  unfold erase_candidates. apply list_eq. intros k. rewrite !list_lookup_fmap.
  destruct (Nat.eq_dec i k) as [<- | Hne].
  - rewrite list_lookup_alter_eq. destruct (ts !! i) as [[t |] |]; reflexivity.
  - rewrite list_lookup_alter_ne by assumption. reflexivity.
Qed.

Lemma getEntropy_erase (i : nat) (st st' : WFC) (r : Result Entropy) :
  _getEntropy i st = (r, st') ->
  erase_candidates (tiles st') = erase_candidates (tiles st).
Proof.
  intros H. apply getEntropy_cases in H. destruct H; try reflexivity.
  apply erase_candidates_alter.
Qed.

Lemma neighborEntropy_Ok_erase (n : option nat) (d : Direction) (st st' : WFC)
    (oe : option Entropy) :
  neighborEntropy n d st = (Ok oe, st') ->
  erase_candidates (tiles st') = erase_candidates (tiles st)
  /\ width st' = width st /\ length (tiles st') = length (tiles st).
Proof.
  intros H. pose proof (neighborEntropy_spec _ _ _ _ _ H) as [[K _] _].
  split; [| split; [apply (skel_width _ _ K) | apply (skel_length _ _ K)]].
  unfold neighborEntropy in H. destruct n as [j |].
  - unfold try_catch, bind, ret, throw in H.
    destruct (_getEntropy j st) as [[e | e] s] eqn:E; simplify_eq.
    eapply getEntropy_erase; eassumption.
  - unfold ret in H. simplify_eq. reflexivity.
Qed.

Lemma neighborEntropy_Throw (n : option nat) (d : Direction) (st st' : WFC) (e : Error) :
  neighborEntropy n d st = (Throw e, st') ->
  e = BrokenLevel d /\ st' = st
  /\ exists j e0, n = Some j /\ _getEntropy j st = (Throw e0, st) /\ entropy_error e0.
Proof.
  unfold neighborEntropy. destruct n as [j |]; [| unfold ret; discriminate].
  unfold try_catch, bind, ret, throw.
  destruct (_getEntropy j st) as [[e1 | e0] s] eqn:E; intros H; simplify_eq.
  destruct (getEntropy_Throw _ _ _ _ E) as [He ->].
  split; [reflexivity |]. split; [reflexivity |]. exists j, e0. auto.
Qed.

Lemma propagation_failure_aux (i : nat) (st st' : WFC) (e : Error) :
  _setEntropyOfSurroundingTiles i st = (Throw e, st') ->
  erase_candidates (tiles st') = erase_candidates (tiles st)
  /\ exists d j e0,
       e = BrokenLevel d /\ neighbor st i d = Some j
       /\ _getEntropy j st' = (Throw e0, st') /\ entropy_error e0.
Proof.
  intros H. pose proof H as H0. unfold _setEntropyOfSurroundingTiles in H.
  rewrite bind_eq in H; cbn [gets] in H. rewrite bind_eq in H; cbn [gets] in H.
  rewrite bind_eq in H.
  destruct (neighborEntropy (upTileIndex (width st) i) Up st) as [[ue | e1] s1] eqn:E1.
  2:{ injection H as <- <-. apply neighborEntropy_Throw in E1 as (-> & -> & j & e0 & En & Eg & He).
      split; [reflexivity |]. exists Up, j, e0. auto. }
  destruct (neighborEntropy_Ok_erase _ _ _ _ _ E1) as (A1 & _ & _).
  rewrite bind_eq in H.
  destruct (neighborEntropy (downTileIndex (width st) (length (tiles st)) i) Down s1)
    as [[de | e2] s2] eqn:E2.
  2:{ injection H as <- <-. apply neighborEntropy_Throw in E2 as (-> & -> & j & e0 & En & Eg & He).
      split; [exact A1 |]. exists Down, j, e0. auto. }
  destruct (neighborEntropy_Ok_erase _ _ _ _ _ E2) as (A2 & _ & _).
  rewrite bind_eq in H.
  destruct (neighborEntropy (leftTileIndex (width st) i) Left s2) as [[le | e3] s3] eqn:E3.
  2:{ injection H as <- <-. apply neighborEntropy_Throw in E3 as (-> & -> & j & e0 & En & Eg & He).
      split; [congruence |]. exists Left, j, e0. auto. }
  destruct (neighborEntropy_Ok_erase _ _ _ _ _ E3) as (A3 & _ & _).
  rewrite bind_eq in H.
  destruct (neighborEntropy (rightTileIndex (width st) i) Right s3) as [[re | e4] s4] eqn:E4.
  2:{ injection H as <- <-. apply neighborEntropy_Throw in E4 as (-> & -> & j & e0 & En & Eg & He).
      split; [congruence |]. exists Right, j, e0. auto. }
  exfalso. clear H.
  pose proof (neighborEntropy_write_ready _ _ _ _ _ E1) as W1.
  pose proof (neighborEntropy_write_ready _ _ _ _ _ E2) as W2.
  pose proof (neighborEntropy_write_ready _ _ _ _ _ E3) as W3.
  pose proof (neighborEntropy_write_ready _ _ _ _ _ E4) as W4.
  pose proof (proj1 (proj1 (neighborEntropy_spec _ _ _ _ _ E1))) as K1.
  pose proof (proj1 (proj1 (neighborEntropy_spec _ _ _ _ _ E2))) as K2.
  pose proof (proj1 (proj1 (neighborEntropy_spec _ _ _ _ _ E3))) as K3.
  pose proof (proj1 (proj1 (neighborEntropy_spec _ _ _ _ _ E4))) as K4.
  destruct (set_left_entropy_spec (leftTileIndex (width st) i) le s4) as (s5 & U5 & V5);
    [eapply write_ready_skel; [| exact W3]; eauto 10 using skel_trans |].
  pose proof (evolves_skel _ _ V5) as K5.
  destruct (set_entropy_spec (rightTileIndex (width st) i) re s5) as (s6 & U6 & V6);
    [eapply write_ready_skel; [| exact W4]; eauto 10 using skel_trans |].
  pose proof (evolves_skel _ _ V6) as K6.
  destruct (set_entropy_spec (upTileIndex (width st) i) ue s6) as (s7 & U7 & V7).
  { eapply write_ready_skel; [| exact W1]. eauto 10 using skel_trans. }
  pose proof (evolves_skel _ _ V7) as K7.
  destruct (set_entropy_spec (downTileIndex (width st) (length (tiles st)) i) de s7)
    as (s8 & U8 & V8).
  { eapply write_ready_skel; [| exact W2]. eauto 10 using skel_trans. }
  unfold _setEntropyOfSurroundingTiles in H0.
  rewrite bind_eq in H0; cbn [gets] in H0. rewrite bind_eq in H0; cbn [gets] in H0.
  rewrite bind_eq, E1, bind_eq, E2, bind_eq, E3, bind_eq, E4 in H0.
  rewrite bind_eq, U5, bind_eq, U6, bind_eq, U7, U8 in H0. discriminate.
Qed.

(** X22: [_setEntropyOfSurroundingTiles] fails only with 'broken level',
    naming the direction of a neighbour whose entropy computation fails in
    the state that is left. It fails before any entropy is written: the
    tiles it leaves differ from those it started with at most in their
    candidate lists. *)
Theorem propagation_failure (i : nat) (st st' : WFC) (e : Error) :
  _setEntropyOfSurroundingTiles i st = (Throw e, st') ->
  erase_candidates (tiles st') = erase_candidates (tiles st)
  /\ exists d j e0,
       e = BrokenLevel d /\ neighbor st i d = Some j
       /\ _getEntropy j st' = (Throw e0, st') /\ entropy_error e0.
Proof. apply propagation_failure_aux. Qed.

Lemma propagation_failure_witness :
  erase_candidates (tiles (snd (_setEntropyOfSurroundingTiles 2 Cases.corner_attempt)))
  = erase_candidates (tiles Cases.corner_attempt)
  /\ exists d j e0,
       BrokenLevel Right = BrokenLevel d /\ neighbor Cases.corner_attempt 2 d = Some j
       /\ _getEntropy j (snd (_setEntropyOfSurroundingTiles 2 Cases.corner_attempt))
          = (Throw e0, snd (_setEntropyOfSurroundingTiles 2 Cases.corner_attempt))
       /\ entropy_error e0.
Proof.
  apply (propagation_failure 2 Cases.corner_attempt).
  vm_compute. reflexivity.
Defined.

Lemma attempt_pass_Failed (cur retries : nat) (st st' : WFC) (t : TileData) :
  tiles st !! cur = Some (Some t) -> retries <> 0 ->
  attempt_pass cur retries [] st = (Throw FailedToCollapseTile, st') ->
  exists ty r e,
    (forall x, ty = Some x -> In x (availableTiles t))
    /\ _setEntropyOfSurroundingTiles (index t) (resolve cur ty (set_rnd r st))
       = (Throw e, st').
Proof.
  intros Ht Hr. unfold attempt_pass. rewrite bind_eq. unfold try_catch. rewrite bind_eq.
  unfold attempt_try. destruct (Nat.leb_spec retries 0) as [Hle | _]; [lia |].
  rewrite bind_eq, (tile_at_Some cur t st Ht). rewrite bind_eq. cbn [gets].
  rewrite bind_eq, with_rnd_eq.
  destruct (pickOneWeighted
              (List.filter
                 (fun item => match find (fun chc => String.eqb chc item) [] with
                              | Some rslt => String.eqb rslt ""
                              | None => true
                              end) (availableTiles t))
              (weighting st) (rnd st)) as [ty r2] eqn:Ew.
  cbn [fst snd].
  rewrite bind_eq, (update_tile_Some cur _ t (set_rnd r2 st) Ht).
  rewrite bind_eq.
  erewrite (update_tile_Some cur _ (with_type ty t));
    [| cbn; rewrite list_lookup_alter_eq, Ht; reflexivity].
  rewrite bind_eq.
  change (set_tiles _ (set_tiles _ (set_rnd r2 st))) with (resolve cur ty (set_rnd r2 st)).
  destruct (_setEntropyOfSurroundingTiles (index t) (resolve cur ty (set_rnd r2 st)))
    as [[[] | e] s2] eqn:Ep; cbn [ret fst].
  - rewrite bind_eq. cbn [gets]. destruct (_ =? 0); [discriminate |].
    rewrite bind_eq. cbn [gets]. destruct (some_undefined_type s2); discriminate.
  - unfold throw. intros H. injection H as <-. exists ty, r2, e. split; [| exact Ep].
    intros x ->. apply pickOneWeighted_In in Ew. apply filter_In in Ew as [Ew _]. exact Ew.
Qed.

(** X23: a step that fails with 'failed to collapse tile' is not rolled
    back: the tile it tried to collapse was unresolved before and is left
    resolved, with the type whose propagation failed (one of its
    candidates, or [undefined]), and one tile fewer is left to collapse. *)
Theorem failed_step_is_kept (fuel : nat) (st st' : WFC) :
  _collapseNext fuel st = (Throw FailedToCollapseTile, st') ->
  exists cur t ty,
    tiles st !! cur = Some (Some t) /\ is_zero (entropy t) = false
    /\ (forall x, ty = Some x -> In x (availableTiles t))
    /\ tiles st' !! cur = Some (Some (with_entropy (Fin 0) (with_type ty t)))
    /\ S (_getNumberOfRemainingTilesToCollapse st')
       = _getNumberOfRemainingTilesToCollapse st.
Proof.
  revert st. induction fuel as [| fuel IH]; intros st; cbn [_collapseNext].
  { unfold ret. discriminate. }
  rewrite bind_eq. cbn [gets].
  destruct (length (_getListofTilesWithLowestEntropy st) =? 0); [discriminate |].
  rewrite bind_eq, with_rnd_eq.
  destruct (pickOne (_getListofTilesWithLowestEntropy st) (rnd st)) as [picked r1] eqn:Ep.
  cbn [fst snd]. destruct picked as [cur |]; [| discriminate].
  destruct (lowest_unresolved st cur (pickOne_In _ _ _ _ Ep)) as (t & Ht & Hz).
  rewrite bind_eq, (tile_at_Some cur t (set_rnd r1 st) Ht).
  destruct (Nat.eqb_spec (length (availableTiles t)) 0) as [El | El]; [discriminate |].
  rewrite bind_eq.
  destruct (attempt_pass cur (length (availableTiles t)) [] (set_rnd r1 st))
    as [[[] | e] s] eqn:Ea; unfold ret; try discriminate.
  - intros H. destruct (attempt_pass_Ok cur _ (set_rnd r1 st) _ _ t Ht El Ea)
      as (_ & _ & _ & _ & [[Hc _] | [Hc _]]); discriminate.
  - intros H. injection H as -> ->.
    apply (attempt_pass_Failed cur _ (set_rnd r1 st) _ t Ht El) in Ea as (ty & r & e & Hin & Hp).
    apply propagate_spec in Hp as [[K _] _].
    exists cur, t, ty. split; [exact Ht |]. split; [exact Hz |]. split; [exact Hin |].
    split.
    + apply (skel_resolved _ _ cur _ K); [| reflexivity].
      apply (resolve_lookup_eq cur ty (set_rnd r (set_rnd r1 st)) t Ht).
    + rewrite !remaining_count, (skel_count _ _ K).
      change (tiles st) with (tiles (set_rnd r (set_rnd r1 st))).
      symmetry. apply (resolve_count cur ty _ t); assumption.
Qed.

Lemma failed_step_is_kept_witness :
  exists cur t ty,
    tiles Sample.corner_second_step !! cur = Some (Some t) /\ is_zero (entropy t) = false
    /\ (forall x, ty = Some x -> In x (availableTiles t))
    /\ tiles (snd (_collapseNext 1 Sample.corner_second_step)) !! cur
       = Some (Some (with_entropy (Fin 0) (with_type ty t)))
    /\ S (_getNumberOfRemainingTilesToCollapse (snd (_collapseNext 1 Sample.corner_second_step)))
       = _getNumberOfRemainingTilesToCollapse Sample.corner_second_step.
Proof.
  apply (failed_step_is_kept 1 Sample.corner_second_step).
  vm_compute. reflexivity.
Defined.

(** ** The grid *)

Lemma grid_neighbors_aux (st : WFC) (i j : nat) (d : Direction) :
  rectangular st -> i < length (tiles st) -> neighbor st i d = Some j ->
  j < length (tiles st)
  /\ neighbor st j (opposite d) = Some i
  /\ match d with
     | Up => j / width st + 1 = i / width st /\ j mod width st = i mod width st
     | Down => j / width st = i / width st + 1 /\ j mod width st = i mod width st
     | Left => j / width st = i / width st /\ j mod width st + 1 = i mod width st
     | Right => j / width st = i / width st /\ j mod width st = i mod width st + 1
     end.
Proof.
  intros Hr Hi Hn.
  assert (Hw : 0 < width st).
  { unfold rectangular in Hr. destruct (width st); [cbn in Hr; lia | lia]. }
  split; [exact (neighbor_in_bounds st i j d Hr Hi Hn) |].
  split; [exact (neighbor_sym st i j d Hw Hi Hn) |].
  pose proof (Nat.div_mod_eq i (width st)) as Ei.
  pose proof (Nat.mod_upper_bound i (width st) ltac:(lia)) as Hm.
  assert (Hu : forall q r, r < width st -> (q * width st + r) / width st = q
                           /\ (q * width st + r) mod width st = r).
  { intros q r Hlt. split.
    - rewrite Nat.div_add_l by lia. rewrite Nat.div_small by assumption. lia.
    - rewrite Nat.add_comm, Nat.Div0.mod_add. apply Nat.mod_small. assumption. }
  destruct d; cbn [neighbor] in Hn.
  - unfold upTileIndex in Hn. destruct (Nat.ltb_spec i (width st)); simplify_eq.
    assert (Hq : 1 <= i / width st).
    { apply Nat.div_le_lower_bound; lia. }
    destruct (Hu (i / width st - 1) (i mod width st) Hm) as [E1 E2].
    replace (i - width st) with ((i / width st - 1) * width st + i mod width st) by nia.
    rewrite E1, E2. lia.
  - unfold downTileIndex in Hn.
    destruct (Nat.leb_spec (length (tiles st)) (i + width st)); simplify_eq.
    destruct (Hu (i / width st + 1) (i mod width st) Hm) as [E1 E2].
    replace (i + width st) with ((i / width st + 1) * width st + i mod width st) by nia.
    rewrite E1, E2. lia.
  - unfold leftTileIndex in Hn. destruct (Nat.eqb_spec (width st) 0); [lia |].
    destruct (Nat.eqb_spec (i mod width st) 0); simplify_eq.
    destruct (Hu (i / width st) (i mod width st - 1) ltac:(lia)) as [E1 E2].
    replace (i - 1) with (i / width st * width st + (i mod width st - 1)) by nia.
    rewrite E1, E2. lia.
  - unfold rightTileIndex in Hn. destruct (Nat.eqb_spec (width st) 0); [lia |].
    destruct (Nat.eqb_spec (i mod width st) (width st - 1)); simplify_eq.
    destruct (Hu (i / width st) (i mod width st + 1) ltac:(lia)) as [E1 E2].
    replace (i + 1) with (i / width st * width st + (i mod width st + 1)) by nia.
    rewrite E1, E2. lia.
Qed.

Lemma grid_border_aux (st : WFC) (i : nat) (d : Direction) :
  rectangular st -> i < length (tiles st) ->
  (neighbor st i d = None
   <-> match d with
       | Up => i / width st = 0
       | Down => i / width st + 1 = height st
       | Left => i mod width st = 0
       | Right => i mod width st + 1 = width st
       end).
Proof.
  intros Hr Hi.
  assert (Hw : 0 < width st).
  { unfold rectangular in Hr. destruct (width st); [cbn in Hr; lia | lia]. }
  pose proof (Nat.div_mod_eq i (width st)) as Ei.
  pose proof (Nat.mod_upper_bound i (width st) ltac:(lia)) as Hm.
  assert (Hq : i / width st < height st).
  { apply Nat.Div0.div_lt_upper_bound. unfold rectangular in Hr. lia. }
  unfold rectangular in Hr.
  destruct d; cbn [neighbor].
  - unfold upTileIndex. destruct (Nat.ltb_spec i (width st)).
    + split; [intros _; apply Nat.div_small; assumption | reflexivity].
    + split; [discriminate |]. intros E. rewrite E in Ei. lia.
  - unfold downTileIndex. destruct (Nat.leb_spec (length (tiles st)) (i + width st)).
    + split; [intros _; nia | reflexivity].
    + split; [discriminate |]. intros E. nia.
  - unfold leftTileIndex. destruct (Nat.eqb_spec (width st) 0); [lia |].
    destruct (Nat.eqb_spec (i mod width st) 0); split; congruence.
  - unfold rightTileIndex. destruct (Nat.eqb_spec (width st) 0); [lia |].
    destruct (Nat.eqb_spec (i mod width st) (width st - 1)); split;
      try discriminate; try reflexivity; intros; lia.
Qed.

(** X24: on a tile array of [width * height] positions the four neighbour
    computations are those of the rectangle: the neighbour of a cell in a
    direction is the cell one row or one column away, in the same column or
    row (rows do not wrap), it lies in the grid, and the cell is in turn its
    neighbour in the opposite direction; there is no neighbour exactly at
    the border of that direction. *)
Theorem grid_neighbors (st : WFC) (i : nat) (d : Direction) :
  rectangular st -> i < length (tiles st) ->
  (forall j, neighbor st i d = Some j ->
     j < length (tiles st)
     /\ neighbor st j (opposite d) = Some i
     /\ match d with
        | Up => j / width st + 1 = i / width st /\ j mod width st = i mod width st
        | Down => j / width st = i / width st + 1 /\ j mod width st = i mod width st
        | Left => j / width st = i / width st /\ j mod width st + 1 = i mod width st
        | Right => j / width st = i / width st /\ j mod width st = i mod width st + 1
        end)
  /\ (neighbor st i d = None
      <-> match d with
          | Up => i / width st = 0
          | Down => i / width st + 1 = height st
          | Left => i mod width st = 0
          | Right => i mod width st + 1 = width st
          end).
Proof.
  intros Hr Hi. split.
  - intros j Hn. exact (grid_neighbors_aux st i j d Hr Hi Hn).
  - exact (grid_border_aux st i d Hr Hi).
Qed.

Lemma grid_neighbors_witness :
  (forall j, neighbor (Sample.checker 1) 1 Down = Some j ->
     j < length (tiles (Sample.checker 1))
     /\ neighbor (Sample.checker 1) j (opposite Down) = Some 1
     /\ (j / width (Sample.checker 1) = 1 / width (Sample.checker 1) + 1
         /\ j mod width (Sample.checker 1) = 1 mod width (Sample.checker 1)))
  /\ (neighbor (Sample.checker 1) 1 Down = None
      <-> 1 / width (Sample.checker 1) + 1 = height (Sample.checker 1)).
Proof.
  apply (grid_neighbors (Sample.checker 1) 1 Down).
  - reflexivity.
  - vm_compute. lia.
Defined.

(** ** class ExcaliburWfcPlugin *)

Section PluginProperties.

Context {SpriteSheet : Type}.
Implicit Types (p : ExcaliburWfcPlugin SpriteSheet) (l : levelData SpriteSheet).

Lemma js_get_None {A} (a : list A) (i : Z) :
  js_get a i = None <-> (i < 0 \/ Z.of_nat (length a) <= i)%Z.
Proof.
  unfold js_get. destruct (Z.ltb_spec i 0) as [Hneg | Hpos].
  - split; [intros _; left; exact Hneg | reflexivity].
  - rewrite lookup_ge_None. lia.
Qed.

Lemma on_level_invalid (levelIndex : Z) (f : levelData SpriteSheet -> levelData SpriteSheet) p :
  js_get (levels p) levelIndex = None ->
  on_level levelIndex f p = (Failed InvalidLevelIndex, p).
Proof. intros H. unfold on_level. rewrite H. reflexivity. Qed.

(** X25: every method of the plug-in that takes a level index throws
    'invalid level index' when the index is negative or not below the
    number of levels created, and then changes nothing. *)
Theorem invalid_level_index p (levelIndex : Z) (rules : Obj Rule)
    (weights : list (string * WeightData)) (defaults : list TileInput)
    (coords : Obj Coords) (seed : option Z) (index : Z) :
  (levelIndex < 0 \/ Z.of_nat (length (levels p)) <= levelIndex)%Z ->
  loadRules levelIndex rules p = (Failed InvalidLevelIndex, p)
  /\ loadWeights levelIndex weights p = (Failed InvalidLevelIndex, p)
  /\ loadDefaults levelIndex defaults p = (Failed InvalidLevelIndex, p)
  /\ loadTileCoords levelIndex coords p = (Failed InvalidLevelIndex, p)
  /\ generatelevel levelIndex seed p = Some (Failed InvalidLevelIndex, p)
  /\ getTile levelIndex index p = Failed InvalidLevelIndex.
Proof.
  intros H. apply js_get_None in H.
  unfold loadRules, loadWeights, loadDefaults, loadTileCoords.
  rewrite !on_level_invalid by exact H.
  unfold generatelevel, getTile. rewrite H. repeat split.
Qed.

Lemma set_level_lookup (levelIndex : Z) l p (k : nat) :
  (0 <= levelIndex)%Z -> Z.to_nat levelIndex < length (levels p) ->
  levels (set_level levelIndex l p) !! k
  = if Nat.eqb k (Z.to_nat levelIndex) then Some l else levels p !! k.
Proof.
  intros Hpos Hlt. unfold set_level. cbn [levels].
  destruct (Nat.eqb_spec k (Z.to_nat levelIndex)) as [-> | Hne].
  - apply list_lookup_insert_eq. exact Hlt.
  - apply list_lookup_insert_ne. congruence.
Qed.

Lemma js_get_Some {A} (a : list A) (i : Z) (x : A) :
  js_get a i = Some x -> (0 <= i)%Z /\ a !! Z.to_nat i = Some x /\ Z.to_nat i < length a.
Proof.
  unfold js_get. destruct (Z.ltb_spec i 0) as [Hneg | Hpos]; [discriminate |]. intros Hx.
  split; [assumption |]. split; [exact Hx | eapply lookup_lt_Some; exact Hx].
Qed.

Lemma set_level_only (levelIndex : Z) l l' p :
  js_get (levels p) levelIndex = Some l ->
  image l' = image l -> levelDims l' = levelDims l -> tileDims l' = tileDims l ->
  only_level (Z.to_nat levelIndex) p (set_level levelIndex l' p).
Proof.
  intros Hl Hi Hd Ht. apply js_get_Some in Hl as (Hpos & Hl & Hlt).
  unfold only_level, set_level. cbn [levels].
  split; [apply length_insert |]. split.
  - intros k' Hne. apply list_lookup_insert_ne. congruence.
  - intros l0 Hl0. exists l'. rewrite list_lookup_insert_eq by exact Hlt.
    rewrite Hl in Hl0. injection Hl0 as <-. auto.
Qed.

Lemma only_level_refl (k : nat) p : only_level k p p.
Proof.
  split; [reflexivity |]. split; [reflexivity |]. intros l Hl. exists l. auto.
Qed.

Lemma on_level_only (levelIndex : Z) (f : levelData SpriteSheet -> levelData SpriteSheet) p :
  (forall l, image (f l) = image l /\ levelDims (f l) = levelDims l
             /\ tileDims (f l) = tileDims l) ->
  only_level (Z.to_nat levelIndex) p (snd (on_level levelIndex f p)).
Proof.
  intros Hf. unfold on_level.
  destruct (js_get (levels p) levelIndex) as [l |] eqn:E; cbn [snd].
  - destruct (Hf l) as (H1 & H2 & H3). apply (set_level_only levelIndex l); assumption.
  - apply only_level_refl.
Qed.

(** X26: the levels of the plug-in are independent: a method called with
    a level index, however it ends, leaves the number of levels and every
    other level as they were, and keeps the sprite sheet and the dimensions
    of the level it is called on. *)
Theorem levels_independent p (levelIndex : Z) (rules : Obj Rule)
    (weights : list (string * WeightData)) (defaults : list TileInput)
    (coords : Obj Coords) (seed : option Z) :
  only_level (Z.to_nat levelIndex) p (snd (loadRules levelIndex rules p))
  /\ only_level (Z.to_nat levelIndex) p (snd (loadWeights levelIndex weights p))
  /\ only_level (Z.to_nat levelIndex) p (snd (loadDefaults levelIndex defaults p))
  /\ only_level (Z.to_nat levelIndex) p (snd (loadTileCoords levelIndex coords p))
  /\ (forall r p', generatelevel levelIndex seed p = Some (r, p') ->
       only_level (Z.to_nat levelIndex) p p').
Proof.
  split; [apply on_level_only; intros l; repeat split |].
  split; [apply on_level_only; intros l; repeat split |].
  split; [apply on_level_only; intros l; repeat split |].
  split; [apply on_level_only; intros l; repeat split |].
  intros r p'. unfold generatelevel.
  destruct (js_get (levels p) levelIndex) as [l |] eqn:E.
  - destruct (generateLevel (level_WFC l)) as [[[console | e] w] |]; intros H; simplify_eq;
      apply (set_level_only levelIndex l); auto.
  - intros H. simplify_eq. apply only_level_refl.
Qed.

Lemma insert_last {A} (l0 : list A) (x y : A) : <[length l0 := y]> (l0 ++ [x]) = l0 ++ [y].
Proof.
  induction l0 as [| a l0 IH]; [reflexivity |]. cbn. f_equal. exact IH.
Qed.

(** X27: [createNewLevel] appends a level and leaves the others alone. The
    new level has the next index, blank tiles and no rules, a seed of [0]
    counts as no seed, and [generatelevel] on it, before any rule is
    loaded, is rejected with 'tile data is invalid' in state [unknown]
    without changing the plug-in. *)
Theorem createNewLevel_appends p (options : WFCPluginOptions SpriteSheet) (now : Z)
    (seed : option Z) :
  (forall k, k < length (levels p) ->
     levels (createNewLevel options now p) !! k = levels p !! k)
  /\ (exists l, levels (createNewLevel options now p) !! length (levels p) = Some l
        /\ length (levels (createNewLevel options now p)) = S (length (levels p))
        /\ tiles (level_WFC l)
           = blank_tiles (dims_width (leveldims options) * dims_height (leveldims options))
        /\ rules (level_WFC l) = []
        /\ rnd (level_WFC l)
           = mkRandom (match plugin_seed options with
                       | Some s => if (s =? 0)%Z then now else s
                       | None => now
                       end))
  /\ generatelevel (Z.of_nat (length (levels p))) seed (createNewLevel options now p)
     = Some (Failed (LevelError (InvalidState unknown)), createNewLevel options now p).
Proof.
  split; [| split].
  - intros k Hk. unfold createNewLevel. cbn [levels]. apply lookup_app_l. exact Hk.
  - eexists. unfold createNewLevel. cbn [levels].
    split; [apply list_lookup_middle; reflexivity |].
    split; [rewrite length_app; cbn; lia |].
    destruct (plugin_seed options) as [s |]; [destruct (s =? 0)%Z eqn:Es |];
      cbn; rewrite ?Es; repeat split.
  - unfold generatelevel, createNewLevel, js_get. cbn [levels].
    destruct (Z.ltb_spec (Z.of_nat (length (levels p))) 0); [lia |].
    rewrite Nat2Z.id, list_lookup_middle by reflexivity.
    cbn [level_WFC].
    match goal with
    | |- context [generateLevel ?w] =>
        assert (E : generateLevel w = Some (Throw (InvalidState unknown), w))
    end.
    { unfold generateLevel, generateLevel_fuel. cbv zeta.
      match goal with
      | |- context [_isDataReady ?w] =>
          assert (Er : _isDataReady w = unknown)
      end.
      { unfold _isDataReady.
        destruct (plugin_seed options) as [s |]; [destruct (s =? 0)%Z |];
          cbn [new_WFC tiles rules options_seed levelsize_width levelsize_height];
          destruct (length _ =? 0); reflexivity. }
      rewrite Er.
      destruct (plugin_seed options) as [s |]; [destruct (s =? 0)%Z |]; reflexivity. }
    rewrite E. unfold set_level, set_WFC. cbn [levels level_WFC image levelDims tileDims tileCoords].
    rewrite Nat2Z.id, insert_last. reflexivity.
Qed.

End PluginProperties.

Lemma invalid_level_index_witness :
  loadRules 1 (rules (Sample.checker 1)) Cases.board = (Failed InvalidLevelIndex, Cases.board)
  /\ loadWeights 1 [("A", 2%Z)] Cases.board = (Failed InvalidLevelIndex, Cases.board)
  /\ loadDefaults 1 Sample.wrapped_inputs Cases.board = (Failed InvalidLevelIndex, Cases.board)
  /\ loadTileCoords 1 Cases.board_coords Cases.board = (Failed InvalidLevelIndex, Cases.board)
  /\ generatelevel 1 (Some 7%Z) Cases.board = Some (Failed InvalidLevelIndex, Cases.board)
  /\ getTile 1 0 Cases.board = Failed InvalidLevelIndex.
Proof.
  apply (invalid_level_index Cases.board 1 (rules (Sample.checker 1)) [("A", 2%Z)]
           Sample.wrapped_inputs Cases.board_coords (Some 7%Z) 0%Z).
  right. vm_compute. discriminate.
Defined.

(** ** Every tile of a clean run gets a declared type *)

Lemma round_half_even_pos (x e : Z) :
  (0 <= e)%Z -> (2 ^ e <= x)%Z -> (0 < Double.round_half_even x e)%Z.
Proof.
  intros He Hx. unfold Double.round_half_even. cbv zeta.
  assert (Hp : (0 < 2 ^ e)%Z) by (apply Z.pow_pos_nonneg; lia).
  assert (Hq : (1 <= x / 2 ^ e)%Z).
  { apply Z.div_le_lower_bound; lia. }
  repeat case_match; nia.
Qed.

Lemma fl_neg (x : Z) : (x < 0)%Z -> (Double.fl x < 0)%Z.
Proof.
  intros Hx. unfold Double.fl. cbv zeta.
  destruct (Z.ltb_spec (Z.abs x) (2 ^ 53)) as [_ | Hbig]; [exact Hx |].
  assert (Hl : (53 <= Z.log2 (Z.abs x))%Z).
  { apply Z.log2_le_pow2; lia. }
  pose proof (round_half_even_pos (Z.abs x) (Z.log2 (Z.abs x) - 52)) as Hr.
  assert (Hle : (2 ^ (Z.log2 (Z.abs x) - 52) <= Z.abs x)%Z).
  { transitivity (2 ^ Z.log2 (Z.abs x))%Z.
    - apply Z.pow_le_mono_r; lia.
    - apply Z.log2_spec. lia. }
  specialize (Hr ltac:(lia) Hle).
  rewrite (Z.sgn_neg x Hx). lia.
Qed.

Lemma floor_mul_neg (rnd : Z) (n : nat) :
  (rnd < 0)%Z -> 0 < n -> (Double.floor_mul rnd n < 0)%Z.
Proof.
  intros Hr Hn. unfold Double.floor_mul.
  assert (H : (Double.fl (rnd * Z.of_nat n) < 0)%Z) by (apply fl_neg; nia).
  apply Z.div_lt_upper_bound; lia.
Qed.

(** A draw that hits an element has left a seed that is not negative. *)
Lemma pickOne_Some_seed {A} (set : list A) (r r' : Random) (x : A) :
  pickOne set r = (Some x, r') -> (0 <= seed r')%Z.
Proof.
  rewrite pickOne_unfold. intros H.
  assert (Hget : js_get set (Double.floor_mul (fst (getRandom r)) (length set)) = Some x)
    by congruence.
  assert (Hr : r' = snd (getRandom r)) by congruence. subst r'. clear H.
  change (0 <= fst (getRandom r))%Z.
  destruct (Z.lt_ge_cases (fst (getRandom r)) 0) as [Hneg | Hpos]; [| lia].
  exfalso. unfold js_get in Hget.
  destruct set as [| a set]; [destruct (_ <? 0)%Z; discriminate |].
  pose proof (floor_mul_neg (fst (getRandom r)) (length (a :: set)) Hneg ltac:(cbn; lia)) as Hf.
  destruct (Z.ltb_spec (Double.floor_mul (fst (getRandom r)) (length (a :: set))) 0);
    [discriminate | lia].
Qed.

Lemma pickOneWeighted_Some (set : list string) (w : Obj WeightData) (r : Random) :
  (0 <= seed r)%Z -> flat_map (weighted_items w) set <> [] ->
  (Z.of_nat (length (flat_map (weighted_items w) set)) < 2 ^ 21)%Z ->
  exists x, pickOneWeighted set w r = (Some x, snd (getRandom r)).
Proof.
  intros Hs Hne Hlen.
  destruct (pickOne_Some (flat_map (weighted_items w) set) r Hs Hlen Hne) as (x & E & _).
  exists x. rewrite pickOne_unfold in E. unfold pickOneWeighted.
  destruct (getRandom r) as [rnd r0]. exact E.
Qed.

Lemma weighted_items_nonempty (w : Obj WeightData) (x : string) :
  positive_weights w -> inherited x = false -> weighted_items w x <> [].
Proof.
  intros Hw Hx.
  destruct (weighted_items_cases w x) as [[_ ->] | [(_ & _ & Hi & _) | (n & _ & Hn & ->)]];
    [discriminate | congruence |].
  pose proof (Hw x n Hn). destruct (Z.to_nat n) eqn:E; [lia | discriminate].
Qed.

Lemma flat_map_nonempty {A B} (f : A -> list B) (l : list A) :
  (forall x, In x l -> f x <> []) -> l <> [] -> flat_map f l <> [].
Proof.
  intros Hf Hl. destruct l as [| a l]; [congruence |]. cbn.
  specialize (Hf a (or_introl eq_refl)). destruct (f a); [congruence | discriminate].
Qed.

(** With positive weights, candidates taken from a rule list without
    inherited names expand to a list that is not empty. *)
Lemma expansion_nonempty (rs : Obj Rule) (w : Obj WeightData) (a : string) (ra : Rule)
    (d : Direction) (p : string -> bool) :
  positive_weights w -> plain_lists rs -> obj_get rs a = Some ra ->
  List.filter p (side d ra) <> [] ->
  flat_map (weighted_items w) (List.filter p (side d ra)) <> [].
Proof.
  intros Hpos Hplain Hra Hne. apply flat_map_nonempty; [| exact Hne].
  intros y Hy. apply filter_In in Hy as [Hy _].
  apply weighted_items_nonempty; [exact Hpos | exact (Hplain a ra d y Hra Hy)].
Qed.

Lemma flat_map_filter_length {A B} (f : A -> list B) (p : A -> bool) (l : list A) :
  length (flat_map f (List.filter p l)) <= length (flat_map f l).
Proof.
  induction l as [| a l IH]; [reflexivity |]. cbn.
  destruct (p a); cbn; rewrite !length_app; lia.
Qed.

Lemma filter_all {A} (l : list A) : List.filter (fun _ => true) l = l.
Proof. induction l as [| a l IH]; [reflexivity |]. cbn. f_equal. exact IH. Qed.

(** The draw of a pass of the attempt loop that does not throw. *)
Lemma attempt_pass_draws (cur retries : nat) (st st' : WFC) (flow : Flow) (t : TileData) :
  tiles st !! cur = Some (Some t) -> retries <> 0 ->
  attempt_pass cur retries [] st = (Ok flow, st') ->
  _setEntropyOfSurroundingTiles (index t)
    (resolve cur (fst (pickOneWeighted (availableTiles t) (weighting st) (rnd st)))
       (set_rnd (snd (pickOneWeighted (availableTiles t) (weighting st) (rnd st))) st))
  = (Ok tt, st').
Proof.
  intros Ht Hr. unfold attempt_pass. rewrite bind_eq. unfold try_catch. rewrite bind_eq.
  unfold attempt_try. destruct (Nat.leb_spec retries 0) as [Hle | _]; [lia |].
  rewrite bind_eq, (tile_at_Some cur t st Ht). rewrite bind_eq. cbn [gets find].
  rewrite filter_all, bind_eq, with_rnd_eq.
  destruct (pickOneWeighted (availableTiles t) (weighting st) (rnd st)) as [ty r2] eqn:Ew.
  cbn [fst snd].
  rewrite bind_eq, (update_tile_Some cur _ t (set_rnd r2 st) Ht).
  rewrite bind_eq.
  erewrite (update_tile_Some cur _ (with_type ty t));
    [| cbn; rewrite list_lookup_alter_eq, Ht; reflexivity].
  rewrite bind_eq.
  change (set_tiles _ (set_tiles _ (set_rnd r2 st))) with (resolve cur ty (set_rnd r2 st)).
  destruct (_setEntropyOfSurroundingTiles (index t) (resolve cur ty (set_rnd r2 st)))
    as [[[] | e] s2] eqn:Ep; cbn [ret fst]; [| unfold throw; discriminate].
  rewrite bind_eq. cbn [gets]. intros H.
  destruct (_getNumberOfRemainingTilesToCollapse s2 =? 0).
  - unfold ret in H. simplify_eq. reflexivity.
  - rewrite bind_eq in H. cbn [gets] in H.
    destruct (some_undefined_type s2); [discriminate |].
    unfold ret in H. simplify_eq. reflexivity.
Qed.

(** The two draws of a call of [next()] that does not throw. *)
Lemma collapseNext_draws (fuel : nat) (st st' : WFC) (o : Step) :
  _collapseNext fuel st = (Ok (Some o), st') ->
  exists cur t r1,
    pickOne (_getListofTilesWithLowestEntropy st) (rnd st) = (Some cur, r1)
    /\ tiles st !! cur = Some (Some t) /\ is_zero (entropy t) = false
    /\ availableTiles t <> []
    /\ _setEntropyOfSurroundingTiles (index t)
         (resolve cur (fst (pickOneWeighted (availableTiles t) (weighting st) r1))
            (set_rnd (snd (pickOneWeighted (availableTiles t) (weighting st) r1)) st))
       = (Ok tt, st').
Proof.
  destruct fuel as [| fuel]; cbn [_collapseNext]; [unfold ret; discriminate |].
  rewrite bind_eq. cbn [gets].
  destruct (length (_getListofTilesWithLowestEntropy st) =? 0); [discriminate |].
  rewrite bind_eq, with_rnd_eq.
  destruct (pickOne (_getListofTilesWithLowestEntropy st) (rnd st)) as [picked r1] eqn:Ep.
  cbn [fst snd]. destruct picked as [cur |]; [| discriminate].
  destruct (lowest_unresolved st cur (pickOne_In _ _ _ _ Ep)) as (t & Ht & Hz).
  rewrite bind_eq, (tile_at_Some cur t (set_rnd r1 st) Ht).
  destruct (Nat.eqb_spec (length (availableTiles t)) 0) as [El | El]; [discriminate |].
  rewrite bind_eq.
  destruct (attempt_pass cur (length (availableTiles t)) [] (set_rnd r1 st))
    as [[flow | e] s] eqn:Ea; [| discriminate].
  pose proof (attempt_pass_draws cur _ (set_rnd r1 st) _ _ t Ht El Ea) as Hp.
  destruct (attempt_pass_Ok cur _ (set_rnd r1 st) _ _ t Ht El Ea)
    as (_ & _ & _ & _ & Hflow).
  intros H. exists cur, t, r1. split; [reflexivity |]. split; [exact Ht |].
  split; [exact Hz |]. split; [intros E; rewrite E in El; apply El; reflexivity |].
  destruct Hflow as [[-> _] | [-> _]]; unfold ret in H; simplify_eq; exact Hp.
Qed.

Lemma gather_Ok_inv (st : WFC) (k : nat) (lists : list (list string)) (l : list string) :
  gather st k = Ok lists -> In l lists -> exists d, dir_list st k d = Ok l.
Proof.
  unfold gather. intros H Hin.
  destruct (dir_list st k Up) as [u |] eqn:E1; [| discriminate].
  destruct (dir_list st k Down) as [d |] eqn:E2; [| discriminate].
  destruct (dir_list st k Left) as [le |] eqn:E3; [| discriminate].
  destruct (dir_list st k Right) as [r |] eqn:E4; [| discriminate].
  cbn [rbind] in H. injection H as <-.
  destruct Hin as [<- | [<- | [<- | [<- | []]]]]; eauto.
Qed.

(** A direction that contributes a non-empty list has a resolved neighbour
    of a declared type. *)
Lemma dir_list_nonempty (st : WFC) (k : nat) (d : Direction) (l : list string) :
  dir_list st k d = Ok l -> l <> [] ->
  exists n tn a ra,
    neighbor st k d = Some n /\ tiles st !! n = Some (Some tn)
    /\ is_zero (entropy tn) = true /\ type tn = Some a
    /\ obj_get (rules st) a = Some ra /\ l = side (opposite d) ra.
Proof.
  unfold dir_list, neighbor_list. intros H Hl.
  destruct (neighbor st k d) as [n |]; [| simplify_eq].
  destruct (tiles st !! n) as [[tn |] |] eqn:Hn; try discriminate.
  destruct (is_zero (entropy tn)) eqn:Hz; [| simplify_eq].
  destruct (type tn) as [a |] eqn:Ha; [| discriminate].
  destruct (obj_get (rules st) a) as [ra |] eqn:Hr; [| discriminate].
  injection H as <-. exists n, tn, a, ra. auto 10.
Qed.

(** The candidates of a tile are a selection from the list that one of its
    resolved neighbours, of a declared type, allows towards it. *)
Lemma candidates_from_neighbour (st : WFC) (k : nat) (t : TileData) :
  avail_ok st k -> tiles st !! k = Some (Some t) -> availableTiles t <> [] ->
  exists d n tn a ra p,
    neighbor st k d = Some n /\ tiles st !! n = Some (Some tn)
    /\ is_zero (entropy tn) = true /\ type tn = Some a
    /\ obj_get (rules st) a = Some ra
    /\ availableTiles t = List.filter p (side (opposite d) ra).
Proof.
  intros (t0 & lists & Ht0 & Hg & Hav) Ht Hne. rewrite Ht in Ht0. injection Ht0 as <-.
  destruct (List.filter nonempty lists) as [| first rest] eqn:Ef.
  { rewrite Hav in Hne. contradiction. }
  assert (Hin : In first (List.filter nonempty lists)) by (rewrite Ef; left; reflexivity).
  apply filter_In in Hin as [Hin Hf]. apply nonempty_true in Hf.
  destruct (gather_Ok_inv st k lists first Hg Hin) as [d Hd].
  destruct (dir_list_nonempty st k d first Hd Hf) as (n & tn & a & ra & H1 & H2 & H3 & H4 & H5 & H6).
  exists d, n, tn, a, ra.
  exists (fun x => forallb (fun l => includes l x) (first :: rest)).
  rewrite Hav, <- H6. auto 10.
Qed.

Lemma step_typed (st st' : WFC) (cur : nat) (t : TileData) (x : string) :
  symmetric_rules (rules st) -> candidates_ok st -> typed st \/ one_resolved st ->
  tiles st !! cur = Some (Some t) -> is_zero (entropy t) = false ->
  In x (availableTiles t) ->
  skel (resolve cur (Some x) st) st' -> typed st'.
Proof.
  intros Hsym Hc HJ Ht Hz Hx K.
  destruct (candidates_from_neighbour st cur t) as (d & n & tn & a & ra & p & Hn & Htn & Hzn & Ha & Hra & Hav).
  { apply Hc. exists t. split; assumption. }
  { exact Ht. }
  { intros E. rewrite E in Hx. destruct Hx. }
  assert (Hdecl : exists rx, obj_get (rules st) x = Some rx).
  { rewrite Hav in Hx. apply filter_In in Hx as [Hx _].
    destruct (Hsym a ra (opposite d) x Hra) as (rx & Hrx & _);
      [apply list_elem_of_In; exact Hx | eauto]. }
  intros i t' Hi Hzi. rewrite (skel_rules _ _ K). cbn [rules resolve set_tiles].
  destruct (skel_lookup_inv _ _ i t' K Hi) as (t0 & Hi0 & _ & Hty & Hz0 & _).
  rewrite Hty. rewrite Hzi in Hz0.
  destruct (Nat.eq_dec i cur) as [-> | Hne].
  - rewrite (resolve_lookup_eq cur (Some x) st t Ht) in Hi0. injection Hi0 as <-.
    destruct Hdecl as [rx Hrx]. exists x, rx. split; [reflexivity | exact Hrx].
  - rewrite resolve_lookup_ne in Hi0 by congruence.
    destruct HJ as [Htyped | Hone].
    + exact (Htyped i t0 Hi0 (eq_sym Hz0)).
    + assert (i = n) by (apply (Hone i n t0 tn); auto). subst i.
      rewrite Htn in Hi0. injection Hi0 as <-. exists a, ra. auto.
Qed.

Lemma collapseNext_typed (fuel : nat) (st st' : WFC) (o : Step) :
  symmetric_rules (rules st) ->
  positive_weights (weighting st) -> short_lists (rules st) (weighting st) ->
  plain_lists (rules st) ->
  candidates_ok st -> typed st \/ one_resolved st ->
  _collapseNext fuel st = (Ok (Some o), st') -> typed st'.
Proof.
  intros Hsym Hpos Hshort Hplain Hc HJ H.
  apply collapseNext_draws in H as (cur & t & r1 & Ep & Ht & Hz & Hne & Hp).
  pose proof (pickOne_Some_seed _ _ _ _ Ep) as Hseed.
  destruct (candidates_from_neighbour st cur t) as (d & n & tn & a & ra & p & Hn & Htn & Hzn & Ha & Hra & Hav).
  { apply Hc. exists t. split; assumption. }
  { exact Ht. }
  { exact Hne. }
  destruct (pickOneWeighted_Some (availableTiles t) (weighting st) r1 Hseed) as [x Ex].
  { rewrite Hav. apply (expansion_nonempty (rules st) _ a ra); try assumption.
    rewrite <- Hav. exact Hne. }
  { rewrite Hav. pose proof (flat_map_filter_length (weighted_items (weighting st)) p
                               (side (opposite d) ra)) as Hle.
    pose proof (Hshort a ra (opposite d) Hra). lia. }
  rewrite Ex in Hp. cbn [fst snd] in Hp.
  pose proof (pickOneWeighted_In _ _ _ _ _ Ex) as Hx.
  apply propagate_spec in Hp as [[K _] _].
  exact (step_typed (set_rnd (snd (getRandom r1)) st) st' cur t x Hsym Hc HJ Ht Hz Hx K).
Qed.

Lemma step_loop_typed (fuel : nat) (st st' : WFC) :
  0 < width st -> symmetric_rules (rules st) -> lists_nonempty (rules st) ->
  positive_weights (weighting st) -> short_lists (rules st) (weighting st) ->
  plain_lists (rules st) ->
  Inv st -> typed st \/ one_resolved st ->
  step_loop fuel st = Some ([], st') -> typed st'.
Proof.
  revert st.
  induction fuel as [| fuel IH]; intros st Hw Hsym Hne Hpos Hshort Hplain Hinv HJ;
    [discriminate |].
  cbn [step_loop].
  destruct (_collapseNext (S fuel) st) as [[[[] |] | e] s] eqn:E; try discriminate.
  - destruct (collapseNext_Inv _ _ _ _ Hw Hsym Hne Hinv E) as (Hinv' & Hw' & Hr' & _).
    pose proof (collapseNext_typed _ _ _ _ Hsym Hpos Hshort Hplain (inv_candidates _ Hinv) HJ E) as Ht.
    pose proof (keeps_collapseNext (S fuel) st) as Hk. rewrite E in Hk.
    destruct Hk as (_ & _ & _ & _ & Hwt & _). cbn [snd] in Hwt.
    apply IH; try assumption; rewrite ?Hw', ?Hr', ?Hwt; try assumption.
    left. exact Ht.
  - intros H. injection H as <-.
    exact (collapseNext_typed _ _ _ _ Hsym Hpos Hshort Hplain (inv_candidates _ Hinv) HJ E).
Qed.

Lemma one_resolved_skel (st st' : WFC) : skel st st' -> one_resolved st -> one_resolved st'.
Proof.
  intros K H i j ti tj Hi Hj Hzi Hzj.
  destruct (skel_lookup_inv _ _ i ti K Hi) as (ti0 & Hi0 & _ & _ & Ei & _).
  destruct (skel_lookup_inv _ _ j tj K Hj) as (tj0 & Hj0 & _ & _ & Ej & _).
  apply (H i j ti0 tj0); congruence.
Qed.

Lemma clean_run_typed_aux (st st' : WFC) :
  fresh st -> 0 < width st -> symmetric_rules (rules st) -> lists_nonempty (rules st) ->
  positive_weights (weighting st) -> short_lists (rules st) (weighting st) ->
  plain_lists (rules st) ->
  generateLevel st = Some (Ok [], st') ->
  forall i t, tiles st' !! i = Some (Some t) ->
    exists ty rule, type t = Some ty /\ obj_get (rules st) ty = Some rule.
Proof.
  intros Hf Hw Hsym Hne Hpos Hshort Hplain.
  unfold generateLevel, generateLevel_fuel. cbv zeta.
  destruct (bufferstate (set_bufferstate (_isDataReady st) st)) eqn:Hb; try discriminate.
  rewrite bind_eq.
  destruct (random_start (set_bufferstate (_isDataReady st) st)) as [[[] | e] s0] eqn:Es;
    [| discriminate].
  destruct (_prepareTileDataForCollapsing s0) as [[[] | e] s1] eqn:Ep; [| discriminate].
  destruct (step_loop (S (length (tiles st))) (set_bufferstate collapsing s1))
    as [[console s2] |] eqn:El; [| discriminate].
  intros H. simplify_eq.
  destruct (fresh_started (set_bufferstate (_isDataReady st) st) s0 Hf Es)
    as (Hidx & Hone & Hblank & Hw0 & Hr0).
  destruct (prepare_Inv s0 s1) as (Hinv & Hw1 & Hr1); try assumption.
  { rewrite Hw0. exact Hw. }
  cbn in Hw0, Hr0.
  pose proof (keeps_random_start (set_bufferstate (_isDataReady st) st)) as F0.
  rewrite Es in F0. destruct F0 as (_ & _ & _ & _ & Hwt0 & _). cbn in Hwt0.
  pose proof (keeps_prepare s0) as F1.
  rewrite Ep in F1. destruct F1 as (_ & _ & _ & _ & Hwt1 & _). cbn [snd] in Hwt1.
  assert (Hone1 : one_resolved s1).
  { unfold _prepareTileDataForCollapsing in Ep. rewrite bind_eq in Ep. cbn [gets] in Ep.
    apply prepare_loop_spec in Ep as [[K _] _]. exact (one_resolved_skel _ _ K Hone). }
  destruct (step_loop_Inv (S (length (tiles st))) (set_bufferstate collapsing s1) s2)
    as (Hinv2 & Hr2 & H0);
    [change (0 < width s1); lia
    | change (symmetric_rules (rules s1)); rewrite Hr1, Hr0; exact Hsym
    | change (lists_nonempty (rules s1)); rewrite Hr1, Hr0; exact Hne
    | apply Inv_set_bufferstate, Hinv | exact El |].
  assert (Htyped : typed s2).
  { apply (step_loop_typed (S (length (tiles st))) (set_bufferstate collapsing s1) s2).
    - change (0 < width s1). lia.
    - change (symmetric_rules (rules s1)). rewrite Hr1, Hr0. exact Hsym.
    - change (lists_nonempty (rules s1)). rewrite Hr1, Hr0. exact Hne.
    - change (positive_weights (weighting s1)). rewrite Hwt1, Hwt0. exact Hpos.
    - change (short_lists (rules s1) (weighting s1)). rewrite Hr1, Hr0, Hwt1, Hwt0.
      exact Hshort.
    - change (plain_lists (rules s1)). rewrite Hr1, Hr0. exact Hplain.
    - apply Inv_set_bufferstate, Hinv.
    - right. exact Hone1.
    - exact El. }
  pose proof (remaining_zero s2 H0) as Hall.
  intros i t Hi. cbn [tiles set_bufferstate] in Hi.
  destruct (Htyped i t Hi) as (ty & rule & Hty & Hrule).
  { rewrite (Hall i t Hi). reflexivity. }
  exists ty, rule. split; [exact Hty |].
  change (rules (set_bufferstate collapsing s1)) with (rules s1) in Hr2.
  rewrite <- Hr0, <- Hr1, <- Hr2. exact Hrule.
Qed.

(** A rule list that names an inherited property breaks this: on a level of
    two cells with the types "A" and "constructor", which allow each other
    and have no weights, the second cell has no candidate but
    "constructor", the weighted pick draws from an empty list, and the run
    is clean with a tile of type [undefined]. *)
Lemma inherited_name_gives_undefined :
  exists st',
    generateLevel
      (configure
         [CallSetRule "A" (mkRule ["constructor"] ["constructor"] ["constructor"] ["constructor"]);
          CallSetRule "constructor" (mkRule ["A"] ["A"] ["A"] ["A"])]
         (new_WFC (mkOptions 2 1 (Some 1%Z)) 0))
    = Some (Ok [], st')
    /\ exists i t, tiles st' !! i = Some (Some t) /\ type t = None.
Proof.
  eexists. split; [vm_compute; reflexivity |].
  exists 1. eexists. split; [vm_compute; reflexivity | reflexivity].
Qed.

(** X28: in the grid of a clean run (fresh grid, symmetric rules without
    empty list and without a name of an inherited property in a list,
    positive weights, no expanded list of [2^21] entries or more) every
    tile has a type, and the type is one of the declared ones: no tile
    keeps the blank type or gets [undefined]. *)
Theorem clean_run_typed (st st' : WFC) :
  fresh st -> 0 < width st -> symmetric_rules (rules st) -> lists_nonempty (rules st) ->
  positive_weights (weighting st) -> short_lists (rules st) (weighting st) ->
  plain_lists (rules st) ->
  generateLevel st = Some (Ok [], st') ->
  forall i t, tiles st' !! i = Some (Some t) ->
    exists ty rule, type t = Some ty /\ obj_get (rules st) ty = Some rule.
Proof. apply clean_run_typed_aux. Qed.

Lemma checker_short_lists : short_lists (rules (Sample.checker 1)) [].
Proof.
  intros a ra d Ha.
  change (rules (Sample.checker 1))
    with [("A", mkRule ["B"] ["B"] ["B"] ["B"]); ("B", mkRule ["A"] ["A"] ["A"] ["A"])] in *.
  cbn [obj_get] in Ha.
  destruct (String.eqb_spec "A" a) as [<- | _];
    [| destruct (String.eqb_spec "B" a) as [<- | _]; [| discriminate]];
    simplify_eq; destruct d; vm_compute; reflexivity.
Qed.

Lemma checker_plain_lists : plain_lists (rules (Sample.checker 1)).
Proof.
  intros a ra d x Ha Hx.
  change (rules (Sample.checker 1))
    with [("A", mkRule ["B"] ["B"] ["B"] ["B"]); ("B", mkRule ["A"] ["A"] ["A"] ["A"])] in *.
  cbn [obj_get] in Ha.
  destruct (String.eqb_spec "A" a) as [<- | _];
    [| destruct (String.eqb_spec "B" a) as [<- | _]; [| discriminate]];
    simplify_eq; destruct d; cbn in Hx; destruct Hx as [<- | []]; reflexivity.
Qed.

Lemma clean_run_typed_witness :
  exists ty rule,
    type (mkTile 2 (Some "B") (Fin 0) ["B"]) = Some ty
    /\ obj_get (rules (Sample.checker 1)) ty = Some rule.
Proof.
  refine (clean_run_typed (Sample.checker 1) (Sample.after_run (Sample.checker 1))
            _ _ _ _ _ _ _ _ 2 (mkTile 2 (Some "B") (Fin 0) ["B"]) _).
  - exact checker_fresh.
  - vm_compute. lia.
  - exact checker_symmetric.
  - exact checker_nonempty.
  - intros ty n H. discriminate H.
  - exact checker_short_lists.
  - exact checker_plain_lists.
  - vm_compute. reflexivity.
  - vm_compute. reflexivity.
Defined.

(** ** From a clean run to the sprites *)

Section PluginRun.

Context {SpriteSheet : Type}.
Implicit Types (p : ExcaliburWfcPlugin SpriteSheet) (l : levelData SpriteSheet).

(** X29: after [generatelevel] has fulfilled its promise without an error
    on the console, for a level that was fresh and without holes, whose
    rules are symmetric without empty list and name no inherited property
    in a list, whose weights are positive and keep the expanded lists
    short, and whose [tileCoords] has an entry for every declared type,
    [getTile] succeeds for every cell of the level: it asks the level's
    sprite sheet for the cell that [tileCoords] gives for a declared
    type. *)
Theorem getTile_after_clean_run p p' (levelIndex : Z) (seed : option Z) l (i : Z) :
  js_get (levels p) levelIndex = Some l ->
  fresh (level_WFC l) -> hole_free (tiles (level_WFC l)) -> 0 < width (level_WFC l) ->
  symmetric_rules (rules (level_WFC l)) -> lists_nonempty (rules (level_WFC l)) ->
  positive_weights (weighting (level_WFC l)) ->
  short_lists (rules (level_WFC l)) (weighting (level_WFC l)) ->
  plain_lists (rules (level_WFC l)) ->
  (forall ty rule, obj_get (rules (level_WFC l)) ty = Some rule ->
                   exists c, obj_get (tileCoords l) ty = Some c) ->
  generatelevel levelIndex seed p = Some (Done [], p') ->
  (0 <= i < Z.of_nat (length (tiles (level_WFC l))))%Z ->
  exists ty rule c,
    obj_get (rules (level_WFC l)) ty = Some rule
    /\ obj_get (tileCoords l) ty = Some c
    /\ getTile levelIndex i p' = Done (image l, Some (coords_x c), Some (coords_y c)).
Proof.
  intros Hl Hf Hh Hw Hsym Hne Hpos Hshort Hplain Hcoords Hrun Hi.
  unfold generatelevel in Hrun. rewrite Hl in Hrun.
  destruct (generateLevel (level_WFC l)) as [[[console | e] w'] |] eqn:Eg; try discriminate.
  injection Hrun as -> <-.
  pose proof (generateLevel_frame_aux _ _ _ Eg) as (_ & _ & _ & _ & _ & _ & Hidx).
  pose proof (indices_hole_free _ _ Hidx Hh) as Hh'.
  destruct (indices_lookup _ _ (Z.to_nat i) Hidx) as [_ Hlen].
  destruct (Hh' (Z.to_nat i)) as [t Ht]; [lia |].
  destruct (clean_run_typed_aux _ _ Hf Hw Hsym Hne Hpos Hshort Hplain Eg (Z.to_nat i) t Ht)
    as (ty & rule & Hty & Hrule).
  destruct (Hcoords ty rule Hrule) as [c Hc].
  exists ty, rule, c. split; [exact Hrule |]. split; [exact Hc |].
  apply js_get_Some in Hl as (Hpos0 & Hl & Hlt).
  unfold getTile, js_get.
  destruct (Z.ltb_spec levelIndex 0) as [| _]; [lia |].
  rewrite set_level_lookup, Nat.eqb_refl by assumption.
  cbn [level_WFC set_WFC image tileCoords].
  destruct (Z.ltb_spec i 0) as [| _]; [lia |].
  rewrite Ht. cbn [mjoin option_join option_bind mbind]. rewrite Hty. cbn [default].
  change (id ty) with ty. rewrite Hc. reflexivity.
Qed.

End PluginRun.

Lemma getTile_after_clean_run_witness :
  exists ty rule c,
    obj_get (rules (level_WFC Cases.board_level)) ty = Some rule
    /\ obj_get (tileCoords Cases.board_level) ty = Some c
    /\ getTile 0 3 Cases.board_generated
       = Done (image Cases.board_level, Some (coords_x c), Some (coords_y c)).
Proof.
  apply (getTile_after_clean_run Cases.board Cases.board_generated 0 None
           Cases.board_level 3).
  - vm_compute. reflexivity.
  - exact checker_fresh.
  - intros i Hi. destruct i as [| [| [| [| i]]]]; cbn in Hi; try lia; eexists; reflexivity.
  - vm_compute. lia.
  - exact checker_symmetric.
  - exact checker_nonempty.
  - intros ty n H. discriminate H.
  - exact checker_short_lists.
  - exact checker_plain_lists.
  - intros ty rule Ha.
    change (rules (level_WFC Cases.board_level))
      with [("A", mkRule ["B"] ["B"] ["B"] ["B"]); ("B", mkRule ["A"] ["A"] ["A"] ["A"])] in Ha.
    cbn [obj_get] in Ha.
    destruct (String.eqb_spec "A" ty) as [<- | _];
      [| destruct (String.eqb_spec "B" ty) as [<- | _]; [| discriminate]];
      eexists; vm_compute; reflexivity.
  - vm_compute. reflexivity.
  - vm_compute. split; [discriminate | reflexivity].
Defined.

(** ** Compatible rules: the entropy computation cannot fail *)

Lemma contribution_Some (st : WFC) (i : nat) (d : Direction) (l : list string) :
  contribution st i d = Some l ->
  exists a ra, obj_get (rules st) a = Some ra /\ l = side (opposite d) ra.
Proof.
  unfold contribution. intros H.
  destruct (neighbor st i d) as [j |]; [| discriminate]. cbn in H.
  destruct (mjoin (tiles st !! j)) as [t |]; [| discriminate]. cbn in H.
  destruct (is_zero (entropy t)); [| discriminate].
  destruct (type t) as [ty |]; [| discriminate]. cbn in H.
  destruct (obj_get (rules st) ty) as [rule |] eqn:Hr; [| discriminate].
  cbn in H. injection H as <-. eauto.
Qed.

Lemma neighbours_declared_typed (st : WFC) (i : nat) :
  rectangular st -> hole_free (tiles st) -> typed st -> i < length (tiles st) ->
  neighbours_declared st i.
Proof.
  intros Hr Hh Ht Hi d j Hn.
  destruct (Hh j (neighbor_in_bounds st i j d Hr Hi Hn)) as [tj Htj].
  exists tj. rewrite Htj. split; [reflexivity |]. intros Hz. exact (Ht j tj Htj Hz).
Qed.

Lemma getEntropy_total (st : WFC) (j : nat) :
  rectangular st -> hole_free (tiles st) -> typed st -> compatible (rules st) ->
  j < length (tiles st) ->
  exists e st', _getEntropy j st = (Ok e, st').
Proof.
  intros Hr Hh Ht Hc Hj. destruct (Hh j Hj) as [t Htile].
  rewrite getEntropy_eq, Htile. destruct (is_zero (entropy t)); [eauto |].
  rewrite (gather_declared st j (neighbours_declared_typed st j Hr Hh Ht Hj)).
  rewrite consolidate_eq, filter_nonempty_omap. unfold computeEntropy.
  destruct (List.filter nonempty (omap (contribution st j) directions))
    as [| first rest] eqn:Ef; [cbn; eauto |].
  assert (Hne : intersection (first :: rest) <> []).
  { apply Hc; [discriminate |]. rewrite <- Ef. apply Forall_forall. intros l Hl.
    apply list_elem_of_In, filter_In in Hl as [Hl _].
    apply list_elem_of_In, list_elem_of_omap in Hl as (d & _ & Hd).
    destruct (contribution_Some st j d l Hd) as (a & ra & Ha & ->). eauto. }
  destruct (intersection (first :: rest)) as [| x c]; [contradiction |]. cbn. eauto.
Qed.

Lemma typed_skel (st st' : WFC) : skel st st' -> typed st -> typed st'.
Proof.
  intros K H i t' Hi Hz. rewrite (skel_rules _ _ K).
  destruct (skel_lookup_inv _ _ i t' K Hi) as (t & Hi0 & _ & Hty & Hz0 & _).
  rewrite Hty. apply (H i t Hi0). congruence.
Qed.

Lemma hole_free_skel (st st' : WFC) :
  skel st st' -> hole_free (tiles st) -> hole_free (tiles st').
Proof.
  intros K H i Hi. rewrite (skel_length _ _ K) in Hi. destruct (H i Hi) as [t Ht].
  destruct (skel_lookup _ _ i t K Ht) as (t' & Ht' & _). eauto.
Qed.

Lemma rectangular_skel (st st' : WFC) :
  skel st st' -> height st' = height st -> rectangular st -> rectangular st'.
Proof.
  unfold rectangular. intros K Hh H.
  rewrite (skel_length _ _ K), (skel_width _ _ K), Hh. exact H.
Qed.

(** On a grid without holes whose resolved tiles have declared types, with
    compatible rules, the propagation cannot fail. *)
Lemma propagation_total (i : nat) (st : WFC) :
  rectangular st -> hole_free (tiles st) -> typed st -> compatible (rules st) ->
  i < length (tiles st) ->
  exists st', _setEntropyOfSurroundingTiles i st = (Ok tt, st').
Proof.
  intros Hr Hh Ht Hc Hi.
  destruct (_setEntropyOfSurroundingTiles i st) as [[[] | e] st'] eqn:E; [eauto |].
  exfalso.
  pose proof (propagate_spec _ _ _ _ E) as [[K _] _].
  pose proof (keeps_propagation i st) as F. rewrite E in F. cbn [snd] in F.
  destruct F as (_ & Hheight & _).
  destruct (propagation_failure_aux _ _ _ _ E) as (_ & d & j & e0 & _ & Hn & Hg & _).
  destruct (getEntropy_total st' j) as (e1 & s1 & Hok).
  - exact (rectangular_skel _ _ K Hheight Hr).
  - exact (hole_free_skel _ _ K Hh).
  - exact (typed_skel _ _ K Ht).
  - rewrite (skel_rules _ _ K). exact Hc.
  - rewrite (skel_length _ _ K). exact (neighbor_in_bounds st i j d Hr Hi Hn).
  - congruence.
Qed.

(** ** Compatible rules: what the propagation writes *)

(** The eight statements of a propagation that does not throw. *)
Lemma propagate_trace (i : nat) (st st' : WFC) :
  _setEntropyOfSurroundingTiles i st = (Ok tt, st') ->
  exists ue de le re s1 s2 s3 s4 s5 s6 s7,
    neighborEntropy (neighbor st i Up) Up st = (Ok ue, s1)
    /\ neighborEntropy (neighbor st i Down) Down s1 = (Ok de, s2)
    /\ neighborEntropy (neighbor st i Left) Left s2 = (Ok le, s3)
    /\ neighborEntropy (neighbor st i Right) Right s3 = (Ok re, s4)
    /\ set_left_entropy (neighbor st i Left) le s4 = (Ok tt, s5)
    /\ set_entropy (neighbor st i Right) re s5 = (Ok tt, s6)
    /\ set_entropy (neighbor st i Up) ue s6 = (Ok tt, s7)
    /\ set_entropy (neighbor st i Down) de s7 = (Ok tt, st').
Proof.
  unfold _setEntropyOfSurroundingTiles. cbn [neighbor].
  rewrite bind_eq; cbn [gets]. rewrite bind_eq; cbn [gets]. rewrite bind_eq.
  destruct (neighborEntropy (upTileIndex (width st) i) Up st) as [[ue | e] s1] eqn:E1;
    [| discriminate].
  rewrite bind_eq.
  destruct (neighborEntropy (downTileIndex (width st) (length (tiles st)) i) Down s1)
    as [[de | e] s2] eqn:E2; [| discriminate].
  rewrite bind_eq.
  destruct (neighborEntropy (leftTileIndex (width st) i) Left s2) as [[le | e] s3] eqn:E3;
    [| discriminate].
  rewrite bind_eq.
  destruct (neighborEntropy (rightTileIndex (width st) i) Right s3) as [[re | e] s4] eqn:E4;
    [| discriminate].
  rewrite bind_eq.
  destruct (set_left_entropy (leftTileIndex (width st) i) le s4) as [[[] | e] s5] eqn:U5;
    [| discriminate].
  rewrite bind_eq.
  destruct (set_entropy (rightTileIndex (width st) i) re s5) as [[[] | e] s6] eqn:U6;
    [| discriminate].
  rewrite bind_eq.
  destruct (set_entropy (upTileIndex (width st) i) ue s6) as [[[] | e] s7] eqn:U7;
    [| discriminate].
  intros U8. exists ue, de, le, re, s1, s2, s3, s4, s5, s6, s7. auto 10.
Qed.

Lemma with_candidates_lookup (j k : nat) (c : list string) (st : WFC) :
  tiles (with_candidates j c st) !! k
  = if Nat.eqb j k then fmap (with_availableTiles c) <$> tiles st !! k else tiles st !! k.
Proof.
  unfold with_candidates. cbn [tiles set_tiles].
  destruct (Nat.eqb_spec j k) as [<- | Hne].
  - apply list_lookup_alter_eq.
  - apply list_lookup_alter_ne. assumption.
Qed.

(** A read changes at most the candidates of the tile it visits. *)
Lemma neighborEntropy_touch (n : option nat) (d : Direction) (s s' : WFC)
    (oe : option Entropy) (k : nat) :
  neighborEntropy n d s = (Ok oe, s') ->
  (n <> Some k -> tiles s' !! k = tiles s !! k)
  /\ (forall t, tiles s !! k = Some (Some t) ->
        exists t', tiles s' !! k = Some (Some t') /\ entropy t' = entropy t).
Proof.
  unfold neighborEntropy. destruct n as [j |].
  - unfold try_catch, bind, ret, throw.
    destruct (_getEntropy j s) as [[e | e] s0] eqn:E; intros H; simplify_eq.
    apply getEntropy_cases in E.
    inversion E; subst; try (split; [reflexivity | eauto]).
    rewrite with_candidates_lookup. split.
    + intros Hne. destruct (Nat.eqb_spec j k); congruence.
    + intros t0 Ht0. rewrite Ht0. destruct (Nat.eqb j k); cbn; eauto.
  - unfold ret. intros H. simplify_eq. split; [reflexivity | eauto].
Qed.

Lemma update_entropy_lookup (j k : nat) (e : Entropy) (s s' : WFC) :
  update_tile j (with_entropy e) s = (Ok tt, s') ->
  tiles s' !! k
  = if Nat.eqb j k then fmap (with_entropy e) <$> tiles s !! k else tiles s !! k.
Proof.
  unfold update_tile, bind, tile_at, modify.
  destruct (tiles s !! j) as [[t |] |]; intros H; simplify_eq. cbn [tiles set_tiles].
  destruct (Nat.eqb_spec j k) as [<- | Hne].
  - apply list_lookup_alter_eq.
  - apply list_lookup_alter_ne. assumption.
Qed.

(** A write changes at most the entropy of the tile it visits, and only to
    the value it was given. *)
Lemma set_entropy_touch (n : option nat) (oe : option Entropy) (s s' : WFC) (k : nat) :
  set_entropy n oe s = (Ok tt, s') ->
  (n <> Some k -> tiles s' !! k = tiles s !! k)
  /\ (forall t, tiles s !! k = Some (Some t) ->
        exists t', tiles s' !! k = Some (Some t')
                   /\ (entropy t' = entropy t \/ oe = Some (entropy t')))
  /\ (forall e, n = Some k -> oe = Some e -> truthy e = true ->
        exists t', tiles s' !! k = Some (Some t') /\ entropy t' = e).
Proof.
  unfold set_entropy. destruct n as [j |], oe as [e |];
    try (unfold ret; intros H; simplify_eq;
         split; [reflexivity |]; split; [eauto | intros; discriminate]).
  destruct (truthy e) eqn:He.
  - intros H. pose proof (update_entropy_lookup j k e s s' H) as L.
    assert (Hj : exists tj, tiles s !! j = Some (Some tj)).
    { unfold update_tile, bind, tile_at in H.
      destruct (tiles s !! j) as [[tj |] |]; try discriminate. eauto. }
    split; [intros Hne; rewrite L; destruct (Nat.eqb_spec j k); congruence |].
    split.
    + intros t Ht. rewrite L, Ht. destruct (Nat.eqb j k); cbn; eauto.
    + intros e0 Hn Ho _. simplify_eq. destruct Hj as [tj Htj].
      rewrite L, Nat.eqb_refl, Htj. cbn. eauto.
  - unfold ret. intros H. simplify_eq.
    split; [reflexivity |]. split; [eauto | intros; congruence].
Qed.

Lemma set_left_entropy_touch (n : option nat) (oe : option Entropy) (s s' : WFC) (k : nat) :
  set_left_entropy n oe s = (Ok tt, s') ->
  (n <> Some k -> tiles s' !! k = tiles s !! k)
  /\ (forall t, tiles s !! k = Some (Some t) ->
        exists t', tiles s' !! k = Some (Some t')
                   /\ (entropy t' = entropy t \/ oe = Some (entropy t')))
  /\ (forall e, n = Some k -> oe = Some e -> truthy e = true -> unresolved_at s k ->
        exists t', tiles s' !! k = Some (Some t') /\ entropy t' = e).
Proof.
  unfold set_left_entropy. destruct n as [j |], oe as [e |];
    try (unfold ret; intros H; simplify_eq;
         split; [reflexivity |]; split; [eauto | intros; discriminate]).
  destruct (truthy e) eqn:He.
  - rewrite bind_eq. unfold tile_at.
    destruct (tiles s !! j) as [[tj |] |] eqn:Htj; try discriminate.
    destruct (is_zero (entropy tj)) eqn:Hz.
    + unfold ret. intros H. simplify_eq.
      split; [reflexivity |]. split; [eauto |].
      intros e0 Hn Ho _ (t & Ht & Hzt). simplify_eq. congruence.
    + intros H. pose proof (update_entropy_lookup j k e s s' H) as L.
      split; [intros Hne; rewrite L; destruct (Nat.eqb_spec j k); congruence |].
      split.
      * intros t Ht. rewrite L, Ht. destruct (Nat.eqb j k); cbn; eauto.
      * intros e0 Hn Ho _ _. simplify_eq. rewrite L, Nat.eqb_refl, Htj. cbn. eauto.
  - unfold ret. intros H. simplify_eq.
    split; [reflexivity |]. split; [eauto | intros; congruence].
Qed.

(** The propagation from a cell leaves alone what is not its neighbour. *)
Lemma propagate_untouched (i : nat) (st st' : WFC) (k : nat) :
  _setEntropyOfSurroundingTiles i st = (Ok tt, st') ->
  (forall d, neighbor st i d <> Some k) ->
  tiles st' !! k = tiles st !! k.
Proof.
  intros H Hk.
  destruct (propagate_trace _ _ _ H)
    as (ue & de & le & re & s1 & s2 & s3 & s4 & s5 & s6 & s7
        & E1 & E2 & E3 & E4 & U5 & U6 & U7 & U8).
  rewrite (proj1 (set_entropy_touch _ _ _ _ k U8) (Hk Down)).
  rewrite (proj1 (set_entropy_touch _ _ _ _ k U7) (Hk Up)).
  rewrite (proj1 (set_entropy_touch _ _ _ _ k U6) (Hk Right)).
  rewrite (proj1 (set_left_entropy_touch _ _ _ _ k U5) (Hk Left)).
  rewrite (proj1 (neighborEntropy_touch _ _ _ _ _ k E4) (Hk Right)).
  rewrite (proj1 (neighborEntropy_touch _ _ _ _ _ k E3) (Hk Left)).
  rewrite (proj1 (neighborEntropy_touch _ _ _ _ _ k E2) (Hk Down)).
  exact (proj1 (neighborEntropy_touch _ _ _ _ _ k E1) (Hk Up)).
Qed.

(** The entropy of a tile with a resolved neighbour is not [Infinity]. *)
Lemma getEntropy_finite (j : nat) (s s' : WFC) (e : Entropy) :
  lists_nonempty (rules s) -> has_resolved_neighbour s j ->
  _getEntropy j s = (Ok e, s') -> e <> Infinity.
Proof.
  intros Hne (d & n & tn & Hn & Htn & Hz) H. apply getEntropy_cases in H.
  inversion H; subst; try discriminate.
  match goal with
  | Hg : gather ?x j = Ok ?ls, Hf : List.filter nonempty ?ls = [] |- _ =>
      destruct (resolved_neighbour_counts x j n d tn ls Hne Hg Hn Htn Hz)
        as (a & ra & _ & _ & Hin);
      rewrite Hf in Hin; destruct Hin
  end.
Qed.

(** An unresolved tile whose entropy is not [Infinity] has a resolved
    neighbour. *)
Lemma getEntropy_finite_inv (j : nat) (s s' : WFC) (e : Entropy) :
  unresolved_at s j -> _getEntropy j s = (Ok e, s') -> e <> Infinity ->
  has_resolved_neighbour s j.
Proof.
  intros (t0 & Ht0 & Hz0) H He. apply getEntropy_cases in H.
  inversion H; subst; try congruence.
  match goal with
  | Hg : gather ?x j = Ok ?ls, Hf : List.filter nonempty ?ls <> [] |- _ =>
      destruct (List.filter nonempty ls) as [| first rest] eqn:Ef; [congruence |];
      assert (Hin : In first (List.filter nonempty ls)) by (rewrite Ef; left; reflexivity);
      apply filter_In in Hin as [Hin Hfirst]; apply nonempty_true in Hfirst;
      destruct (gather_Ok_inv x j ls first Hg Hin) as [d Hd];
      destruct (dir_list_nonempty x j d first Hd Hfirst)
        as (n & tn & a & ra & Hn1 & Hn2 & Hn3 & _);
      exists d, n, tn; auto
  end.
Qed.

Lemma has_resolved_neighbour_skel (st st' : WFC) (k : nat) :
  skel st st' -> (has_resolved_neighbour st' k <-> has_resolved_neighbour st k).
Proof.
  intros K. split; intros (d & n & tn & Hn & Htn & Hz).
  - rewrite (neighbor_skel _ _ k d K) in Hn.
    destruct (skel_lookup_inv _ _ n tn K Htn) as (t0 & H0 & _ & _ & E & _).
    exists d, n, t0. split; [exact Hn |]. split; [exact H0 | congruence].
  - exists d, n, tn. rewrite (neighbor_skel _ _ k d K).
    split; [exact Hn |]. split; [exact (skel_resolved _ _ n tn K Htn Hz) | exact Hz].
Qed.

(** The value read for a neighbour of a resolved cell is not [Infinity]. *)
Lemma read_finite (st s s' : WFC) (i : nat) (ti : TileData) (d : Direction)
    (oe : option Entropy) :
  skel st s -> 0 < width st -> lists_nonempty (rules st) ->
  tiles st !! i = Some (Some ti) -> is_zero (entropy ti) = true ->
  neighborEntropy (neighbor st i d) d s = (Ok oe, s') ->
  (forall e, oe = Some e -> e <> Infinity)
  /\ (forall j, neighbor st i d = Some j -> unresolved_at st j ->
        exists e, oe = Some e /\ truthy e = true).
Proof.
  intros K Hw Hne Hi Hz H.
  pose proof (neighborEntropy_spec _ _ _ _ _ H) as [_ Hspec].
  specialize (Hspec oe eq_refl).
  destruct (neighbor st i d) as [j |] eqn:Hn.
  - destruct oe as [e |]; [| contradiction].
    assert (Hrn : has_resolved_neighbour s j).
    { exists (opposite d), i, ti. rewrite (neighbor_skel _ _ j (opposite d) K).
      split; [| split; [exact (skel_resolved _ _ i ti K Hi Hz) | exact Hz]].
      apply neighbor_sym; [exact Hw | eapply lookup_lt_Some; exact Hi | exact Hn]. }
    split.
    + intros e0 He0. injection He0 as <-.
      apply (getEntropy_finite j s s' e); [rewrite (skel_rules _ _ K) | |]; assumption.
    + intros j0 Hj0 Hu. injection Hj0 as <-. exists e. split; [reflexivity |].
      exact (proj1 (getEntropy_unresolved j s s' e (skel_unresolved _ _ j K Hu) Hspec)).
  - destruct oe; [contradiction |]. split; [discriminate | discriminate].
Qed.

Lemma set_entropy_keeps_finite (n : option nat) (oe : option Entropy) (s s' : WFC) (k : nat) :
  set_entropy n oe s = (Ok tt, s') -> (forall e, oe = Some e -> e <> Infinity) ->
  finite_at s k -> finite_at s' k.
Proof.
  intros H Hoe (t & Ht & Hf).
  destruct (proj1 (proj2 (set_entropy_touch _ _ _ _ k H)) t Ht) as (t' & Ht' & [E | E]).
  - exists t'. split; [exact Ht' | congruence].
  - exists t'. split; [exact Ht' | exact (Hoe _ E)].
Qed.

Lemma set_entropy_makes_finite (oe : option Entropy) (s s' : WFC) (k : nat) (e : Entropy) :
  set_entropy (Some k) oe s = (Ok tt, s') -> oe = Some e -> truthy e = true ->
  e <> Infinity -> finite_at s' k.
Proof.
  intros H Hoe Ht He.
  destruct (proj2 (proj2 (set_entropy_touch _ _ _ _ k H)) e eq_refl Hoe Ht) as (t' & Ht' & E).
  exists t'. split; [exact Ht' | congruence].
Qed.

Lemma set_left_entropy_makes_finite (oe : option Entropy) (s s' : WFC) (k : nat)
    (e : Entropy) :
  set_left_entropy (Some k) oe s = (Ok tt, s') -> oe = Some e -> truthy e = true ->
  e <> Infinity -> unresolved_at s k -> finite_at s' k.
Proof.
  intros H Hoe Ht He Hu.
  destruct (proj2 (proj2 (set_left_entropy_touch _ _ _ _ k H)) e eq_refl Hoe Ht Hu)
    as (t' & Ht' & E).
  exists t'. split; [exact Ht' | congruence].
Qed.

(** After the propagation from a resolved cell, every unresolved neighbour
    of the cell has a finite entropy. *)
Lemma propagate_finite (i : nat) (st st' : WFC) (ti : TileData) (d0 : Direction) (k : nat) :
  0 < width st -> lists_nonempty (rules st) ->
  tiles st !! i = Some (Some ti) -> is_zero (entropy ti) = true ->
  _setEntropyOfSurroundingTiles i st = (Ok tt, st') ->
  neighbor st i d0 = Some k -> unresolved_at st k -> finite_at st' k.
Proof.
  intros Hw Hne Hi Hz H Hn Hu.
  destruct (propagate_trace _ _ _ H)
    as (ue & de & le & re & s1 & s2 & s3 & s4 & s5 & s6 & s7
        & E1 & E2 & E3 & E4 & U5 & U6 & U7 & U8).
  pose proof (proj1 (proj1 (neighborEntropy_spec _ _ _ _ _ E1))) as K1.
  pose proof (proj1 (proj1 (neighborEntropy_spec _ _ _ _ _ E2))) as K2.
  pose proof (proj1 (proj1 (neighborEntropy_spec _ _ _ _ _ E3))) as K3.
  pose proof (proj1 (proj1 (neighborEntropy_spec _ _ _ _ _ E4))) as K4.
  assert (K02 : skel st s2) by (eapply skel_trans; eassumption).
  assert (K03 : skel st s3) by (eapply skel_trans; eassumption).
  assert (K04 : skel st s4) by (eapply skel_trans; eassumption).
  destruct (read_finite st st s1 i ti Up ue (skel_refl st) Hw Hne Hi Hz E1) as [FU TU].
  destruct (read_finite st s1 s2 i ti Down de K1 Hw Hne Hi Hz E2) as [FD TD].
  destruct (read_finite st s2 s3 i ti Left le K02 Hw Hne Hi Hz E3) as [FL TL].
  destruct (read_finite st s3 s4 i ti Right re K03 Hw Hne Hi Hz E4) as [FR TR].
  destruct d0.
  - destruct (TU k Hn Hu) as (e & -> & Ht). rewrite Hn in U7.
    apply (set_entropy_keeps_finite _ _ _ _ k U8 FD).
    exact (set_entropy_makes_finite _ _ _ k e U7 eq_refl Ht (FU e eq_refl)).
  - destruct (TD k Hn Hu) as (e & -> & Ht). rewrite Hn in U8.
    exact (set_entropy_makes_finite _ _ _ k e U8 eq_refl Ht (FD e eq_refl)).
  - destruct (TL k Hn Hu) as (e & -> & Ht). rewrite Hn in U5.
    apply (set_entropy_keeps_finite _ _ _ _ k U8 FD).
    apply (set_entropy_keeps_finite _ _ _ _ k U7 FU).
    apply (set_entropy_keeps_finite _ _ _ _ k U6 FR).
    exact (set_left_entropy_makes_finite _ _ _ k e U5 eq_refl Ht (FL e eq_refl)
             (skel_unresolved _ _ k K04 Hu)).
  - destruct (TR k Hn Hu) as (e & -> & Ht). rewrite Hn in U6.
    apply (set_entropy_keeps_finite _ _ _ _ k U8 FD).
    apply (set_entropy_keeps_finite _ _ _ _ k U7 FU).
    exact (set_entropy_makes_finite _ _ _ k e U6 eq_refl Ht (FR e eq_refl)).
Qed.

(** A step keeps the entropies current. *)
Lemma step_entropies (st st' : WFC) (cur : nat) (t : TileData) (ty : option string) :
  0 < width st -> lists_nonempty (rules st) -> indexed st -> entropies_current st ->
  tiles st !! cur = Some (Some t) -> is_zero (entropy t) = false ->
  _setEntropyOfSurroundingTiles (index t) (resolve cur ty st) = (Ok tt, st') ->
  entropies_current st'.
Proof.
  intros Hw Hne Hidx HN Ht Hz Hp. rewrite (Hidx cur t Ht) in Hp.
  pose proof (propagate_spec _ _ _ _ Hp) as [[K _] _].
  pose proof (resolve_lookup_eq cur ty st t Ht) as Hcur.
  assert (Hcur' : tiles st' !! cur
                  = Some (Some (mkTile (index t) ty (Fin 0) (availableTiles t)))).
  { apply (skel_resolved _ _ cur _ K Hcur). reflexivity. }
  assert (Hlen : cur < length (tiles st)) by (eapply lookup_lt_Some; exact Ht).
  intros k t' Hk Hzk.
  assert (Hne_k : k <> cur).
  { intros ->. rewrite Hcur' in Hk. injection Hk as <-. discriminate Hzk. }
  destruct (skel_lookup_inv _ _ k t' K Hk) as (t0 & Hk0 & _ & _ & Hz0 & _).
  rewrite resolve_lookup_ne in Hk0 by congruence.
  assert (Hu : unresolved_at st k) by (exists t0; split; [exact Hk0 | congruence]).
  assert (Hdec : (exists d, neighbor st cur d = Some k) \/ forall d, neighbor st cur d <> Some k).
  { destruct (decide (neighbor st cur Up = Some k)); [left; eauto |].
    destruct (decide (neighbor st cur Down = Some k)); [left; eauto |].
    destruct (decide (neighbor st cur Left = Some k)); [left; eauto |].
    destruct (decide (neighbor st cur Right = Some k)); [left; eauto |].
    right. intros []; assumption. }
  destruct Hdec as [[d Hd] | Hnone].
  - split; intros _.
    + exists (opposite d), cur, (mkTile (index t) ty (Fin 0) (availableTiles t)).
      rewrite (neighbor_skel _ _ k (opposite d) K), resolve_neighbor.
      split; [exact (neighbor_sym st cur k d Hw Hlen Hd) |]. split; [exact Hcur' | reflexivity].
    + destruct (propagate_finite cur (resolve cur ty st) st' _ d k Hw Hne Hcur eq_refl Hp)
        as (t1 & Hk1 & Hfin).
      * rewrite resolve_neighbor. exact Hd.
      * exists t0. split; [rewrite resolve_lookup_ne by congruence; exact Hk0 | congruence].
      * congruence.
  - assert (Hsame : tiles st' !! k = tiles st !! k).
    { rewrite (propagate_untouched cur (resolve cur ty st) st' k Hp).
      - apply resolve_lookup_ne. congruence.
      - intros d. rewrite resolve_neighbor. apply Hnone. }
    rewrite Hsame in Hk. rewrite (HN k t' Hk Hzk).
    rewrite (has_resolved_neighbour_skel _ _ k K).
    split; intros (d & n & tn & Hn & Htn & Hzn).
    + exists d, n, tn. rewrite resolve_neighbor. split; [exact Hn |].
      split; [| exact Hzn]. rewrite resolve_lookup_ne; [exact Htn |].
      intros ->. congruence.
    + rewrite resolve_neighbor in Hn. exists d, n, tn. split; [exact Hn |].
      split; [| exact Hzn]. rewrite resolve_lookup_ne in Htn; [exact Htn |].
      intros ->. apply (Hnone (opposite d)).
      rewrite <- (opposite_involutive d) in Hn.
      assert (Hk_len : k < length (tiles st)) by (eapply lookup_lt_Some; exact Hk0).
      pose proof (neighbor_sym st k cur d Hw Hk_len) as Hs.
      rewrite opposite_involutive in Hn. exact (Hs Hn).
Qed.

(** *** The generator is only advanced by the draws *)

Lemma rnd_ret {A} (a : A) : keeps_rnd (ret a).
Proof. intros st. reflexivity. Qed.

Lemma rnd_throw {A} (e : Error) : keeps_rnd (throw (A := A) e).
Proof. intros st. reflexivity. Qed.

Lemma rnd_gets {A} (f : WFC -> A) : keeps_rnd (gets f).
Proof. intros st. reflexivity. Qed.

Lemma rnd_tile_at (i : nat) : keeps_rnd (tile_at i).
Proof. intros st. unfold tile_at. repeat case_match; reflexivity. Qed.

Lemma rnd_bind {A B} (m : M A) (k : A -> M B) :
  keeps_rnd m -> (forall a, keeps_rnd (k a)) -> keeps_rnd (bind m k).
Proof.
  intros Hm Hk st. unfold bind. specialize (Hm st).
  destruct (m st) as [[a | e] st1]; cbn [snd] in *; [| exact Hm].
  rewrite (Hk a st1). exact Hm.
Qed.

Lemma rnd_try_catch {A} (m : M A) (handler : Error -> M A) :
  keeps_rnd m -> (forall e, keeps_rnd (handler e)) -> keeps_rnd (try_catch m handler).
Proof.
  intros Hm Hh st. unfold try_catch. specialize (Hm st).
  destruct (m st) as [[a | e] st1]; cbn [snd] in *; [exact Hm |].
  rewrite (Hh e st1). exact Hm.
Qed.

Lemma rnd_update_tile (i : nat) (f : TileData -> TileData) : keeps_rnd (update_tile i f).
Proof.
  unfold update_tile. apply rnd_bind; [apply rnd_tile_at |].
  intros _ st. reflexivity.
Qed.

Ltac rnd_step :=
  lazymatch goal with
  | |- keeps_rnd (ret _) => apply rnd_ret
  | |- keeps_rnd (throw _) => apply rnd_throw
  | |- keeps_rnd (gets _) => apply rnd_gets
  | |- keeps_rnd (tile_at _) => apply rnd_tile_at
  | |- keeps_rnd (update_tile _ _) => apply rnd_update_tile
  | |- keeps_rnd (bind _ _) => apply rnd_bind; [| intros ?]
  | |- keeps_rnd (try_catch _ _) => apply rnd_try_catch; [| intros ?]
  | |- keeps_rnd (match ?x with _ => _ end) => destruct x
  | |- keeps_rnd (if ?b then _ else _) => destruct b
  | |- keeps_rnd (let _ := _ in _) => cbv zeta
  end.

Lemma rnd_neighborAvailableTiles (n : option nat) (sd : Rule -> list string) :
  keeps_rnd (neighborAvailableTiles n sd).
Proof. unfold neighborAvailableTiles. repeat rnd_step. Qed.

Lemma rnd_getEntropy (i : nat) : keeps_rnd (_getEntropy i).
Proof. unfold _getEntropy. repeat first [apply rnd_neighborAvailableTiles | rnd_step]. Qed.

Lemma rnd_neighborEntropy (n : option nat) (d : Direction) : keeps_rnd (neighborEntropy n d).
Proof. unfold neighborEntropy. repeat first [apply rnd_getEntropy | rnd_step]. Qed.

Lemma rnd_set_entropy (n : option nat) (e : option Entropy) : keeps_rnd (set_entropy n e).
Proof. unfold set_entropy. repeat rnd_step. Qed.

Lemma rnd_set_left_entropy (n : option nat) (e : option Entropy) :
  keeps_rnd (set_left_entropy n e).
Proof. unfold set_left_entropy. repeat rnd_step. Qed.

Lemma rnd_propagation (i : nat) : keeps_rnd (_setEntropyOfSurroundingTiles i).
Proof.
  unfold _setEntropyOfSurroundingTiles.
  repeat first [apply rnd_neighborEntropy | apply rnd_set_entropy
               | apply rnd_set_left_entropy | rnd_step].
Qed.

Lemma rnd_prepare_loop (positions : list nat) : keeps_rnd (prepare_loop positions).
Proof.
  induction positions as [| i rest IH]; cbn [prepare_loop].
  - apply rnd_ret.
  - repeat first [exact IH | apply rnd_getEntropy | rnd_step].
Qed.

(** *** The preparation *)

Lemma getEntropy_touch (j k : nat) (s s' : WFC) (r : Result Entropy) :
  _getEntropy j s = (r, s') -> j <> k -> tiles s' !! k = tiles s !! k.
Proof.
  intros H Hne. apply getEntropy_cases in H. inversion H; subst; try reflexivity.
  rewrite with_candidates_lookup. destruct (Nat.eqb_spec j k); congruence.
Qed.

Lemma getEntropy_entropy (j : nat) (s s' : WFC) (r : Result Entropy) (t : TileData) :
  _getEntropy j s = (r, s') -> tiles s !! j = Some (Some t) ->
  exists t', tiles s' !! j = Some (Some t') /\ entropy t' = entropy t.
Proof.
  intros H Ht. apply getEntropy_cases in H. inversion H; subst; eauto.
  rewrite with_candidates_lookup, Nat.eqb_refl, Ht. cbn. eauto.
Qed.

(** The preparation visits only the positions it is given. *)
Lemma prepare_loop_untouched (positions : list nat) (s s' : WFC) (k : nat) :
  prepare_loop positions s = (Ok tt, s') -> ~ In k positions ->
  tiles s' !! k = tiles s !! k.
Proof.
  revert s. induction positions as [| i rest IH]; intros s; cbn [prepare_loop].
  { unfold ret. intros H _. simplify_eq. reflexivity. }
  rewrite bind_eq. cbn [gets]. intros H Hk.
  assert (Hik : i <> k) by (intros ->; apply Hk; left; reflexivity).
  assert (Hrest : ~ In k rest) by (intros Hin; apply Hk; right; exact Hin).
  destruct (tiles s !! i) as [[tile |] |] eqn:Hi; [| exact (IH s H Hrest) ..].
  destruct (is_zero (entropy tile)); [exact (IH s H Hrest) |].
  rewrite bind_eq in H. unfold try_catch in H.
  destruct (_getEntropy i s) as [[e | err] sa] eqn:Ege; [| unfold throw in H; discriminate].
  rewrite bind_eq in H.
  destruct (update_tile i (with_entropy e) sa) as [[[] | err] sb] eqn:Eup; [| discriminate].
  rewrite (IH sb H Hrest), (update_entropy_lookup i k e sa sb Eup).
  destruct (Nat.eqb_spec i k); [contradiction |].
  exact (getEntropy_touch i k s sa _ Ege Hik).
Qed.

(** After the preparation, a visited unresolved tile has a finite entropy
    exactly when one of its neighbours is resolved. *)
Lemma prepare_loop_entropies (positions : list nat) (s s' : WFC) :
  lists_nonempty (rules s) -> NoDup positions ->
  prepare_loop positions s = (Ok tt, s') ->
  forall k t', In k positions -> tiles s' !! k = Some (Some t') ->
    is_zero (entropy t') = false ->
    (entropy t' <> Infinity <-> has_resolved_neighbour s' k).
Proof.
  revert s. induction positions as [| i rest IH]; intros s Hne Hnd H k t' Hin Hk Hz;
    [destruct Hin |].
  pose proof (prepare_loop_spec _ _ _ H) as [[K _] _].
  apply NoDup_cons in Hnd as [Hi_rest Hnd].
  cbn [prepare_loop] in H. rewrite bind_eq in H. cbn [gets] in H.
  assert (Hskip : prepare_loop rest s = (Ok tt, s') -> ~ unresolved_at s i ->
                  entropy t' <> Infinity <-> has_resolved_neighbour s' k).
  { intros H0 Hnot. destruct Hin as [-> | Hin]; [| exact (IH s Hne Hnd H0 k t' Hin Hk Hz)].
    exfalso. apply Hnot. exists t'. split; [| exact Hz].
    rewrite <- (prepare_loop_untouched rest s s' k H0); [exact Hk |].
    intros Hin. apply Hi_rest, list_elem_of_In, Hin. }
  destruct (tiles s !! i) as [[tile |] |] eqn:Hi.
  2,3: apply Hskip; [exact H | intros (t & Ht & _); congruence].
  destruct (is_zero (entropy tile)) eqn:Hzi.
  { apply Hskip; [exact H | intros (t & Ht & Hzt); congruence]. }
  clear Hskip. rewrite bind_eq in H. unfold try_catch in H.
  destruct (_getEntropy i s) as [[e | err] sa] eqn:Ege; [| unfold throw in H; discriminate].
  assert (Hu : unresolved_at s i) by (exists tile; split; assumption).
  pose proof (getEntropy_evolves i s sa _ Ege) as [Ksa _].
  rewrite bind_eq in H.
  destruct (update_tile i (with_entropy e) sa) as [[[] | err] sb] eqn:Eup; [| discriminate].
  assert (Ksb : skel sa sb).
  { destruct (getEntropy_unresolved i s sa e Hu Ege) as (Htruthy & _).
    destruct (with_entropy_evolves i e sa (skel_unresolved _ _ i Ksa Hu) Htruthy)
      as (sb' & Eup' & [Esb _]).
    rewrite Eup in Eup'. injection Eup' as <-. exact Esb. }
  destruct Hin as [-> | Hin].
  - rewrite (has_resolved_neighbour_skel _ _ k K).
    assert (Hkb : tiles s' !! k = tiles sb !! k).
    { apply (prepare_loop_untouched rest sb s' k H).
      intros Hin. apply Hi_rest, list_elem_of_In, Hin. }
    rewrite Hkb, (update_entropy_lookup k k e sa sb Eup), Nat.eqb_refl in Hk.
    destruct (getEntropy_entropy k s sa _ tile Ege Hi) as (ta & Hta & _).
    rewrite Hta in Hk. cbn in Hk. injection Hk as <-. cbn [entropy with_entropy].
    split.
    + exact (getEntropy_finite_inv k s sa e Hu Ege).
    + intros Hrn. exact (getEntropy_finite k s sa e Hne Hrn Ege).
  - apply (IH sb); try assumption.
    rewrite (skel_rules _ _ Ksb), (skel_rules _ _ Ksa). exact Hne.
Qed.

(** On a full grid whose resolved tiles have declared types, with
    compatible rules, the preparation cannot fail. *)
Lemma prepare_loop_total (positions : list nat) (s : WFC) :
  rectangular s -> hole_free (tiles s) -> typed s -> compatible (rules s) ->
  (forall k, In k positions -> k < length (tiles s)) ->
  exists s', prepare_loop positions s = (Ok tt, s').
Proof.
  revert s. induction positions as [| i rest IH]; intros s Hr Hh Ht Hc Hpos;
    cbn [prepare_loop]; [unfold ret; eauto |].
  rewrite bind_eq. cbn [gets].
  assert (Hrest : forall k, In k rest -> k < length (tiles s))
    by (intros k Hk; apply Hpos; right; exact Hk).
  destruct (Hh i (Hpos i (or_introl eq_refl))) as [tile Hi]. rewrite Hi.
  destruct (is_zero (entropy tile)) eqn:Hz; [exact (IH s Hr Hh Ht Hc Hrest) |].
  rewrite bind_eq. unfold try_catch.
  destruct (getEntropy_total s i Hr Hh Ht Hc (Hpos i (or_introl eq_refl))) as (e & sa & Ege).
  rewrite Ege.
  assert (Hu : unresolved_at s i) by (exists tile; split; assumption).
  pose proof (getEntropy_evolves i s sa _ Ege) as [Ksa _].
  destruct (getEntropy_unresolved i s sa e Hu Ege) as (Htruthy & _).
  destruct (with_entropy_evolves i e sa (skel_unresolved _ _ i Ksa Hu) Htruthy)
    as (sb & Eup & [Ksb _]).
  rewrite bind_eq, Eup.
  assert (K : skel s sb) by (eapply skel_trans; eassumption).
  assert (Hheight : height sb = height s).
  { pose proof (keeps_getEntropy i s) as F1. rewrite Ege in F1.
    pose proof (keeps_update_tile i (with_entropy e) ltac:(intros []; reflexivity) sa) as F2.
    rewrite Eup in F2. cbn [snd] in F1, F2.
    destruct F1 as (_ & E1 & _). destruct F2 as (_ & E2 & _). congruence. }
  apply IH.
  - exact (rectangular_skel _ _ K Hheight Hr).
  - exact (hole_free_skel _ _ K Hh).
  - exact (typed_skel _ _ K Ht).
  - rewrite (skel_rules _ _ K). exact Hc.
  - intros k Hk. rewrite (skel_length _ _ K). exact (Hrest k Hk).
Qed.

(** *** A resolved and an unresolved tile are joined by an edge *)

Lemma status_path (st : WFC) (k : nat) :
  0 < width st -> k < length (tiles st) ->
  status (tiles st !! k) = status (tiles st !! 0)
  \/ exists k' d n, k' < length (tiles st) /\ neighbor st k' d = Some n
                    /\ status (tiles st !! k') <> status (tiles st !! n).
Proof.
  intros Hw. induction k as [k IH] using lt_wf_ind. intros Hk.
  destruct (Nat.eq_dec k 0) as [-> | Hk0]; [left; reflexivity |].
  assert (Hn : exists d n, neighbor st k d = Some n /\ n < k).
  { destruct (Nat.ltb_spec k (width st)) as [Hlt | Hge].
    - exists Left, (k - 1). split; [| lia]. cbn [neighbor]. unfold leftTileIndex.
      destruct (Nat.eqb_spec (width st) 0) as [E | _]; [lia |].
      rewrite (Nat.mod_small k (width st) Hlt).
      destruct (Nat.eqb_spec k 0); [contradiction | reflexivity].
    - exists Up, (k - width st). split; [| lia]. cbn [neighbor]. unfold upTileIndex.
      destruct (Nat.ltb_spec k (width st)); [lia | reflexivity]. }
  destruct Hn as (d & n & Hn & Hlt).
  destruct (IH n Hlt ltac:(lia)) as [E | Hflip]; [| right; exact Hflip].
  destruct (decide (status (tiles st !! k) = status (tiles st !! n))) as [E' | E'].
  - left. congruence.
  - right. exists k, d, n. auto.
Qed.

Lemma frontier (st : WFC) :
  rectangular st -> hole_free (tiles st) -> 0 < width st ->
  (exists i t, tiles st !! i = Some (Some t) /\ is_zero (entropy t) = true) ->
  (exists j, unresolved_at st j) ->
  exists k t, tiles st !! k = Some (Some t) /\ is_zero (entropy t) = false
              /\ has_resolved_neighbour st k.
Proof.
  intros Hr Hh Hw (i & ti & Hi & Hzi) (j & tj & Hj & Hzj).
  assert (Hflip : exists k' d n, k' < length (tiles st) /\ neighbor st k' d = Some n
                    /\ status (tiles st !! k') <> status (tiles st !! n)).
  { destruct (status_path st i Hw ltac:(eapply lookup_lt_Some; exact Hi)) as [Ei | F];
      [| exact F].
    destruct (status_path st j Hw ltac:(eapply lookup_lt_Some; exact Hj)) as [Ej | F];
      [| exact F].
    exfalso. rewrite Hi in Ei. rewrite Hj in Ej. cbn [status] in Ei, Ej.
    rewrite Hzi in Ei. rewrite Hzj in Ej. cbn in Ei, Ej. congruence. }
  destruct Hflip as (k & d & n & Hk & Hn & Hdiff).
  pose proof (neighbor_in_bounds st k n d Hr Hk Hn) as Hnb.
  destruct (Hh k Hk) as [tk Htk]. destruct (Hh n Hnb) as [tn Htn].
  rewrite Htk, Htn in Hdiff. cbn [status] in Hdiff.
  destruct (is_zero (entropy tk)) eqn:Hzk, (is_zero (entropy tn)) eqn:Hzn;
    cbn in Hdiff; try congruence.
  - exists n, tn. split; [exact Htn |]. split; [exact Hzn |].
    exists (opposite d), k, tk. split; [| auto].
    exact (neighbor_sym st k n d Hw Hk Hn).
  - exists k, tk. split; [exact Htk |]. split; [exact Hzk |].
    exists d, n, tn. auto.
Qed.

(** *** A step on a live grid *)

Lemma compatible_nonempty (rs : Obj Rule) : compatible rs -> lists_nonempty rs.
Proof.
  intros Hc a ra d Ha E.
  apply (Hc [side d ra]); [discriminate | | rewrite E; reflexivity].
  apply Forall_cons. split; [eauto | apply Forall_nil_2].
Qed.

Lemma some_undefined_type_false (st : WFC) :
  some_undefined_type st = false
  <-> forall k t, tiles st !! k = Some (Some t) -> type t <> None.
Proof.
  unfold some_undefined_type. split.
  - intros H k t Hk Hty.
    assert (Hex : existsb
              (fun e : nat * TileData => match type (snd e) with None => true | Some _ => false end)
              (entries (tiles st)) = true).
    { apply existsb_exists. exists (k, t). split.
      - apply list_elem_of_In, elem_of_entries, Hk.
      - cbn. rewrite Hty. reflexivity. }
    congruence.
  - intros H. apply not_true_is_false. intros Hex.
    apply existsb_exists in Hex as ([k t] & Hin & Hty). cbn in Hty.
    apply list_elem_of_In, elem_of_entries in Hin.
    specialize (H k t Hin). destruct (type t); [discriminate | congruence].
Qed.

Lemma types_skel (st st' : WFC) :
  skel st st' -> some_undefined_type st = false -> some_undefined_type st' = false.
Proof.
  rewrite !some_undefined_type_false. intros K H k t' Hk.
  destruct (skel_lookup_inv _ _ k t' K Hk) as (t & Ht & _ & -> & _).
  exact (H k t Ht).
Qed.

Lemma types_resolve (st : WFC) (cur : nat) (x : string) :
  some_undefined_type st = false -> some_undefined_type (resolve cur (Some x) st) = false.
Proof.
  rewrite !some_undefined_type_false. intros H k t' Hk.
  destruct (decide (k = cur)) as [-> | Hne].
  - destruct (tiles st !! cur) as [[t |] |] eqn:Ht.
    + rewrite (resolve_lookup_eq cur (Some x) st t Ht) in Hk. injection Hk as <-. discriminate.
    + unfold resolve in Hk. cbn [tiles set_tiles] in Hk.
      rewrite !list_lookup_alter_eq, Ht in Hk. discriminate.
    + unfold resolve in Hk. cbn [tiles set_tiles] in Hk.
      rewrite !list_lookup_alter_eq, Ht in Hk. discriminate.
  - rewrite resolve_lookup_ne in Hk by exact Hne. exact (H k t' Hk).
Qed.

Lemma hole_free_resolve (st : WFC) (cur : nat) (ty : option string) :
  hole_free (tiles st) -> hole_free (tiles (resolve cur ty st)).
Proof.
  intros H i Hi. rewrite resolve_length in Hi. destruct (H i Hi) as [t Ht].
  destruct (decide (i = cur)) as [-> | Hne].
  - rewrite (resolve_lookup_eq cur ty st t Ht). eauto.
  - rewrite resolve_lookup_ne by exact Hne. eauto.
Qed.

Lemma rectangular_resolve (st : WFC) (cur : nat) (ty : option string) :
  rectangular st -> rectangular (resolve cur ty st).
Proof. unfold rectangular. rewrite resolve_length. intros H. exact H. Qed.

(** With compatible rules, an unresolved tile next to a resolved one has
    candidates. *)
Lemma current_candidates (st : WFC) (k : nat) (t : TileData) :
  compatible (rules st) -> candidates_ok st ->
  tiles st !! k = Some (Some t) -> is_zero (entropy t) = false ->
  has_resolved_neighbour st k -> availableTiles t <> [].
Proof.
  intros Hc Hcand Hk Hz (d & n & tn & Hn & Htn & Hzn).
  destruct (Hcand k) as (t0 & lists & Hk0 & Hg & Hav); [exists t; split; assumption |].
  rewrite Hk in Hk0. injection Hk0 as <-. rewrite Hav.
  destruct (resolved_neighbour_counts st k n d tn lists (compatible_nonempty _ Hc) Hg Hn Htn Hzn)
    as (a & ra & _ & _ & Hin).
  apply Hc.
  - intros E. rewrite E in Hin. destruct Hin.
  - apply Forall_forall. intros l Hl.
    apply list_elem_of_In, filter_In in Hl as [Hl Hne]. apply nonempty_true in Hne.
    destruct (gather_Ok_inv st k lists l Hg Hl) as [d' Hd'].
    destruct (dir_list_nonempty st k d' l Hd' Hne) as (_ & _ & a' & ra' & _ & _ & _ & _ & Hra & ->).
    eauto.
Qed.

(** The run of a pass of the attempt loop whose propagation succeeds. *)
Lemma attempt_pass_run (cur retries : nat) (st st' : WFC) (t : TileData)
    (ty : option string) (r2 : Random) :
  tiles st !! cur = Some (Some t) -> retries <> 0 ->
  pickOneWeighted (availableTiles t) (weighting st) (rnd st) = (ty, r2) ->
  _setEntropyOfSurroundingTiles (index t) (resolve cur ty (set_rnd r2 st)) = (Ok tt, st') ->
  some_undefined_type st' = false ->
  attempt_pass cur retries [] st
  = (Ok (if _getNumberOfRemainingTilesToCollapse st' =? 0 then Return else Yield), st').
Proof.
  intros Ht Hr Ew Ep Hty. unfold attempt_pass. rewrite bind_eq. unfold try_catch.
  rewrite bind_eq. unfold attempt_try. destruct (Nat.leb_spec retries 0) as [Hle | _]; [lia |].
  rewrite bind_eq, (tile_at_Some cur t st Ht). rewrite bind_eq. cbn [gets find].
  rewrite filter_all, bind_eq, with_rnd_eq, Ew. cbn [fst snd].
  rewrite bind_eq, (update_tile_Some cur _ t (set_rnd r2 st) Ht).
  rewrite bind_eq.
  erewrite (update_tile_Some cur _ (with_type ty t));
    [| cbn; rewrite list_lookup_alter_eq, Ht; reflexivity].
  rewrite bind_eq.
  change (set_tiles _ (set_tiles _ (set_rnd r2 st))) with (resolve cur ty (set_rnd r2 st)).
  rewrite Ep. cbn [ret fst]. rewrite bind_eq. cbn [gets].
  destruct (_getNumberOfRemainingTilesToCollapse st' =? 0); [reflexivity |].
  rewrite bind_eq. cbn [gets]. rewrite Hty. reflexivity.
Qed.

(** The run of a call of [next()] whose propagation succeeds. *)
Lemma collapseNext_run (fuel cur : nat) (st st' : WFC) (t : TileData)
    (ty : option string) (r1 r2 : Random) :
  pickOne (_getListofTilesWithLowestEntropy st) (rnd st) = (Some cur, r1) ->
  tiles st !! cur = Some (Some t) -> availableTiles t <> [] ->
  pickOneWeighted (availableTiles t) (weighting st) r1 = (ty, r2) ->
  _setEntropyOfSurroundingTiles (index t) (resolve cur ty (set_rnd r2 st)) = (Ok tt, st') ->
  some_undefined_type st' = false ->
  _collapseNext (S fuel) st
  = (Ok (Some (if _getNumberOfRemainingTilesToCollapse st' =? 0 then Returned else Yielded)),
     st').
Proof.
  intros Ep Ht Hne Ew Eprop Hty. cbn [_collapseNext]. rewrite bind_eq. cbn [gets].
  destruct (Nat.eqb_spec (length (_getListofTilesWithLowestEntropy st)) 0) as [E0 | _].
  { apply pickOne_In in Ep. destruct (_getListofTilesWithLowestEntropy st);
      [destruct Ep | discriminate]. }
  rewrite bind_eq, with_rnd_eq, Ep. cbn [fst snd].
  rewrite bind_eq, (tile_at_Some cur t (set_rnd r1 st) Ht).
  destruct (Nat.eqb_spec (length (availableTiles t)) 0) as [El | El].
  { destruct (availableTiles t); [congruence | discriminate]. }
  rewrite bind_eq.
  rewrite (attempt_pass_run cur _ (set_rnd r1 st) st' t ty r2 Ht El Ew Eprop Hty).
  destruct (_getNumberOfRemainingTilesToCollapse st' =? 0); reflexivity.
Qed.

Lemma Live_width (st : WFC) : Live st -> 0 < width st.
Proof.
  intros L. destruct (live_started st L) as (i & t & Hi & _).
  pose proof (lookup_lt_Some _ _ _ Hi) as Hlt.
  rewrite (live_rectangular st L) in Hlt. destruct (width st); [cbn in Hlt; lia | lia].
Qed.

Lemma Live_set_bufferstate (b : BufferState) (st : WFC) :
  Live st -> Live (set_bufferstate b st).
Proof.
  intros [H1 H2 H3 H4 H5 H6 H7 H8]. constructor.
  - exact H1.
  - exact H2.
  - exact (Inv_set_bufferstate b st H3).
  - exact H4.
  - exact H5.
  - exact H6.
  - exact H7.
  - exact H8.
Qed.

(** On a live grid with an unresolved tile, [next()] resolves a tile
    without an error and leaves a live grid. *)
Lemma collapseNext_live (fuel : nat) (st : WFC) :
  symmetric_rules (rules st) -> compatible (rules st) ->
  positive_weights (weighting st) -> short_lists (rules st) (weighting st) ->
  plain_lists (rules st) ->
  (Z.of_nat (length (tiles st)) < 2 ^ 21)%Z ->
  Live st -> _getNumberOfRemainingTilesToCollapse st <> 0 ->
  exists o st',
    _collapseNext (S fuel) st = (Ok (Some o), st') /\ Live st'
    /\ (o = Yielded -> _getNumberOfRemainingTilesToCollapse st' <> 0).
Proof.
  intros Hsym Hc Hpos Hshort Hplain Hlen L Hrem.
  pose proof (Live_width st L) as Hw.
  pose proof (compatible_nonempty _ Hc) as Hne.
  destruct L as [Hr Hh Hinv Htyped Hcur Hseed Htypes Hstart].
  (* the tile that is picked *)
  destruct (pickOne_Some (_getListofTilesWithLowestEntropy st) (rnd st) Hseed)
    as (cur & Ep & Hin).
  { pose proof (lowest_length st). lia. }
  { intros E. apply lowest_nil in E. contradiction. }
  apply lowest_spec in Hin as (t & Ht & Hz & Hmin).
  (* it has a resolved neighbour *)
  destruct (frontier st Hr Hh Hw Hstart) as (k & tk & Hk & Hzk & Hrn).
  { exists cur, t. split; assumption. }
  assert (Hfin : entropy t <> Infinity).
  { pose proof (proj2 (Hcur k tk Hk Hzk) Hrn) as Hk_fin.
    pose proof (Hmin k tk Hk Hzk) as Hle. intros E. rewrite E in Hle.
    destruct (entropy tk); [discriminate Hle | contradiction]. }
  pose proof (proj1 (Hcur cur t Ht Hz) Hfin) as Hrn_cur.
  pose proof (current_candidates st cur t Hc (inv_candidates _ Hinv) Ht Hz Hrn_cur) as Hav.
  (* the type that is drawn *)
  destruct (candidates_from_neighbour st cur t) as (d & n & tn & a & ra & p & _ & _ & _ & _ & Hra & Havp).
  { apply (inv_candidates _ Hinv). exists t. split; assumption. }
  { exact Ht. }
  { exact Hav. }
  destruct (pickOneWeighted_Some (availableTiles t) (weighting st) (snd (getRandom (rnd st))))
    as [x Ex].
  { apply getRandom_seed_nonneg. exact Hseed. }
  { rewrite Havp. apply (expansion_nonempty (rules st) _ a ra); try assumption.
    rewrite <- Havp. exact Hav. }
  { rewrite Havp. pose proof (flat_map_filter_length (weighted_items (weighting st)) p
                               (side (opposite d) ra)) as Hle.
    pose proof (Hshort a ra (opposite d) Hra). lia. }
  pose proof (pickOneWeighted_In _ _ _ _ _ Ex) as Hx.
  set (r2 := snd (getRandom (snd (getRandom (rnd st))))) in *.
  set (s0 := resolve cur (Some x) (set_rnd r2 st)).
  assert (Hidx : index t = cur) by exact (inv_indexed _ Hinv cur t Ht).
  assert (Htyped0 : typed s0).
  { apply (step_typed (set_rnd r2 st) s0 cur t x Hsym (inv_candidates _ Hinv)
             (or_introl Htyped) Ht Hz Hx). apply skel_refl. }
  (* the propagation *)
  destruct (propagation_total (index t) s0) as [st' Eprop].
  { apply rectangular_resolve. exact Hr. }
  { apply hole_free_resolve. exact Hh. }
  { exact Htyped0. }
  { exact Hc. }
  { rewrite Hidx. unfold s0. rewrite resolve_length. eapply lookup_lt_Some. exact Ht. }
  pose proof (propagate_spec _ _ _ _ Eprop) as [[K _] _].
  assert (Htypes' : some_undefined_type st' = false).
  { apply (types_skel s0 st' K). apply types_resolve. exact Htypes. }
  assert (Ep' : pickOne (_getListofTilesWithLowestEntropy st) (rnd st)
                = (Some cur, snd (getRandom (rnd st)))) by exact Ep.
  pose proof (collapseNext_run fuel cur st st' t (Some x) _ r2 Ep' Ht Hav Ex Eprop Htypes')
    as Erun.
  eexists _, st'. split; [exact Erun |].
  pose proof (keeps_collapseNext (S fuel) st) as F. rewrite Erun in F. cbn [snd] in F.
  destruct F as (Fw & Fh & _ & _ & _ & _ & _).
  destruct (resolve_propagate_Inv (set_rnd r2 st) st' cur t (Some x) Hw Hsym Hne
              (Inv_set_rnd r2 st Hinv) Ht Hz) as (Hinv' & _ & _).
  { intros y Hy. injection Hy as <-. exact Hx. }
  { exact Eprop. }
  split; [constructor |].
  - unfold rectangular. rewrite (skel_length _ _ K), Fw, Fh. unfold s0.
    rewrite resolve_length. exact Hr.
  - apply (hole_free_skel s0 st' K). apply hole_free_resolve. exact Hh.
  - exact Hinv'.
  - exact (typed_skel s0 st' K Htyped0).
  - apply (step_entropies (set_rnd r2 st) st' cur t (Some x) Hw Hne (inv_indexed _ Hinv)
             Hcur Ht Hz Eprop).
  - pose proof (rnd_propagation (index t) s0) as Hrnd. rewrite Eprop in Hrnd.
    cbn [snd] in Hrnd. rewrite Hrnd. unfold s0, r2. cbn [rnd resolve set_tiles set_rnd].
    apply getRandom_seed_nonneg, getRandom_seed_nonneg, Hseed.
  - exact Htypes'.
  - exists cur, (mkTile (index t) (Some x) (Fin 0) (availableTiles t)).
    split; [| reflexivity].
    apply (skel_resolved s0 st' cur _ K); [| reflexivity].
    exact (resolve_lookup_eq cur (Some x) (set_rnd r2 st) t Ht).
  - destruct (Nat.eqb_spec (_getNumberOfRemainingTilesToCollapse st') 0); [discriminate |].
    intros _. assumption.
Qed.

(** On a live grid the loop of steps ends without an error. *)
Lemma step_loop_live (fuel : nat) (st : WFC) :
  symmetric_rules (rules st) -> compatible (rules st) ->
  positive_weights (weighting st) -> short_lists (rules st) (weighting st) ->
  plain_lists (rules st) ->
  (Z.of_nat (length (tiles st)) < 2 ^ 21)%Z ->
  Live st -> _getNumberOfRemainingTilesToCollapse st <> 0 ->
  _getNumberOfRemainingTilesToCollapse st < fuel ->
  exists st', step_loop fuel st = Some ([], st').
Proof.
  revert st.
  induction fuel as [| fuel IH]; intros st Hsym Hc Hpos Hshort Hplain Hlen L Hrem Hlt;
    [lia |].
  cbn [step_loop].
  destruct (collapseNext_live fuel st Hsym Hc Hpos Hshort Hplain Hlen L Hrem)
    as (o & st' & E & L' & Ho).
  rewrite E.
  pose proof (keeps_collapseNext (S fuel) st) as F. rewrite E in F. cbn [snd] in F.
  destruct F as (_ & _ & _ & Fr & Fwt & _ & _).
  destruct (collapseNext_progress fuel st st' _ E) as (_ & Hdec & Hlen').
  destruct o; [| eauto].
  apply IH; try assumption.
  - rewrite Fr. exact Hsym.
  - rewrite Fr. exact Hc.
  - rewrite Fwt. exact Hpos.
  - rewrite Fr, Fwt. exact Hshort.
  - rewrite Fr. exact Hplain.
  - rewrite Hlen'. exact Hlen.
  - exact (Ho eq_refl).
  - lia.
Qed.

(** *** The whole run *)

Lemma random_start_seed (st st' : WFC) :
  (0 <= seed (rnd st))%Z -> random_start st = (Ok tt, st') -> (0 <= seed (rnd st'))%Z.
Proof.
  intros Hseed. unfold random_start. rewrite bind_eq. cbn [gets].
  destruct (startWithRandom st); [| unfold ret; intros H; simplify_eq; exact Hseed].
  rewrite bind_eq. cbn [gets]. rewrite bind_eq, with_rnd_eq, pickOne_unfold. cbn [fst snd].
  destruct (js_get (tile_refs (tiles st)) _) as [[first |] |];
    cbn [mjoin option_join option_bind mbind]; try (unfold throw; discriminate).
  rewrite bind_eq. cbn [gets]. rewrite bind_eq, with_rnd_eq, pickOne_unfold. cbn [fst snd].
  intros H.
  pose proof (rnd_bind _ _ (rnd_update_tile first (with_type
     (js_get (obj_keys (rules (set_rnd (snd (getRandom (rnd st))) st)))
        (Double.floor_mul (fst (getRandom (rnd (set_rnd (snd (getRandom (rnd st))) st))))
           (length (obj_keys (rules (set_rnd (snd (getRandom (rnd st))) st))))))))
     (fun _ => rnd_update_tile first (with_entropy (Fin 0)))) as Hk.
  specialize (Hk (set_rnd (snd (getRandom (rnd (set_rnd (snd (getRandom (rnd st))) st))))
                    (set_rnd (snd (getRandom (rnd st))) st))).
  rewrite H in Hk. cbn [snd rnd set_rnd] in Hk. rewrite Hk.
  apply getRandom_seed_nonneg, getRandom_seed_nonneg, Hseed.
Qed.

Lemma started_typed (st : WFC) (first : nat) (ty : string) (r : Random) :
  fresh st -> In ty (obj_keys (rules st)) ->
  typed (resolve first (Some ty) (set_rnd r st)).
Proof.
  intros Hf Hty i t Hi Hz.
  destruct (decide (i = first)) as [-> | Hne].
  - destruct (tiles st !! first) as [[t0 |] |] eqn:Ht0.
    + rewrite (resolve_lookup_eq first (Some ty) (set_rnd r st) t0 Ht0) in Hi.
      injection Hi as <-. cbn [type rules resolve set_tiles set_rnd].
      destruct (obj_get (rules st) ty) as [rule |] eqn:Hr; [eauto |].
      apply obj_get_keys in Hr. contradiction.
    + unfold resolve in Hi. cbn [tiles set_tiles set_rnd] in Hi.
      rewrite !list_lookup_alter_eq, Ht0 in Hi. discriminate.
    + unfold resolve in Hi. cbn [tiles set_tiles set_rnd] in Hi.
      rewrite !list_lookup_alter_eq, Ht0 in Hi. discriminate.
  - rewrite resolve_lookup_ne in Hi by exact Hne.
    destruct (Hf i t Hi) as (_ & E & _). rewrite E in Hz. discriminate.
Qed.

(** The grid that the start and the preparation leave is live. *)
Lemma prepared_live (st st' : WFC) (first : nat) (ty : string) (r : Random) :
  fresh st -> hole_free (tiles st) -> rectangular st -> some_undefined_type st = false ->
  first < length (tiles st) -> In ty (obj_keys (rules st)) ->
  compatible (rules st) -> (0 <= seed r)%Z ->
  random_start st = (Ok tt, resolve first (Some ty) (set_rnd r st)) ->
  _prepareTileDataForCollapsing (resolve first (Some ty) (set_rnd r st)) = (Ok tt, st') ->
  Live st' /\ skel (resolve first (Some ty) (set_rnd r st)) st'.
Proof.
  intros Hf Hh Hr Htypes Hfirst Hty Hc Hseed Es Ep.
  set (s1 := resolve first (Some ty) (set_rnd r st)) in *.
  destruct (Hh first Hfirst) as [t0 Ht0].
  assert (Hw : 0 < width st).
  { unfold rectangular in Hr. rewrite Hr in Hfirst. destruct (width st); [cbn in Hfirst; lia | lia]. }
  destruct (fresh_started st s1 Hf Es) as (Hidx & Hone & Hblank & Hw1 & Hr1).
  destruct (prepare_Inv s1 st' ltac:(rewrite Hw1; exact Hw) Hidx Hone Hblank Ep)
    as (Hinv & _ & _).
  pose proof (keeps_prepare s1) as F. rewrite Ep in F. cbn [snd] in F.
  destruct F as (Fw & Fh & _ & Fr & _).
  pose proof (rnd_bind _ _ (rnd_gets (fun st => length (tiles st)))
                (fun len => rnd_prepare_loop (seq 0 len)) s1) as Hrnd.
  change (rnd (snd (_prepareTileDataForCollapsing s1)) = rnd s1) in Hrnd.
  rewrite Ep in Hrnd. cbn [snd] in Hrnd.
  unfold _prepareTileDataForCollapsing in Ep. rewrite bind_eq in Ep. cbn [gets] in Ep.
  pose proof (prepare_loop_spec _ _ _ Ep) as [[K _] _].
  assert (Hfirst1 : tiles s1 !! first
                    = Some (Some (mkTile (index t0) (Some ty) (Fin 0) (availableTiles t0)))).
  { exact (resolve_lookup_eq first (Some ty) (set_rnd r st) t0 Ht0). }
  split; [constructor | exact K].
  - unfold rectangular. rewrite (skel_length _ _ K), Fw, Fh. unfold s1.
    rewrite resolve_length. exact Hr.
  - apply (hole_free_skel s1 st' K). apply hole_free_resolve. exact Hh.
  - exact Hinv.
  - apply (typed_skel s1 st' K). apply started_typed; assumption.
  - intros k t' Hk Hz.
    apply (prepare_loop_entropies (seq 0 (length (tiles s1))) s1 st'); try assumption.
    + apply compatible_nonempty. exact Hc.
    + apply NoDup_seq.
    + apply in_seq. pose proof (lookup_lt_Some _ _ _ Hk) as Hlt.
      pose proof (skel_length _ _ K) as Hlen. lia.
  - rewrite Hrnd. exact Hseed.
  - apply (types_skel s1 st' K). apply types_resolve. exact Htypes.
  - exists first, (mkTile (index t0) (Some ty) (Fin 0) (availableTiles t0)).
    split; [| reflexivity].
    apply (skel_resolved s1 st' first _ K Hfirst1). reflexivity.
Qed.

(** X30: rules that cannot contradict each other always give a level. On a
    full grid of at least two cells as construction leaves it, within the
    argument limit of the engine, with a random start, symmetric rules of
    which any lists have a type in common and none names an inherited
    property, positive weights, and tables and seed in the range of the
    generator, [generateLevel] is fulfilled, passes nothing to
    [console.error], and has resolved every tile. *)
Theorem compatible_rules_collapse (st : WFC) :
  fresh st -> hole_free (tiles st) -> rectangular st -> some_undefined_type st = false ->
  2 <= length (tiles st) -> startWithRandom st = true ->
  symmetric_rules (rules st) -> compatible (rules st) -> rules st <> [] ->
  positive_weights (weighting st) -> short_lists (rules st) (weighting st) ->
  plain_lists (rules st) ->
  (0 <= seed (rnd st))%Z -> within_argument_limit st ->
  (Z.of_nat (length (obj_keys (rules st))) < 2 ^ 21)%Z ->
  exists st', generateLevel st = Some (Ok [], st') /\ all_resolved st'.
Proof.
  intros Hf Hh Hr Htypes Hlen2 Hs Hsym Hc Hrules Hpos Hshort Hplain Hseed Hlim Hkeys.
  assert (Hlen : (Z.of_nat (length (tiles st)) < 2 ^ 21)%Z)
    by (unfold within_argument_limit in Hlim; lia).
  assert (Htiles : tiles st <> []) by (intros E; rewrite E in Hlen2; cbn in Hlen2; lia).
  pose proof (compatible_nonempty _ Hc) as Hne.
  destruct (random_start_hole_free (set_bufferstate ready st) Hs Hh Htiles Hrules Hseed
              Hlen Hkeys) as (first & ty & r & Hfirst & Hty & Es).
  pose proof (random_start_seed (set_bufferstate ready st) _ Hseed Es) as Hseed1.
  change (0 <= seed r)%Z in Hseed1.
  remember (resolve first (Some ty) (set_rnd r (set_bufferstate ready st))) as s1 eqn:Es1.
  assert (Hlen1 : length (tiles s1) = length (tiles st))
    by (rewrite Es1; exact (resolve_length first (Some ty) (set_rnd r (set_bufferstate ready st)))).
  assert (Hrules1 : rules s1 = rules st) by (rewrite Es1; reflexivity).
  assert (Hweights1 : weighting s1 = weighting st) by (rewrite Es1; reflexivity).
  (* the preparation *)
  destruct (prepare_loop_total (seq 0 (length (tiles s1))) s1) as [s2 Eloop].
  { rewrite Es1. apply rectangular_resolve. exact Hr. }
  { rewrite Es1. apply hole_free_resolve. exact Hh. }
  { rewrite Es1. apply started_typed; assumption. }
  { rewrite Hrules1. exact Hc. }
  { intros k Hk. apply in_seq in Hk. lia. }
  assert (Ep : _prepareTileDataForCollapsing s1 = (Ok tt, s2)).
  { unfold _prepareTileDataForCollapsing. rewrite bind_eq. cbn [gets]. exact Eloop. }
  pose proof Ep as Ep'. pose proof Es as Es'. rewrite Es1 in Ep', Es'.
  destruct (prepared_live (set_bufferstate ready st) s2 first ty r Hf Hh Hr Htypes Hfirst
              Hty Hc Hseed1 Es' Ep') as [L K].
  rewrite <- Es1 in K. clear Ep' Es'.
  (* an unresolved tile is left *)
  assert (Hrem : _getNumberOfRemainingTilesToCollapse s2 <> 0).
  { intros E0. apply remaining_zero in E0.
    assert (Hj : exists j, j < length (tiles st) /\ j <> first).
    { destruct first as [| first]; [exists 1 | exists 0]; split; lia. }
    destruct Hj as (j & Hj & Hjf). destruct (Hh j Hj) as [tj Htj].
    destruct (Hf j tj Htj) as (_ & Einf & _).
    assert (Hj1 : tiles s1 !! j = Some (Some tj)).
    { rewrite Es1, resolve_lookup_ne by exact Hjf. exact Htj. }
    destruct (skel_lookup _ _ j tj K Hj1) as (t' & Ht' & _ & _ & Ez & _).
    rewrite (E0 j t' Ht'), Einf in Ez. discriminate. }
  (* the steps *)
  destruct (step_loop_live (S (length (tiles st))) (set_bufferstate collapsing s2))
    as [s3 El].
  { change (symmetric_rules (rules s2)). rewrite (skel_rules _ _ K), Hrules1. exact Hsym. }
  { change (compatible (rules s2)). rewrite (skel_rules _ _ K), Hrules1. exact Hc. }
  { change (positive_weights (weighting s2)).
    rewrite (skel_weighting _ _ K), Hweights1. exact Hpos. }
  { change (short_lists (rules s2) (weighting s2)).
    rewrite (skel_rules _ _ K), (skel_weighting _ _ K), Hrules1, Hweights1. exact Hshort. }
  { change (plain_lists (rules s2)). rewrite (skel_rules _ _ K), Hrules1. exact Hplain. }
  { change (Z.of_nat (length (tiles s2)) < 2 ^ 21)%Z.
    rewrite (skel_length _ _ K), Hlen1. exact Hlen. }
  { apply Live_set_bufferstate. exact L. }
  { exact Hrem. }
  { change (_getNumberOfRemainingTilesToCollapse s2 < S (length (tiles st))).
    rewrite remaining_count. pose proof (count_le_length (tiles s2)) as Hle.
    rewrite (skel_length _ _ K), Hlen1 in Hle. lia. }
  exists (set_bufferstate collapsed s3). split.
  - unfold generateLevel, generateLevel_fuel. cbv zeta.
    change (bufferstate (set_bufferstate (_isDataReady st) st)) with (_isDataReady st).
    rewrite (isDataReady_ready st Htiles Hrules), bind_eq, Es, Ep, El. reflexivity.
  - destruct (step_loop_Inv _ _ _ (Live_width _ (Live_set_bufferstate collapsing s2 L))
                ltac:(change (symmetric_rules (rules s2));
                      rewrite (skel_rules _ _ K), Hrules1; exact Hsym)
                ltac:(change (lists_nonempty (rules s2));
                      rewrite (skel_rules _ _ K), Hrules1; exact Hne)
                (live_Inv _ (Live_set_bufferstate collapsing s2 L)) El) as (_ & _ & E0).
    exact (remaining_zero s3 E0).
Qed.

Lemma meadow_fresh : fresh Cases.meadow.
Proof.
  intros i t H. change (tiles Cases.meadow) with (blank_tiles 6) in H.
  destruct i as [| [| [| [| [| [| i]]]]]]; cbn in H; unfold blank_tile in H; simplify_eq;
    repeat split.
Qed.

Lemma meadow_hole_free : hole_free (tiles Cases.meadow).
Proof.
  intros i Hi. change (tiles Cases.meadow) with (blank_tiles 6) in *.
  destruct i as [| [| [| [| [| [| i]]]]]]; cbn in *; eauto; lia.
Qed.

Lemma meadow_rule (a : string) (ra : Rule) :
  obj_get (rules Cases.meadow) a = Some ra ->
  (a = "G" /\ ra = mkRule ["G"; "S"] ["G"; "S"] ["G"; "S"] ["G"; "S"])
  \/ (a = "W" /\ ra = mkRule ["W"; "S"] ["W"; "S"] ["W"; "S"] ["W"; "S"])
  \/ (a = "S" /\ ra = mkRule ["G"; "W"; "S"] ["G"; "W"; "S"] ["G"; "W"; "S"] ["G"; "W"; "S"]).
Proof.
  change (rules Cases.meadow)
    with [("G", mkRule ["G"; "S"] ["G"; "S"] ["G"; "S"] ["G"; "S"]);
          ("W", mkRule ["W"; "S"] ["W"; "S"] ["W"; "S"] ["W"; "S"]);
          ("S", mkRule ["G"; "W"; "S"] ["G"; "W"; "S"] ["G"; "W"; "S"] ["G"; "W"; "S"])].
  cbn [obj_get]. intros Ha.
  destruct (String.eqb_spec "G" a) as [<- | _]; [left; split; congruence |].
  destruct (String.eqb_spec "W" a) as [<- | _]; [right; left; split; congruence |].
  destruct (String.eqb_spec "S" a) as [<- | _]; [right; right; split; congruence |].
  discriminate.
Qed.

Lemma meadow_symmetric : symmetric_rules (rules Cases.meadow).
Proof.
  intros a ra d b Ha Hb.
  destruct (meadow_rule a ra Ha) as [[-> ->] | [[-> ->] | [-> ->]]];
    destruct d; cbn in Hb; apply list_elem_of_In in Hb; cbn in Hb;
    repeat (destruct Hb as [<- | Hb]); try destruct Hb;
    eexists; (split; [reflexivity |]); apply list_elem_of_In; cbn; auto.
Qed.

Lemma meadow_compatible : compatible (rules Cases.meadow).
Proof.
  intros ls Hls Hall.
  assert (HS : "S" ∈ intersection ls).
  { apply intersection_elem_of. split; [exact Hls |].
    eapply Forall_impl; [exact Hall |]. intros l (a & ra & d & Ha & ->).
    destruct (meadow_rule a ra Ha) as [[-> ->] | [[-> ->] | [-> ->]]];
      destruct d; apply list_elem_of_In; cbn; auto. }
  intros E. rewrite E in HS. apply elem_of_nil in HS. exact HS.
Qed.

Lemma meadow_short_lists : short_lists (rules Cases.meadow) (weighting Cases.meadow).
Proof.
  intros a ra d Ha.
  destruct (meadow_rule a ra Ha) as [[-> ->] | [[-> ->] | [-> ->]]];
    destruct d; vm_compute; reflexivity.
Qed.

Lemma meadow_plain_lists : plain_lists (rules Cases.meadow).
Proof.
  intros a ra d x Ha Hx.
  destruct (meadow_rule a ra Ha) as [[-> ->] | [[-> ->] | [-> ->]]];
    destruct d; cbn in Hx; repeat (destruct Hx as [<- | Hx]); try destruct Hx; reflexivity.
Qed.

Lemma compatible_rules_collapse_witness :
  exists st', generateLevel Cases.meadow = Some (Ok [], st') /\ all_resolved st'.
Proof.
  apply (compatible_rules_collapse Cases.meadow).
  - exact meadow_fresh.
  - exact meadow_hole_free.
  - reflexivity.
  - reflexivity.
  - vm_compute. lia.
  - reflexivity.
  - exact meadow_symmetric.
  - exact meadow_compatible.
  - discriminate.
  - intros ty n H. discriminate H.
  - exact meadow_short_lists.
  - exact meadow_plain_lists.
  - vm_compute. discriminate.
  - vm_compute. reflexivity.
  - vm_compute. reflexivity.
Defined.

(** ** An error in the step loop *)

(** The [break] of the attempt loop is never taken, so a call of [next()]
    does not depend on the fuel it is given. *)
Lemma collapseNext_fuel (fuel : nat) (st : WFC) :
  _collapseNext (S fuel) st = _collapseNext 1 st.
Proof.
  cbn [_collapseNext]. rewrite !bind_eq. cbn [gets].
  destruct (length (_getListofTilesWithLowestEntropy st) =? 0); [reflexivity |].
  rewrite !bind_eq, with_rnd_eq.
  destruct (pickOne (_getListofTilesWithLowestEntropy st) (rnd st)) as [[cur |] r1];
    cbn [fst snd]; [| reflexivity].
  rewrite !bind_eq.
  destruct (tile_at cur (set_rnd r1 st)) as [[t | e] s0] eqn:Et; [| reflexivity].
  assert (Ht : tiles s0 !! cur = Some (Some t) /\ s0 = set_rnd r1 st).
  { unfold tile_at in Et. destruct (tiles (set_rnd r1 st) !! cur) as [[t0 |] |] eqn:E0;
      simplify_eq. split; [exact E0 | reflexivity]. }
  destruct Ht as [Ht ->].
  destruct (Nat.eqb_spec (length (availableTiles t)) 0) as [El | El]; [reflexivity |].
  rewrite !bind_eq.
  destruct (attempt_pass cur (length (availableTiles t)) [] (set_rnd r1 st))
    as [[flow | e] s] eqn:Ea; [| reflexivity].
  destruct (attempt_pass_Ok cur _ (set_rnd r1 st) s flow t Ht El Ea)
    as (_ & _ & _ & _ & [[-> _] | [-> _]]); reflexivity.
Qed.

Lemma yielded_spec (fuel n : nat) (st st' : WFC) :
  yielded fuel n st = Some st' ->
  same_frame st st'
  /\ _getNumberOfRemainingTilesToCollapse st' + n = _getNumberOfRemainingTilesToCollapse st.
Proof.
  revert st. induction n as [| n IH]; intros st; cbn [yielded].
  { intros H. injection H as <-. split; [apply same_frame_refl | lia]. }
  pose proof (keeps_collapseNext fuel st) as F.
  destruct (_collapseNext fuel st) as [[[[] |] | e] s1] eqn:E; try discriminate.
  intros H. destruct (IH s1 H) as [F1 Hn]. cbn [snd] in F.
  split; [exact (same_frame_trans _ _ _ F F1) |].
  destruct fuel as [| fuel]; [cbn in E; unfold ret in E; discriminate |].
  destruct (collapseNext_progress fuel st s1 _ E) as (_ & Hdec & _). lia.
Qed.

(** With fuel for every tile that is left, the loop of [generateLevel]
    goes through the steps that yield and ends at the step that throws. *)
Lemma step_loop_yielded (F fuel n : nat) (st s s' : WFC) (e : Error) :
  yielded fuel n st = Some s -> _collapseNext fuel s = (Throw e, s') ->
  _getNumberOfRemainingTilesToCollapse st < F ->
  step_loop F st = Some ([e], s').
Proof.
  intros Hy Ht. destruct fuel as [| fuel]; [cbn in Ht; unfold ret in Ht; discriminate |].
  revert F st Hy. induction n as [| n IH]; intros F st Hy HF.
  - cbn [yielded] in Hy. injection Hy as ->.
    destruct F as [| F]; [lia |]. cbn [step_loop].
    rewrite collapseNext_fuel, <- (collapseNext_fuel fuel), Ht. reflexivity.
  - cbn [yielded] in Hy.
    destruct (_collapseNext (S fuel) st) as [[[[] |] | e0] s1] eqn:E; try discriminate.
    destruct (collapseNext_progress fuel st s1 _ E) as (_ & Hdec & _).
    destruct F as [| F]; [lia |]. cbn [step_loop].
    rewrite collapseNext_fuel, <- (collapseNext_fuel fuel), E.
    apply (IH F s1 Hy). lia.
Qed.

Lemma getTileData_framed (st st' : WFC) (i : nat) :
  indexed st -> hole_free (tiles st) -> same_frame st st' ->
  bufferstate st' = collapsed -> i < length (tiles st) ->
  exists t, tiles st' !! i = Some (Some t) /\ index t = i
            /\ getTileData i st' = (Ok t, st').
Proof.
  intros Hi Hf Hfr Hc Hlt.
  pose proof (same_frame_indexed _ _ Hfr Hi) as Hi'.
  destruct Hfr as (_ & _ & _ & _ & _ & _ & Hidx).
  pose proof (indices_hole_free _ _ Hidx Hf) as Hf'.
  destruct (indices_lookup _ _ i Hidx) as [_ Hlen].
  rewrite (getTileData_collapsed i st' Hc).
  rewrite (find_index_indexed (tiles st') 0 i st' Hf') by (auto with arith).
  rewrite Nat.sub_0_r. destruct (Hf' i) as [t Ht]; [lia |]. rewrite Ht.
  exists t. repeat split. exact (Hi' i t Ht).
Qed.

(** C2 (amended): when a call of [next()] throws, after any number of
    calls that yielded, [generateLevel] catches the error, passes it to
    [console.error] and stops the loop; the promise is fulfilled and the
    buffer state is [collapsed], as after a clean run. A later
    [getTileData] does not fail on the buffer state: on a grid that had no
    hole and whose tiles carried their positions it returns the tile at
    the position asked for, resolved or not. *)
Theorem step_error_leaves_collapsed (st s1 s s' : WFC) (fuel n : nat) (e : Error) :
  _isDataReady st = ready ->
  (random_start ;; _prepareTileDataForCollapsing) (set_bufferstate ready st) = (Ok tt, s1) ->
  yielded fuel n (set_bufferstate collapsing s1) = Some s ->
  _collapseNext fuel s = (Throw e, s') ->
  generateLevel st = Some (Ok [e], set_bufferstate collapsed s')
  /\ (indexed st -> hole_free (tiles st) ->
      forall i, i < length (tiles st) ->
        exists t, tiles s' !! i = Some (Some t) /\ index t = i
          /\ getTileData i (set_bufferstate collapsed s')
             = (Ok t, set_bufferstate collapsed s')).
Proof.
  intros Hready Hprep Hy Ht.
  assert (Hk : same_frame (set_bufferstate ready st) s1).
  { assert (K : keeps (random_start;; _prepareTileDataForCollapsing)).
    { apply keeps_bind; [apply keeps_random_start | intros _; apply keeps_prepare]. }
    specialize (K (set_bufferstate ready st)). rewrite Hprep in K. exact K. }
  assert (Hlen : length (tiles s1) = length (tiles st)).
  { destruct Hk as (_ & _ & _ & _ & _ & _ & Hidx).
    exact (proj2 (indices_lookup _ _ 0 Hidx)). }
  assert (El : step_loop (S (length (tiles st))) (set_bufferstate collapsing s1)
               = Some ([e], s')).
  { apply (step_loop_yielded _ fuel n _ s s' e Hy Ht).
    rewrite remaining_count. pose proof (count_le_length (tiles s1)) as Hle.
    cbn [tiles set_bufferstate]. lia. }
  assert (Eg : generateLevel st = Some (Ok [e], set_bufferstate collapsed s')).
  { unfold generateLevel, generateLevel_fuel. cbv zeta.
    change (bufferstate (set_bufferstate (_isDataReady st) st)) with (_isDataReady st).
    rewrite Hready, Hprep, El. reflexivity. }
  split; [exact Eg |].
  intros Hi Hf i Hlt.
  destruct (getTileData_framed st (set_bufferstate collapsed s') i Hi Hf
              (generateLevel_frame_aux _ _ _ Eg) eq_refl Hlt) as (t & H1 & H2 & H3).
  exists t. auto.
Qed.

Lemma step_error_leaves_collapsed_witness :
  generateLevel Sample.corner
  = Some (Ok [FailedToCollapseTile],
          set_bufferstate collapsed (snd (_collapseNext 1 Sample.corner_second_step)))
  /\ (indexed Sample.corner -> hole_free (tiles Sample.corner) ->
      forall i, i < length (tiles Sample.corner) ->
        exists t, tiles (snd (_collapseNext 1 Sample.corner_second_step)) !! i = Some (Some t)
          /\ index t = i
          /\ getTileData i
               (set_bufferstate collapsed (snd (_collapseNext 1 Sample.corner_second_step)))
             = (Ok t, set_bufferstate collapsed
                        (snd (_collapseNext 1 Sample.corner_second_step)))).
Proof.
  apply (step_error_leaves_collapsed Sample.corner
           (snd ((random_start ;; _prepareTileDataForCollapsing)
                   (set_bufferstate ready Sample.corner)))
           Sample.corner_second_step
           (snd (_collapseNext 1 Sample.corner_second_step)) 1 1 FailedToCollapseTile).
  - vm_compute. reflexivity.
  - vm_compute. reflexivity.
  - vm_compute. reflexivity.
  - vm_compute. reflexivity.
Defined.

(** ** What the outcome of a run depends on *)
























Lemma inputs_set_bufferstate (b : BufferState) (st : WFC) :
  run_inputs (set_bufferstate b st) = run_inputs st.
Proof. reflexivity. Qed.



(** C4, as the specification states it, fails for a second run on the same
    instance: no reset restores the generator, so after [resetTileData] the
    width, tiles, rules, weights and start flag are those of the first run,
    and the grid is another one. *)
Lemma second_run_differs :
  (width (resetTileData (Sample.after_run (Sample.checker 1))),
   tiles (resetTileData (Sample.after_run (Sample.checker 1))),
   rules (resetTileData (Sample.after_run (Sample.checker 1))),
   weighting (resetTileData (Sample.after_run (Sample.checker 1))),
   startWithRandom (resetTileData (Sample.after_run (Sample.checker 1))))
  = (width (Sample.checker 1), tiles (Sample.checker 1), rules (Sample.checker 1),
     weighting (Sample.checker 1), startWithRandom (Sample.checker 1))
  /\ resolved_grid (generateLevel (Sample.checker 1))
     = Some [Some "A"; Some "B"; Some "B"; Some "A"]
  /\ resolved_grid (generateLevel (resetTileData (Sample.after_run (Sample.checker 1))))
     = Some [Some "B"; Some "A"; Some "A"; Some "B"].
Proof. by_evaluation. Qed.

